(** * alistrename-toemby: a shallow embedding of [renamer.py]

    The development follows the layout of the program:

    - Python strings and the [str] methods the program calls;
    - the path algebra ([norm_path], [join_path], [split_path]) and
      [os.path.splitext] / [os.path.basename];
    - the regular expressions of the name parser, as syntax trees run by a
      backtracking matcher with the semantics of Python's [re];
    - the name parser and the canonical file name;
    - the similarity ratio;
    - the filesystem collaborator and the operations that go through it;
    - the variety planner, the undo and the resume ledgers.

    Definitions come first; the properties follow in the second half. *)

From Stdlib Require Import String Ascii.
From Stdlib Require Import ZArith QArith List Bool Lia Arith.
From Stdlib Require Import Permutation Sorted.
Import ListNotations.

Open Scope Z_scope.

(* ================================================================== *)
(** * Python strings *)
(* ================================================================== *)

(** A Python [str] is a sequence of Unicode code points. *)
Definition pystr := list Z.

(** An ASCII literal of the source, as code points. *)
Definition py (s : string) : pystr :=
  map (fun a => Z.of_N (N_of_ascii a)) (list_ascii_of_string s).

(** Code points the source names that have no ASCII literal here. *)
Definition BACKSLASH : Z := 92.
Definition DQUOTE : Z := 34.
Definition SLASH : Z := 47.
Definition DOT : Z := 46.
Definition SPACE : Z := 32.
Definition NBSP : Z := 160.          (* U+00A0 *)

Fixpoint str_eqb (a b : pystr) : bool :=
  match a, b with
  | [], [] => true
  | x :: a', y :: b' => (x =? y) && str_eqb a' b'
  | _, _ => false
  end.

(** [x in xs] for a list, tuple or set of strings. *)
Definition str_mem (x : pystr) (xs : list pystr) : bool :=
  existsb (str_eqb x) xs.

(** [c in chars] for one character. *)
Definition chr_mem (c : Z) (chars : pystr) : bool :=
  existsb (Z.eqb c) chars.

(** [s.startswith(pre)] *)
Fixpoint startswith (s pre : pystr) : bool :=
  match pre, s with
  | [], _ => true
  | a :: pre', b :: s' => (a =? b) && startswith s' pre'
  | _ :: _, [] => false
  end.

(** [s.endswith(suf)] *)
Definition endswith (s suf : pystr) : bool :=
  startswith (rev s) (rev suf).

(** [needle in s] for strings. *)
Fixpoint str_in (needle s : pystr) : bool :=
  startswith s needle ||
  match s with
  | [] => false
  | _ :: t => str_in needle t
  end.

(** [s.replace(old, new)]: the occurrences of [old] are replaced from the
    left, without overlap.  [skip] counts the characters of an occurrence
    still to drop.  (The program never replaces the empty string.) *)
Fixpoint replace_from (old new : pystr) (skip : nat) (s : pystr) : pystr :=
  match s with
  | [] => []
  | c :: t =>
      match skip with
      | S k => replace_from old new k t
      | O => if startswith s old
             then new ++ replace_from old new (Nat.pred (length old)) t
             else c :: replace_from old new O t
      end
  end.

Definition str_replace (s old new : pystr) : pystr :=
  replace_from old new O s.

(** [s.rfind(sep)]: the highest index where [sep] occurs, [-1] if none.
    The scan keeps the last index seen. *)
Fixpoint rfind_from (sep s : pystr) (i last : Z) : Z :=
  match s with
  | [] => if startswith [] sep then i else last
  | _ :: t => rfind_from sep t (i + 1) (if startswith s sep then i else last)
  end.

Definition rfind (s sep : pystr) : Z := rfind_from sep s 0 (-1).

(** [s[:i]] and [s[i:]] for [0 <= i]. *)
Definition slice_to (s : pystr) (i : Z) : pystr := firstn (Z.to_nat i) s.
Definition slice_from (s : pystr) (i : Z) : pystr := skipn (Z.to_nat i) s.

(** [s.rpartition(sep)] *)
Definition rpartition (s sep : pystr) : pystr * pystr * pystr :=
  let i := rfind s sep in
  if i <? 0 then ([], [], s)
  else (slice_to s i, sep, slice_from s (i + Z.of_nat (length sep))).

(** [str.isspace] / the regular expression class [\s] on [str] patterns:
    the Unicode white space characters. *)
Definition isspace (c : Z) : bool :=
  ((9 <=? c) && (c <=? 13)) || ((28 <=? c) && (c <=? 32))
  || (c =? 133) || (c =? 160) || (c =? 5760)
  || ((8192 <=? c) && (c <=? 8202))
  || (c =? 8232) || (c =? 8233) || (c =? 8239) || (c =? 8287)
  || (c =? 12288).

Fixpoint lstrip_by (f : Z -> bool) (s : pystr) : pystr :=
  match s with
  | [] => []
  | c :: t => if f c then lstrip_by f t else s
  end.

Definition rstrip_by (f : Z -> bool) (s : pystr) : pystr :=
  rev (lstrip_by f (rev s)).

Definition strip_by (f : Z -> bool) (s : pystr) : pystr :=
  rstrip_by f (lstrip_by f s).

(** [s.strip()] *)
Definition strip (s : pystr) : pystr := strip_by isspace s.

(** [s.strip(chars)] and [s.rstrip(chars)] *)
Definition strip_chars (s chars : pystr) : pystr :=
  strip_by (fun c => chr_mem c chars) s.
Definition rstrip_chars (s chars : pystr) : pystr :=
  rstrip_by (fun c => chr_mem c chars) s.

(** [" ".join(parts)] *)
Fixpoint str_join (sep : pystr) (parts : list pystr) : pystr :=
  match parts with
  | [] => []
  | [p] => p
  | p :: rest => p ++ sep ++ str_join sep rest
  end.

(* ================================================================== *)
(** * Path algebra (renamer.py, lines 70-93) *)
(* ================================================================== *)

Definition norm_path (p : pystr) : pystr :=
  match p with
  | [] => py "/"
  | _ =>
      let p := str_replace p [BACKSLASH] (py "/") in
      let p := if startswith p (py "/") then p else py "/" ++ p in
      let p := if negb (str_eqb p (py "/")) && endswith p (py "/")
               then removelast p else p in
      p
  end.

Definition join_path (dir_path name : pystr) : pystr :=
  let dir_path := norm_path dir_path in
  if str_eqb dir_path (py "/") then py "/" ++ name
  else dir_path ++ py "/" ++ name.

Definition split_path (p : pystr) : pystr * pystr :=
  let p := norm_path p in
  if str_eqb p (py "/") then (py "/", [])
  else
    let '(parent, _, base) := rpartition p (py "/") in
    (match parent with [] => py "/" | _ => parent end, base).

(** [os.path.splitext] (posixpath): the extension starts at the last dot of
    the last path component, leading dots of that component apart. *)
Fixpoint all_dots_between (p : pystr) (i : Z) (n : nat) : bool :=
  (* are p[i], ..., p[i+n-1] all dots? *)
  match n with
  | O => true
  | S n' =>
      match nth_error p (Z.to_nat i) with
      | Some c => (c =? DOT) && all_dots_between p (i + 1) n'
      | None => true
      end
  end.

Definition splitext (p : pystr) : pystr * pystr :=
  let sepIndex := rfind p [SLASH] in
  let dotIndex := rfind p [DOT] in
  if (sepIndex <? dotIndex)
     && negb (all_dots_between p (sepIndex + 1) (Z.to_nat (dotIndex - (sepIndex + 1))))
  then (slice_to p dotIndex, slice_from p dotIndex)
  else (p, []).

(** [os.path.basename] (posixpath) *)
Definition basename (p : pystr) : pystr :=
  slice_from p (rfind p [SLASH] + 1).


(* ================================================================== *)
(** * The Unicode tables behind [str] and [re] *)
(* ================================================================== *)

(** The program relies on three tables of the Python runtime that are no
    part of its source: which characters are decimal digits and their
    values ([\d], [int]), which are alphanumeric ([\w], [\b]), and the
    lower-case mapping ([str.lower]).  They are taken as an interface,
    with the facts the proofs use. *)
Class Unicode := {
  uni_decimal : Z -> option Z;
  uni_isalnum : Z -> bool;
  uni_lower : pystr -> pystr;
  uni_decimal_ascii :
    forall c, 0 <= c < 128 ->
      uni_decimal c = if (48 <=? c) && (c <=? 57) then Some (c - 48) else None;
  uni_decimal_bound :
    forall c d, uni_decimal c = Some d -> 0 <= d <= 9;
  uni_decimal_nonspace :
    forall c d, uni_decimal c = Some d -> isspace c = false;
  uni_decimal_alnum :
    forall c d, uni_decimal c = Some d -> uni_isalnum c = true
}.

(** A table for the characters of the examples: ASCII, and the CJK
    ideographs (U+4E00..U+9FFF), which are alphanumeric and uncased. *)
Definition ascii_decimal (c : Z) : option Z :=
  if (48 <=? c) && (c <=? 57) then Some (c - 48) else None.

Definition ascii_isalpha (c : Z) : bool :=
  ((65 <=? c) && (c <=? 90)) || ((97 <=? c) && (c <=? 122)).

Definition basic_isalnum (c : Z) : bool :=
  ascii_isalpha c || ((48 <=? c) && (c <=? 57))
  || ((19968 <=? c) && (c <=? 40959)).

Definition ascii_lower_chr (c : Z) : Z :=
  if (65 <=? c) && (c <=? 90) then c + 32 else c.

Definition basic_lower (s : pystr) : pystr := map ascii_lower_chr s.

#[export] Instance BasicUnicode : Unicode.
Proof.
  refine {| uni_decimal := ascii_decimal;
            uni_isalnum := basic_isalnum;
            uni_lower := basic_lower |}.
  - intros c _. reflexivity.
  - unfold ascii_decimal. intros c d H.
    destruct ((48 <=? c) && (c <=? 57)) eqn:E; [|discriminate].
    injection H as <-. lia.
  - unfold ascii_decimal, isspace. intros c d H.
    destruct ((48 <=? c) && (c <=? 57)) eqn:E; [|discriminate].
    lia.
  - unfold ascii_decimal, basic_isalnum. intros c d H.
    destruct ((48 <=? c) && (c <=? 57)) eqn:E; [|discriminate].
    now rewrite orb_true_r.
Defined.

Section WithUnicode.
Context {U : Unicode}.

(** [\d] *)
Definition isdecimal (c : Z) : bool :=
  match uni_decimal c with Some _ => true | None => false end.

(** [\w] *)
Definition isword (c : Z) : bool := uni_isalnum c || (c =? 95).

(** [int(s)] on a string of decimal digits; [None] stands for the
    [ValueError] on anything else.  (The program converts only what [\d]
    or [str.isdigit] accepted.) *)
Fixpoint int_digits (acc : Z) (s : pystr) : option Z :=
  match s with
  | [] => Some acc
  | c :: t =>
      match uni_decimal c with
      | Some d => int_digits (acc * 10 + d) t
      | None => None
      end
  end.

Definition py_int (s : pystr) : option Z :=
  match s with
  | [] => None
  | _ => int_digits 0 s
  end.

(** [s.isdigit()], on the strings the program tests: what a class of [\d]
    and CJK numerals matched, where a digit is a decimal digit. *)
Definition str_isdigit (s : pystr) : bool :=
  match s with
  | [] => false
  | _ => forallb isdecimal s
  end.

End WithUnicode.

(** [str(n)] for [0 <= n]: the decimal digits. *)
Fixpoint dec_digits (fuel : nat) (n : Z) (acc : pystr) : pystr :=
  match fuel with
  | O => acc
  | S f =>
      let acc' := (48 + n mod 10) :: acc in
      if n <? 10 then acc' else dec_digits f (n / 10) acc'
  end.

Definition str_of_nonneg (n : Z) : pystr :=
  dec_digits (S (Z.to_nat (Z.log2 n))) n [].

(** [str(n)] and [f"{n:02d}"] *)
Definition str_of_int (n : Z) : pystr :=
  if n <? 0 then py "-" ++ str_of_nonneg (- n) else str_of_nonneg n.

Definition fmt_02d (n : Z) : pystr :=
  if (0 <=? n) && (n <? 10) then py "0" ++ str_of_nonneg n else str_of_int n.

(* ================================================================== *)
(** * Regular expressions, as Python's [re] runs them on [str] *)
(* ================================================================== *)

(** Character sets: [[...]] and [[^...]] over literals, ranges and the
    classes; a literal or a class alone is a set of one item. *)
Inductive citem : Type :=
| IChr (c : Z)
| IRange (lo hi : Z)
| IDigit                       (* \d *)
| ISpace                       (* \s *)
| IWord                        (* \w *)
| IAny.                        (* . *)

Inductive cset : Type :=
| OneOf (l : list citem)       (* [...] *)
| NoneOf (l : list citem).     (* [^...] *)

Definition CChr (c : Z) : cset := OneOf [IChr c].
Definition CDigit : cset := OneOf [IDigit].
Definition CSpace : cset := OneOf [ISpace].
Definition CAny : cset := OneOf [IAny].

(** The pattern syntax the program uses.  Every starred item of its
    patterns is a character set. *)
Inductive regex : Type :=
| Eps
| Chr (cs : cset)
| Seq (a b : regex)
| Alt (a b : regex)
| Star (cs : cset)             (* cs*, greedy *)
| LazyStar (cs : cset)         (* cs*? *)
| Group (n : nat) (a : regex)  (* the n-th parenthesis *)
| Bol                          (* ^ *)
| Eol                          (* $ *)
| WordB                        (* \b *)
| Ahead (positive : bool) (a : regex)      (* (?=a) and (?!a) *)
| Behind (positive : bool) (cs : cset).    (* (?<=c) and (?<!c) *)

(** A compiled pattern: the syntax and the [(?i)] flag. *)
Record pattern : Type := Pattern { ignorecase : bool; body : regex }.

(** Derived forms. *)
Definition Plus (cs : cset) : regex := Seq (Chr cs) (Star cs).
Definition Opt (a : regex) : regex := Alt a Eps.

(** [a{lo,hi}], greedy: [lo] mandatory copies, then up to [extra] more. *)
Fixpoint RepOpt (extra : nat) (a : regex) : regex :=
  match extra with
  | O => Eps
  | S k => Opt (Seq a (RepOpt k a))
  end.

Fixpoint Rep (lo extra : nat) (a : regex) : regex :=
  match lo with
  | O => RepOpt extra a
  | S k => Seq a (Rep k extra a)
  end.

Fixpoint Seqs (l : list regex) : regex :=
  match l with
  | [] => Eps
  | [a] => a
  | a :: rest => Seq a (Seqs rest)
  end.

Fixpoint Alts (l : list regex) : regex :=
  match l with
  | [] => Eps
  | [a] => a
  | a :: rest => Alt a (Alts rest)
  end.

(** A literal string. *)
Definition Lit (s : string) : regex := Seqs (map (fun c => Chr (CChr c)) (py s)).
Definition LitC (s : pystr) : regex := Seqs (map (fun c => Chr (CChr c)) s).
(** One character of a string of alternatives, as in [[._-]]. *)
Definition chars (s : string) : list citem := map IChr (py s).

(** Case folding under [re.IGNORECASE] for the letters of the patterns,
    which are ASCII: upper and lower case match each other, and so do the
    four letters U+0130, U+0131 (with [i]), U+017F (with [s]) and U+212A
    (with [k]). *)
Definition ci_fold (x : Z) : Z :=
  if (65 <=? x) && (x <=? 90) then x + 32
  else if (x =? 304) || (x =? 305) then 105
  else if x =? 383 then 115
  else if x =? 8490 then 107
  else x.

(** The match position: index, the character before it and the text from
    it on. *)
Record cursor : Type := Cursor { pos : nat; prev : option Z; rest : pystr }.

Definition start_of (s : pystr) : cursor := Cursor 0 None s.

Definition advance (c : cursor) : cursor :=
  match rest c with
  | [] => c
  | x :: t => Cursor (S (pos c)) (Some x) t
  end.

(** Captured groups, latest first. *)
Definition caps := list (nat * pystr).

Fixpoint cap_get (g : caps) (n : nat) : option pystr :=
  match g with
  | [] => None
  | (m, s) :: g' => if Nat.eqb m n then Some s else cap_get g' n
  end.

Section Matcher.
Context {U : Unicode}.
Variable ci : bool.

Definition item_match (it : citem) (x : Z) : bool :=
  match it with
  | IChr c => if ci then ci_fold x =? ci_fold c else x =? c
  | IRange lo hi =>
      ((lo <=? x) && (x <=? hi))
      || (ci && (((lo <=? ci_fold x) && (ci_fold x <=? hi))
                 || ((97 <=? ci_fold x) && (ci_fold x <=? 122)
                     && (lo <=? ci_fold x - 32) && (ci_fold x - 32 <=? hi))))
  | IDigit => isdecimal x
  | ISpace => isspace x
  | IWord => isword x
  | IAny => negb (x =? 10)
  end.

Definition cs_match (cs : cset) (x : Z) : bool :=
  match cs with
  | OneOf l => existsb (fun it => item_match it x) l
  | NoneOf l => negb (existsb (fun it => item_match it x) l)
  end.

Definition isword_opt (o : option Z) : bool :=
  match o with Some x => isword x | None => false end.

Section Run.
Variable A : Type.

(** [cs*], the longest run first. *)
Fixpoint star_greedy (cs : cset) (i : nat) (pv : option Z) (s : pystr)
    (k : cursor -> option A) : option A :=
  match s with
  | x :: t =>
      if cs_match cs x then
        match star_greedy cs (S i) (Some x) t k with
        | Some r => Some r
        | None => k (Cursor i pv s)
        end
      else k (Cursor i pv s)
  | [] => k (Cursor i pv s)
  end.

(** [cs*?], the shortest run first. *)
Fixpoint star_lazy (cs : cset) (i : nat) (pv : option Z) (s : pystr)
    (k : cursor -> option A) : option A :=
  match k (Cursor i pv s) with
  | Some r => Some r
  | None =>
      match s with
      | x :: t => if cs_match cs x then star_lazy cs (S i) (Some x) t k else None
      | [] => None
      end
  end.

End Run.

(** The backtracking matcher, in continuation-passing style: [k] is what
    remains to be matched after [r]. *)
Fixpoint mt (A : Type) (r : regex) (c : cursor) (g : caps)
    (k : cursor -> caps -> option A) {struct r} : option A :=
  match r with
  | Eps => k c g
  | Chr cs =>
      match rest c with
      | x :: _ => if cs_match cs x then k (advance c) g else None
      | [] => None
      end
  | Seq a b => mt A a c g (fun c' g' => mt A b c' g' k)
  | Alt a b =>
      match mt A a c g k with
      | Some x => Some x
      | None => mt A b c g k
      end
  | Star cs => star_greedy A cs (pos c) (prev c) (rest c) (fun c' => k c' g)
  | LazyStar cs => star_lazy A cs (pos c) (prev c) (rest c) (fun c' => k c' g)
  | Group n a =>
      mt A a c g
        (fun c' g' => k c' ((n, firstn (pos c' - pos c) (rest c)) :: g'))
  | Bol => if Nat.eqb (pos c) 0 then k c g else None
  | Eol =>
      match rest c with
      | [] => k c g
      | [x] => if x =? 10 then k c g else None
      | _ => None
      end
  | WordB =>
      if xorb (isword_opt (prev c)) (isword_opt (hd_error (rest c)))
      then k c g else None
  | Ahead positive a =>
      match mt unit a c g (fun _ _ => Some tt) with
      | Some _ => if positive then k c g else None
      | None => if positive then None else k c g
      end
  | Behind positive cs =>
      let hit := match prev c with Some x => cs_match cs x | None => false end in
      if Bool.eqb hit positive then k c g else None
  end.

End Matcher.

(** A match object: where it starts and ends, and its groups. *)
Record rmatch : Type := RMatch { m_start : nat; m_end : nat; m_groups : caps }.

Section Re.
Context {U : Unicode}.

(** The match that starts at the cursor, if any. *)
Definition match_here (p : pattern) (c : cursor) : option rmatch :=
  mt (ignorecase p) rmatch (body p) c []
     (fun c' g => Some (RMatch (pos c) (pos c') g)).

(** [re.search]: the first position with a match. *)
Fixpoint search_from (p : pattern) (i : nat) (pv : option Z) (s : pystr)
   : option rmatch :=
  match match_here p (Cursor i pv s) with
  | Some m => Some m
  | None =>
      match s with
      | [] => None
      | x :: t => search_from p (S i) (Some x) t
      end
  end.

Definition re_search (p : pattern) (s : pystr) : option rmatch :=
  search_from p 0 None s.

(** [re.match]: a match at the start. *)
Definition re_match (p : pattern) (s : pystr) : option rmatch :=
  match_here p (start_of s).

(** [bool(re.search(p, s))] *)
Definition re_found (p : pattern) (s : pystr) : bool :=
  match re_search p s with Some _ => true | None => false end.

(** [m.group(n)] of a match in [s]; group 0 is the whole match. *)
Definition group (s : pystr) (m : rmatch) (n : nat) : pystr :=
  match n with
  | O => firstn (m_end m - m_start m) (skipn (m_start m) s)
  | _ => match cap_get (m_groups m) n with Some t => t | None => [] end
  end.

(** [re.sub(p, repl, s)] for a constant replacement: the text is scanned
    from the left; where a match starts it is replaced and the scan goes
    on after it ([skip] counts its characters still to drop).  No pattern
    the program substitutes matches the empty string. *)
Fixpoint sub_scan (p : pattern) (repl : pystr) (skip i : nat) (pv : option Z)
    (s : pystr) : pystr :=
  match s with
  | [] => []
  | x :: t =>
      match skip with
      | S k => sub_scan p repl k (S i) (Some x) t
      | O =>
          match match_here p (Cursor i pv s) with
          | Some m =>
              if Nat.ltb i (m_end m)
              then repl ++ sub_scan p repl (m_end m - S i) (S i) (Some x) t
              else repl ++ x :: sub_scan p repl O (S i) (Some x) t
          | None => x :: sub_scan p repl O (S i) (Some x) t
          end
      end
  end.

Definition re_sub (p : pattern) (repl s : pystr) : pystr :=
  sub_scan p repl O O None s.

(** [re.findall(p, s)] for a pattern with one group: the text of the group
    in each match, from the left, without overlap. *)
Fixpoint findall_scan (p : pattern) (skip i : nat) (pv : option Z) (s : pystr)
   (whole : pystr) : list pystr :=
  match s with
  | [] => []
  | x :: t =>
      match skip with
      | S k => findall_scan p k (S i) (Some x) t whole
      | O =>
          match match_here p (Cursor i pv s) with
          | Some m =>
              group whole m 1
                :: findall_scan p (m_end m - S i) (S i) (Some x) t whole
          | None => findall_scan p O (S i) (Some x) t whole
          end
      end
  end.

Definition re_findall (p : pattern) (s : pystr) : list pystr :=
  findall_scan p O O None s s.

End Re.

(* ================================================================== *)
(** * Name helpers (renamer.py, lines 122-148, 249-250, 333-357) *)
(* ================================================================== *)

(** In the comments below a pattern of the source is quoted with a blank
    between a star and a closing parenthesis that follows it. *)

(** CJK characters of the source. *)
Definition ZH_DI : Z := 31532.       (* U+7B2C, ordinal prefix *)
Definition ZH_JI : Z := 23395.       (* U+5B63, season *)
Definition ZH_BU : Z := 37096.       (* U+90E8, part *)
Definition ZH_JI2 : Z := 38598.      (* U+96C6, episode *)
Definition ZH_HUA : Z := 35805.      (* U+8BDD, episode *)
Definition ZH_HUI : Z := 22238.      (* U+56DE, episode *)
Definition ZH_QI : Z := 26399.       (* U+671F, period *)
Definition ZH_FU : Z := 38468.       (* U+9644 *)
Definition ZH_DAI : Z := 24102.      (* U+5E26 *)
Definition ZH_HAN : Z := 21547.      (* U+542B *)
Definition EM_DASH : Z := 8212.      (* U+2014 *)
Definition EN_DASH : Z := 8211.      (* U+2013 *)
Definition LBRACK_CJK : Z := 12304.  (* U+3010 *)
Definition RBRACK_CJK : Z := 12305.  (* U+3011 *)

(** [CN_NUM] *)
Definition CN_NUM : list (Z * Z) :=
  [ (38646, 0); (19968, 1); (20108, 2); (20004, 2); (19977, 3); (22235, 4);
    (20116, 5); (20845, 6); (19971, 7); (20843, 8); (20061, 9); (21313, 10) ].

Definition ZH_SHI : Z := 21313.      (* U+5341, ten *)

Fixpoint cn_num (ch : Z) (tbl : list (Z * Z)) : option Z :=
  match tbl with
  | [] => None
  | (k, v) :: tbl' => if ch =? k then Some v else cn_num ch tbl'
  end.

(** [to_halfwidth] *)
Definition to_halfwidth (s : pystr) : pystr :=
  map (fun code =>
         if code =? 12288 then SPACE
         else if (65281 <=? code) && (code <=? 65374) then code - 65248
         else code) s.

Section Names.
Context {U : Unicode}.

(** [\s+] *)
Definition RE_SPACES : pattern := Pattern false (Plus CSpace).

(** [normalize_spaces] *)
Definition normalize_spaces (s : pystr) : pystr :=
  let s := str_replace s [NBSP] (py " ") in
  let s := re_sub RE_SPACES (py " ") s in
  strip s.

(** the class of [<], [>], [:], the double quote, [/], the backslash, [|],
    [?], the star and [\x00-\x1f] *)
Definition RE_UNSAFE : pattern :=
  Pattern false
    (Chr (OneOf (chars "<>:" ++ [IChr DQUOTE; IChr SLASH; IChr BACKSLASH]
                 ++ chars "|?*" ++ [IRange 0 31]))).

(** [safe_filename] *)
Definition safe_filename (name : pystr) : pystr :=
  strip (re_sub RE_UNSAFE (py " ") name).

(** [chinese_to_int] *)
Fixpoint cn_fold (total : Z) (s : pystr) : option Z :=
  match s with
  | [] => Some total
  | ch :: t =>
      match cn_num ch CN_NUM with
      | None => None
      | Some v => cn_fold (total * 10 + v) t
      end
  end.

Definition chinese_to_int (s : pystr) : option Z :=
  let s := strip s in
  match s with
  | [] => None
  | _ =>
      if str_isdigit s then py_int s
      else if str_eqb s [ZH_SHI] then Some 10
      else
        match s with
        | [a; b] =>
            match (if a =? ZH_SHI then cn_num b CN_NUM else None) with
            | Some v => Some (10 + v)
            | None =>
                match (if b =? ZH_SHI then cn_num a CN_NUM else None) with
                | Some v => Some (v * 10)
                | None => cn_fold 0 s
                end
            end
        | [a; b; c] =>
            match (if b =? ZH_SHI then cn_num a CN_NUM else None),
                  cn_num c CN_NUM with
            | Some va, Some vc => Some (va * 10 + vc)
            | _, _ => cn_fold 0 s
            end
        | _ => cn_fold 0 s
        end
  end.

(* ================================================================== *)
(** * Season parsing (renamer.py, lines 360-408) *)
(* ================================================================== *)

Definition D : regex := Chr CDigit.
Definition WS : regex := Star CSpace.
(** [[-~] and the two dashes U+2014, U+2013] *)
Definition DASH : regex :=
  Chr (OneOf [IChr 45; IChr 126; IChr EM_DASH; IChr EN_DASH]).
(** [[A-Za-z0-9]] *)
Definition ALNUM : list citem := [IRange 65 90; IRange 97 122; IRange 48 57].
(** the numerals of [CN_NUM] but U+96F6 and U+4E24, and [\d] *)
Definition CN_DIGITS : cset :=
  OneOf [IChr 19968; IChr 20108; IChr 19977; IChr 22235; IChr 20116;
         IChr 20845; IChr 19971; IChr 20843; IChr 20061; IChr 21313; IDigit].

(** [(?i)\bS\d{1,2}\s*[-~..]\s*S?\d{1,2}\b] *)
Definition RE_RANGE_S : pattern :=
  Pattern true
    (Seqs [WordB; Lit "S"; Rep 1 1 D; WS; DASH; WS; Opt (Lit "S"); Rep 1 1 D; WordB]).

(** [(?:U+7B2C \s* )?\d{1,2}\s*[-~..]\s*\d{1,2}\s*U+5B63] *)
Definition RE_RANGE_JI : pattern :=
  Pattern false
    (Seqs [Opt (Seq (Chr (CChr ZH_DI)) WS); Rep 1 1 D; WS; DASH; WS;
           Rep 1 1 D; WS; Chr (CChr ZH_JI)]).

(** [(?i)(?:^|[^A-Za-z0-9])S(\d{1,2})(?:$|[^A-Za-z0-9])] *)
Definition RE_S_ALONE : pattern :=
  Pattern true
    (Seqs [Alt Bol (Chr (NoneOf ALNUM)); Lit "S"; Group 1 (Rep 1 1 D);
           Alt Eol (Chr (NoneOf ALNUM))]).

(** [(?i)\bSeason\s*(\d{1,2})\b] *)
Definition RE_SEASON_WORD : pattern :=
  Pattern true (Seqs [WordB; Lit "Season"; WS; Group 1 (Rep 1 1 D); WordB]).

(** [U+7B2C \s*([numerals\d]+)\s* U+5B63] and the same with U+90E8 *)
Definition RE_DI_N (unit_chr : Z) : pattern :=
  Pattern false
    (Seqs [Chr (CChr ZH_DI); WS; Group 1 (Plus CN_DIGITS); WS; Chr (CChr unit_chr)]).

(** [\b(\d{1,2})\s* U+5B63 \b] and the same with U+90E8 *)
Definition RE_N_UNIT (unit_chr : Z) : pattern :=
  Pattern false
    (Seqs [WordB; Group 1 (Rep 1 1 D); WS; Chr (CChr unit_chr); WordB]).

(** [(?:^|\D)(\d{1,2})\s*(?:U+9644 U+5E26|U+542B|U+5E26)\s*\d{1,2}\s*[-~..]\s*\d{1,2}] *)
Definition RE_ATTACHED : pattern :=
  Pattern false
    (Seqs [Alt Bol (Chr (NoneOf [IDigit])); Group 1 (Rep 1 1 D); WS;
           Alts [LitC [ZH_FU; ZH_DAI]; LitC [ZH_HAN]; LitC [ZH_DAI]]; WS;
           Rep 1 1 D; WS; DASH; WS; Rep 1 1 D]).

(** [int(m.group(1))] / [chinese_to_int(m.group(1))] of the first pattern
    that is found. *)
Fixpoint first_found (t : pystr)
    (rules : list (pattern * (pystr -> option Z))) : option Z :=
  match rules with
  | [] => None
  | (p, conv) :: rules' =>
      match re_search p t with
      | Some m => conv (group t m 1)
      | None => first_found t rules'
      end
  end.

Definition parse_season_from_text (text : pystr) : option Z :=
  let t := strip (to_halfwidth text) in
  match t with
  | [] => None
  | _ =>
      if re_found RE_RANGE_S t then None
      else if re_found RE_RANGE_JI t then None
      else
        first_found t
          [ (RE_S_ALONE, py_int);
            (RE_SEASON_WORD, py_int);
            (RE_DI_N ZH_JI, chinese_to_int);
            (RE_N_UNIT ZH_JI, py_int);
            (RE_DI_N ZH_BU, chinese_to_int);
            (RE_N_UNIT ZH_BU, py_int);
            (RE_ATTACHED, py_int) ]
  end.

End Names.

(* ================================================================== *)
(** * Episode parsing (renamer.py, lines 66-67, 675-795) *)
(* ================================================================== *)

Section Episodes.
Context {U : Unicode}.

(** [SXXEYY_RE]: [(?i)S(\d{1,2})\s*E(\d{1,3})] *)
Definition SXXEYY_RE : pattern :=
  Pattern true
    (Seqs [Lit "S"; Group 1 (Rep 1 1 D); WS; Lit "E"; Group 2 (Rep 1 2 D)]).

(** [_1X02_RE]: [(?i)\b(\d{1,2})\s*[xX]\s*(\d{1,3})\b] *)
Definition _1X02_RE : pattern :=
  Pattern true
    (Seqs [WordB; Group 1 (Rep 1 1 D); WS; Chr (OneOf (chars "xX")); WS;
           Group 2 (Rep 1 2 D); WordB]).

(** [_EP_NUM_RE]: [(?i)\b(?:EP|E)(\d{1,3})\b] *)
Definition _EP_NUM_RE : pattern :=
  Pattern true
    (Seqs [WordB; Alt (Lit "EP") (Lit "E"); Group 1 (Rep 1 2 D); WordB]).

(** [_CN_EP_RE]: [U+7B2C \s*([numerals\d]{1,4})\s*(?:U+96C6|U+8BDD|U+56DE)] *)
Definition _CN_EP_RE : pattern :=
  Pattern false
    (Seqs [Chr (CChr ZH_DI); WS; Group 1 (Rep 1 3 (Chr CN_DIGITS)); WS;
           Alts [Chr (CChr ZH_JI2); Chr (CChr ZH_HUA); Chr (CChr ZH_HUI)]]).

(** [^\[[^\]]+\]\s*] *)
Definition RE_LEAD_TAG : pattern :=
  Pattern false
    (Seqs [Bol; Lit "["; Plus (NoneOf (chars "]")); Lit "]"; WS]).

(** [^[U+3010\[][^U+3011\]]+[U+3011\]]\s*] *)
Definition RE_LEAD_TAG_CJK : pattern :=
  Pattern false
    (Seqs [Bol; Chr (OneOf [IChr LBRACK_CJK; IChr 91]);
           Plus (NoneOf [IChr RBRACK_CJK; IChr 93]);
           Chr (OneOf [IChr RBRACK_CJK; IChr 93]); WS]).

(** [^\s*(\d{1,3})(?!\d)] *)
Definition RE_LEAD_NUM : pattern :=
  Pattern false (Seqs [Bol; WS; Group 1 (Rep 1 2 D); Ahead false D]).

(** [(?:^|[\s._\-])0*(\d{1,3})(?=$|[\s._\-])] *)
Definition SEP : cset := OneOf (ISpace :: chars "._-").
Definition RE_NUM_TOKEN : pattern :=
  Pattern false
    (Seqs [Alt Bol (Chr SEP); Star (CChr 48); Group 1 (Rep 1 2 D);
           Ahead true (Alt Eol (Chr SEP))]).

(** The patterns of [_quality_tokens], in their order. *)
Definition W (s : string) : regex := Seqs [WordB; Lit s; WordB].
Definition WC (s : pystr) : regex := Seqs [WordB; LitC s; WordB].

Definition QUALITY_PATS : list regex :=
  [ W "4k"; W "2160p"; W "1080p"; W "720p";
    Seqs [WordB; Lit "hdr10"; Opt (Lit "+"); WordB]; W "hdr"; W "dv";
    Seqs [Lit "dolby"; WS; Lit "vision"];
    Seqs [Lit "web"; Opt (Chr (OneOf (chars "- "))); Lit "dl"];
    Lit "webrip"; Lit "bluray"; Lit "bdrip"; Lit "remux";
    Lit "hevc"; Lit "x265"; Lit "h265"; Lit "x264"; Lit "h264";
    Lit "truehd"; Seqs [Lit "dts"; Opt (Chr (OneOf (chars "- "))); Lit "hd"];
    W "dts"; W "aac"; W "atmos";
    W "nf"; W "amzn"; W "hmax";
    WC [20013; 23383]; WC [21452; 35821]; WC [22269; 37197];
    WC [22269; 35821]; WC [31908; 35821]; WC [20013; 33521] ].

(** [_quality_tokens] *)
Definition quality_token (t : pystr) (r : regex) : option pystr :=
  match re_search (Pattern false r) t with
  | None => None
  | Some m =>
      let tok := group t m 0 in
      let tok := re_sub RE_SPACES [] tok in
      let tok := if str_mem tok [py "web-dl"; py "weBDL"; py "weBdl"]
                 then py "WEB-DL" else tok in
      let tok := if str_eqb (uni_lower tok) (py "webrip") then py "WEBRIP" else tok in
      let tok := if str_eqb (uni_lower tok) (py "bluray") then py "BluRay" else tok in
      Some tok
  end.

Fixpoint quality_scan (t : pystr) (pats : list regex) (out : list pystr)
   : list pystr :=
  match pats with
  | [] => out
  | r :: pats' =>
      match quality_token t r with
      | None => quality_scan t pats' out
      | Some tok =>
          quality_scan t pats' (if str_mem tok out then out else out ++ [tok])
      end
  end.

Definition _quality_tokens (text : pystr) : list pystr :=
  quality_scan (uni_lower text) QUALITY_PATS [].

Definition quality_tail (text : pystr) : pystr :=
  str_join (py " ") (_quality_tokens text).

(** The result of [parse_episode_from_name]:
    [(season, episode, already_has_sxxeyy, suffix)]. *)
Definition name_facts : Type := option Z * option Z * bool * pystr.

(** The stem the parser works on: base name without extension, leading
    release tags removed, half-width, spaces normalised. *)
Definition norm_stem (raw : pystr) : pystr :=
  let base := basename raw in
  let stem := fst (splitext base) in
  let stem2 := strip (re_sub RE_LEAD_TAG [] stem) in
  let stem2 := strip (re_sub RE_LEAD_TAG_CJK [] stem2) in
  normalize_spaces (to_halfwidth stem2).

Definition is_season_range_container (stem2 : pystr) : bool :=
  re_found RE_RANGE_JI stem2 || re_found RE_RANGE_S stem2.

Definition in_1_200 (e : option Z) : bool :=
  match e with Some n => (1 <=? n) && (n <=? 200) | None => false end.

(** [(s, e, True, suffix)] of a match of [SXXEYY_RE] or [_1X02_RE] *)
Definition tagged_result (stem2 : pystr) (m : rmatch) : name_facts :=
  let s := py_int (group stem2 m 1) in
  let e := py_int (group stem2 m 2) in
  let rest := strip_chars (skipn (m_end m) stem2) (py " ._-") in
  (s, e, true, quality_tail (stem2 ++ py " " ++ rest)).

(** The two bare-number fallbacks, which the season-range guard disables. *)
Definition leading_number (stem2 : pystr) : option Z :=
  match re_match RE_LEAD_NUM stem2 with
  | Some m =>
      let e := py_int (group stem2 m 1) in
      if in_1_200 e then e else None
  | None => None
  end.

Definition standalone_number (stem2 : pystr) : option Z :=
  let nums := map py_int (re_findall RE_NUM_TOKEN stem2) in
  let nums := filter in_1_200 nums in
  match nums with
  | n :: _ => n
  | [] => None
  end.

Definition parse_stem (stem2 : pystr) : name_facts :=
  let range := is_season_range_container stem2 in
  let season_hint := parse_season_from_text stem2 in
  let untagged (e : option Z) : name_facts :=
    (season_hint, e, false, quality_tail stem2) in
  match re_search SXXEYY_RE stem2 with
  | Some m => tagged_result stem2 m
  | None =>
  match re_search _1X02_RE stem2 with
  | Some m => tagged_result stem2 m
  | None =>
  match re_search _EP_NUM_RE stem2 with
  | Some m => untagged (py_int (group stem2 m 1))
  | None =>
  match re_search _CN_EP_RE stem2 with
  | Some m => untagged (chinese_to_int (group stem2 m 1))
  | None =>
  match (if range then None else leading_number stem2) with
  | Some e => untagged (Some e)
  | None =>
  match (if range then None else standalone_number stem2) with
  | Some e => untagged (Some e)
  | None => untagged None
  end end end end end end.

Definition parse_episode_from_name (name : pystr) : name_facts :=
  let raw := strip name in
  match raw with
  | [] => (None, None, false, [])
  | _ => parse_stem (norm_stem raw)
  end.

(* ================================================================== *)
(** * The canonical video name (renamer.py, lines 1820-1862) *)
(* ================================================================== *)

(** [_RES_RE]: [(?i)\b(4320|2160|1440|1080|720|576|540|480)p\b] *)
Definition _RES_RE : pattern :=
  Pattern true
    (Seqs [WordB;
           Group 1 (Alts [Lit "4320"; Lit "2160"; Lit "1440"; Lit "1080";
                          Lit "720"; Lit "576"; Lit "540"; Lit "480"]);
           Lit "p"; WordB]).

Definition extract_resolution (text : pystr) : pystr :=
  match text with
  | [] => []
  | _ =>
      match re_search _RES_RE text with
      | Some m =>
          match py_int (group text m 1) with
          | Some n => str_of_int n ++ py "p"
          | None => []
          end
      | None =>
          let low := uni_lower (to_halfwidth text) in
          if str_in (py "8k") low then py "4320p"
          else if str_in (py "4k") low || str_in (py "uhd") low then py "2160p"
          else []
      end
  end.

Definition build_new_video_name (series : pystr) (season episode : Z)
    (old_name suffix : pystr) : pystr :=
  let ext := snd (splitext old_name) in
  let base := series ++ py " - S" ++ fmt_02d season ++ py "E" ++ fmt_02d episode in
  let res := extract_resolution (old_name ++ py " " ++ suffix) in
  let base := match res with [] => base | _ => base ++ py " - " ++ res end in
  let base := safe_filename (normalize_spaces base) in
  base ++ ext.

End Episodes.

(* ================================================================== *)
(** * Similarity (renamer.py, lines 1435-1453) *)
(* ================================================================== *)

(** [l[j] = v] for [j] in range (the program assigns in range only). *)
Definition list_assign {A : Type} (l : list A) (j : nat) (v : A) : list A :=
  firstn j l ++ v :: skipn (S j) l.

(** [range(lo, hi)] *)
Definition range (lo hi : nat) : list nat := seq lo (hi - lo).

Section Similarity.
Context {U : Unicode}.

(** The body of the inner loop: the state is [(prev, dp)]. *)
Definition lev_inner (a b : pystr) (i : nat) (st : Z * list Z) (j : nat)
   : Z * list Z :=
  let '(prev, dp) := st in
  let cur := nth j dp 0 in
  let cost := if nth (i - 1) a 0 =? nth (j - 1) b 0 then 0 else 1 in
  let dp := list_assign dp j
              (Z.min (Z.min (nth j dp 0 + 1) (nth (j - 1) dp 0 + 1)) (prev + cost)) in
  (cur, dp).

(** The body of the outer loop. *)
Definition lev_outer (a b : pystr) (dp : list Z) (i : nat) : list Z :=
  let m := length b in
  let prev := nth 0 dp 0 in
  let dp := list_assign dp 0 (Z.of_nat i) in
  snd (fold_left (lev_inner a b i) (range 1 (m + 1)) (prev, dp)).

(** [dist], the last cell of the row after the loops. *)
Definition lev_rows (a b : pystr) : Z :=
  let n := length a in
  let m := length b in
  let dp := map Z.of_nat (range 0 (m + 1)) in
  nth m (fold_left (lev_outer a b) (range 1 (n + 1)) dp) 0.

(** [levenshtein_ratio].  The float the program returns is modelled by the
    rational it rounds. *)
Definition levenshtein_ratio (a b : pystr) : Q :=
  let a := uni_lower a in
  let b := uni_lower b in
  match a, b with
  | [], [] => 1
  | [], _ | _, [] => 0
  | _, _ =>
      let n := Z.of_nat (length a) in
      let m := Z.of_nat (length b) in
      (1 - inject_Z (lev_rows a b) / inject_Z (Z.max n m))%Q
  end.

End Similarity.

(** The edit distance in the words of the specification: [edits a b n]
    says that [n] single-character insertions, deletions and
    substitutions turn [a] into [b]; the Levenshtein distance is the
    least such [n]. *)
Inductive edits : pystr -> pystr -> nat -> Prop :=
| edits_nil : edits [] [] 0
| edits_keep x a b n : edits a b n -> edits (x :: a) (x :: b) n
| edits_subst x y a b n : edits a b n -> edits (x :: a) (y :: b) (S n)
| edits_delete x a b n : edits a b n -> edits (x :: a) b (S n)
| edits_insert y a b n : edits a b n -> edits a (y :: b) (S n).

Definition levenshtein_distance (a b : pystr) (d : nat) : Prop :=
  edits a b d /\ forall n, edits a b n -> (d <= n)%nat.

(* ================================================================== *)
(** * The collaborators and the program monad *)
(* ================================================================== *)

(** [DirEntry] (renamer.py, lines 1101-1104) *)
Record DirEntry : Type := mkEntry { name : pystr; is_dir : bool }.

(** The exceptions that occur, by class. *)
Inductive exn : Type :=
| RuntimeError | AttributeError | NameError | UnboundLocalError
| ValueError | FileNotFoundError.

(** One line of the undo ledger (the time stamp apart). *)
Inductive undo_rec : Type :=
| URename (parent old new_name : pystr)
| UMove (src_dir dst_dir : pystr) (names : list pystr).

(** A log line: its fixed text and the values it interpolates. *)
Record log_msg : Type := Msg { msg_text : string; msg_args : list pystr }.

(** [SeriesMeta] (renamer.py, lines 1456-1462) *)
Record SeriesMeta : Type :=
  mkMeta { tv_id : Z; meta_name : pystr; meta_year : option Z;
           season_hint : option Z }.

(** What the program asks of the world.  A call of the filesystem client
    answers with its result or the exception it raised ([AlistClient.post]
    raises [RuntimeError] when the server refuses); [remove] logs its own
    failures and answers nothing. *)
Inductive event : Type -> Type :=
| EvListDir (path : pystr) : event (exn + list DirEntry)
| EvMkdir (path : pystr) : event (option exn)
| EvRename (path new_name : pystr) : event (option exn)
| EvMove (src_dir dst_dir : pystr) (names : list pystr) : event (option exn)
| EvRemove (dir_path : pystr) (names : list pystr) : event unit
| EvLog (m : log_msg) : event unit
| EvUndo (r : undo_rec) : event unit
| EvAppendState (series_path : pystr) (done : bool) : event unit
| EvStopRequested : event bool
| EvResolveSeries (folder_name : pystr) (samples : list pystr)
    : event (option SeriesMeta)
| EvAiSeason (folder_name scan_basename video : pystr) : event (option Z).

(** Programs: a result, an exception, or a request and what follows from
    its answer. *)
Inductive prog (A : Type) : Type :=
| Ret (a : A)
| Raise (e : exn)
| Do (X : Type) (ev : event X) (k : X -> prog A).

Arguments Ret {A} a.
Arguments Raise {A} e.
Arguments Do {A X} ev k.

Fixpoint bind {A B : Type} (m : prog A) (f : A -> prog B) : prog B :=
  match m with
  | Ret a => f a
  | Raise e => Raise e
  | Do ev k => Do ev (fun x => bind (k x) f)
  end.

(** [try: m except Exception as e: h e] *)
Fixpoint catch {A : Type} (m : prog A) (h : exn -> prog A) : prog A :=
  match m with
  | Ret a => Ret a
  | Raise e => h e
  | Do ev k => Do ev (fun x => catch (k x) h)
  end.

Declare Scope prog_scope.
Delimit Scope prog_scope with prog.
Notation "x <- m ;; f" := (bind m (fun x => f))
  (at level 61, m at next level, right associativity) : prog_scope.
Notation "m ;; f" := (bind m (fun _ => f))
  (at level 61, right associativity) : prog_scope.
Open Scope prog_scope.

Definition do_ {X : Type} (ev : event X) : prog X := Do ev Ret.

(** The calls of the client. *)
Definition list_dir (path : pystr) : prog (list DirEntry) :=
  r <- do_ (EvListDir (norm_path path)) ;;
  match r with inl e => Raise e | inr l => Ret l end.

Definition checked (ev : event (option exn)) : prog unit :=
  r <- do_ ev ;;
  match r with Some e => Raise e | None => Ret tt end.

Definition client_mkdir (path : pystr) : prog unit :=
  checked (EvMkdir (norm_path path)).
Definition client_rename (path new_name : pystr) : prog unit :=
  checked (EvRename (norm_path path) new_name).
Definition client_move (src_dir dst_dir : pystr) (names : list pystr) : prog unit :=
  match names with
  | [] => Ret tt
  | _ => checked (EvMove (norm_path src_dir) (norm_path dst_dir) names)
  end.
Definition client_remove (dir_path : pystr) (names : list pystr) : prog unit :=
  match names with
  | [] => Ret tt
  | _ => do_ (EvRemove (norm_path dir_path) names)
  end.

(** [AlistClient] has no method [listdir]: looking it up raises
    [AttributeError] (renamer.py, lines 2166, 2215, 2239, 2262, 2276). *)
Definition client_listdir (path : pystr) : prog (list DirEntry) :=
  Raise AttributeError.

Definition log_append (text : string) (args : list pystr) : prog unit :=
  do_ (EvLog (Msg text args)).

(** [if undo: undo.record(...)]; a logger without a path records nothing. *)
Definition undo_record (undo : option pystr) (r : undo_rec) : prog unit :=
  match undo with
  | Some (_ :: _) => do_ (EvUndo r)
  | _ => Ret tt
  end.

(** A [for] loop with its state; the body answers [inr r] to leave the
    loop with [r] ([break] or [return]). *)
Fixpoint for_each {X S R : Type} (xs : list X) (s : S)
    (body : X -> S -> prog (S + R)) : prog (S + R) :=
  match xs with
  | [] => Ret (inl s)
  | x :: xs' =>
      r <- body x s ;;
      match r with
      | inl s' => for_each xs' s' body
      | inr r => Ret (inr r)
      end
  end.

(** A loop without state or exit. *)
Fixpoint for_ {X : Type} (xs : list X) (body : X -> prog unit) : prog unit :=
  match xs with
  | [] => Ret tt
  | x :: xs' => body x ;; for_ xs' body
  end.

(** The events that change the remote tree or the undo ledger. *)
Definition mutating {X : Type} (ev : event X) : bool :=
  match ev with
  | EvMkdir _ | EvRename _ _ | EvMove _ _ _ | EvRemove _ _ | EvUndo _ => true
  | _ => false
  end.

(** A program that issues none of them, whatever it is answered. *)
Inductive no_mutation {A : Type} : prog A -> Prop :=
| nm_ret a : no_mutation (Ret a)
| nm_raise e : no_mutation (Raise e)
| nm_do X (ev : event X) k :
    mutating ev = false -> (forall x, no_mutation (k x)) -> no_mutation (Do ev k).

(* ================================================================== *)
(** * Operations on the remote tree (renamer.py, lines 252-276, 1866-2006) *)
(* ================================================================== *)

Section Operations.
Context {U : Unicode}.
(** [os.getenv] *)
Variable getenv : string -> option pystr.

(** [os.getenv(name, default).strip().lower() in ("1","true","yes","y")] *)
Definition env_flag (var : string) (default : string) : bool :=
  let v := match getenv var with Some v => v | None => py default end in
  str_mem (uni_lower (strip v)) [py "1"; py "true"; py "yes"; py "y"].

(** [bool_env] (renamer.py, lines 185-190) *)
Definition bool_env (var : string) (default : bool) : bool :=
  match getenv var with
  | None => default
  | Some v =>
      str_mem (uni_lower (strip v)) [py "1"; py "true"; py "yes"; py "y"; py "on"]
  end.

(** [(os.getenv("ON_CONFLICT", "suffix") or "suffix").strip().lower()] *)
Definition conflict_mode : pystr :=
  let v := match getenv "ON_CONFLICT" with
           | Some (c :: v) => c :: v
           | _ => py "suffix"
           end in
  uni_lower (strip v).

(** [{e.name for e in entries}], or the empty set when the listing fails. *)
Definition names_of (path : pystr) : prog (list pystr) :=
  catch (entries <- list_dir path ;; Ret (map name entries))
        (fun _ => Ret []).

(** [f"{stem} ({i}){ext}"] *)
Definition suffixed (stem ext : pystr) (i : nat) : pystr :=
  stem ++ py " (" ++ str_of_int (Z.of_nat i) ++ py ")" ++ ext.

(** The loop over [range(1, 200)]. *)
Fixpoint first_free (stem ext : pystr) (existing : list pystr) (idx : list nat)
   : pystr :=
  match idx with
  | [] => []
  | i :: idx' =>
      let cand := suffixed stem ext i in
      if negb (str_mem cand existing) then cand
      else first_free stem ext existing idx'
  end.

(** What [unique_name_in_parent] answers for a set of existing names. *)
Definition resolve_name (existing : list pystr) (desired : pystr) : pystr :=
  let desired := safe_filename desired in
  if negb (str_mem desired existing) then desired
  else if str_eqb conflict_mode (py "skip") then []
  else
    let '(stem, ext) := splitext desired in
    first_free stem ext existing (range 1 200).

Definition unique_name_in_parent (parent desired : pystr) : prog pystr :=
  let parent := norm_path parent in
  existing <- names_of parent ;;
  Ret (resolve_name existing desired).

(** [ensure_dir] *)
Definition ensure_dir (parent name_ : pystr) (dry_run : bool) : prog pystr :=
  let parent := norm_path parent in
  let name_ := safe_filename name_ in
  let target := join_path parent name_ in
  entries <- list_dir parent ;;
  if existsb (fun e => is_dir e && str_eqb (name e) name_) entries then Ret target
  else if dry_run then
    log_append "[DRY] mkdir" [target] ;; Ret target
  else
    log_append "mkdir" [target] ;;
    client_mkdir target ;;
    Ret target.

(** [maybe_rename_path] *)
Definition maybe_rename_path (full_path new_name : pystr) (dry_run : bool)
    (dry_return_new : bool) (undo : option pystr) : prog pystr :=
  let '(parent, old) := split_path full_path in
  let new_name := safe_filename new_name in
  if str_eqb old new_name || match old with [] => true | _ => false end
  then Ret full_path
  else
    resolved <- unique_name_in_parent parent new_name ;;
    match resolved with
    | [] =>
        log_append "[SKIP] conflict (exists)" [full_path; new_name] ;;
        Ret full_path
    | _ =>
        (if negb (str_eqb resolved new_name)
         then log_append "[INFO] conflict: exists, use" [new_name; resolved]
         else Ret tt) ;;
        let new_name := resolved in
        if dry_run then
          log_append "[DRY] rename" [full_path; new_name] ;;
          Ret (if dry_return_new then join_path parent new_name else full_path)
        else
          log_append "rename" [full_path; new_name] ;;
          client_rename full_path new_name ;;
          undo_record undo (URename parent old new_name) ;;
          Ret (join_path parent new_name)
    end.

(** [maybe_rename] *)
Definition maybe_rename (parent old_name new_name : pystr) (dry_run : bool)
    (undo : option pystr) : prog pystr :=
  maybe_rename_path (join_path parent old_name) new_name dry_run true undo.

(** The body of the loop of individual moves; the state is [dst_existing]. *)
Definition move_one (logger : string -> list pystr -> prog unit)
    (src_dir dst_dir : pystr) (undo : option pystr)
    (name_ : pystr) (dst_existing : list pystr) : prog (list pystr) :=
  match name_ with
  | [] => Ret dst_existing
  | _ =>
      let go (final_name : pystr) : prog (list pystr) :=
        logger "move"%string [final_name; src_dir; dst_dir] ;;
        client_move src_dir dst_dir [final_name] ;;
        undo_record undo (UMove src_dir dst_dir [final_name]) ;;
        Ret (final_name :: dst_existing) in
      if str_mem name_ dst_existing then
        resolved <- unique_name_in_parent dst_dir name_ ;;
        match resolved with
        | [] =>
            logger "[SKIP] move conflict"%string [join_path src_dir name_; dst_dir; name_] ;;
            Ret dst_existing
        | _ =>
            if negb (str_eqb resolved name_) then
              logger "[INFO] move conflict: exists in dst, rename src"%string
                     [name_; resolved] ;;
              client_rename (join_path src_dir name_) resolved ;;
              undo_record undo (URename src_dir name_ resolved) ;;
              go resolved
            else go name_
        end
      else go name_
  end.

Fixpoint move_each (logger : string -> list pystr -> prog unit)
    (src_dir dst_dir : pystr) (undo : option pystr)
    (names dst_existing : list pystr) : prog unit :=
  match names with
  | [] => Ret tt
  | n :: names' =>
      dst_existing' <- move_one logger src_dir dst_dir undo n dst_existing ;;
      move_each logger src_dir dst_dir undo names' dst_existing'
  end.

(** [maybe_move]; [logger] is the [append] of the [log] argument. *)
Definition maybe_move_with (logger : string -> list pystr -> prog unit)
    (src_dir dst_dir : pystr) (names : list pystr) (dry_run : bool)
    (undo : option pystr) : prog unit :=
  match names with
  | [] => Ret tt
  | _ =>
      if str_eqb (norm_path src_dir) (norm_path dst_dir) then Ret tt
      else
        let move_individual := env_flag "MOVE_INDIVIDUAL" "1" in
        if dry_run then logger "[DRY] move"%string (src_dir :: dst_dir :: names)
        else if negb move_individual then
          logger "move"%string (src_dir :: dst_dir :: names) ;;
          client_move src_dir dst_dir names ;;
          undo_record undo (UMove src_dir dst_dir names)
        else
          dst_existing <- names_of dst_dir ;;
          move_each logger src_dir dst_dir undo names dst_existing
  end.

Definition maybe_move := maybe_move_with log_append.

(** [maybe_move_folder_to_dir] *)
Definition maybe_move_folder_to_dir (folder_path dst_dir : pystr)
    (dry_run : bool) (undo : option pystr) : prog pystr :=
  let folder_path := norm_path folder_path in
  let dst_dir := norm_path dst_dir in
  let '(src_parent, name_) := split_path folder_path in
  match name_ with
  | [] => Ret folder_path
  | _ =>
      if str_eqb (norm_path src_parent) dst_dir then Ret folder_path
      else
        final_name <- unique_name_in_parent dst_dir name_ ;;
        moved <-
          (if negb (str_eqb final_name name_) then
             renamed <- maybe_rename_path folder_path final_name dry_run true undo ;;
             Ret (split_path renamed)
           else Ret (src_parent, name_)) ;;
        let '(src_parent, name_) := moved in
        maybe_move src_parent dst_dir [name_] dry_run undo ;;
        Ret (join_path dst_dir name_)
  end.

End Operations.

(* ================================================================== *)
(** * The variety planner (renamer.py, lines 804-955) *)
(* ================================================================== *)

(** [VIDEO_EXTS] *)
Definition VIDEO_EXTS : list pystr :=
  [py ".mp4"; py ".mkv"; py ".avi"; py ".mov"; py ".wmv"; py ".flv";
   py ".m4v"; py ".ts"; py ".m2ts"; py ".webm"].

(** [_SPECIAL_MARKERS] *)
Definition _SPECIAL_MARKERS : list pystr :=
  [ [25250; 20808; 30475]; [39044; 21578]; [20808; 23548]; [33457; 32110];
    [24149; 21518]; [29305; 36753]; [29305; 21035; 31687]; [30058; 22806];
    [24425; 34507]; py "sp"; py "special"; py "pv"; py "cm" ].

(** [_PART_ORDER], in the order of the dictionary. *)
Definition _PART_ORDER : list (pystr * Z) :=
  [ ([19978], 1); ([19978; 38598], 1); ([19978; 26399], 1); ([21069], 1);
    ([20013], 2); ([20013; 38598], 2); ([20013; 26399], 2);
    ([19979], 3); ([19979; 38598], 3); ([19979; 26399], 3); ([21518], 2) ].

(** A dictionary with integer keys, in insertion order. *)
Fixpoint dict_get {V : Type} (d : list (Z * V)) (k : Z) : option V :=
  match d with
  | [] => None
  | (k', v) :: d' => if k =? k' then Some v else dict_get d' k
  end.

(** [d[k] = f(d.get(k))]: an existing key keeps its place, a new one is
    appended. *)
Fixpoint dict_update {V : Type} (d : list (Z * V)) (k : Z) (f : option V -> V)
   : list (Z * V) :=
  match d with
  | [] => [(k, f None)]
  | (k', v) :: d' =>
      if k =? k' then (k', f (Some v)) :: d'
      else (k', v) :: dict_update d' k f
  end.

(** Code point order on strings, as [str] compares. *)
Fixpoint str_leb (a b : pystr) : bool :=
  match a, b with
  | [], _ => true
  | _ :: _, [] => false
  | x :: a', y :: b' => (x <? y) || ((x =? y) && str_leb a' b')
  end.

(** [list.sort]: stable.  Insertion from the right keeps equal keys in
    their order. *)
Fixpoint insert_by {X : Type} (le : X -> X -> bool) (x : X) (l : list X) : list X :=
  match l with
  | [] => [x]
  | y :: l' => if le x y then x :: l else y :: insert_by le x l'
  end.

Definition stable_sort {X : Type} (le : X -> X -> bool) (l : list X) : list X :=
  fold_right (insert_by le) [] l.

(** The sort keys: a pair for specials, a quadruple for the others. *)
Inductive sort_key : Type :=
| KSpecial (date_key : Z) (fname : pystr)
| KNormal (qishu part_rank date_key : Z) (fname : pystr).

(** Tuple order.  Keys of the two shapes never agree on their first
    component (a period number stays below the least date key), so the
    comparison of a string with an integer, which raises, is not reached;
    the first component decides. *)
Definition key_leb (a b : sort_key) : bool :=
  match a, b with
  | KSpecial d1 n1, KSpecial d2 n2 =>
      (d1 <? d2) || ((d1 =? d2) && str_leb n1 n2)
  | KNormal q1 p1 d1 n1, KNormal q2 p2 d2 n2 =>
      (q1 <? q2) || ((q1 =? q2) &&
        ((p1 <? p2) || ((p1 =? p2) &&
          ((d1 <? d2) || ((d1 =? d2) && str_leb n1 n2)))))
  | KSpecial d1 _, KNormal q2 _ _ _ => d1 <=? q2
  | KNormal q1 _ _ _, KSpecial d2 _ => q1 <=? d2
  end.

(** A candidate: [(sort_key, scan_dir, fname, special)]. *)
Record cand : Type :=
  mkCand { c_key : sort_key; c_dir : pystr; c_name : pystr; c_special : bool }.

(** A plan entry: [plans[(scan_dir, fname)] = (season, episode, special)]. *)
Definition plan_key : Type := pystr * pystr.
Definition plan_val : Type := Z * Z * bool.
Definition plans : Type := list (plan_key * plan_val).

Definition plan_key_eqb (a b : plan_key) : bool :=
  str_eqb (fst a) (fst b) && str_eqb (snd a) (snd b).

Fixpoint plans_get (p : plans) (k : plan_key) : option plan_val :=
  match p with
  | [] => None
  | (k', v) :: p' => if plan_key_eqb k k' then Some v else plans_get p' k
  end.

Fixpoint plans_set (p : plans) (k : plan_key) (v : plan_val) : plans :=
  match p with
  | [] => [(k, v)]
  | (k', v') :: p' =>
      if plan_key_eqb k k' then (k', v) :: p' else (k', v') :: plans_set p' k v
  end.

(** [x in used] *)
Definition z_mem (x : Z) (l : list Z) : bool := existsb (Z.eqb x) l.

(** [while next_ep in used: next_ep += 1] *)
Fixpoint skip_used (fuel : nat) (used : list Z) (next_ep : Z) : Z :=
  match fuel with
  | O => next_ep
  | S f => if z_mem next_ep used then skip_used f used (next_ep + 1) else next_ep
  end.

(** The numbering of one season: the state is [(plans, used, next_ep)]. *)
Definition assign_one (season : Z) (st : plans * list Z * Z) (c : cand)
   : plans * list Z * Z :=
  let '(pl, used, next_ep) := st in
  let next_ep := skip_used (S (length used)) used next_ep in
  (plans_set pl (c_dir c, c_name c) (season, next_ep, c_special c),
   next_ep :: used, next_ep + 1).

Definition assign_season (used_by_season : list (Z * list Z)) (pl : plans)
    (item : Z * list cand) : plans :=
  let '(season, cands) := item in
  let cands := stable_sort (fun x y => key_leb (c_key x) (c_key y)) cands in
  let used := match dict_get used_by_season season with
              | Some u => u | None => [] end in
  fst (fst (fold_left (assign_one season) cands (pl, used, 1))).

Section Planner.
Context {U : Unicode}.

(** [is_special_episode_name] *)
Definition is_special_episode_name (name_ : pystr) : bool :=
  let n := uni_lower (to_halfwidth name_) in
  existsb (fun m => str_in (uni_lower m) n) _SPECIAL_MARKERS.

(** [_DATE8_RE]: [(?<!\d)(20\d{2})(0[1-9]|1[0-2])(0[1-9]|[12]\d|3[01])(?!\d)] *)
Definition _DATE8_RE : pattern :=
  Pattern false
    (Seqs [Behind false CDigit;
           Group 1 (Seqs [Lit "20"; D; D]);
           Group 2 (Alt (Seq (Lit "0") (Chr (OneOf [IRange 49 57])))
                        (Seq (Lit "1") (Chr (OneOf [IRange 48 50]))));
           Group 3 (Alts [Seq (Lit "0") (Chr (OneOf [IRange 49 57]));
                          Seq (Chr (OneOf (chars "12"))) D;
                          Seq (Lit "3") (Chr (OneOf (chars "01")))]);
           Ahead false D]).

(** [_DATE_SEP_RE]: [(?<!\d)(20\d{2})[.\-_](\d{1,2})[.\-_](\d{1,2})(?!\d)] *)
Definition _DATE_SEP_RE : pattern :=
  Pattern false
    (Seqs [Behind false CDigit;
           Group 1 (Seqs [Lit "20"; D; D]);
           Chr (OneOf (chars ".-_")); Group 2 (Rep 1 1 D);
           Chr (OneOf (chars ".-_")); Group 3 (Rep 1 1 D);
           Ahead false D]).

(** [datetime.date(y, mo, d)] accepts the triple. *)
Definition valid_date (y mo d : Z) : bool :=
  let leap := ((y mod 4 =? 0) && negb (y mod 100 =? 0)) || (y mod 400 =? 0) in
  let dim := if mo =? 2 then (if leap then 29 else 28)
             else if (mo =? 4) || (mo =? 6) || (mo =? 9) || (mo =? 11) then 30
             else 31 in
  (1 <=? y) && (y <=? 9999) && (1 <=? mo) && (mo <=? 12) && (1 <=? d) && (d <=? dim).

(** [parse_date_key] *)
Definition parse_date_key (text : pystr) : option Z :=
  let t := to_halfwidth text in
  let m := match re_search _DATE8_RE t with
           | Some m => Some m
           | None => re_search _DATE_SEP_RE t
           end in
  match m with
  | None => None
  | Some m =>
      match py_int (group t m 1), py_int (group t m 2), py_int (group t m 3) with
      | Some y, Some mo, Some d =>
          if valid_date y mo d then Some (y * 10000 + mo * 100 + d) else None
      | _, _, _ => None
      end
  end.

(** [_QISHU_RE]: [U+7B2C \s*([numerals\d]{1,4})\s* U+671F] *)
Definition _QISHU_RE : pattern :=
  Pattern false
    (Seqs [Chr (CChr ZH_DI); WS; Group 1 (Rep 1 3 (Chr CN_DIGITS)); WS;
           Chr (CChr ZH_QI)]).

Fixpoint part_rank_of (tail : pystr) (order : list (pystr * Z)) : Z :=
  match order with
  | [] => 0
  | (k, v) :: order' => if str_in k tail then v else part_rank_of tail order'
  end.

(** [parse_qishu_and_part] *)
Definition parse_qishu_and_part (text : pystr) : option Z * Z :=
  let t := to_halfwidth text in
  match re_search _QISHU_RE t with
  | None => (None, 0)
  | Some m =>
      let qishu := chinese_to_int (group t m 1) in
      let tail := firstn 8 (skipn (m_end m) t) in
      (qishu, part_rank_of tail _PART_ORDER)
  end.

(** [os.path.splitext(name)[1].lower() in VIDEO_EXTS] *)
Definition is_video (name_ : pystr) : bool :=
  str_mem (uni_lower (snd (splitext name_))) VIDEO_EXTS.

(** The first loop, for one entry of one scan directory: the state is
    [(cand_by_season, used_by_season)]. *)
Definition gather_entry (scan_dir scan_basename : pystr) (season_guess : Z)
    (st : list (Z * list cand) * list (Z * list Z)) (ent : DirEntry)
   : list (Z * list cand) * list (Z * list Z) :=
  let '(cand_by_season, used_by_season) := st in
  if is_dir ent then st
  else if negb (is_video (name ent)) then st
  else
    let '(_, ep, _, _) := parse_episode_from_name (name ent) in
    match ep with
    | Some ep =>
        (cand_by_season,
         dict_update used_by_season season_guess
           (fun o => ep :: match o with Some u => u | None => [] end))
    | None =>
        let special := is_special_episode_name (name ent)
                       || is_special_episode_name scan_basename in
        let '(qishu, part_rank) := parse_qishu_and_part (name ent) in
        let date_key := parse_date_key (name ent) in
        match qishu, date_key with
        | None, None => st
        | _, _ =>
            let date_or := match date_key with
                           | Some 0 | None => 99999999 | Some d => d end in
            let fname := uni_lower (normalize_spaces (to_halfwidth (name ent))) in
            let target_season := if special then 0 else season_guess in
            let key := if special then KSpecial date_or fname
                       else KNormal (match qishu with Some q => q | None => 9999 end)
                                    part_rank date_or fname in
            let touch (o : option (list Z)) :=
              match o with Some u => u | None => [] end in
            (dict_update cand_by_season target_season
               (fun o => match o with Some l => l | None => [] end
                         ++ [mkCand key scan_dir (name ent) special]),
             dict_update used_by_season target_season touch)
        end
    end.

(** The season a scan directory stands for. *)
Definition season_guess_of (hints : list (pystr * Z)) (default_season : Z)
    (scan_dir : pystr) : Z :=
  let scan_basename := strip (basename scan_dir) in
  let hinted :=
    match find (fun h => str_eqb (fst h) scan_dir) hints with
    | Some (_, h) => if h =? 0 then None else Some h
    | None => None
    end in
  let scan_season_hint :=
    match hinted with
    | Some h => Some h
    | None => parse_season_from_text scan_basename
    end in
  match scan_season_hint with Some s => s | None => default_season end.

Definition gather_dir (hints : list (pystr * Z)) (default_season : Z)
    (st : list (Z * list cand) * list (Z * list Z))
    (listing : pystr * list DirEntry)
   : list (Z * list cand) * list (Z * list Z) :=
  let '(scan_dir, entries) := listing in
  let scan_basename := strip (basename scan_dir) in
  let season_guess := season_guess_of hints default_season scan_dir in
  fold_left (gather_entry scan_dir scan_basename season_guess) entries st.

(** The planner on the listings of the scan directories. *)
Definition plan_variety (listings : list (pystr * list DirEntry))
    (hints : list (pystr * Z)) (default_season : Z) : plans :=
  let '(cand_by_season, used_by_season) :=
    fold_left (gather_dir hints default_season) listings ([], []) in
  fold_left (assign_season used_by_season) cand_by_season [].

(** [infer_variety_and_special_episodes]: each scan directory is listed in
    turn; a listing that fails ends the planner with its exception. *)
Fixpoint list_all (dirs : list pystr) : prog (list (pystr * list DirEntry)) :=
  match dirs with
  | [] => Ret []
  | d :: dirs' =>
      entries <- list_dir d ;;
      rest_ <- list_all dirs' ;;
      Ret ((d, entries) :: rest_)
  end.

Definition infer_variety_and_special_episodes (scan_dirs : list pystr)
    (incoming_scan_season_hints : list (pystr * Z)) (default_season : Z)
   : prog plans :=
  listings <- list_all scan_dirs ;;
  Ret (plan_variety listings incoming_scan_season_hints default_season).

End Planner.

(* ================================================================== *)
(** * Clean-up and subtitle relocation (renamer.py, lines 2148-2305) *)
(* ================================================================== *)

(** [JUNK_MARKERS] *)
Definition JUNK_MARKERS : list pystr :=
  [ [38450; 36208; 20002]; [26356; 22810; 36164; 28304]; [20844; 20247; 21495];
    [20851; 27880]; [25195; 30721]; [21152; 32676]; [32676; 21495];
    [26368; 26032; 22320; 22336]; [22791; 29992; 32593; 22336]; [32593; 22336];
    py "www."; py "http://"; py "https://"; py "telegram"; py "t.me";
    [113; 113; 32676]; [113; 113; 32676; 21495] ].

(** [SUBTITLE_DIR_NAMES] *)
Definition SUBTITLE_DIR_NAMES : list pystr :=
  [ py "subs"; py "sub"; py "subtitle"; py "subtitles"; [23383; 24149];
    [23383; 24149; 32452]; py "subtitles&subs" ].

(** [MISC_DIR_NAMES] *)
Definition MISC_DIR_NAMES : list pystr :=
  [ py "@eadir"; py "__macosx"; py ".ds_store";
    py "sample"; py "samples"; py "screens"; py "screen"; py "screenshots";
    py "extras"; py "extra"; py "bonus"; py "bts";
    py "poster"; py "posters"; py "fanart"; py "thumb"; py "thumbs"; py "artwork";
    py "cd1"; py "cd2";
    py "subs"; py "sub"; py "subtitle"; py "subtitles"; [23383; 24149];
    [23383; 24149; 32452] ].

(** [SUB_EXTS], [SUBTITLE_EXTS] and [AD_DELETE_EXTS] *)
Definition SUB_EXTS : list pystr :=
  [py ".srt"; py ".ass"; py ".ssa"; py ".vtt"; py ".sub"; py ".idx"; py ".sup"].
Definition SUBTITLE_EXTS : list pystr :=
  [py ".srt"; py ".ass"; py ".ssa"; py ".vtt"; py ".sub"; py ".idx"].
Definition AD_DELETE_EXTS : list pystr :=
  [py ".url"; py ".lnk"; py ".html"; py ".htm"; py ".pdf"; py ".doc";
   py ".docx"; py ".ppt"; py ".pptx"; py ".xls"; py ".xlsx"].

(** The name [is_season_dir] is defined nowhere in the module: calling it
    raises [NameError] (renamer.py, lines 2179, 2218, 2270). *)
Definition is_season_dir (name_ : pystr) : prog (option Z) := Raise NameError.

Section Cleanup.
Context {U : Unicode}.
Variable getenv : string -> option pystr.
(** [SEASON_FORMAT] applied to a season other than 0. *)
Variable format_season : Z -> pystr.

(** [contains_junk_marker] *)
Definition contains_junk_marker (name_ : pystr) : bool :=
  let nl := uni_lower name_ in
  existsb (fun m => str_in (uni_lower m) nl) JUNK_MARKERS.

(** [is_subtitle_dir_name] *)
Definition is_subtitle_dir_name (name_ : pystr) : bool :=
  str_mem (uni_lower (strip name_)) SUBTITLE_DIR_NAMES.

(** [season_folder_name] *)
Definition season_folder_name (season : Z) : pystr :=
  if season =? 0 then py "Specials" else format_season season.

(** The loop of [cleanup_ads_in_dir]: the state is [(del_files, del_dirs)]. *)
Definition cleanup_entry (st : list pystr * list pystr) (ent : DirEntry)
   : prog (list pystr * list pystr) :=
  let '(del_files, del_dirs) := st in
  let name_ := name ent in
  if is_dir ent then
    if is_subtitle_dir_name name_ then Ret st
    else
      season <- is_season_dir name_ ;;
      if match season with Some s => negb (s =? 0) | None => false end
      then Ret st
      else if str_mem (strip (uni_lower name_)) [py "@eadir"; py "__macosx"]
              || contains_junk_marker name_
      then Ret (del_files, del_dirs ++ [name_])
      else Ret st
  else
    let ext := uni_lower (snd (splitext name_)) in
    if str_eqb ext (py ".txt") then Ret st
    else if str_mem ext AD_DELETE_EXTS then Ret (del_files ++ [name_], del_dirs)
    else if contains_junk_marker name_
            && negb (str_mem ext [py ".nfo"; py ".jpg"; py ".jpeg"; py ".png"; py ".webp"])
    then Ret (del_files ++ [name_], del_dirs)
    else Ret st.

Fixpoint cleanup_entries (entries : list DirEntry) (st : list pystr * list pystr)
   : prog (list pystr * list pystr) :=
  match entries with
  | [] => Ret st
  | ent :: entries' =>
      st' <- cleanup_entry st ent ;;
      cleanup_entries entries' st'
  end.

(** [cleanup_ads_in_dir] *)
Definition cleanup_ads_in_dir (dir_path : pystr) (dry_run : bool) : prog unit :=
  if negb (bool_env getenv "DELETE_ADS" true) then Ret tt
  else
    listed <- catch (entries <- client_listdir dir_path ;; Ret (Some entries))
                    (fun _ => log_append "[WARN] cleanup listdir failed" [dir_path] ;;
                              Ret None) ;;
    match listed with
    | None => Ret tt
    | Some entries =>
        dels <- cleanup_entries entries ([], []) ;;
        let '(del_files, del_dirs) := dels in
        (match del_files with
         | [] => Ret tt
         | _ => log_append "[CLEAN] remove files" [] ;;
                if negb dry_run then client_remove dir_path del_files else Ret tt
         end) ;;
        (match del_dirs with
         | [] => Ret tt
         | _ => log_append "[CLEAN] remove dirs" [] ;;
                if negb dry_run then client_remove dir_path del_dirs else Ret tt
         end)
    end.

(** [build_season_dir_map]: a dictionary from season to directory. *)
Fixpoint season_map_entries (series_path : pystr) (entries : list DirEntry)
    (m : list (Z * pystr)) : prog (list (Z * pystr)) :=
  match entries with
  | [] => Ret m
  | ent :: entries' =>
      if negb (is_dir ent) then season_map_entries series_path entries' m
      else
        s <- is_season_dir (name ent) ;;
        match s with
        | Some s =>
            if negb (s =? 0)
            then season_map_entries series_path entries'
                   (dict_update m s (fun _ => join_path series_path (name ent)))
            else season_map_entries series_path entries' m
        | None => season_map_entries series_path entries' m
        end
  end.

Definition build_season_dir_map (series_path : pystr) : prog (list (Z * pystr)) :=
  catch (entries <- client_listdir series_path ;;
         season_map_entries series_path entries [])
        (fun _ => Ret []).

(** The call [maybe_move(client, src_dir, dst_dir, [fn], log, dry_run,
    undo=None)] of line 2305 passes [log] for [dry_run] and [dry_run] for
    [log]: the flag is the truth value of the log object, and [append] is
    looked up on a [bool], which raises [AttributeError]. *)
Definition maybe_move_swapped (log_truthy : bool) (src_dir dst_dir : pystr)
    (names : list pystr) : prog unit :=
  maybe_move_with getenv (fun _ _ => Raise AttributeError)
    src_dir dst_dir names log_truthy None.

(** The candidate directories of a subtitle directory: itself, and the
    season folders one level down. *)
Fixpoint candidate_dirs (sub_dir : pystr) (sub_entries : list DirEntry)
   : prog (list (option Z * pystr)) :=
  match sub_entries with
  | [] => Ret []
  | se :: rest_ =>
      if is_dir se then
        s <- is_season_dir (name se) ;;
        more <- candidate_dirs sub_dir rest_ ;;
        match s with
        | Some s => if negb (s =? 0)
                    then Ret ((Some s, join_path sub_dir (name se)) :: more)
                    else Ret more
        | None => Ret more
        end
      else candidate_dirs sub_dir rest_
  end.

(** One subtitle file of a candidate directory: the state is the season
    map. *)
Definition relocate_file (log_truthy : bool) (series_path : pystr)
    (s_hint : option Z) (src_dir : pystr)
    (season_map : list (Z * pystr)) (fn : pystr) : prog (list (Z * pystr)) :=
  let ext := uni_lower (snd (splitext fn)) in
  if negb (str_mem ext SUB_EXTS) && negb (str_mem ext SUBTITLE_EXTS)
  then Ret season_map
  else
    let '(s, _, _, _) := parse_episode_from_name fn in
    let s := match s with Some s => Some s | None => s_hint end in
    let s := match s, season_map with
             | None, [(k, _)] => Some k
             | _, _ => s
             end in
    let s := match s with Some s => s | None => 1 end in
    placed <-
      match dict_get season_map s with
      | Some (c :: d) => Ret (c :: d, season_map)
      | _ =>
          let dst_dir := join_path series_path (season_folder_name s) in
          catch (client_mkdir dst_dir) (fun _ => Ret tt) ;;
          Ret (dst_dir, dict_update season_map s (fun _ => dst_dir))
      end ;;
    let '(dst_dir, season_map) := placed in
    maybe_move_swapped log_truthy src_dir dst_dir [fn] ;;
    Ret season_map.

Fixpoint relocate_files (log_truthy : bool) (series_path : pystr)
    (s_hint : option Z) (src_dir : pystr) (files : list pystr)
    (season_map : list (Z * pystr)) : prog (list (Z * pystr)) :=
  match files with
  | [] => Ret season_map
  | fn :: files' =>
      m <- relocate_file log_truthy series_path s_hint src_dir season_map fn ;;
      relocate_files log_truthy series_path s_hint src_dir files' m
  end.

Fixpoint relocate_candidates (log_truthy : bool) (series_path : pystr)
    (cands : list (option Z * pystr)) (season_map : list (Z * pystr))
   : prog (list (Z * pystr)) :=
  match cands with
  | [] => Ret season_map
  | (s_hint, src_dir) :: cands' =>
      listed <- catch (es <- client_listdir src_dir ;;
                       Ret (Some (map name (filter (fun e => negb (is_dir e)) es))))
                      (fun _ => Ret None) ;;
      m <- match listed with
           | None => Ret season_map
           | Some files =>
               relocate_files log_truthy series_path s_hint src_dir files season_map
           end ;;
      relocate_candidates log_truthy series_path cands' m
  end.

Fixpoint relocate_dirs (log_truthy : bool) (series_path : pystr)
    (entries : list DirEntry) (season_map : list (Z * pystr)) : prog unit :=
  match entries with
  | [] => Ret tt
  | ent :: entries' =>
      if negb (is_dir ent) || negb (is_subtitle_dir_name (name ent))
      then relocate_dirs log_truthy series_path entries' season_map
      else
        let sub_dir := join_path series_path (name ent) in
        log_append "[SUB] relocate subtitles from" [name ent] ;;
        listed <- catch (es <- client_listdir sub_dir ;; Ret (Some es))
                        (fun _ => Ret None) ;;
        m <- match listed with
             | None => Ret season_map
             | Some sub_entries =>
                 more <- candidate_dirs sub_dir sub_entries ;;
                 relocate_candidates log_truthy series_path
                   ((None, sub_dir) :: more) season_map
             end ;;
        relocate_dirs log_truthy series_path entries' m
  end.

(** [relocate_subtitles_in_show_root]; [log_truthy] is [bool(log)]. *)
Definition relocate_subtitles_in_show_root (log_truthy : bool)
    (series_path : pystr) (dry_run : bool) : prog unit :=
  listed <- catch (es <- client_listdir series_path ;; Ret (Some es))
                  (fun _ => Ret None) ;;
  match listed with
  | None => Ret tt
  | Some entries =>
      season_map <- build_season_dir_map series_path ;;
      relocate_dirs log_truthy series_path entries season_map
  end.

End Cleanup.

(* ================================================================== *)
(** * The reconciliation engine (renamer.py, lines 511-520, 572-647,
      2009-2010, 2551-2944) *)
(* ================================================================== *)

(** [os.path.dirname] and [os.path.join] (posixpath) *)
Definition os_path_dirname (p : pystr) : pystr :=
  let head := slice_to p (rfind p [SLASH] + 1) in
  if negb (forallb (Z.eqb SLASH) head) then rstrip_chars head (py "/") else head.

Definition os_path_join (a b : pystr) : pystr :=
  if startswith b (py "/") then b
  else if match a with [] => true | _ => endswith a (py "/") end then a ++ b
  else a ++ py "/" ++ b.

(** [find_library_root] *)
Definition find_library_root (path : pystr) (roots : list pystr) : option pystr :=
  let p := norm_path path in
  fold_left
    (fun best r =>
       let rr := norm_path r in
       if str_eqb p rr || startswith p (rstrip_chars rr (py "/") ++ py "/") then
         match best with
         | None => Some rr
         | Some b => if (length b <? length rr)%nat then Some rr else best
         end
       else best)
    roots None.

(** [x or d] on an optional integer. *)
Definition or_int (o : option Z) (d : Z) : Z :=
  match o with
  | Some n => if n =? 0 then d else n
  | None => d
  end.

Definition or_opt (o d : option Z) : option Z :=
  match o with
  | Some n => if n =? 0 then d else o
  | None => d
  end.

(** The options of a run. *)
Record run_opts : Type :=
  mkOpts { rename_series : bool; rename_files : bool; fix_bare_sxxeyy : bool;
           dry_run : bool; undo : option pystr; library_roots : list pystr }.

Section Engine.
Context {U : Unicode}.
Variable getenv : string -> option pystr.
Variable format_season : Z -> pystr.
(** Pure helpers of the source that decide which names are touched and
    what they become; no property below depends on what they answer. *)
Variable should_skip_misc_folder : pystr -> bool.
Variable skip_re_search : pystr -> bool.
Variable looks_like_show_folder_name : pystr -> bool.
Variable is_same_show_container_folder : pystr -> pystr -> bool.
Variable related_sidecars : list DirEntry -> pystr -> Z -> Z -> list pystr.
Variable build_new_sidecar_name : pystr -> pystr -> Z -> Z -> pystr.
Variable build_prefixed_sxxeyy_name : pystr -> Z -> Z -> pystr -> pystr.
Variable needs_series_prefix_for_sxxeyy : pystr -> pystr -> bool.
(** Whether an AI client is configured, and [bool(log)]. *)
Variable ai_enabled : bool.
Variable log_truthy : bool.

(** [is_season_container_folder]: [(?i)\bS\d{1,2}\s*-\s*S\d{1,2}\b] *)
Definition RE_CONTAINER : pattern :=
  Pattern true
    (Seqs [WordB; Lit "S"; Rep 1 1 D; WS; Lit "-"; WS; Lit "S"; Rep 1 1 D; WordB]).

Definition is_season_container_folder (name_ : pystr) : bool :=
  re_found RE_CONTAINER name_.

(** The container words of line 2593, with [re.I]. *)
Definition RE_CONTAINER_WORDS : pattern :=
  Pattern true
    (Alts [LitC [20840; 31995; 21015]; LitC [31995; 21015]; LitC [21512; 38598];
           LitC [20840; 22871]; LitC [20840; 38598];
           Lit "collection"; Lit "franchise"]).

(** [_has_any_season_hint] (lines 2740-2750) *)
Definition has_any_season_hint (texts : list pystr) : bool :=
  let joined := str_join (py " ") (filter (fun t => negb (str_eqb t [])) texts) in
  match joined with
  | [] => false
  | _ =>
      re_found (Pattern false
                  (Seqs [Chr (CChr ZH_DI); WS; Plus CN_DIGITS; WS; Chr (CChr ZH_JI)]))
               joined
      || re_found (Pattern true (Seqs [WordB; Lit "Season"; WS; Rep 1 1 D; WordB]))
                  joined
      || re_found (Pattern true
                     (Seqs [Alt Bol (Chr (NoneOf [IWord])); Lit "S";
                            Group 1 (Rep 1 1 D); Alt Eol (Chr (NoneOf [IWord]))]))
                  joined
  end.

(** [int(os.getenv("DEFAULT_SEASON", "1") or "1")]; [int] is modelled on
    an optional sign and decimal digits between white space. *)
Definition default_season_of_env : prog Z :=
  let v := match getenv "DEFAULT_SEASON" with
           | Some (c :: v) => c :: v
           | _ => py "1"
           end in
  let v := strip v in
  let parsed :=
    match v with
    | 45 :: digits => option_map Z.opp (py_int digits)
    | 43 :: digits => py_int digits
    | _ => py_int v
    end in
  match parsed with
  | Some n => Ret n
  | None => Raise ValueError
  end.

(** [gather_series_context]: the video names it samples, from which the
    resolver derives its hints. *)
Fixpoint peek_subdirs (series_path : pystr) (subdirs : list DirEntry)
   : prog (list pystr) :=
  match subdirs with
  | [] => Ret []
  | d :: subdirs' =>
      listed <- catch (es <- list_dir (os_path_join series_path (name d)) ;;
                       Ret (Some es))
                      (fun _ => Ret None) ;;
      match listed with
      | None => peek_subdirs series_path subdirs'
      | Some sub_entries =>
          let vids := map name (filter (fun se => negb (is_dir se) && is_video (name se))
                                       sub_entries) in
          match vids with
          | [] => peek_subdirs series_path subdirs'
          | _ => Ret vids
          end
      end
  end.

Definition gather_series_context (series_path : pystr) : prog (list pystr) :=
  listed <- catch (es <- list_dir series_path ;; Ret (Some es))
                  (fun _ => Ret None) ;;
  match listed with
  | None => Ret []
  | Some entries =>
      let video_names :=
        map name (filter (fun e => negb (is_dir e) && is_video (name e)) entries) in
      match video_names with
      | _ :: _ => Ret video_names
      | [] =>
          let subdirs :=
            filter (fun e => is_dir e
                             && negb (str_mem (uni_lower (name e)) MISC_DIR_NAMES)
                             && negb (skip_re_search (name e))) entries in
          let key (d : DirEntry) :=
            (match parse_season_from_text (name d) with
             | None => true | Some _ => false end, name d) in
          let le (x y : DirEntry) :=
            let '(bx, nx) := key x in
            let '(by_, ny) := key y in
            (negb bx && by_) || (Bool.eqb bx by_ && str_leb nx ny) in
          peek_subdirs series_path (firstn 3 (stable_sort le subdirs))
      end
  end.

Section Series.
Variable o : run_opts.
(** [folder_name], [desired_series_name] and [new_series_path] *)
Variable folder_name desired_series_name new_series_path : pystr.

Definition ensure_season_dir (season : Z) : prog pystr :=
  ensure_dir new_series_path (season_folder_name format_season season) (dry_run o).

(** The sidecars follow the final stem of their video; [new_stem] is the
    local of that name, unbound until first assigned. *)
Definition rename_sidecars (dst_season_path : pystr) (sidecars : list pystr)
    (season ep : Z) (new_stem : option pystr) : prog unit :=
  for_ sidecars
    (fun sc =>
       match new_stem with
       | None => Raise UnboundLocalError
       | Some stem =>
           let new_sc := safe_filename (build_new_sidecar_name stem sc season ep) in
           maybe_rename_path getenv (join_path dst_season_path sc) new_sc
             (dry_run o) true (undo o) ;;
           Ret tt
       end).

(** A video of an episode folder (lines 2769-2801). *)
Definition episode_folder_file (scan_basename dst_season_path ep_folder_path : pystr)
    (ep_entries : list DirEntry) (season_dir_num ep_dir : Z) (protect_sxxeyy : bool)
    (f : DirEntry) (new_stem : option pystr) : prog (option pystr) :=
  if is_dir f then Ret new_stem
  else if negb (is_video (name f)) then Ret new_stem
  else
    let '(s2, ep2, already2, suffix2) := parse_episode_from_name (name f) in
    let season_num := or_int s2 season_dir_num in
    let ep_num := or_int ep2 ep_dir in
    let sidecars := related_sidecars ep_entries (name f) season_num ep_num in
    (if negb (str_eqb (norm_path ep_folder_path) (norm_path dst_season_path))
     then maybe_move getenv ep_folder_path dst_season_path (name f :: sidecars)
            (dry_run o) (undo o)
     else Ret tt) ;;
    let bare := fix_bare_sxxeyy o && already2
                && needs_series_prefix_for_sxxeyy (name f) desired_series_name in
    if rename_files o
       && (negb already2 || negb protect_sxxeyy || contains_junk_marker (name f) || bare)
    then
      let new_video :=
        if bare then build_prefixed_sxxeyy_name desired_series_name season_num ep_num (name f)
        else build_new_video_name desired_series_name season_num ep_num (name f)
               (strip (str_join (py " ") [suffix2; scan_basename; folder_name])) in
      maybe_rename getenv dst_season_path (name f) new_video (dry_run o) None ;;
      for_ sidecars
        (fun sc =>
           let new_sc := build_new_sidecar_name (fst (splitext new_video)) sc
                           season_num ep_num in
           maybe_rename getenv dst_season_path sc new_sc (dry_run o) None ;;
           Ret tt) ;;
      Ret (match sidecars with
           | [] => new_stem
           | _ => Some (fst (splitext new_video))
           end)
    else Ret new_stem.

Fixpoint episode_folder_files (scan_basename dst_season_path ep_folder_path : pystr)
    (ep_entries : list DirEntry) (season_dir_num ep_dir : Z) (protect_sxxeyy : bool)
    (fs : list DirEntry) (new_stem : option pystr) : prog (option pystr) :=
  match fs with
  | [] => Ret new_stem
  | f :: fs' =>
      st <- episode_folder_file scan_basename dst_season_path ep_folder_path
              ep_entries season_dir_num ep_dir protect_sxxeyy f new_stem ;;
      episode_folder_files scan_basename dst_season_path ep_folder_path
        ep_entries season_dir_num ep_dir protect_sxxeyy fs' st
  end.

(** The renaming of a numbered video and the stem its sidecars take
    (lines 2852-2863). *)
Definition rename_loose_video (dst_season_path : pystr) (ent_name : pystr)
    (season ep : Z) (already protect_sxxeyy : bool) (suffix_ctx : pystr)
    (new_stem : option pystr) : prog (option pystr) :=
  if rename_files o then
    if negb already || negb protect_sxxeyy then
      let new_video := build_new_video_name desired_series_name season ep ent_name
                         suffix_ctx in
      new_full <- maybe_rename_path getenv (join_path dst_season_path ent_name)
                    new_video (dry_run o) true (undo o) ;;
      Ret (Some (fst (splitext (basename new_full))))
    else if fix_bare_sxxeyy o
            && needs_series_prefix_for_sxxeyy ent_name desired_series_name then
      let new_video := build_prefixed_sxxeyy_name desired_series_name season ep
                         ent_name in
      new_full <- maybe_rename_path getenv (join_path dst_season_path ent_name)
                    new_video (dry_run o) true (undo o) ;;
      Ret (Some (fst (splitext (basename new_full))))
    else Ret (Some (fst (splitext ent_name)))
  else Ret new_stem.

(** One entry of a scan directory (lines 2752-2868): [inr] is the return
    on a stop request. *)
Definition scan_entry (variety_plans : plans) (root_season_hint : option Z)
    (default_season : Z) (scan_dir scan_basename : pystr)
    (scan_season_hint : option Z) (allow_ai_infer_season protect_sxxeyy : bool)
    (entries : list DirEntry) (ent : DirEntry) (new_stem : option pystr)
   : prog (option pystr + pystr) :=
  stop <- do_ EvStopRequested ;;
  if stop then
    log_append "[STOP] series processing stopped by user request" [] ;;
    Ret (inr new_series_path)
  else if is_dir ent then
    let '(s_dir, ep_dir, _, _) := parse_episode_from_name (name ent) in
    match ep_dir with
    | None => Ret (inl new_stem)
    | Some ep_dir =>
        let season_dir_num := or_int (or_opt s_dir scan_season_hint) default_season in
        dst_season_path <- ensure_season_dir season_dir_num ;;
        let ep_folder_path := join_path scan_dir (name ent) in
        ep_entries <- list_dir ep_folder_path ;;
        st <- episode_folder_files scan_basename dst_season_path ep_folder_path
                ep_entries season_dir_num ep_dir protect_sxxeyy ep_entries new_stem ;;
        Ret (inl st)
    end
  else if negb (is_video (name ent)) then Ret (inl new_stem)
  else
    let '(s, ep, already, suffix) := parse_episode_from_name (name ent) in
    let numbered :=
      match ep with
      | None =>
          match plans_get variety_plans (scan_dir, name ent) with
          | Some (season, ep, _) => Some (Some season, ep)
          | None => None
          end
      | Some ep =>
          Some (match s with Some s => Some s | None => scan_season_hint end, ep)
      end in
    match numbered with
    | None => Ret (inl new_stem)
    | Some (season, ep) =>
        season <-
          match season with
          | Some s => Ret (Some s)
          | None =>
              if ai_enabled && allow_ai_infer_season
                 && has_any_season_hint [folder_name; scan_basename]
              then
                js <- do_ (EvAiSeason folder_name scan_basename (name ent)) ;;
                match js with
                | Some n =>
                    log_append "[AI] inferred season" [name ent; scan_basename] ;;
                    Ret (Some n)
                | None => Ret None
                end
              else Ret None
          end ;;
        let season := match season with Some s => s | None => default_season end in
        dst_season_path <- ensure_season_dir season ;;
        let sidecars := related_sidecars entries (name ent) season ep in
        (if negb (str_eqb (norm_path scan_dir) (norm_path dst_season_path))
         then maybe_move getenv scan_dir dst_season_path (name ent :: sidecars)
                (dry_run o) (undo o)
         else Ret tt) ;;
        st <- rename_loose_video dst_season_path (name ent) season ep already
                protect_sxxeyy
                (strip (str_join (py " ") [suffix; scan_basename; folder_name]))
                new_stem ;;
        rename_sidecars dst_season_path sidecars season ep st ;;
        Ret (inl st)
    end.

(** One scan directory (lines 2724-2868). *)
Definition scan_one_dir (variety_plans : plans) (root_season_hint : option Z)
    (scan_dir : pystr) (new_stem : option pystr) : prog (option pystr + pystr) :=
  entries <- list_dir scan_dir ;;
  let scan_basename := snd (split_path scan_dir) in
  let scan_season_hint :=
    or_opt (parse_season_from_text scan_basename)
           (if str_eqb scan_dir new_series_path then root_season_hint else None) in
  default_season <- default_season_of_env ;;
  let allow_ai_infer_season := env_flag getenv "AI_INFER_SEASON" "0" in
  let protect_sxxeyy := env_flag getenv "PROTECT_SXXEYY" "0" in
  for_each entries new_stem
    (scan_entry variety_plans root_season_hint default_season scan_dir
       scan_basename scan_season_hint allow_ai_infer_season protect_sxxeyy entries).

(** A video inside a season folder (lines 2881-2914). *)
Definition season_entry (season : Z) (season_path : pystr)
    (entries : list DirEntry) (ent : DirEntry) (st : unit) : prog (unit + pystr) :=
  stop <- do_ EvStopRequested ;;
  if stop then
    log_append "[STOP] series processing stopped by user request" [] ;;
    Ret (inr new_series_path)
  else if is_dir ent then Ret (inl tt)
  else if negb (is_video (name ent)) then Ret (inl tt)
  else
    let '(s, ep, already, suffix) := parse_episode_from_name (name ent) in
    match ep with
    | None => Ret (inl tt)
    | Some ep =>
        let s := match s with Some s => s | None => season end in
        let sidecars := related_sidecars entries (name ent) s ep in
        new_stem <-
          (if rename_files o && (negb already || contains_junk_marker (name ent)) then
             let suffix_ctx :=
               strip (str_join (py " ") [suffix; []; basename season_path; folder_name]) in
             let new_video := build_new_video_name desired_series_name s ep (name ent)
                                suffix_ctx in
             new_full <- maybe_rename_path getenv (join_path season_path (name ent))
                           new_video (dry_run o) true (undo o) ;;
             Ret (fst (splitext (basename new_full)))
           else if rename_files o && already && fix_bare_sxxeyy o
                   && needs_series_prefix_for_sxxeyy (name ent) desired_series_name then
             let new_video := build_prefixed_sxxeyy_name desired_series_name s ep
                                (name ent) in
             new_full <- maybe_rename_path getenv (join_path season_path (name ent))
                           new_video (dry_run o) true (undo o) ;;
             Ret (fst (splitext (basename new_full)))
           else Ret (fst (splitext (name ent)))) ;;
        rename_sidecars season_path sidecars s ep (Some new_stem) ;;
        Ret (inl tt)
    end.

(** One season folder of the second pass (lines 2872-2914). *)
Definition season_pass (e : DirEntry) (st : unit) : prog (unit + pystr) :=
  if negb (is_dir e) then Ret (inl tt)
  else
    match parse_season_from_text (name e) with
    | None => Ret (inl tt)
    | Some season =>
        let season_path := join_path new_series_path (name e) in
        cleanup_ads_in_dir getenv season_path (dry_run o) ;;
        entries <- list_dir season_path ;;
        for_each entries tt (season_entry season season_path entries)
    end.

End Series.
(** The names of the season folders among the entries. *)
Definition season_dirs_of (entries : list DirEntry) : list DirEntry :=
  filter (fun e => is_dir e
                   && match parse_season_from_text (name e) with
                      | Some _ => true | None => false end) entries.

(** Step 1: a season container such as [S1-S3] is flattened, the first
    one only (lines 2646-2654). *)
Definition flatten_container (o : run_opts) (new_series_path : pystr)
    (root_entries : list DirEntry) : prog unit :=
  match find (fun e => is_dir e && is_season_container_folder (name e)) root_entries with
  | None => Ret tt
  | Some e =>
      let container_path := join_path new_series_path (name e) in
      sub_entries <- list_dir container_path ;;
      for_ (season_dirs_of sub_entries)
        (fun sd => maybe_move getenv container_path new_series_path [name sd]
                     (dry_run o) (undo o)) ;;
      list_dir new_series_path ;;
      Ret tt
  end.

(** Step 2: the season folders take their canonical names (lines 2664-2673). *)
Definition normalize_season_dirs (o : run_opts) (new_series_path : pystr)
    (root_entries : list DirEntry) : prog unit :=
  for_ root_entries
    (fun e =>
       if negb (is_dir e) then Ret tt
       else
         match parse_season_from_text (name e) with
         | None => Ret tt
         | Some season =>
             let desired := season_folder_name format_season season in
             if negb (str_eqb (name e) desired) then
               maybe_rename_path getenv (join_path new_series_path (name e)) desired
                 (dry_run o) true (undo o) ;;
               Ret tt
             else Ret tt
         end).

(** Step 3: the directories to scan and the nested shows (lines 2680-2696):
    the state is [(scan_dirs, nested_show_dirs)]. *)
Definition classify_dir (new_series_path desired_series_name : pystr)
    (season_dir_names : list pystr) (st : list pystr * list pystr) (e : DirEntry)
   : list pystr * list pystr :=
  let '(scan_dirs, nested_show_dirs) := st in
  if negb (is_dir e) then st
  else if str_mem (name e) season_dir_names then st
  else if should_skip_misc_folder (name e) then st
  else if looks_like_show_folder_name (name e)
          && negb (is_same_show_container_folder (name e) desired_series_name)
  then (scan_dirs, nested_show_dirs ++ [join_path new_series_path (name e)])
  else (scan_dirs ++ [join_path new_series_path (name e)], nested_show_dirs).

(** The season hints of the scan directories (lines 2706-2713). *)
Definition scan_hints (new_series_path : pystr) (root_season_hint : option Z)
    (scan_dirs : list pystr) : list (pystr * Z) :=
  fold_left
    (fun hints sd =>
       match parse_season_from_text (strip (basename sd)) with
       | Some sh => hints ++ [(sd, sh)]
       | None =>
           match (if str_eqb sd new_series_path then root_season_hint else None) with
           | Some h => hints ++ [(sd, h)]
           | None => hints
           end
       end)
    scan_dirs [].

(** [process_series_folder].  [levels] is [4 - depth]: past depth 3 the
    folder is skipped, so the recursion is on [levels]. *)
Fixpoint process_series_folder (levels : nat) (o : run_opts) (series_path : pystr)
   {struct levels} : prog pystr :=
  let series_path := norm_path series_path in
  let folder_name := snd (split_path series_path) in
  match levels with
  | O =>
      log_append "[SKIP] nesting too deep" [series_path] ;;
      Ret series_path
  | S levels' =>
      let lib_root :=
        match find_library_root series_path (library_roots o) with
        | Some (c :: r) => c :: r
        | _ => os_path_dirname series_path
        end in
      listed <- catch (es <- list_dir series_path ;; Ret (Some es))
                      (fun _ => log_append "[ERROR] list_dir failed" [series_path] ;;
                                Ret None) ;;
      match listed with
      | None => Ret series_path
      | Some root_entries_pre =>
          let video_at_root :=
            existsb (fun e => negb (is_dir e) && is_video (name e)) root_entries_pre in
          let season_dir_count := length (season_dirs_of root_entries_pre) in
          let child_dirs :=
            filter (fun e => is_dir e
                             && match parse_season_from_text (name e) with
                                | None => true | Some _ => false end
                             && negb (should_skip_misc_folder (name e)))
                   root_entries_pre in
          let show_like_child_dirs :=
            filter (fun e => looks_like_show_folder_name (name e)) child_dirs in
          let container_words := re_found RE_CONTAINER_WORDS folder_name in
          if negb video_at_root && Nat.eqb season_dir_count 0
             && ((2 <=? length show_like_child_dirs)%nat
                 || (container_words && (2 <=? length child_dirs)%nat))
          then
            log_append "[INFO] detected collection container" [series_path] ;;
            let dirs_to_process :=
              match show_like_child_dirs with
              | [] => child_dirs
              | _ => show_like_child_dirs
              end in
            for_ dirs_to_process
              (fun d =>
                 let child_path := join_path series_path (name d) in
                 processed_child <- process_series_folder levels' o child_path ;;
                 catch (maybe_move_folder_to_dir getenv processed_child lib_root
                          (dry_run o) (undo o) ;; Ret tt)
                       (fun _ => log_append "[ERROR] move nested show to root failed"
                                   [processed_child; lib_root])) ;;
            Ret series_path
          else
            video_names <- gather_series_context series_path ;;
            meta <- do_ (EvResolveSeries folder_name video_names) ;;
            match meta with
            | None =>
                log_append "[SKIP] TMDB not found for" [series_path] ;;
                Ret series_path
            | Some meta =>
                let desired_series_name :=
                  match meta_year meta with
                  | Some y => if y =? 0 then meta_name meta
                              else meta_name meta ++ py " (" ++ str_of_int y ++ py ")"
                  | None => meta_name meta
                  end in
                new_series_path <-
                  (if rename_series o
                   then maybe_rename_path getenv series_path desired_series_name
                          (dry_run o) false (undo o)
                   else Ret series_path) ;;
                cleanup_ads_in_dir getenv new_series_path (dry_run o) ;;
                relocate_subtitles_in_show_root getenv format_season log_truthy
                  new_series_path (dry_run o) ;;
                root_entries <- list_dir new_series_path ;;
                flatten_container o new_series_path root_entries ;;
                root_entries <- list_dir new_series_path ;;
                normalize_season_dirs o new_series_path root_entries ;;
                root_entries <- list_dir new_series_path ;;
                let season_dir_names := map name (season_dirs_of root_entries) in
                let '(scan_dirs, nested_show_dirs) :=
                  fold_left (classify_dir new_series_path desired_series_name
                               season_dir_names)
                            root_entries ([new_series_path], []) in
                let root_season_hint := season_hint meta in
                default_season <- default_season_of_env ;;
                let hints := scan_hints new_series_path root_season_hint scan_dirs in
                variety_plans <-
                  infer_variety_and_special_episodes scan_dirs hints default_season ;;
                scanned <-
                  for_each scan_dirs None
                    (scan_one_dir o folder_name desired_series_name new_series_path
                       variety_plans root_season_hint) ;;
                match scanned with
                | inr r => Ret r
                | inl _ =>
                    root_entries <- list_dir new_series_path ;;
                    passed <-
                      for_each root_entries tt
                        (season_pass o folder_name desired_series_name new_series_path) ;;
                    match passed with
                    | inr r => Ret r
                    | inl _ =>
                        (match nested_show_dirs with
                         | [] => Ret tt
                         | _ =>
                             log_append "[INFO] found nested show folders under"
                               [new_series_path] ;;
                             for_ nested_show_dirs
                               (fun child_path =>
                                  catch
                                    (child_final <-
                                       process_series_folder levels' o child_path ;;
                                     maybe_move_folder_to_dir getenv child_final
                                       lib_root (dry_run o) (undo o) ;;
                                     Ret tt)
                                    (fun _ =>
                                       log_append
                                         "[ERROR] failed to process nested show folder"
                                         [child_path]))
                         end) ;;
                        Ret new_series_path
                    end
                end
            end
      end
  end.

(** The main loop over the series (lines 3200-3232); [done_set] is what
    [load_state] read. *)
Fixpoint main_loop (process : pystr -> prog pystr) (state_file : pystr)
    (done_set : list pystr) (series_paths : list pystr) : prog unit :=
  match series_paths with
  | [] => Ret tt
  | series_path :: rest_ =>
      stop <- do_ EvStopRequested ;;
      if stop then log_append "[STOP] apply stopped by user request" []
      else
        let sp_norm := norm_path series_path in
        if str_mem sp_norm done_set then
          log_append "[SKIP] resume already done" [series_path] ;;
          main_loop process state_file done_set rest_
        else
          log_append "=== PROCESS ===" [series_path] ;;
          catch (process series_path ;;
                 match state_file with
                 | [] => Ret tt
                 | _ => do_ (EvAppendState sp_norm true)
                 end)
                (fun _ =>
                   log_append "[ERROR]" [series_path] ;;
                   match state_file with
                   | [] => Ret tt
                   | _ => do_ (EvAppendState sp_norm false)
                   end) ;;
          main_loop process state_file done_set rest_
  end.

End Engine.

(* ================================================================== *)
(** * The ledgers (renamer.py, lines 2034-2128, 3181-3232) *)
(* ================================================================== *)

(** A value of a ledger record: a string, a list of strings, or anything
    else with its truth value. *)
Inductive jval : Type :=
| JStr (s : pystr)
| JList (l : list pystr)
| JOther (truthy : bool).

(** A line of a ledger file as both readers see it: blank or not JSON
    (skipped), JSON that is no object, or the fields of an object. *)
Inductive ledger_line : Type :=
| LSkipped
| LNotObject
| LObject (fields : list (pystr * jval)).

Fixpoint jget (fields : list (pystr * jval)) (k : pystr) : option jval :=
  match fields with
  | [] => None
  | (k', v) :: fields' => if str_eqb k k' then Some v else jget fields' k
  end.

Definition truthy (v : option jval) : bool :=
  match v with
  | Some (JStr (_ :: _)) => true
  | Some (JList (_ :: _)) => true
  | Some (JOther b) => b
  | _ => false
  end.

(** [load_state]: the set of the paths marked done.  [None] is a file that
    does not exist or cannot be opened. *)
Definition load_state_line (done : list pystr) (line : ledger_line) : list pystr :=
  match line with
  | LSkipped | LNotObject => done
  | LObject fields =>
      match jget fields (py "status"), jget fields (py "series_path") with
      | Some (JStr st), Some (JStr (c :: p)) =>
          if str_eqb st (py "done") then norm_path (c :: p) :: done else done
      | _, _ => done
      end
  end.

Definition load_state (path : pystr) (file : option (list ledger_line))
   : list pystr :=
  match path, file with
  | _ :: _, Some lines => fold_left load_state_line lines []
  | _, _ => []
  end.



(** The module never imports [Path]: evaluating the name raises
    [NameError] (renamer.py, line 2080; the imports are lines 35-61). *)
Definition global_Path (undo_file : pystr) : prog bool := Raise NameError.

(** One record of the roll-back (lines 2107-2126); [rec.get] on a record
    that is no object raises outside the [try]. *)
Definition undo_one (rec : ledger_line) : prog unit :=
  match rec with
  | LSkipped => Ret tt
  | LNotObject => Raise AttributeError
  | LObject fields =>
      catch
        (match jget fields (py "op") with
         | Some (JStr op) =>
             if str_eqb op (py "rename_path") then
               match jget fields (py "parent"), jget fields (py "old"),
                     jget fields (py "new") with
               | Some (JStr (c1 :: parent)), Some (JStr (c2 :: old)),
                 Some (JStr (c3 :: new_name)) =>
                   log_append "[UNDO] rename"
                     [join_path (c1 :: parent) (c3 :: new_name); c2 :: old] ;;
                   client_rename (join_path (c1 :: parent) (c3 :: new_name)) (c2 :: old)
               | p, ol, nw =>
                   if truthy p && truthy ol && truthy nw
                   then Raise AttributeError else Ret tt
               end
             else if str_eqb op (py "move") then
               match jget fields (py "src_dir"), jget fields (py "dst_dir"),
                     jget fields (py "names") with
               | Some (JStr (c1 :: src_dir)), Some (JStr (c2 :: dst_dir)),
                 Some (JList (n :: names)) =>
                   log_append "[UNDO] move" ((c2 :: dst_dir) :: (c1 :: src_dir) :: n :: names) ;;
                   client_move (c2 :: dst_dir) (c1 :: src_dir) (n :: names)
               | sd, dd, ns =>
                   if truthy sd && truthy dd && truthy ns
                   then Raise AttributeError else Ret tt
               end
             else Ret tt
         | _ => Ret tt
         end)
        (fun _ => log_append "[UNDO] failed" [])
  end.

(** [apply_undo]; [file] is the content of the undo file, [None] when it
    does not exist. *)
Definition apply_undo (undo_file : pystr) (file : option (list ledger_line))
    (yes : bool) : prog unit :=
  let undo_file := strip undo_file in
  match undo_file with
  | [] => Raise ValueError
  | _ =>
      present <- global_Path undo_file ;;
      if negb present then Raise FileNotFoundError
      else if negb yes then Raise RuntimeError
      else
        let recs := match file with Some lines => lines | None => [] end in
        log_append "[UNDO] loaded records" [undo_file] ;;
        for_ (rev recs) undo_one ;;
        log_append "[UNDO] done" []
  end.

(* ================================================================== *)
(** * Notions used in the statements *)
(* ================================================================== *)

(** A slash or a backslash. *)
Definition is_sep (c : Z) : bool := (c =? SLASH) || (c =? BACKSLASH).

(** The string has three characters or more and ends in two separators. *)
Definition ends_with_two_seps (p : pystr) : bool :=
  match rev p with
  | a :: b :: _ :: _ => is_sep a && is_sep b
  | _ => false
  end.

(** A world that answers every request by a function of the request: a
    remote tree that does not change while the program reads it. *)
Definition world : Type := forall X : Type, event X -> X.

Fixpoint run {A : Type} (w : world) (m : prog A) : exn + A :=
  match m with
  | Ret a => inr a
  | Raise e => inl e
  | Do ev k => run w (k (w _ ev))
  end.

(** The names the world lists in a directory, as [unique_name_in_parent]
    reads them: none when the listing fails. *)
Definition listed_names (w : world) (parent : pystr) : list pystr :=
  match w _ (EvListDir (norm_path (norm_path parent))) with
  | inr entries => map name entries
  | inl _ => []
  end.

(** A world with the given answer to every listing, in which nothing
    else fails and no stop is requested. *)
Definition quiet_world (listing : pystr -> exn + list DirEntry) : world :=
  fun X ev =>
    match ev in event T return T with
    | EvListDir path => listing path
    | EvMkdir _ => None
    | EvRename _ _ => None
    | EvMove _ _ _ => None
    | EvRemove _ _ => tt
    | EvLog _ => tt
    | EvUndo _ => tt
    | EvAppendState _ _ => tt
    | EvStopRequested => false
    | EvResolveSeries _ _ => None
    | EvAiSeason _ _ _ => None
    end.

(* ================================================================== *)
(** * The records of the resume ledger (renamer.py, lines 2055-2062,
      3229-3232) *)
(* ================================================================== *)

(** The line [append_state] writes for a series, as [load_state] reads it
    back ([json.loads] of the [json.dumps] of a dictionary of strings):
    [ts] is the time stamp and [err] the text of the exception. *)
Definition state_line (ts err : pystr) (series_path : pystr) (done : bool)
   : ledger_line :=
  LObject
    (if done then
       [(py "series_path", JStr series_path); (py "status", JStr (py "done"));
        (py "ts", JStr ts)]
     else
       [(py "series_path", JStr series_path); (py "status", JStr (py "error"));
        (py "error", JStr err); (py "ts", JStr ts)]).

(* ================================================================== *)
(** * The log hub (logui.py, lines 60-244) *)
(* ================================================================== *)

(** [LogEvent] *)
Record LogEvent : Type :=
  mkLogEvent { ev_id : Z; ev_ts : pystr; ev_level : pystr; ev_action : pystr;
               ev_show : pystr; ev_season : pystr; ev_message : pystr;
               ev_src : pystr; ev_dst : pystr }.

(** [l[-k:]]: the last [k] elements for a positive [k] (all of them when
    there are fewer), the whole list for [k = 0], and [l[|k|:]] for a
    negative [k]. *)
Definition py_last {A : Type} (l : list A) (k : Z) : list A :=
  if k =? 0 then l
  else if 0 <? k then skipn (length l - Z.to_nat k) l
  else skipn (Z.to_nat (- k)) l.

(** A dictionary of counters with string keys: [d.get(k, 0)] and
    [d[k] = d.get(k, 0) + 1]. *)
Fixpoint count_get (d : list (pystr * Z)) (k : pystr) : Z :=
  match d with
  | [] => 0
  | (k', v) :: d' => if str_eqb k k' then v else count_get d' k
  end.

Fixpoint count_bump (d : list (pystr * Z)) (k : pystr) : list (pystr * Z) :=
  match d with
  | [] => [(k, 0 + 1)]
  | (k', v) :: d' =>
      if str_eqb k k' then (k', v + 1) :: d' else (k', v) :: count_bump d' k
  end.

(** The state of a [LogHub] that [push], [snapshot] and [stats] use (the
    file, the subscribers and the lock apart). *)
Record LogHub : Type :=
  mkHub { hub_keep : Z; hub_events : list LogEvent; hub_seq : Z;
          hub_counts_level : list (pystr * Z);
          hub_counts_action : list (pystr * Z) }.

(** [LogHub.__init__]: [keep = max(1, int(keep))] *)
Definition new_hub (keep : Z) : LogHub := mkHub (Z.max 1 keep) [] 0 [] [].

(** [LogHub.push] *)
Definition push (h : LogHub) (ev : LogEvent) : LogHub :=
  let events := hub_events h ++ [ev] in
  let events :=
    if hub_keep h <? Z.of_nat (length events) then py_last events (hub_keep h)
    else events in
  mkHub (hub_keep h) events (hub_seq h)
        (count_bump (hub_counts_level h) (ev_level ev))
        (match ev_action ev with
         | [] => hub_counts_action h
         | _ => count_bump (hub_counts_action h) (ev_action ev)
         end).

(** [LogHub.snapshot] *)
Definition snapshot (h : LogHub) (limit since : Z) : list LogEvent :=
  if negb (since =? 0) && (0 <? since)
  then py_last (filter (fun e => since <? ev_id e) (hub_events h)) limit
  else py_last (hub_events h) limit.

(** [stats()["total"]] *)
Definition stats_total (h : LogHub) : Z := Z.of_nat (length (hub_events h)).

Section Hub.
Context {U : Unicode}.

(** [LogHub._infer_action] *)
Definition _infer_action (msg : pystr) : pystr :=
  let m := uni_lower msg in
  if str_in (py "[dry]") m && str_in (py "rename") m then py "rename"
  else if str_in (py "[dry]") m && str_in (py "move") m then py "move"
  else if str_in (py "rename ") m then py "rename"
  else if str_in (py " move ") m || startswith m (py "move ") then py "move"
  else if str_in (py "[skip]") m then py "skip"
  else if str_in (py "[error]") m then py "error"
  else [].

(** One call of [emit]: the time stamp, the fields that
    [_infer_structured_fields] reads off the message (show, season,
    source, destination), the level and the message. *)
Record emit_call : Type :=
  mkEmit { call_ts : pystr; call_fields : pystr * pystr * pystr * pystr;
           call_level : pystr; call_message : pystr }.

(** [LogHub.emit]: the event gets the next identifier ([_next_id]) and is
    pushed. *)
Definition emit (h : LogHub) (c : emit_call) : LogHub :=
  let seq := hub_seq h + 1 in
  let h := mkHub (hub_keep h) (hub_events h) seq
                 (hub_counts_level h) (hub_counts_action h) in
  let '(show, season, src, dst) := call_fields c in
  push h (mkLogEvent seq (call_ts c) (call_level c) (_infer_action (call_message c))
                     show season (call_message c) src dst).

End Hub.

(* ================================================================== *)
(** * The paged listing (renamer.py, lines 1205-1247) *)
(* ================================================================== *)

(** What the server answers for a page of [/api/fs/list]: the entries of
    its content and the total it reports ([int(d.get("total") or 0)], 0
    when that is no number), or the exception [post] raised. *)
Definition page_answer : Type := exn + (list DirEntry * Z).

(** The loop of [AlistClient.list_dir]: the state is [(page, total, out)].
    Each turn asks for one page; [turns] bounds their number (the loop
    leaves by [page > max_pages] at the latest). *)
Fixpoint list_dir_loop (fetch : Z -> page_answer) (max_pages : Z) (turns : nat)
    (page : Z) (total : option Z) (out : list DirEntry) : exn + list DirEntry :=
  match turns with
  | O => inr out
  | S turns' =>
      match fetch page with
      | inl e => inl e
      | inr (content, reported) =>
          let total := match total with None => reported | Some t => t end in
          let out := out ++ content in
          match content with
          | [] => inr out
          | _ =>
              if negb (total =? 0) && (total <=? Z.of_nat (length out)) then inr out
              else
                let page := page + 1 in
                if max_pages <? page then inr out
                else list_dir_loop fetch max_pages turns' page (Some total) out
          end
      end
  end.

Definition list_dir_pages (fetch : Z -> page_answer) (max_pages : Z)
   : exn + list DirEntry :=
  list_dir_loop fetch max_pages (Z.to_nat (Z.max 1 max_pages)) 1 None [].

(* ================================================================== *)
(** * Library roots and language tags (renamer.py, lines 974-1022,
      2307-2315) *)
(* ================================================================== *)

(** [s.split(sep)] for a separator of one character: the pieces between
    the occurrences, at least one. *)
Fixpoint split_on (sep : Z) (s : pystr) : list pystr :=
  match s with
  | [] => [[]]
  | c :: t =>
      if c =? sep then [] :: split_on sep t
      else match split_on sep t with
           | p :: ps => (c :: p) :: ps
           | [] => [[c]]
           end
  end.

(** [parse_csv_paths] *)
Definition parse_csv_paths (csv_value : pystr) : list pystr :=
  map norm_path
      (filter (fun p => negb (str_eqb p []))
              (map strip (split_on 44 csv_value))).

(** [COMMON_LANGS] *)
Definition COMMON_LANGS : list pystr :=
  map py ["en"; "zh"; "ja"; "ko"; "fr"; "de"; "es"; "it"; "ru"; "pt"; "ar"; "nl";
          "sv"; "no"; "da"; "fi"; "pl"; "cs"; "hu"; "tr"; "th"; "vi"; "id"; "ms";
          "he"; "el"; "uk"; "ro"; "bg"; "hr"; "sr"; "sk"; "sl"; "et"; "lv"; "lt";
          "fa"; "ur"]%string.

(** The dictionary [mapping] of [_normalize_lang_token]; the two keys
    that are no ASCII are U+7B80 U+4F53 and U+7E41 U+4F53. *)
Definition LANG_MAPPING : list (pystr * pystr) :=
  [ (py "en", py "en"); (py "eng", py "en");
    (py "chs", py "chs"); (py "sc", py "chs"); (py "zh-cn", py "chs");
    (py "zh-hans", py "chs"); (py "zhcn", py "chs"); (py "gb", py "chs");
    ([31616; 20307], py "chs");
    (py "cht", py "cht"); (py "tc", py "cht"); (py "zh-tw", py "cht");
    (py "zh-hant", py "cht"); (py "zhtw", py "cht"); (py "big5", py "cht");
    ([32321; 20307], py "cht");
    (py "zh", py "zh"); (py "chi", py "zh"); (py "zho", py "zh");
    (py "ja", py "ja"); (py "jpn", py "ja"); (py "jp", py "ja");
    (py "ko", py "ko"); (py "kor", py "ko"); (py "kr", py "ko");
    (py "es", py "es"); (py "spa", py "es");
    (py "fr", py "fr"); (py "fra", py "fr");
    (py "de", py "de"); (py "deu", py "de");
    (py "it", py "it"); (py "ita", py "it");
    (py "ru", py "ru"); (py "rus", py "ru");
    (py "pt", py "pt"); (py "por", py "pt");
    (py "pt-br", py "pt-br"); (py "ptbr", py "pt-br");
    (py "ar", py "ar"); (py "ara", py "ar") ].

(** [mapping.get(t)] *)
Fixpoint str_assoc (d : list (pystr * pystr)) (k : pystr) : option pystr :=
  match d with
  | [] => None
  | (k', v) :: d' => if str_eqb k k' then Some v else str_assoc d' k
  end.

(** [re.fullmatch(r"[a-z]{2}-[a-z]{2}", t)], and [t.split("-")[0]] of
    such a token. *)
Definition is_az (c : Z) : bool := (97 <=? c) && (c <=? 122).

Definition region_base (t : pystr) : option pystr :=
  match t with
  | [a; b; d; e; f] =>
      if is_az a && is_az b && (d =? 45) && is_az e && is_az f then Some [a; b]
      else None
  | _ => None
  end.

(** [_normalize_lang_token], from the token in lower case on. *)
Definition lang_of (t : pystr) : option pystr :=
  match str_assoc LANG_MAPPING t with
  | Some v => Some v
  | None =>
      if startswith t (py "zh-") then
        if str_in (py "hans") t || endswith t (py "-cn") then Some (py "chs")
        else if str_in (py "hant") t || endswith t (py "-tw") then Some (py "cht")
        else Some (py "zh")
      else
        match (match region_base t with
               | Some base => if str_mem base COMMON_LANGS then Some base else None
               | None => None
               end) with
        | Some base => Some base
        | None => if str_mem t COMMON_LANGS then Some t else None
        end
  end.

Section Languages.
Context {U : Unicode}.

(** [_normalize_lang_token] *)
Definition _normalize_lang_token (tok : pystr) : option pystr :=
  match tok with
  | [] => None
  | _ => lang_of (str_replace (uni_lower (strip tok)) (py "_") (py "-"))
  end.

End Languages.


(* ================================================================== *)
(** * Notions used in the proofs *)
(* ================================================================== *)

(** The edit distance by recursion on the first characters. *)
Fixpoint lev (a : pystr) : pystr -> nat :=
  fix lev_a (b : pystr) : nat :=
    match a, b with
    | [], _ => length b
    | _, [] => length a
    | x :: a', y :: b' =>
        Nat.min (Nat.min (S (lev a' b)) (S (lev_a b')))
                (lev a' b' + if (x =? y)%Z then 0 else 1)%nat
    end.

(** The cell [(i, j)] of the table of distances between prefixes. *)
Definition cell (a b : pystr) (i j : nat) : Z :=
  Z.of_nat (lev (rev (firstn i a)) (rev (firstn j b))).

(** A row of [m + 1] cells given by a function of the column. *)
Definition row (m : nat) (f : nat -> Z) : list Z := map f (seq 0 (S m)).

(** The row during the inner loop: the columns up to [k] are of line [i],
    the others of the line before. *)
Definition mixed (a b : pystr) (i k : nat) (j : nat) : Z :=
  if (j <=? k)%nat then cell a b i j else cell a b (i - 1) j.

(** The length of the run of characters of a set at the head of a string. *)
Fixpoint run_length (f : Z -> bool) (s : pystr) : nat :=
  match s with
  | x :: t => if f x then S (run_length f t) else O
  | [] => O
  end.

(** [norm_path] after the backslashes are replaced and the leading slash
    is added, before the trailing slash is dropped. *)
Definition subst_chr (a b : Z) (c : Z) : Z := if c =? a then b else c.

Definition slashed (p : pystr) : pystr :=
  let q := map (subst_chr BACKSLASH SLASH) p in
  if startswith q [SLASH] then q else SLASH :: q.


(** ** The variety planner *)

(** A chain of numbers, each the least from the bound on that is not
    taken, the next bound being its successor. *)
Inductive numbered (taken : Z -> Prop) : Z -> list Z -> Prop :=
| numbered_nil (lo : Z) : numbered taken lo []
| numbered_cons (lo e : Z) (es : list Z) :
    lo <= e -> ~ taken e -> (forall x, lo <= x < e -> taken x) ->
    numbered taken (e + 1) es ->
    numbered taken lo (e :: es).

(** [d.get(k, default)] for the dictionaries of lists. *)
Definition dict_list {V : Type} (d : list (Z * list V)) (k : Z) : list V :=
  match dict_get d k with
  | Some l => l
  | None => []
  end.

(** The key of a candidate in the plans. *)
Definition cand_key (c : cand) : plan_key := (c_dir c, c_name c).

(** The order of the sort of the candidates. *)
Definition cand_leb (x y : cand) : bool := key_leb (c_key x) (c_key y).

Section PlannerNotions.
Context {U : Unicode}.

(** A file of a scan directory, with the directory and the season the
    directory stands for. *)
Definition scanned : Type := pystr * Z * DirEntry.

Definition scan_items (listings : list (pystr * list DirEntry))
    (hints : list (pystr * Z)) (default_season : Z) : list scanned :=
  flat_map (fun l => map (fun e => (fst l, season_guess_of hints default_season (fst l), e))
                         (snd l))
           listings.

Definition scanned_key (it : scanned) : plan_key :=
  (fst (fst it), name (snd it)).

(** The episode number that a video file carries in its name. *)
Definition consumes (it : scanned) : option Z :=
  let ent := snd it in
  if is_dir ent then None
  else if negb (is_video (name ent)) then None
  else snd (fst (fst (parse_episode_from_name (name ent)))).

(** The numbers consumed in a season: those carried by the video files of
    the scan directories that stand for the season. *)
Definition consumed (files : list scanned) (season : Z) (ep : Z) : Prop :=
  exists it, In it files /\ snd (fst it) = season /\ consumes it = Some ep.

(** The candidate that a video file without a number makes, with its
    target season. *)
Definition candidate_of (it : scanned) : option (Z * cand) :=
  let '(scan_dir, season_guess, ent) := it in
  if is_dir ent then None
  else if negb (is_video (name ent)) then None
  else
    match snd (fst (fst (parse_episode_from_name (name ent)))) with
    | Some _ => None
    | None =>
        let special := is_special_episode_name (name ent)
                       || is_special_episode_name (strip (basename scan_dir)) in
        let qishu := fst (parse_qishu_and_part (name ent)) in
        let part_rank := snd (parse_qishu_and_part (name ent)) in
        let date_key := parse_date_key (name ent) in
        match qishu, date_key with
        | None, None => None
        | _, _ =>
            let date_or := match date_key with
                           | Some 0 | None => 99999999 | Some d => d end in
            let fname := uni_lower (normalize_spaces (to_halfwidth (name ent))) in
            Some (if special then 0 else season_guess,
                  mkCand (if special then KSpecial date_or fname
                          else KNormal (match qishu with Some q => q | None => 9999 end)
                                       part_rank date_or fname)
                         scan_dir (name ent) special)
        end
    end.

(** The candidates of the files, in the order of the scan. *)
Definition candidates (files : list scanned) : list (Z * cand) :=
  flat_map (fun it => match candidate_of it with Some x => [x] | None => [] end) files.

(** The candidates of one season, in the order of the scan. *)
Definition season_cands (cl : list (Z * cand)) (season : Z) : list cand :=
  map snd (filter (fun x => fst x =? season) cl).


(** The body of the first loop of the planner on a file. *)
Definition gather_item (st : list (Z * list cand) * list (Z * list Z)) (it : scanned)
   : list (Z * list cand) * list (Z * list Z) :=
  gather_entry (fst (fst it)) (strip (basename (fst (fst it)))) (snd (fst it)) st (snd it).

End PlannerNotions.

(** A season folder of a variety show, for the examples: two dated files
    listed out of order, a file that carries the number 1 and a text
    file. *)
Definition variety_folder : list (pystr * list DirEntry) :=
  [(py "/tv/Show/Season 1",
    [mkEntry (py "20240108.mp4") false; mkEntry (py "Show E01.mp4") false;
     mkEntry (py "20240101.mp4") false; mkEntry (py "notes.txt") false])].

(** ** What a pattern matches *)

(** The character before the position that follows the text [w]. *)
Definition last_of (pv : option Z) (w : pystr) : option Z :=
  fold_left (fun _ x => Some x) w pv.

Section PatternNotions.
Context {U : Unicode}.

(** [rx ci r i pv w s g g']: at position [i], after the character [pv] and
    before the text [w ++ s], the pattern [r] matches [w]; the groups [g]
    become [g'].  The look-ahead is the matcher's own. *)
Inductive rx (ci : bool)
   : regex -> nat -> option Z -> pystr -> pystr -> caps -> caps -> Prop :=
| rx_eps i pv s g : rx ci Eps i pv [] s g g
| rx_chr cs i pv x s g :
    cs_match ci cs x = true -> rx ci (Chr cs) i pv [x] s g g
| rx_seq a b i pv w1 w2 s g g1 g2 :
    rx ci a i pv w1 (w2 ++ s) g g1 ->
    rx ci b (i + length w1) (last_of pv w1) w2 s g1 g2 ->
    rx ci (Seq a b) i pv (w1 ++ w2) s g g2
| rx_alt_l a b i pv w s g g' :
    rx ci a i pv w s g g' -> rx ci (Alt a b) i pv w s g g'
| rx_alt_r a b i pv w s g g' :
    rx ci b i pv w s g g' -> rx ci (Alt a b) i pv w s g g'
| rx_star cs i pv w s g :
    forallb (cs_match ci cs) w = true -> rx ci (Star cs) i pv w s g g
| rx_lazy cs i pv w s g :
    forallb (cs_match ci cs) w = true -> rx ci (LazyStar cs) i pv w s g g
| rx_group n a i pv w s g g' :
    rx ci a i pv w s g g' -> rx ci (Group n a) i pv w s g ((n, w) :: g')
| rx_bol pv s g : rx ci Bol 0 pv [] s g g
| rx_eol i pv s g : s = [] \/ s = [10] -> rx ci Eol i pv [] s g g
| rx_wordb i pv s g :
    xorb (isword_opt pv) (isword_opt (hd_error s)) = true ->
    rx ci WordB i pv [] s g g
| rx_ahead_pos a i pv s g :
    mt ci unit a (Cursor i pv s) g (fun _ _ => Some tt) = Some tt ->
    rx ci (Ahead true a) i pv [] s g g
| rx_ahead_neg a i pv s g :
    mt ci unit a (Cursor i pv s) g (fun _ _ => Some tt) = None ->
    rx ci (Ahead false a) i pv [] s g g
| rx_behind positive cs i pv s g :
    Bool.eqb match pv with Some x => cs_match ci cs x | None => false end
             positive = true ->
    rx ci (Behind positive cs) i pv [] s g g.

(** The text [pre ++ w ++ post] has the marker [w] of the pattern [p]
    after [pre], with the groups [g]. *)
Definition marker (p : pattern) (pre w post : pystr) (g : caps) : Prop :=
  rx (ignorecase p) (body p) (length pre) (last_of None pre) w post [] g.

(** A string of [lo] to [hi] decimal digits. *)
Definition digits (lo hi : nat) (ds : pystr) : Prop :=
  (lo <= length ds <= hi)%nat /\ forallb isdecimal ds = true.

(** The text has a marker of the pattern somewhere. *)
Definition has_marker (p : pattern) (s : pystr) : Prop :=
  exists pre w post g, s = pre ++ w ++ post /\ marker p pre w post g.

(** No marker of the pattern starts before the end of [pre]. *)
Definition first_marker (p : pattern) (s pre : pystr) : Prop :=
  forall pre' w' post' g',
    s = pre' ++ w' ++ post' -> marker p pre' w' post' g' ->
    (length pre <= length pre')%nat.

(** The text of an [SxxEyy] marker with the digits [ds] and [de]: an [S]
    in either case (or a letter that folds to it), the season digits,
    white space, an [E] in either case, the episode digits. *)
Definition sxxeyy_text (w ds de : pystr) : Prop :=
  exists sc ws ec,
    w = sc :: ds ++ ws ++ ec :: de
    /\ ci_fold sc = 115 /\ ci_fold ec = 101 /\ forallb isspace ws = true.

(** The text of an [NxM] marker: the season digits, white space, an [x]
    in either case, white space, the episode digits. *)
Definition nxm_text (w ds de : pystr) : Prop :=
  exists ws x ws',
    w = ds ++ ws ++ x :: ws' ++ de
    /\ ci_fold x = 120
    /\ forallb isspace ws = true /\ forallb isspace ws' = true.

(** The text starts with a decimal digit. *)
Definition starts_with_digit (s : pystr) : bool :=
  match s with
  | c :: _ => isdecimal c
  | [] => false
  end.

(** The episode of a parse result. *)
Definition episode_of (r : name_facts) : option Z := snd (fst (fst r)).

End PatternNotions.

(* ================================================================== *)
(** * Notions used in the further properties *)
(* ================================================================== *)

(** The printable characters [safe_filename] replaces (it also replaces the
    control characters U+0000..U+001F). *)
Definition UNSAFE_CHARS : pystr :=
  py "<>:" ++ [DQUOTE; SLASH; BACKSLASH] ++ py "|?*".

(** Replacing every run of characters of a class by [repl], read from the
    left; [in_run] tells that the run was already replaced. *)
Fixpoint collapse (f : Z -> bool) (repl : pystr) (in_run : bool) (s : pystr) : pystr :=
  match s with
  | [] => []
  | x :: t =>
      if f x
      then (if in_run then collapse f repl true t else repl ++ collapse f repl true t)
      else x :: collapse f repl false t
  end.

(** No two white space characters in a row ([after_space]: the character
    before the text was one). *)
Fixpoint no_double (after_space : bool) (s : pystr) : bool :=
  match s with
  | [] => true
  | c :: t =>
      if isspace c then negb after_space && no_double true t
      else no_double false t
  end.

(** The test of [find_library_root]: the normalised root [rr] is the path
    [p] or a directory above it. *)
Definition covers (p rr : pystr) : bool :=
  str_eqb p rr || startswith p (rstrip_chars rr (py "/") ++ py "/").

(** The Chinese numerals of the digits 0 to 9, and the usual way of
    writing a number below 100 with them and the numeral for ten. *)
Definition cn_digit (d : Z) : Z :=
  nth (Z.to_nat d) [38646; 19968; 20108; 19977; 22235; 20116; 20845; 19971; 20843; 20061] 0.

Definition cn_numeral (n : Z) : pystr :=
  if n <? 10 then [cn_digit n]
  else if n =? 10 then [ZH_SHI]
  else if n <? 20 then [ZH_SHI; cn_digit (n - 10)]
  else if n mod 10 =? 0 then [cn_digit (n / 10); ZH_SHI]
  else [cn_digit (n / 10); ZH_SHI; cn_digit (n mod 10)].

(** The sort key of a candidate is in the range the planner produces: a
    date key (or the default 99999999) from 20000101 on, a period number
    of at most four numerals, a part rank from 0 to 3. *)
Definition key_in_range (k : sort_key) : Prop :=
  match k with
  | KSpecial d _ => 20000101 <= d <= 99999999
  | KNormal q p d _ => 0 <= q <= 11110 /\ 0 <= p <= 3 /\ 20000101 <= d <= 99999999
  end.

(** ** Runs in a world that changes *)

(** A world that may change between two requests: the answer to a request
    depends on how many requests were made before it. *)
Definition timeline : Type := nat -> world.

(** What a request changes: the remote tree, the undo ledger or the
    resume ledger. *)
Inductive effect : Type :=
| FxMkdir (path : pystr)
| FxRename (path new_name : pystr)
| FxMove (src_dir dst_dir : pystr) (names : list pystr)
| FxRemove (dir_path : pystr) (names : list pystr)
| FxUndo (r : undo_rec)
| FxState (series_path : pystr) (done : bool).

Definition effect_of {X : Type} (ev : event X) : list effect :=
  match ev with
  | EvMkdir p => [FxMkdir p]
  | EvRename p n => [FxRename p n]
  | EvMove s d ns => [FxMove s d ns]
  | EvRemove d ns => [FxRemove d ns]
  | EvUndo r => [FxUndo r]
  | EvAppendState p d => [FxState p d]
  | _ => []
  end.

(** The run of a program from the time [n]: its result, the time after
    it, and the changes it requested, in order. *)
Fixpoint exec {A : Type} (tl : timeline) (n : nat) (m : prog A)
   : (exn + A) * nat * list effect :=
  match m with
  | Ret a => (inr a, n, [])
  | Raise e => (inl e, n, [])
  | Do ev k =>
      let '(r, n', fx) := exec tl (S n) (k (tl n _ ev)) in
      (r, n', effect_of ev ++ fx)
  end.

Definition outcome {A : Type} (tl : timeline) (n : nat) (m : prog A) : exn + A :=
  fst (fst (exec tl n m)).

Definition effects {A : Type} (tl : timeline) (n : nat) (m : prog A) : list effect :=
  snd (exec tl n m).

(** The records of the resume ledger among the changes. *)
Definition state_records (fx : list effect) : list (pystr * bool) :=
  flat_map (fun f => match f with FxState p d => [(p, d)] | _ => [] end) fx.

(** The names a listing of the directory answers at the time [n], as
    [unique_name_in_parent] reads them: none when the listing fails. *)
Definition listed_at (tl : timeline) (n : nat) (parent : pystr) : list pystr :=
  match tl n _ (EvListDir (norm_path (norm_path parent))) with
  | inr entries => map name entries
  | inl _ => []
  end.

(** A steady world seen as a timeline. *)
Definition steady (w : world) : timeline := fun _ => w.

(** ** The log hub *)

(** The last [k] elements of a list. *)
Definition lastn {A : Type} (k : nat) (l : list A) : list A :=
  skipn (length l - k) l.

(** The events that a sequence of calls of [emit] creates on a hub whose
    counter stands at [s]. *)
Section HubNotions.
Context {U : Unicode}.

Definition event_of (id : Z) (c : emit_call) : LogEvent :=
  let '(show, season, src, dst) := call_fields c in
  mkLogEvent id (call_ts c) (call_level c) (_infer_action (call_message c))
             show season (call_message c) src dst.

Fixpoint emitted (s : Z) (calls : list emit_call) : list LogEvent :=
  match calls with
  | [] => []
  | c :: calls' => event_of (s + 1) c :: emitted (s + 1) calls'
  end.

End HubNotions.

(** The hub with its counter set to [s]. *)
Definition reseq (h : LogHub) (s : Z) : LogHub :=
  mkHub (hub_keep h) (hub_events h) s (hub_counts_level h) (hub_counts_action h).

(** The number of events with a level, or with an action. *)
Definition with_level (lvl : pystr) (evs : list LogEvent) : Z :=
  Z.of_nat (length (filter (fun e => str_eqb lvl (ev_level e)) evs)).

Definition with_action (act : pystr) (evs : list LogEvent) : Z :=
  Z.of_nat (length (filter (fun e => str_eqb act (ev_action e)) evs)).

(** The integers from [lo + 1] to [hi]. *)
Definition ids_between (lo hi : nat) : list Z :=
  map Z.of_nat (seq (S lo) (hi - lo)).

(** ** The paged listing *)

(** A server that holds the entries [all] of a directory and answers the
    page [p] with its [per_page] entries and the true total. *)
Definition paging (all : list DirEntry) (per_page : nat) (page : Z) : page_answer :=
  inr (firstn per_page (skipn ((Z.to_nat page - 1) * per_page) all),
       Z.of_nat (length all)).

(** ** Programs that change nothing *)



(** The listing of a directory holds a video file. *)
Section EngineNotions.
Context {U : Unicode}.


End EngineNotions.

(** ** Moves that overwrite nothing *)

(** A change that [maybe_move] may request when it moves the files one by
    one from [src] to [dst], given the names [taken] in the destination:
    the move of one file whose name is not taken, the rename of a file of
    [src] to a name that is not taken, or an undo record. *)
Definition safe_move (src dst : pystr) (taken : list pystr) (f : effect) : Prop :=
  match f with
  | FxMove s d ns =>
      s = norm_path src /\ d = norm_path dst
      /\ exists x, ns = [x] /\ x <> [] /\ ~ In x taken
  | FxRename p r =>
      r <> [] /\ ~ In r taken /\ exists x, p = norm_path (join_path src x)
  | FxUndo _ => True
  | _ => False
  end.

(** ** Language tags *)

(** The tags [_normalize_lang_token] can answer. *)
Definition LANG_TAGS : list pystr :=
  py "chs" :: py "cht" :: py "pt-br" :: COMMON_LANGS.

(** [str.lower] is the ASCII lower case on ASCII text. *)
Definition ascii_lower_law {U : Unicode} : Prop :=
  forall s, Forall (fun c => 0 <= c < 128) s -> uni_lower s = basic_lower s.


(** ** The tail of a canonical name *)

(** The characters of the tail that [build_new_video_name] writes after
    the series name: the space, the dash, ASCII digits and letters. *)
Definition plain_chr (c : Z) : bool :=
  (c =? 32) || (c =? 45) || ((48 <=? c) && (c <=? 57))
  || ((65 <=? c) && (c <=? 90)) || ((97 <=? c) && (c <=? 122)).

(** A text of plain characters that neither starts nor ends with a space
    and has no two spaces in a row. *)
Definition tidy (t : pystr) : bool :=
  forallb plain_chr t && no_double true t && negb (isspace (last t SPACE)).

(* ================================================================== *)
(** * Properties: strings *)
(* ================================================================== *)

Lemma str_eqb_spec (a b : pystr) : reflect (a = b) (str_eqb a b).
Proof.
  revert b. induction a as [|x a IH]; intros [|y b]; simpl; try (constructor; congruence).
  destruct (Z.eqb_spec x y); simpl.
  - destruct (IH b); constructor; congruence.
  - constructor; congruence.
Qed.

Lemma str_eqb_refl (a : pystr) : str_eqb a a = true.
Proof. destruct (str_eqb_spec a a); congruence. Qed.

Lemma str_eqb_eq (a b : pystr) : str_eqb a b = true <-> a = b.
Proof. destruct (str_eqb_spec a b); split; congruence. Qed.

Lemma str_eqb_neq (a b : pystr) : str_eqb a b = false <-> a <> b.
Proof. destruct (str_eqb_spec a b); split; congruence. Qed.

Lemma str_mem_In (x : pystr) (xs : list pystr) : str_mem x xs = true <-> In x xs.
Proof.
  unfold str_mem. rewrite existsb_exists. split.
  - intros (y & Hy & E). apply str_eqb_eq in E. now subst.
  - intros H. exists x. split; [assumption | apply str_eqb_refl].
Qed.

Lemma str_mem_not_In (x : pystr) (xs : list pystr) : str_mem x xs = false <-> ~ In x xs.
Proof.
  rewrite <- str_mem_In. destruct (str_mem x xs); split; congruence.
Qed.

Lemma chr_mem_In (c : Z) (s : pystr) : chr_mem c s = true <-> In c s.
Proof.
  unfold chr_mem. rewrite existsb_exists. split.
  - intros (y & Hy & E). apply Z.eqb_eq in E. now subst.
  - intros H. exists c. split; [assumption | apply Z.eqb_refl].
Qed.

Lemma chr_mem_not_In (c : Z) (s : pystr) : chr_mem c s = false <-> ~ In c s.
Proof.
  rewrite <- chr_mem_In. destruct (chr_mem c s); split; congruence.
Qed.

Lemma chr_mem_app (c : Z) (s t : pystr) :
  chr_mem c (s ++ t) = chr_mem c s || chr_mem c t.
Proof. unfold chr_mem. apply existsb_app. Qed.

Lemma startswith_nil (s : pystr) : startswith s [] = true.
Proof. now destruct s. Qed.

(** Replacing one character by another is a map. *)
Lemma str_replace_chr (s : pystr) (a b : Z) :
  str_replace s [a] [b] = map (subst_chr a b) s.
Proof.
  unfold str_replace. induction s as [|c s IH]; [reflexivity|].
  cbn [replace_from startswith length Nat.pred map].
  unfold subst_chr at 1. rewrite (Z.eqb_sym a c).
  rewrite startswith_nil, andb_true_r.
  destruct (c =? a); simpl; now rewrite IH.
Qed.

Lemma startswith_chr (s : pystr) (c : Z) :
  startswith s [c] = match s with x :: _ => c =? x | [] => false end.
Proof. destruct s; simpl; [reflexivity | now rewrite startswith_nil, andb_true_r]. Qed.

Lemma endswith_chr (s : pystr) (c : Z) :
  endswith s [c] = match rev s with x :: _ => c =? x | [] => false end.
Proof. unfold endswith. simpl rev. apply startswith_chr. Qed.

Lemma startswith_app (s t : pystr) : startswith (s ++ t) s = true.
Proof. induction s; simpl; [apply startswith_nil | now rewrite Z.eqb_refl]. Qed.

(** [rfind] of one character. *)
Lemma rfind_from_chr_absent (c : Z) (s : pystr) (i last : Z) :
  ~ In c s -> rfind_from [c] s i last = last.
Proof.
  revert i last. induction s as [|x s IH]; intros i last H; simpl; [reflexivity|].
  rewrite startswith_nil, andb_true_r.
  destruct (Z.eqb_spec c x) as [->|N]; [exfalso; apply H; now left|].
  apply IH. intros Hin. apply H. now right.
Qed.

Lemma rfind_from_chr_last (c : Z) (s t : pystr) (i last : Z) :
  ~ In c t ->
  rfind_from [c] (s ++ c :: t) i last = i + Z.of_nat (length s).
Proof.
  intros H. revert i last. induction s as [|x s IH]; intros i last.
  - simpl. rewrite Z.eqb_refl, startswith_nil. simpl.
    rewrite rfind_from_chr_absent by assumption. lia.
  - cbn [app rfind_from]. rewrite IH. cbn [length]. lia.
Qed.

Lemma rfind_chr_absent (c : Z) (s : pystr) : ~ In c s -> rfind s [c] = -1.
Proof. apply rfind_from_chr_absent. Qed.

Lemma rfind_chr_last (c : Z) (s t : pystr) :
  ~ In c t -> rfind (s ++ c :: t) [c] = Z.of_nat (length s).
Proof. intros H. unfold rfind. now rewrite rfind_from_chr_last. Qed.

Lemma slice_to_app (s t : pystr) : slice_to (s ++ t) (Z.of_nat (length s)) = s.
Proof.
  unfold slice_to. rewrite Nat2Z.id, firstn_app, Nat.sub_diag, firstn_all.
  simpl. apply app_nil_r.
Qed.

Lemma slice_from_app (s t : pystr) : slice_from (s ++ t) (Z.of_nat (length s)) = t.
Proof.
  unfold slice_from. rewrite Nat2Z.id, skipn_app, Nat.sub_diag, skipn_all.
  reflexivity.
Qed.

Lemma rpartition_chr_last (c : Z) (s t : pystr) :
  ~ In c t -> rpartition (s ++ c :: t) [c] = (s, [c], t).
Proof.
  intros H. unfold rpartition. rewrite rfind_chr_last by assumption.
  destruct (Z.ltb_spec (Z.of_nat (length s)) 0); [lia|].
  rewrite slice_to_app. f_equal.
  replace (Z.of_nat (length s) + Z.of_nat (length [c])) with (Z.of_nat (length (s ++ [c])))
    by (rewrite length_app; simpl; lia).
  replace (s ++ c :: t) with ((s ++ [c]) ++ t) by (now rewrite <- app_assoc).
  apply slice_from_app.
Qed.

(* ================================================================== *)
(** * Properties: the path algebra *)
(* ================================================================== *)

Example norm_path_ex1 : norm_path (py "tv/show/") = py "/tv/show".
Proof. reflexivity. Qed.
Example split_path_ex1 :
  split_path (py "/tv/show/a.mkv") = (py "/tv/show", py "a.mkv").
Proof. reflexivity. Qed.
Example splitext_ex1 : splitext (py "Mr. Robot.mkv") = (py "Mr. Robot", py ".mkv").
Proof. reflexivity. Qed.
Example splitext_ex2 : splitext (py "..bashrc") = (py "..bashrc", []).
Proof. reflexivity. Qed.

Lemma norm_path_unfold (p : pystr) :
  p <> [] ->
  norm_path p =
    if negb (str_eqb (slashed p) [SLASH]) && endswith (slashed p) [SLASH]
    then removelast (slashed p) else slashed p.
Proof.
  intros H. destruct p as [|x p]; [congruence|].
  unfold norm_path, slashed. change (py "/") with [SLASH].
  rewrite str_replace_chr. reflexivity.
Qed.

Lemma slashed_head (p : pystr) : exists t, slashed p = SLASH :: t.
Proof.
  unfold slashed. rewrite startswith_chr.
  destruct (map (subst_chr BACKSLASH SLASH) p) as [|x q] eqn:E.
  - now exists [].
  - destruct (Z.eqb_spec SLASH x) as [<-|N]; eauto.
Qed.

Lemma norm_path_starts_with_slash (p : pystr) :
  startswith (norm_path p) (py "/") = true.
Proof.
  destruct p as [|x p]; [reflexivity|].
  rewrite norm_path_unfold by discriminate.
  destruct (slashed_head (x :: p)) as [t E]. rewrite E.
  change (py "/") with [SLASH]. rewrite startswith_chr.
  destruct (negb _ && _) eqn:C; [|apply Z.eqb_refl].
  destruct t as [|y t]; [discriminate C|]. apply Z.eqb_refl.
Qed.

(** The reverse of [slashed p], from the reverse of [p]. *)
Lemma rev_slashed (p : pystr) :
  rev (slashed p) =
    let r := map (subst_chr BACKSLASH SLASH) (rev p) in
    if SLASH =? last r 0 then r else r ++ [SLASH].
Proof.
  unfold slashed. rewrite startswith_chr, map_rev.
  set (q := map (subst_chr BACKSLASH SLASH) p). cbv zeta.
  destruct q as [|x q]; [reflexivity|].
  replace (last (rev (x :: q)) 0) with x
    by (simpl rev; now rewrite last_last).
  destruct (SLASH =? x); [reflexivity|]. reflexivity.
Qed.

Lemma is_sep_subst (c : Z) : is_sep c = (SLASH =? subst_chr BACKSLASH SLASH c).
Proof.
  unfold is_sep, subst_chr, SLASH, BACKSLASH.
  destruct (Z.eqb_spec c 92); destruct (Z.eqb_spec c 47); subst; try reflexivity; try lia.
Qed.

Lemma norm_path_trailing (p : pystr) :
  (norm_path p = py "/" \/ endswith (norm_path p) (py "/") = false)
  <-> ends_with_two_seps p = false.
Proof.
  change (py "/") with [SLASH].
  destruct p as [|x0 p0]; [simpl; split; auto|].
  set (p := x0 :: p0). assert (Hp : p <> []) by discriminate.
  rewrite norm_path_unfold by assumption.
  rewrite !endswith_chr. unfold ends_with_two_seps.
  assert (Eq : forall s, s = [SLASH] <-> rev s = [SLASH]).
  { intros s. split; intros E.
    - now rewrite E.
    - rewrite <- (rev_involutive s), E. reflexivity. }
  match goal with |- (?n = _ \/ _) <-> _ => rewrite (Eq n) end.
  replace (str_eqb (slashed p) [SLASH]) with (str_eqb (rev (slashed p)) [SLASH]).
  2:{ destruct (str_eqb_spec (rev (slashed p)) [SLASH]) as [E|N];
      destruct (str_eqb_spec (slashed p) [SLASH]) as [E'|N']; try reflexivity.
      - apply Eq in E. contradiction.
      - apply Eq in E'. contradiction. }
  assert (Rl : forall (c : bool) (s : pystr),
             rev (if c then removelast s else s) = if c then tl (rev s) else rev s).
  { intros c s. destruct c; [|reflexivity].
    rewrite <- (rev_involutive s) at 1.
    destruct (rev s) as [|y r]; [reflexivity|].
    simpl rev. rewrite removelast_last, rev_involutive. reflexivity. }
  rewrite !Rl. clear Rl Eq.
  rewrite rev_slashed. cbv zeta.
  destruct (rev p) as [|a [|b [|c r]]] eqn:E.
  - exfalso. apply Hp. rewrite <- (rev_involutive p), E. reflexivity.
  - cbn [map last].
    set (a' := subst_chr BACKSLASH SLASH a).
    destruct (Z.eqb_spec SLASH a') as [<-|Na].
    + split; [intros _; reflexivity|intros _]. left. cbn -[Z.eqb SLASH]. now rewrite Z.eqb_refl.
    + split; [intros _; reflexivity|intros _]. right. cbn -[Z.eqb SLASH].
      apply Z.eqb_neq in Na. rewrite Na. rewrite andb_false_r. cbn -[Z.eqb SLASH].
      assumption.
  - cbn [map last].
    set (a' := subst_chr BACKSLASH SLASH a). set (b' := subst_chr BACKSLASH SLASH b).
    split; [intros _; reflexivity|intros _].
    destruct (Z.eqb_spec SLASH b') as [<-|Nb];
      destruct (Z.eqb_spec SLASH a') as [<-|Na];
      cbn -[Z.eqb SLASH]; rewrite ?Z.eqb_refl; cbn -[Z.eqb SLASH];
      try (apply Z.eqb_neq in Na; rewrite ?Na); try (apply Z.eqb_neq in Nb; rewrite ?Nb);
      rewrite ?andb_false_r; cbn -[Z.eqb SLASH]; auto.
  - cbn [map].
    set (r' := map (subst_chr BACKSLASH SLASH) r).
    set (a' := subst_chr BACKSLASH SLASH a). set (b' := subst_chr BACKSLASH SLASH b).
    set (c' := subst_chr BACKSLASH SLASH c).
    assert (Sh : exists t, (if SLASH =? last (a' :: b' :: c' :: r') 0
                            then a' :: b' :: c' :: r'
                            else (a' :: b' :: c' :: r') ++ [SLASH])
                           = a' :: b' :: c' :: t).
    { destruct (SLASH =? _); eexists; reflexivity. }
    destruct Sh as [t ->].
    rewrite (is_sep_subst a), (is_sep_subst b). fold a' b'.
    cbn [str_eqb tl]. rewrite andb_false_r. cbn [negb andb].
    destruct (SLASH =? a') eqn:Ea; cbn [andb].
    + destruct (SLASH =? b') eqn:Eb; split; try congruence; auto.
      intros [X|X]; [discriminate X | discriminate X].
    + split; auto.
Qed.

Lemma map_subst_absent (a b : Z) (s : pystr) :
  ~ In a s -> map (subst_chr a b) s = s.
Proof.
  induction s as [|c s IH]; intros H; [reflexivity|].
  simpl. unfold subst_chr at 1.
  destruct (Z.eqb_spec c a) as [->|N]; [exfalso; apply H; now left|].
  f_equal. apply IH. intros Hin. apply H. now right.
Qed.

Lemma slashed_no_backslash (p : pystr) : ~ In BACKSLASH (slashed p).
Proof.
  assert (M : ~ In BACKSLASH (map (subst_chr BACKSLASH SLASH) p)).
  { rewrite in_map_iff. intros (c & E & _). unfold subst_chr in E.
    destruct (Z.eqb_spec c BACKSLASH); [discriminate E | congruence]. }
  unfold slashed. destruct (startswith _ _); [assumption|].
  intros [E|Hin]; [discriminate E | contradiction].
Qed.

Lemma In_removelast (c : Z) (s : pystr) : In c (removelast s) -> In c s.
Proof.
  induction s as [|x [|y s] IH]; simpl; auto.
  intros [E|H]; [now left | right; now apply IH].
Qed.

Lemma norm_path_no_backslash (p : pystr) : ~ In BACKSLASH (norm_path p).
Proof.
  destruct p as [|x p].
  - simpl. intros [E|[]]. discriminate E.
  - rewrite norm_path_unfold by discriminate.
    destruct (negb _ && _).
    + intros H. apply In_removelast in H. now apply slashed_no_backslash in H.
    + apply slashed_no_backslash.
Qed.

Lemma norm_path_nonempty (p : pystr) : exists t, norm_path p = SLASH :: t.
Proof.
  pose proof (norm_path_starts_with_slash p) as H.
  change (py "/") with [SLASH] in H. rewrite startswith_chr in H.
  destruct (norm_path p) as [|x t]; [discriminate H|].
  apply Z.eqb_eq in H. subst. eauto.
Qed.

(** A path that is already in the shape [norm_path] produces is left as
    it is. *)
Lemma norm_path_fixed (t : pystr) :
  ~ In BACKSLASH t -> last (SLASH :: t) 0 <> SLASH ->
  norm_path (SLASH :: t) = SLASH :: t.
Proof.
  intros Hb Hl. rewrite norm_path_unfold by discriminate.
  assert (E : slashed (SLASH :: t) = SLASH :: t).
  { unfold slashed. rewrite map_subst_absent.
    - rewrite startswith_chr. now rewrite Z.eqb_refl.
    - intros [X|X]; [discriminate X | contradiction]. }
  rewrite E, endswith_chr.
  assert (L : forall s : pystr, s <> [] ->
              match rev s with x :: _ => SLASH =? x | [] => false end
              = (SLASH =? last s 0)).
  { intros s Hs. destruct (exists_last Hs) as (s' & y & ->).
    rewrite rev_app_distr, last_last. reflexivity. }
  rewrite L by discriminate.
  destruct (Z.eqb_spec SLASH (last (SLASH :: t) 0)); [congruence|].
  now rewrite andb_false_r.
Qed.

Lemma split_join_roundtrip (d n : pystr) :
  n <> [] -> chr_mem SLASH n = false -> chr_mem BACKSLASH n = false ->
  split_path (join_path d n) = (norm_path d, n).
Proof.
  intros Hn Hs Hb. apply chr_mem_not_In in Hs. apply chr_mem_not_In in Hb.
  destruct (norm_path_nonempty d) as [t Et].
  pose proof (norm_path_no_backslash d) as Hd. rewrite Et in Hd.
  assert (Hlast : forall pre : pystr, last (pre ++ n) 0 <> SLASH).
  { intros pre. destruct (exists_last Hn) as (n' & y & ->).
    rewrite app_assoc, last_last. intros ->. apply Hs.
    apply in_or_app. right. now left. }
  unfold join_path. rewrite Et. change (py "/") with [SLASH].
  destruct (str_eqb_spec (SLASH :: t) [SLASH]) as [E|N].
  - (* the directory is the root *)
    injection E as ->. unfold split_path. cbn [app].
    rewrite norm_path_fixed; [| assumption | apply (Hlast [SLASH])].
    change (py "/") with [SLASH].
    destruct (str_eqb_spec (SLASH :: n) [SLASH]) as [E|_].
    { injection E as ->. congruence. }
    change (SLASH :: n) with ([] ++ SLASH :: n).
    rewrite rpartition_chr_last by assumption. reflexivity.
  - unfold split_path.
    replace ((SLASH :: t) ++ [SLASH] ++ n) with (SLASH :: (t ++ SLASH :: n)) by reflexivity.
    rewrite norm_path_fixed.
    + change (py "/") with [SLASH].
      destruct (str_eqb_spec (SLASH :: t ++ SLASH :: n) [SLASH]) as [E|_].
      { injection E as E. destruct t; discriminate E. }
      change (SLASH :: t ++ SLASH :: n) with ((SLASH :: t) ++ SLASH :: n).
      rewrite rpartition_chr_last by assumption. reflexivity.
    + intros Hin. apply in_app_or in Hin. destruct Hin as [Hin|[X|Hin]].
      * apply Hd. now right.
      * discriminate X.
      * contradiction.
    + replace (SLASH :: t ++ SLASH :: n) with ((SLASH :: t ++ [SLASH]) ++ n)
        by (simpl; now rewrite <- app_assoc).
      apply Hlast.
Qed.

(** ** C10.  The path algebra

    The claim fails twice: [norm_path] drops one trailing slash, so an
    input that ends in two separators keeps one; and [split_path]
    normalises its argument again, so a backslash in the name becomes a
    separator. *)

(** C10, counterexample: [norm_path "a//"] is ["/a/"], which ends in a
    slash and is not the root; and a name with a backslash and no slash is
    split inside the name. *)
Lemma C10_counterexample :
  norm_path (py "a//") = py "/a/"
  /\ endswith (norm_path (py "a//")) (py "/") = true
  /\ chr_mem SLASH (py "a" ++ [BACKSLASH] ++ py "b") = false
  /\ split_path (join_path (py "/d") (py "a" ++ [BACKSLASH] ++ py "b"))
     = (py "/d/a", py "b")
  /\ split_path (join_path (py "/d") (py "a" ++ [BACKSLASH] ++ py "b"))
     <> (norm_path (py "/d"), py "a" ++ [BACKSLASH] ++ py "b").
Proof. repeat split; try reflexivity. discriminate. Qed.

(** C10 (amended): for every input [norm_path] returns a string that
    starts with a slash; the result is the root or has no trailing slash
    exactly when the input does not have three characters or more and end
    in two separators; and for every directory [d] and non-empty name [n]
    with neither slash nor backslash,
    [split_path (join_path d n) = (norm_path d, n)]. *)
Theorem C10_path_algebra :
  (forall p, startswith (norm_path p) (py "/") = true)
  /\ (forall p, (norm_path p = py "/" \/ endswith (norm_path p) (py "/") = false)
                <-> ends_with_two_seps p = false)
  /\ (forall d n, n <> [] -> chr_mem SLASH n = false -> chr_mem BACKSLASH n = false ->
                  split_path (join_path d n) = (norm_path d, n)).
Proof.
  split; [exact norm_path_starts_with_slash|].
  split; [exact norm_path_trailing | exact split_join_roundtrip].
Qed.

(** C10, witness: the round trip at a concrete directory and name. *)
Lemma C10_witness :
  split_path (join_path (py "tv" ++ [BACKSLASH] ++ py "shows/") (py "a.mkv"))
  = (norm_path (py "tv" ++ [BACKSLASH] ++ py "shows/"), py "a.mkv").
Proof.
  apply (proj2 (proj2 C10_path_algebra)); [discriminate | reflexivity | reflexivity].
Defined.

(* ================================================================== *)
(** * Properties: the similarity ratio *)
(* ================================================================== *)

Lemma lev_nil_l (b : pystr) : lev [] b = length b.
Proof. destruct b; reflexivity. Qed.

Lemma lev_nil_r (a : pystr) : lev a [] = length a.
Proof. destruct a; reflexivity. Qed.

Lemma lev_cons (x y : Z) (a b : pystr) :
  lev (x :: a) (y :: b)
  = Nat.min (Nat.min (S (lev a (y :: b))) (S (lev (x :: a) b)))
            (lev a b + if (x =? y)%Z then 0 else 1)%nat.
Proof. reflexivity. Qed.

(** [lev a b] edits turn [a] into [b]. *)
Lemma lev_edits (a b : pystr) : edits a b (lev a b).
Proof.
  revert b. induction a as [|x a IHa]; intros b.
  - rewrite lev_nil_l. induction b as [|y b IHb]; simpl; constructor; assumption.
  - induction b as [|y b IHb].
    + rewrite lev_nil_r. simpl. apply edits_delete.
      specialize (IHa []). now rewrite lev_nil_r in IHa.
    + rewrite lev_cons.
      set (d1 := S (lev a (y :: b))). set (d2 := S (lev (x :: a) b)).
      set (d3 := (lev a b + if (x =? y)%Z then 0 else 1)%nat).
      assert (H1 : edits (x :: a) (y :: b) d1) by (apply edits_delete, IHa).
      assert (H2 : edits (x :: a) (y :: b) d2) by (apply edits_insert, IHb).
      assert (H3 : edits (x :: a) (y :: b) d3).
      { unfold d3. destruct (Z.eqb_spec x y) as [->|N].
        - rewrite Nat.add_0_r. apply edits_keep, IHa.
        - rewrite Nat.add_1_r. apply edits_subst, IHa. }
      destruct (Nat.min_spec (Nat.min d1 d2) d3) as [[_ ->]|[_ ->]]; [|assumption].
      destruct (Nat.min_spec d1 d2) as [[_ ->]|[_ ->]]; assumption.
Qed.

(** No fewer edits do. *)
Lemma lev_least (a b : pystr) (n : nat) : edits a b n -> (lev a b <= n)%nat.
Proof.
  induction 1 as [|x a b n _ IH|x y a b n _ IH|x a b n _ IH|y a b n _ IH].
  - simpl. lia.
  - rewrite lev_cons, Z.eqb_refl. lia.
  - rewrite lev_cons. destruct (x =? y); lia.
  - destruct b as [|y b].
    + rewrite lev_nil_r in *. simpl. lia.
    + rewrite lev_cons. lia.
  - destruct a as [|x a].
    + rewrite lev_nil_l in *. simpl. lia.
    + rewrite lev_cons. lia.
Qed.

Lemma lev_is_distance (a b : pystr) : levenshtein_distance a b (lev a b).
Proof. split; [apply lev_edits | apply lev_least]. Qed.

Lemma levenshtein_distance_unique (a b : pystr) (d d' : nat) :
  levenshtein_distance a b d -> levenshtein_distance a b d' -> d = d'.
Proof.
  intros [E L] [E' L']. apply Nat.le_antisymm; [apply L | apply L']; assumption.
Qed.

(** Edits at the end of the strings. *)
Lemma edits_keep_last (x : Z) (a b : pystr) (n : nat) :
  edits a b n -> edits (a ++ [x]) (b ++ [x]) n.
Proof.
  induction 1; simpl; try (constructor; assumption).
  apply edits_keep, edits_nil.
Qed.

Lemma edits_subst_last (x y : Z) (a b : pystr) (n : nat) :
  edits a b n -> edits (a ++ [x]) (b ++ [y]) (S n).
Proof.
  induction 1; simpl; try (constructor; assumption).
  apply edits_subst, edits_nil.
Qed.

Lemma edits_delete_last (x : Z) (a b : pystr) (n : nat) :
  edits a b n -> edits (a ++ [x]) b (S n).
Proof.
  induction 1; simpl; try (constructor; assumption).
  apply edits_delete, edits_nil.
Qed.

Lemma edits_insert_last (y : Z) (a b : pystr) (n : nat) :
  edits a b n -> edits a (b ++ [y]) (S n).
Proof.
  induction 1; simpl; try (constructor; assumption).
  apply edits_insert, edits_nil.
Qed.

Lemma edits_rev (a b : pystr) (n : nat) : edits a b n -> edits (rev a) (rev b) n.
Proof.
  induction 1; simpl.
  - constructor.
  - now apply edits_keep_last.
  - now apply edits_subst_last.
  - now apply edits_delete_last.
  - now apply edits_insert_last.
Qed.

Lemma lev_rev (a b : pystr) : lev (rev a) (rev b) = lev a b.
Proof.
  apply (levenshtein_distance_unique a b); [|apply lev_is_distance].
  destruct (lev_is_distance (rev a) (rev b)) as [E L]. split.
  - apply edits_rev in E. now rewrite !rev_involutive in E.
  - intros n H. apply L. now apply edits_rev.
Qed.

Lemma lev_bound (a b : pystr) : (lev a b <= Nat.max (length a) (length b))%nat.
Proof.
  revert b. induction a as [|x a IH]; intros b.
  - rewrite lev_nil_l. simpl. lia.
  - destruct b as [|y b].
    + rewrite lev_nil_r. lia.
    + rewrite lev_cons. specialize (IH b). simpl length.
      destruct (x =? y); lia.
Qed.

(** Rows of the table. *)
Lemma list_assign_middle {A : Type} (l1 l2 : list A) (x v : A) :
  list_assign (l1 ++ x :: l2) (length l1) v = l1 ++ v :: l2.
Proof.
  unfold list_assign.
  rewrite firstn_app, Nat.sub_diag, firstn_all. simpl firstn. rewrite app_nil_r.
  f_equal. f_equal.
  replace (S (length l1)) with (length (l1 ++ [x])) by (rewrite length_app; simpl; lia).
  replace (l1 ++ x :: l2) with ((l1 ++ [x]) ++ l2) by (now rewrite <- app_assoc).
  rewrite skipn_app, Nat.sub_diag, skipn_all. reflexivity.
Qed.

Lemma seq_split (m j : nat) :
  (j <= m)%nat -> seq 0 (S m) = seq 0 j ++ j :: seq (S j) (m - j).
Proof.
  intros H. replace (S m) with (j + S (m - j))%nat by lia.
  rewrite seq_app. reflexivity.
Qed.

Lemma nth_row (m : nat) (f : nat -> Z) (j : nat) :
  (j <= m)%nat -> nth j (row m f) 0 = f j.
Proof.
  intros H. unfold row.
  rewrite (nth_indep _ 0 (f O)) by (rewrite length_map, length_seq; lia).
  rewrite map_nth, seq_nth by lia. reflexivity.
Qed.

Lemma row_ext (m : nat) (f g : nat -> Z) :
  (forall j, (j <= m)%nat -> f j = g j) -> row m f = row m g.
Proof.
  intros H. apply map_ext_in. intros j Hj. apply in_seq in Hj. apply H. lia.
Qed.

Lemma assign_row (m : nat) (f : nat -> Z) (j : nat) (v : Z) :
  (j <= m)%nat ->
  list_assign (row m f) j v = row m (fun x => if Nat.eqb x j then v else f x).
Proof.
  intros H. unfold row. rewrite (seq_split m j H), !map_app. cbn [map].
  pose proof (list_assign_middle (map f (seq 0 j)) (map f (seq (S j) (m - j))) (f j) v) as E.
  rewrite length_map, length_seq in E.
  rewrite E, Nat.eqb_refl. f_equal; [|f_equal].
  - apply map_ext_in. intros x Hx. apply in_seq in Hx.
    destruct (Nat.eqb_spec x j); [lia | reflexivity].
  - apply map_ext_in. intros x Hx. apply in_seq in Hx.
    destruct (Nat.eqb_spec x j); [lia | reflexivity].
Qed.

(** The cells of the table. *)
Lemma cell_0_l (a b : pystr) (j : nat) :
  (j <= length b)%nat -> cell a b 0 j = Z.of_nat j.
Proof.
  intros H. unfold cell. simpl firstn. simpl rev.
  rewrite lev_nil_l, length_rev, length_firstn. f_equal. lia.
Qed.

Lemma cell_0_r (a b : pystr) (i : nat) :
  (i <= length a)%nat -> cell a b i 0 = Z.of_nat i.
Proof.
  intros H. unfold cell. simpl firstn. simpl rev.
  rewrite lev_nil_r, length_rev, length_firstn. f_equal. lia.
Qed.

Lemma firstn_snoc (s : pystr) (i : nat) :
  (i < length s)%nat -> firstn (S i) s = firstn i s ++ [nth i s 0].
Proof.
  revert i. induction s as [|x s IH]; intros i H; simpl in H; [lia|].
  destruct i as [|i]; [reflexivity|].
  rewrite firstn_cons. rewrite IH by lia. reflexivity.
Qed.

Lemma cell_step (a b : pystr) (i j : nat) :
  (i < length a)%nat -> (j < length b)%nat ->
  cell a b (S i) (S j)
  = Z.min (Z.min (cell a b i (S j) + 1) (cell a b (S i) j + 1))
          (cell a b i j + if nth i a 0 =? nth j b 0 then 0 else 1).
Proof.
  intros Hi Hj. unfold cell.
  rewrite (firstn_snoc a i Hi), (firstn_snoc b j Hj), !rev_app_distr.
  cbn [rev app]. rewrite lev_cons.
  rewrite !Nat2Z.inj_min, !Nat2Z.inj_succ, Nat2Z.inj_add.
  destruct (nth i a 0 =? nth j b 0); simpl Z.of_nat; lia.
Qed.

(** The inner loop fills the row of line [i] from the row before. *)
Lemma lev_inner_fills (a b : pystr) (i : nat) :
  (i < length a)%nat ->
  forall len k, (k + len = length b)%nat ->
    fold_left (lev_inner a b (S i)) (seq (S k) len)
              (cell a b i k, row (length b) (mixed a b (S i) k))
    = (cell a b i (length b), row (length b) (mixed a b (S i) (length b))).
Proof.
  intros Hi. induction len as [|len IH]; intros k Hk.
  - replace k with (length b) by lia. reflexivity.
  - cbn [seq fold_left].
    assert (Hk' : (k < length b)%nat) by lia.
    unfold lev_inner at 2.
    rewrite !nth_row by lia.
    replace (S k - 1)%nat with k by lia. replace (S i - 1)%nat with i by lia.
    assert (M1 : mixed a b (S i) k (S k) = cell a b i (S k)).
    { unfold mixed. destruct (Nat.leb_spec (S k) k); [lia|].
      now replace (S i - 1)%nat with i by lia. }
    assert (M2 : mixed a b (S i) k k = cell a b (S i) k).
    { unfold mixed. now rewrite Nat.leb_refl. }
    rewrite M1, M2, <- cell_step by assumption.
    rewrite assign_row by lia.
    rewrite <- (IH (S k)) by lia. f_equal. f_equal.
    apply row_ext. intros j Hj. unfold mixed.
    destruct (Nat.eqb_spec j (S k)) as [->|N].
    + now rewrite Nat.leb_refl.
    + destruct (Nat.leb_spec j k); destruct (Nat.leb_spec j (S k)); try lia; reflexivity.
Qed.

Lemma lev_outer_fills (a b : pystr) (i : nat) :
  (i < length a)%nat ->
  lev_outer a b (row (length b) (cell a b i)) (S i) = row (length b) (cell a b (S i)).
Proof.
  intros Hi. unfold lev_outer.
  rewrite nth_row by lia. rewrite assign_row by lia.
  unfold range. replace (length b + 1 - 1)%nat with (length b) by lia.
  replace (row (length b) (fun x => if Nat.eqb x 0 then Z.of_nat (S i) else cell a b i x))
    with (row (length b) (mixed a b (S i) 0)).
  2:{ apply row_ext. intros j Hj. unfold mixed.
      destruct (Nat.eqb_spec j 0) as [->|N].
      - simpl. apply cell_0_r. lia.
      - destruct (Nat.leb_spec j 0); [lia|]. now replace (S i - 1)%nat with i by lia. }
  rewrite (lev_inner_fills a b i Hi (length b) 0) by lia.
  cbn [snd]. apply row_ext. intros j Hj. unfold mixed.
  destruct (Nat.leb_spec j (length b)); [reflexivity | lia].
Qed.

Lemma lev_outer_loop (a b : pystr) :
  forall len k, (k + len = length a)%nat ->
    fold_left (lev_outer a b) (seq (S k) len) (row (length b) (cell a b k))
    = row (length b) (cell a b (length a)).
Proof.
  induction len as [|len IH]; intros k Hk.
  - replace k with (length a) by lia. reflexivity.
  - cbn [seq fold_left]. rewrite lev_outer_fills by lia. apply IH. lia.
Qed.

(** The loops compute the distance. *)
Lemma lev_rows_correct (a b : pystr) : lev_rows a b = Z.of_nat (lev a b).
Proof.
  unfold lev_rows, range.
  replace (length b + 1 - 0)%nat with (S (length b)) by lia.
  replace (length a + 1 - 1)%nat with (length a) by lia.
  replace (map Z.of_nat (seq 0 (S (length b)))) with (row (length b) (cell a b 0)).
  2:{ apply map_ext_in. intros j Hj. apply in_seq in Hj. apply cell_0_l. lia. }
  rewrite (lev_outer_loop a b (length a) 0) by lia.
  rewrite nth_row by lia. unfold cell. rewrite !firstn_all. now rewrite lev_rev.
Qed.

Lemma ratio_bounds (d m : Z) :
  0 <= d <= m -> 0 < m ->
  (0 <= 1 - inject_Z d / inject_Z m /\ 1 - inject_Z d / inject_Z m <= 1)%Q.
Proof.
  intros Hd Hm. destruct m as [|p|p]; try lia.
  unfold Qle, Qminus, Qplus, Qopp, Qdiv, Qmult, Qinv, inject_Z.
  cbn [Qnum Qden]. rewrite ?Pos2Z.inj_mul.
  split; nia.
Qed.

Lemma ratio_zero (m : Z) : 0 < m -> (1 - inject_Z m / inject_Z m == 0)%Q.
Proof.
  intros Hm. destruct m as [|p|p]; try lia.
  unfold Qeq, Qminus, Qplus, Qopp, Qdiv, Qmult, Qinv, inject_Z.
  cbn [Qnum Qden]. rewrite ?Pos2Z.inj_mul. nia.
Qed.

Section SimilarityProperties.
Context {U : Unicode}.

(** ** C9.  The similarity ratio *)

(** C9: for every pair of strings the ratio is one minus the Levenshtein
    distance of the lower-cased strings over the greater of their lengths
    (and one when both are empty, where the quotient has no meaning); it
    lies between 0 and 1.  The lengths are those of the strings compared,
    that is after [lower]; the float of the program is the rational it
    rounds. *)
Theorem C9_levenshtein_ratio (a b : pystr) :
  let la := uni_lower a in
  let lb := uni_lower b in
  let m := Nat.max (length la) (length lb) in
  exists d : nat,
    levenshtein_distance la lb d
    /\ (levenshtein_ratio a b ==
          if Nat.eqb m 0 then 1
          else 1 - inject_Z (Z.of_nat d) / inject_Z (Z.of_nat m))%Q
    /\ (0 <= levenshtein_ratio a b /\ levenshtein_ratio a b <= 1)%Q.
Proof.
  intros la lb m. exists (lev la lb).
  split; [apply lev_is_distance|].
  pose proof (lev_bound la lb) as Hb. fold m in Hb.
  unfold levenshtein_ratio. fold la lb.
  destruct la as [|x la'] eqn:Ea.
  - destruct lb as [|y lb'] eqn:Eb.
    + simpl in m. subst m. simpl. split; [reflexivity|]. split; discriminate.
    + rewrite lev_nil_l. subst m. cbn [length Nat.max].
      cbn [Nat.eqb]. split.
      * symmetry. apply ratio_zero. lia.
      * split; [apply Qle_refl | discriminate].
  - destruct lb as [|y lb'] eqn:Eb.
    + rewrite lev_nil_r. subst m. cbn [length Nat.max].
      cbn [Nat.eqb]. split.
      * symmetry. apply ratio_zero. lia.
      * split; [apply Qle_refl | discriminate].
    + rewrite lev_rows_correct, <- Nat2Z.inj_max. fold m.
      assert (Hm : (0 < m)%nat) by (subst m; simpl; lia).
      destruct (Nat.eqb_spec m 0); [lia|].
      split; [reflexivity|]. apply ratio_bounds; lia.
Qed.

End SimilarityProperties.

(* ================================================================== *)
(** * Properties: the matcher on the simplest patterns *)
(* ================================================================== *)

Section RegexProperties.
Context {U : Unicode}.

(** One character of a set. *)
Lemma match_here_chr (ci : bool) (cs : cset) (i : nat) (pv : option Z) (s : pystr) :
  match_here (Pattern ci (Chr cs)) (Cursor i pv s)
  = match s with
    | x :: _ => if cs_match ci cs x then Some (RMatch i (S i) []) else None
    | [] => None
    end.
Proof. destruct s as [|x t]; [reflexivity|]. unfold match_here. simpl. reflexivity. Qed.

(** A star whose continuation accepts takes the whole run. *)
Lemma star_greedy_accepts (ci : bool) (cs : cset) (i0 : nat) (g : caps) :
  forall (s : pystr) (i : nat) (pv : option Z),
    star_greedy ci rmatch cs i pv s (fun c' => Some (RMatch i0 (pos c') g))
    = Some (RMatch i0 (i + run_length (cs_match ci cs) s) g).
Proof.
  induction s as [|x t IH]; intros i pv; simpl.
  - now rewrite Nat.add_0_r.
  - destruct (cs_match ci cs x).
    + rewrite IH. do 2 f_equal. lia.
    + now rewrite Nat.add_0_r.
Qed.

(** One or more characters of a set. *)
Lemma match_here_plus (ci : bool) (cs : cset) (i : nat) (pv : option Z) (s : pystr) :
  match_here (Pattern ci (Plus cs)) (Cursor i pv s)
  = match s with
    | x :: t =>
        if cs_match ci cs x
        then Some (RMatch i (S i + run_length (cs_match ci cs) t) [])
        else None
    | [] => None
    end.
Proof.
  destruct s as [|x t]; [reflexivity|].
  unfold match_here, Plus. cbn [body ignorecase mt rest].
  destruct (cs_match ci cs x); [|reflexivity].
  cbn [advance rest pos prev]. apply (star_greedy_accepts ci cs i []).
Qed.

(** Substituting one character for the characters of a set is a map. *)
Lemma sub_scan_chr (ci : bool) (cs : cset) (r : Z) :
  forall (s : pystr) (i : nat) (pv : option Z),
    sub_scan (Pattern ci (Chr cs)) [r] O i pv s
    = map (fun c => if cs_match ci cs c then r else c) s.
Proof.
  induction s as [|x t IH]; intros i pv; [reflexivity|].
  cbn [sub_scan map]. rewrite match_here_chr.
  destruct (cs_match ci cs x).
  - cbn [m_end]. replace (i <? S i)%nat with true by (symmetry; apply Nat.ltb_lt; lia).
    rewrite Nat.sub_diag. cbn [app]. now rewrite IH.
  - now rewrite IH.
Qed.

(** Substituting for runs of characters of a set keeps the others. *)
Lemma In_skipn_run (f : Z -> bool) (c : Z) (s : pystr) :
  f c = false -> In c s -> In c (skipn (run_length f s) s).
Proof.
  intros Hc. induction s as [|x t IH]; intros H; [assumption|].
  cbn [run_length]. destruct (f x) eqn:Ex; [|assumption].
  cbn [skipn]. apply IH. destruct H as [->|H]; [congruence | assumption].
Qed.

Lemma sub_scan_plus_keeps (ci : bool) (cs : cset) (repl : pystr) (c : Z) :
  cs_match ci cs c = false ->
  forall (s : pystr) (skip i : nat) (pv : option Z),
    In c (skipn skip s) ->
    In c (sub_scan (Pattern ci (Plus cs)) repl skip i pv s).
Proof.
  intros Hc. induction s as [|x t IH]; intros skip i pv H.
  - now rewrite skipn_nil in H.
  - cbn [sub_scan]. destruct skip as [|k].
    + rewrite match_here_plus. cbn [skipn] in H.
      destruct (cs_match ci cs x) eqn:Ex.
      * cbn [m_end].
        replace (i <? S i + run_length (cs_match ci cs) t)%nat with true
          by (symmetry; apply Nat.ltb_lt; lia).
        apply in_or_app. right. apply IH.
        replace (S i + run_length (cs_match ci cs) t - S i)%nat
          with (run_length (cs_match ci cs) t) by lia.
        apply In_skipn_run; [assumption|].
        destruct H as [->|H]; [congruence | assumption].
      * destruct H as [->|H]; [now left | right].
        apply IH. assumption.
    + apply IH. assumption.
Qed.

End RegexProperties.

(* ================================================================== *)
(** * Properties: the canonical video name *)
(* ================================================================== *)

Lemma lstrip_by_keeps (f : Z -> bool) (c : Z) (s : pystr) :
  f c = false -> In c s -> In c (lstrip_by f s).
Proof.
  intros Hc. induction s as [|x t IH]; intros H; [assumption|].
  simpl. destruct (f x) eqn:Ex; [|assumption].
  apply IH. destruct H as [->|H]; [congruence | assumption].
Qed.

Lemma lstrip_by_subset (f : Z -> bool) (c : Z) (s : pystr) :
  In c (lstrip_by f s) -> In c s.
Proof.
  induction s as [|x t IH]; intros H; [assumption|].
  simpl in H. destruct (f x); [right; now apply IH | assumption].
Qed.

Lemma strip_by_keeps (f : Z -> bool) (c : Z) (s : pystr) :
  f c = false -> In c s -> In c (strip_by f s).
Proof.
  intros Hc H. unfold strip_by, rstrip_by.
  apply in_rev. rewrite rev_involutive.
  apply lstrip_by_keeps; [assumption|]. apply -> in_rev.
  now apply lstrip_by_keeps.
Qed.

Lemma strip_by_subset (f : Z -> bool) (c : Z) (s : pystr) :
  In c (strip_by f s) -> In c s.
Proof.
  unfold strip_by, rstrip_by. intros H.
  apply in_rev in H. apply lstrip_by_subset in H. apply in_rev in H.
  now apply lstrip_by_subset in H.
Qed.

(** [os.path.splitext] *)
Lemma last_occurrence (c : Z) (p : pystr) :
  ~ In c p \/ exists s t, p = s ++ c :: t /\ ~ In c t.
Proof.
  induction p as [|x p IH]; [left; auto|].
  destruct IH as [N|(s & t & -> & N)].
  - destruct (Z.eq_dec x c) as [->|D].
    + right. exists [], p. split; [reflexivity | assumption].
    + left. intros [E|H]; [congruence | contradiction].
  - right. exists (x :: s), t. split; [reflexivity | assumption].
Qed.

Lemma all_dots_between_prefix (b r : pystr) :
  forall (pre : pystr) ,
    all_dots_between (pre ++ b ++ r) (Z.of_nat (length pre)) (length b)
    = forallb (fun c => c =? DOT) b.
Proof.
  induction b as [|x b IH]; intros pre; [reflexivity|].
  cbn [all_dots_between length forallb].
  rewrite Nat2Z.id.
  rewrite nth_error_app2 by lia. rewrite Nat.sub_diag. cbn [app nth_error].
  f_equal.
  replace (pre ++ x :: b ++ r) with ((pre ++ [x]) ++ b ++ r)
    by (rewrite <- app_assoc; reflexivity).
  replace (Z.of_nat (length pre) + 1) with (Z.of_nat (length (pre ++ [x])))
    by (rewrite length_app; simpl; lia).
  apply IH.
Qed.

(** The extension [splitext] finds, when there is one: a dot, then
    neither dot nor slash. *)
Lemma splitext_ext_shape (p ext : pystr) :
  snd (splitext p) = ext -> ext <> [] ->
  exists e, ext = DOT :: e /\ ~ In DOT e /\ ~ In SLASH e.
Proof.
  unfold splitext. intros E Hne.
  destruct (last_occurrence DOT p) as [N|(s & t & Ep & Nt)].
  - rewrite (rfind_chr_absent DOT p N) in E.
    destruct (last_occurrence SLASH p) as [N'|(s' & t' & Ep' & Nt')].
    + rewrite (rfind_chr_absent SLASH p N') in E. simpl in E. congruence.
    + rewrite Ep' in E at 1. rewrite rfind_chr_last in E by assumption.
      destruct (Z.ltb_spec (Z.of_nat (length s')) (-1)); [lia|].
      simpl in E. congruence.
  - assert (Rd : rfind p [DOT] = Z.of_nat (length s))
      by (rewrite Ep; now apply rfind_chr_last).
    rewrite Rd in E.
    destruct ((rfind p [SLASH] <? Z.of_nat (length s)) && _) eqn:C;
      [|simpl in E; congruence].
    apply andb_prop in C. destruct C as [C _]. apply Z.ltb_lt in C.
    cbn [snd] in E. rewrite Ep in E. rewrite slice_from_app in E.
    exists t. split; [now symmetry|]. split; [assumption|].
    destruct (last_occurrence SLASH p) as [N'|(s' & t' & Ep' & Nt')].
    + intros H. apply N'. rewrite Ep. apply in_or_app. right. now right.
    + assert (Rs : rfind p [SLASH] = Z.of_nat (length s'))
        by (rewrite Ep'; now apply rfind_chr_last).
      rewrite Rs in C.
      intros H. apply Nt'.
      assert (Et : t = skipn (S (length s)) p).
      { rewrite Ep. replace (s ++ DOT :: t) with ((s ++ [DOT]) ++ t)
          by (now rewrite <- app_assoc).
        replace (S (length s)) with (length (s ++ [DOT]))
          by (rewrite length_app; simpl; lia).
        now rewrite skipn_app, Nat.sub_diag, skipn_all. }
      assert (Et' : t' = skipn (S (length s')) p).
      { rewrite Ep'. replace (s' ++ SLASH :: t') with ((s' ++ [SLASH]) ++ t')
          by (now rewrite <- app_assoc).
        replace (S (length s')) with (length (s' ++ [SLASH]))
          by (rewrite length_app; simpl; lia).
        now rewrite skipn_app, Nat.sub_diag, skipn_all. }
      assert (Es : t = skipn (length s - length s') t').
      { rewrite Et, Et', skipn_skipn. f_equal. lia. }
      rewrite Es in H.
      rewrite <- (firstn_skipn (length s - length s') t').
      apply in_or_app. now right.
Qed.

(** A stem without slash that is not all dots keeps its extension. *)
Lemma splitext_stem_ext (b e : pystr) (c : Z) :
  ~ In SLASH b -> In c b -> c <> DOT -> ~ In DOT e -> ~ In SLASH e ->
  splitext (b ++ DOT :: e) = (b, DOT :: e).
Proof.
  intros Hb Hc Hd He Hs. unfold splitext.
  rewrite rfind_chr_last by assumption.
  rewrite rfind_chr_absent.
  2:{ intros H. apply in_app_or in H. destruct H as [H|[H|H]];
      [contradiction | discriminate H | contradiction]. }
  change (-1 + 1) with (Z.of_nat (length (@nil Z))).
  replace (Z.to_nat (Z.of_nat (length b) - Z.of_nat (length (@nil Z)))) with (length b)
    by (simpl; lia).
  change (b ++ DOT :: e) with ([] ++ b ++ DOT :: e) at 1.
  rewrite all_dots_between_prefix.
  assert (F : forallb (fun c => c =? DOT) b = false).
  { destruct (forallb (fun c => c =? DOT) b) eqn:F; [|reflexivity].
    rewrite forallb_forall in F. apply F in Hc. apply Z.eqb_eq in Hc. contradiction. }
  rewrite F.
  destruct (Z.ltb_spec (-1) (Z.of_nat (length b))); [|lia].
  cbn [negb andb]. now rewrite slice_to_app, slice_from_app.
Qed.

Section CanonicalName.
Context {U : Unicode}.

Lemma normalize_spaces_keeps (c : Z) (s : pystr) :
  isspace c = false -> In c s -> In c (normalize_spaces s).
Proof.
  intros Hc H. unfold normalize_spaces, strip.
  apply strip_by_keeps; [assumption|].
  unfold re_sub, RE_SPACES. apply sub_scan_plus_keeps.
  - simpl. now rewrite Hc.
  - cbn [skipn]. change (py " ") with [SPACE]. rewrite str_replace_chr.
    apply in_map_iff. exists c. split; [|assumption].
    unfold subst_chr. destruct (Z.eqb_spec c NBSP) as [->|]; [discriminate Hc | reflexivity].
Qed.

Lemma safe_filename_sub (s : pystr) :
  re_sub RE_UNSAFE (py " ") s
  = map (fun c => if cs_match false (OneOf (chars "<>:" ++ [IChr DQUOTE; IChr SLASH; IChr BACKSLASH]
                                            ++ chars "|?*" ++ [IRange 0 31])) c
                  then SPACE else c) s.
Proof. unfold re_sub, RE_UNSAFE. change (py " ") with [SPACE]. apply sub_scan_chr. Qed.

Lemma safe_filename_keeps (c : Z) (s : pystr) :
  isspace c = false ->
  cs_match false (OneOf (chars "<>:" ++ [IChr DQUOTE; IChr SLASH; IChr BACKSLASH]
                         ++ chars "|?*" ++ [IRange 0 31])) c = false ->
  In c s -> In c (safe_filename s).
Proof.
  intros Hc Hu H. unfold safe_filename, strip.
  apply strip_by_keeps; [assumption|].
  rewrite safe_filename_sub. apply in_map_iff. exists c. now rewrite Hu.
Qed.

Lemma safe_filename_no_slash (s : pystr) : ~ In SLASH (safe_filename s).
Proof.
  unfold safe_filename, strip. intros H. apply strip_by_subset in H.
  rewrite safe_filename_sub in H. apply in_map_iff in H.
  destruct H as (c & E & _).
  destruct (cs_match false _ c) eqn:M; [discriminate E|].
  subst c. vm_compute in M. discriminate M.
Qed.

(** The stem of a canonical name holds the letter S of its marker. *)
Lemma canonical_stem_has_S (series tail : pystr) :
  In 83 (safe_filename (normalize_spaces (series ++ py " - S" ++ tail))).
Proof.
  apply safe_filename_keeps; [reflexivity | reflexivity |].
  apply normalize_spaces_keeps; [reflexivity|].
  apply in_or_app. right. apply in_or_app. left. simpl. tauto.
Qed.

(** ** C1.  The canonical video name and its own output *)


End CanonicalName.



(* ================================================================== *)
(** * Properties: the ledgers *)
(* ================================================================== *)

(** ** C7.  The undo ledger *)

(** C7: [apply_undo] replays nothing.  For every undo file, content and
    confirmation flag it raises before it reads a record: [ValueError] on
    an empty file name, [NameError] otherwise, since the module never
    imports [Path].  No rename or move is issued. *)
Theorem C7_apply_undo_raises
    (undo_file : pystr) (file : option (list ledger_line)) (yes : bool) :
  apply_undo undo_file file yes
  = match strip undo_file with
    | [] => Raise ValueError
    | _ => Raise NameError
    end.
Proof. unfold apply_undo. destruct (strip undo_file); reflexivity. Qed.

(** C7 at a ledger of one rename: the record is not replayed. *)
Example C7_failing_input :
  apply_undo (py "undo.jsonl")
    (Some [LObject [(py "op", JStr (py "rename_path"));
                    (py "parent", JStr (py "/tv/Show"));
                    (py "old", JStr (py "01.mp4"));
                    (py "new", JStr (py "Show - S01E01.mp4"))]])
    true
  = Raise NameError.
Proof. reflexivity. Qed.

(** ** C8.  The resume ledger *)

Lemma load_state_lines_In (lines : list ledger_line) (acc : list pystr) (x : pystr) :
  In x (fold_left load_state_line lines acc)
  <-> In x acc
      \/ exists fields q,
           In (LObject fields) lines
           /\ jget fields (py "status") = Some (JStr (py "done"))
           /\ jget fields (py "series_path") = Some (JStr q)
           /\ q <> [] /\ norm_path q = x.
Proof.
  revert acc. induction lines as [|line lines IH]; intros acc.
  - simpl. split; [auto|]. intros [H|(f & q & [] & _)]. assumption.
  - cbn [fold_left]. rewrite IH. clear IH. split.
    + intros [H|(f & q & Hin & R)].
      * unfold load_state_line in H.
        destruct line as [| |fields]; auto.
        destruct (jget fields (py "status")) as [[st| |]|] eqn:Es; auto.
        destruct (jget fields (py "series_path")) as [[[|c p]| |]|] eqn:Ep; auto.
        destruct (str_eqb_spec st (py "done")) as [->|N]; auto.
        destruct H as [<-|H]; auto.
        right. exists fields, (c :: p). repeat split; auto; try (now left). discriminate.
      * right. exists f, q. split; [now right | assumption].
    + intros [H|(f & q & [E|Hin] & Es & Ep & Hq & Hx)].
      * left. unfold load_state_line.
        destruct line as [| |fields]; auto.
        destruct (jget fields (py "status")) as [[st| |]|]; auto.
        destruct (jget fields (py "series_path")) as [[[|c p]| |]|]; auto.
        destruct (str_eqb st (py "done")); auto. now right.
      * left. subst line. unfold load_state_line. rewrite Es, Ep.
        destruct q as [|c p]; [congruence|].
        rewrite str_eqb_refl. left. assumption.
      * right. exists f, q. auto.
Qed.




(* ================================================================== *)
(** * Properties: conflict resolution *)
(* ================================================================== *)

Lemma run_bind {A B : Type} (w : world) (m : prog A) (f : A -> prog B) :
  run w (bind m f)
  = match run w m with
    | inl e => inl e
    | inr a => run w (f a)
    end.
Proof. induction m as [a|e|X ev k IH]; simpl; auto. Qed.

Lemma run_catch {A : Type} (w : world) (m : prog A) (h : exn -> prog A) :
  run w (catch m h)
  = match run w m with
    | inl e => run w (h e)
    | inr a => inr a
    end.
Proof. induction m as [a|e|X ev k IH]; simpl; auto. Qed.

Lemma run_names_of (w : world) (path : pystr) :
  run w (names_of path)
  = inr match w _ (EvListDir (norm_path path)) with
        | inr entries => map name entries
        | inl _ => []
        end.
Proof.
  unfold names_of, list_dir, do_. rewrite run_catch, run_bind. simpl.
  destruct (w _ (EvListDir (norm_path path))); reflexivity.
Qed.

Lemma suffixed_nonempty (stem ext : pystr) (i : nat) : suffixed stem ext i <> [].
Proof.
  unfold suffixed. intros E. apply app_eq_nil in E. destruct E as [_ E].
  discriminate E.
Qed.

Lemma first_free_spec (stem ext : pystr) (existing : list pystr) :
  forall len a,
    (first_free stem ext existing (seq a len) = []
     /\ forall k, (a <= k < a + len)%nat -> In (suffixed stem ext k) existing)
    \/ exists n, (a <= n < a + len)%nat
         /\ first_free stem ext existing (seq a len) = suffixed stem ext n
         /\ ~ In (suffixed stem ext n) existing
         /\ forall k, (a <= k < n)%nat -> In (suffixed stem ext k) existing.
Proof.
  induction len as [|len IH]; intros a.
  - left. split; [reflexivity|]. intros k Hk. lia.
  - cbn [seq first_free].
    destruct (str_mem (suffixed stem ext a) existing) eqn:M; cbn [negb].
    + apply str_mem_In in M.
      destruct (IH (S a)) as [[E H]|(n & Hn & E & Hf & H)].
      * left. split; [assumption|]. intros k Hk.
        destruct (Nat.eq_dec k a) as [->|]; [assumption | apply H; lia].
      * right. exists n. repeat split; try assumption; try lia.
        intros k Hk. destruct (Nat.eq_dec k a) as [->|]; [assumption | apply H; lia].
    + apply str_mem_not_In in M. right. exists a.
      repeat split; try assumption; lia.
Qed.

Section ConflictResolution.
Context {U : Unicode}.
Variable getenv : string -> option pystr.

Lemma run_unique_name_in_parent (w : world) (parent desired : pystr) :
  run w (unique_name_in_parent getenv parent desired)
  = inr (resolve_name getenv (listed_names w parent) desired).
Proof.
  unfold unique_name_in_parent. rewrite run_bind, run_names_of. reflexivity.
Qed.

(** ** C4.  Conflict resolution *)

(** C4 (amended): for every listing of the destination and desired name,
    [unique_name_in_parent] returns the sanitised desired name
    ([safe_filename] of it, the desired name itself when it is already
    sanitised) when no sibling has that name; otherwise, unless the
    policy is [skip], the name with [" (n)"] before the extension for the
    least [n] from 1 to 199 that no sibling has; otherwise the empty
    string (the policy is [skip], or the 199 names are taken).  A result
    that is not empty is never the name of a sibling. *)
Theorem C4_unique_name_in_parent (w : world) (parent desired : pystr) :
  let existing := listed_names w parent in
  let wanted := safe_filename desired in
  let stem := fst (splitext wanted) in
  let ext := snd (splitext wanted) in
  exists r,
    run w (unique_name_in_parent getenv parent desired) = inr r
    /\ ((~ In wanted existing /\ r = wanted)
        \/ (In wanted existing /\ conflict_mode getenv <> py "skip"
            /\ exists n, (1 <= n < 200)%nat
                 /\ r = suffixed stem ext n
                 /\ ~ In r existing
                 /\ forall k, (1 <= k < n)%nat -> In (suffixed stem ext k) existing)
        \/ (In wanted existing /\ r = []
            /\ (conflict_mode getenv = py "skip"
                \/ forall k, (1 <= k < 200)%nat -> In (suffixed stem ext k) existing)))
    /\ (r <> [] -> ~ In r existing).
Proof.
  intros existing wanted stem ext.
  exists (resolve_name getenv existing desired).
  split; [apply run_unique_name_in_parent|].
  unfold resolve_name. fold wanted.
  destruct (str_mem wanted existing) eqn:M; cbn [negb].
  2:{ apply str_mem_not_In in M. split; [left; auto | auto]. }
  apply str_mem_In in M.
  destruct (str_eqb_spec (conflict_mode getenv) (py "skip")) as [Em|Nm].
  { split; [right; right; auto | congruence]. }
  destruct (splitext wanted) as [st ex] eqn:Es.
  subst stem ext. cbn [fst snd]. unfold range. change (200 - 1)%nat with 199%nat.
  destruct (first_free_spec st ex existing 199 1) as [[E H]|(n & Hn & E & Hf & H)].
  - rewrite E. split; [|congruence].
    right; right. split; [assumption|]. split; [reflexivity|].
    right. intros k Hk. apply H. lia.
  - rewrite E. split; [|auto].
    right; left. split; [assumption|]. split; [assumption|].
    exists n. split; [lia|]. split; [reflexivity|]. split; [assumption|].
    intros k Hk. apply H. lia.
Qed.

End ConflictResolution.

(** C4, counterexample: with no sibling at all the desired name ["a:b"] is
    answered by ["a b"], which is not the desired name, not a name with a
    [" (n)"] suffix and not the empty string. *)
Lemma C4_counterexample :
  run (quiet_world (fun _ => inr []))
      (unique_name_in_parent (fun _ => None) (py "/tv") (py "a:b"))
  = inr (py "a b")
  /\ py "a b" <> py "a:b"
  /\ py "a b" <> []
  /\ forall n, py "a b" <> suffixed (fst (splitext (py "a:b"))) (snd (splitext (py "a:b"))) n.
Proof.
  split; [vm_compute; reflexivity|].
  split; [discriminate|]. split; [discriminate|].
  intros n. unfold suffixed. vm_compute splitext. cbn. discriminate.
Qed.

(** C4, witness: the name [a.txt] in a directory that has [a.txt] and
    [a (1).txt]. *)
Lemma C4_witness :
  exists r,
    run (quiet_world (fun _ => inr [mkEntry (py "a.txt") false;
                                    mkEntry (py "a (1).txt") false]))
        (unique_name_in_parent (fun _ => None) (py "/tv") (py "a.txt"))
    = inr r
    /\ r = py "a (2).txt".
Proof.
  destruct (C4_unique_name_in_parent (U := BasicUnicode) (fun _ => None)
              (quiet_world (fun _ => inr [mkEntry (py "a.txt") false;
                                          mkEntry (py "a (1).txt") false]))
              (py "/tv") (py "a.txt")) as (r & Hr & _).
  exists r. split; [exact Hr|].
  vm_compute in Hr. now injection Hr as <-.
Defined.

(* ================================================================== *)
(** * Properties: the variety planner *)
(* ================================================================== *)

(** ** The [while] loop that skips the used numbers *)

Lemma z_mem_In (x : Z) (l : list Z) : z_mem x l = true <-> In x l.
Proof.
  unfold z_mem. rewrite existsb_exists. split.
  - intros (y & Hy & E). apply Z.eqb_eq in E. now subst.
  - intros H. exists x. split; [assumption | apply Z.eqb_refl].
Qed.

Lemma skip_used_run (used : list Z) :
  forall fuel n,
    n <= skip_used fuel used n
    /\ (forall x, n <= x < skip_used fuel used n -> In x used)
    /\ (~ In (skip_used fuel used n) used
        \/ skip_used fuel used n = n + Z.of_nat fuel).
Proof.
  induction fuel as [|fuel IH]; intros n; cbn [skip_used].
  - split; [lia|]. split; [intros x Hx; lia | right; lia].
  - destruct (z_mem n used) eqn:M.
    + apply z_mem_In in M. destruct (IH (n + 1)) as (H1 & H2 & H3).
      split; [lia|]. split.
      * intros x Hx. destruct (Z.eq_dec x n) as [->|]; [assumption | apply H2; lia].
      * destruct H3 as [H3|H3]; [left; assumption | right; lia].
    + split; [lia|]. split; [intros x Hx; lia|].
      left. intros H. apply z_mem_In in H. congruence.
Qed.

(** A run of [k] consecutive numbers inside a list of length below [k]
    cannot be. *)
Lemma run_bounded (used : list Z) (n : Z) (k : nat) :
  (forall x, n <= x < n + Z.of_nat k -> In x used) -> (k <= length used)%nat.
Proof.
  intros H.
  assert (L : length (map (fun i => n + Z.of_nat i) (seq 0 k)) = k)
    by now rewrite length_map, length_seq.
  rewrite <- L. apply NoDup_incl_length.
  - apply Finite.Injective_map_NoDup; [|apply seq_NoDup].
    intros i j E. lia.
  - intros x Hx. apply in_map_iff in Hx. destruct Hx as (i & <- & Hi).
    apply in_seq in Hi. apply H. lia.
Qed.

(** The loop ends on the least number from [n] on that is not used. *)
Lemma skip_used_spec (used : list Z) (n : Z) :
  let r := skip_used (S (length used)) used n in
  n <= r /\ ~ In r used /\ forall x, n <= x < r -> In x used.
Proof.
  intros r. destruct (skip_used_run used (S (length used)) n) as (H1 & H2 & H3).
  fold r in H1, H2, H3. split; [assumption|]. split; [|assumption].
  destruct H3 as [H3|H3]; [assumption|].
  exfalso. assert (S (length used) <= length used)%nat; [|lia].
  apply (run_bounded used n). intros x Hx. apply H2. lia.
Qed.

(** ** The plans *)

Lemma plan_key_eqb_spec (a b : plan_key) : reflect (a = b) (plan_key_eqb a b).
Proof.
  unfold plan_key_eqb. destruct a as [a1 a2], b as [b1 b2]. cbn [fst snd].
  destruct (str_eqb_spec a1 b1) as [->|N1]; cbn [andb].
  - destruct (str_eqb_spec a2 b2) as [->|N2]; constructor; congruence.
  - constructor. congruence.
Qed.

Lemma plans_get_set (p : plans) (k k' : plan_key) (v : plan_val) :
  plans_get (plans_set p k v) k'
  = if plan_key_eqb k' k then Some v else plans_get p k'.
Proof.
  induction p as [|[k0 v0] p IH]; cbn [plans_set plans_get].
  - reflexivity.
  - destruct (plan_key_eqb_spec k k0) as [->|N]; cbn [plans_get].
    + destruct (plan_key_eqb_spec k' k0); reflexivity.
    + rewrite IH. destruct (plan_key_eqb_spec k' k0) as [->|N'].
      * destruct (plan_key_eqb_spec k0 k); [congruence | reflexivity].
      * reflexivity.
Qed.

(** ** The numbering of one season *)







(** ** The sort *)

Lemma insert_by_perm {X : Type} (le : X -> X -> bool) (x : X) (l : list X) :
  Permutation (insert_by le x l) (x :: l).
Proof.
  induction l as [|y l IH]; cbn [insert_by].
  - apply Permutation_refl.
  - destruct (le x y); [apply Permutation_refl|].
    eapply Permutation_trans; [apply perm_skip; exact IH | apply perm_swap].
Qed.

Lemma stable_sort_perm {X : Type} (le : X -> X -> bool) (l : list X) :
  Permutation (stable_sort le l) l.
Proof.
  induction l as [|x l IH]; cbn [stable_sort fold_right].
  - apply Permutation_refl.
  - eapply Permutation_trans; [apply insert_by_perm | apply perm_skip; exact IH].
Qed.





(** ** The dictionaries *)

Lemma dict_get_update {V : Type} (d : list (Z * V)) (k k' : Z) (f : option V -> V) :
  dict_get (dict_update d k f) k'
  = if k' =? k then Some (f (dict_get d k)) else dict_get d k'.
Proof.
  induction d as [|[k0 v0] d IH]; cbn [dict_update dict_get].
  - reflexivity.
  - destruct (Z.eqb_spec k k0) as [->|N]; cbn [dict_get].
    + destruct (Z.eqb_spec k' k0); reflexivity.
    + rewrite IH. destruct (Z.eqb_spec k' k0) as [->|N'].
      * destruct (Z.eqb_spec k0 k); [congruence | reflexivity].
      * reflexivity.
Qed.

Lemma dict_update_keys {V : Type} (d : list (Z * V)) (k k' : Z) (f : option V -> V) :
  In k' (map fst (dict_update d k f)) <-> k' = k \/ In k' (map fst d).
Proof.
  induction d as [|[k0 v0] d IH]; cbn [dict_update map fst In].
  - intuition.
  - destruct (Z.eqb_spec k k0) as [->|N]; cbn [map fst In].
    + intuition.
    + rewrite IH. intuition.
Qed.

Lemma dict_update_nodup {V : Type} (d : list (Z * V)) (k : Z) (f : option V -> V) :
  NoDup (map fst d) -> NoDup (map fst (dict_update d k f)).
Proof.
  induction d as [|[k0 v0] d IH]; cbn [dict_update map fst]; intros ND.
  - constructor; [intros [] | constructor].
  - apply NoDup_cons_iff in ND. destruct ND as [H0 ND].
    destruct (Z.eqb_spec k k0) as [->|N]; cbn [map fst].
    + constructor; assumption.
    + constructor; [|auto]. rewrite dict_update_keys. intros [E|H]; congruence.
Qed.

Lemma dict_get_In {V : Type} (d : list (Z * V)) (k : Z) (v : V) :
  NoDup (map fst d) -> In (k, v) d -> dict_get d k = Some v.
Proof.
  induction d as [|[k0 v0] d IH]; cbn [map fst dict_get]; intros ND H.
  - destruct H.
  - apply NoDup_cons_iff in ND. destruct ND as [H0 ND].
    destruct H as [E|H].
    + injection E as -> ->. now rewrite Z.eqb_refl.
    + destruct (Z.eqb_spec k k0) as [->|N]; [|auto].
      exfalso. apply H0. apply in_map_iff. exists (k0, v). auto.
Qed.


Lemma dict_list_update {V : Type} (d : list (Z * list V)) (k k' : Z)
    (f : option (list V) -> list V) :
  dict_list (dict_update d k f) k'
  = if k' =? k then f (dict_get d k) else dict_list d k'.
Proof.
  unfold dict_list. rewrite dict_get_update. destruct (k' =? k); reflexivity.
Qed.

(** ** Lists without duplicates under a key *)




Lemma fold_left_of_map {X Y S : Type} (f : S -> Y -> S) (g : X -> Y) (l : list X) :
  forall st, fold_left f (map g l) st = fold_left (fun s x => f s (g x)) l st.
Proof. induction l as [|x l IH]; intros st; cbn [map fold_left]; auto. Qed.

(** ** The first loop: candidates and consumed numbers *)

Section PlannerProperties.
Context {U : Unicode}.

Lemma gather_item_eq (cbs : list (Z * list cand)) (ubs : list (Z * list Z)) (it : scanned) :
  gather_item (cbs, ubs) it
  = match consumes it with
    | Some ep =>
        (cbs, dict_update ubs (snd (fst it))
                (fun o => ep :: match o with Some u => u | None => [] end))
    | None =>
        match candidate_of it with
        | Some (s, c) =>
            (dict_update cbs s
               (fun o => match o with Some l => l | None => [] end ++ [c]),
             dict_update ubs s (fun o => match o with Some u => u | None => [] end))
        | None => (cbs, ubs)
        end
    end.
Proof.
  destruct it as [[d g] e].
  unfold gather_item, gather_entry, consumes, candidate_of. cbn [fst snd].
  destruct (is_dir e); [reflexivity|].
  destruct (negb (is_video (name e))); [reflexivity|].
  destruct (parse_episode_from_name (name e)) as [[[s ep] tg] sfx]. cbn [fst snd].
  destruct ep; [reflexivity|].
  destruct (parse_qishu_and_part (name e)) as [q pr]. cbn [fst snd].
  destruct q, (parse_date_key (name e)); reflexivity.
Qed.

Lemma consumes_no_candidate (it : scanned) (ep : Z) :
  consumes it = Some ep -> candidate_of it = None.
Proof.
  destruct it as [[d g] e]. unfold consumes, candidate_of. cbn [fst snd].
  destruct (is_dir e); [reflexivity|].
  destruct (negb (is_video (name e))); [reflexivity|].
  intros ->. reflexivity.
Qed.

Lemma candidate_key (it : scanned) (s : Z) (c : cand) :
  candidate_of it = Some (s, c) -> cand_key c = scanned_key it.
Proof.
  destruct it as [[d g] e]. unfold candidate_of, cand_key, scanned_key. cbn [fst snd].
  destruct (is_dir e); [discriminate|].
  destruct (negb (is_video (name e))); [discriminate|].
  destruct (snd (fst (fst (parse_episode_from_name (name e))))); [discriminate|].
  destruct (fst (parse_qishu_and_part (name e))), (parse_date_key (name e));
    intros E; try discriminate; injection E as _ <-; reflexivity.
Qed.

Lemma In_candidates (files : list scanned) (x : Z * cand) :
  In x (candidates files) <-> exists it, In it files /\ candidate_of it = Some x.
Proof.
  unfold candidates. rewrite in_flat_map. split.
  - intros (it & Hit & H). exists it. split; [assumption|].
    destruct (candidate_of it); [|destruct H].
    destruct H as [->|[]]. reflexivity.
  - intros (it & Hit & E). exists it. split; [assumption|].
    rewrite E. left. reflexivity.
Qed.

Lemma candidates_app (a b : list scanned) :
  candidates (a ++ b) = candidates a ++ candidates b.
Proof. unfold candidates. apply flat_map_app. Qed.

Lemma candidates_one (it : scanned) :
  candidates [it] = match candidate_of it with Some x => [x] | None => [] end.
Proof. unfold candidates. cbn [flat_map]. apply app_nil_r. Qed.

Lemma season_cands_app (a b : list (Z * cand)) (s : Z) :
  season_cands (a ++ b) s = season_cands a s ++ season_cands b s.
Proof. unfold season_cands. now rewrite filter_app, map_app. Qed.

Lemma In_season_cands (cl : list (Z * cand)) (s : Z) (c : cand) :
  In c (season_cands cl s) <-> In (s, c) cl.
Proof.
  unfold season_cands. rewrite in_map_iff. split.
  - intros ([s' c'] & E & H). cbn [snd] in E. subst c'.
    apply filter_In in H. destruct H as [H E]. cbn [fst] in E.
    apply Z.eqb_eq in E. now subst.
  - intros H. exists (s, c). split; [reflexivity|].
    apply filter_In. split; [assumption|]. cbn [fst]. apply Z.eqb_refl.
Qed.

Lemma consumed_snoc (seen : list scanned) (it : scanned) (s x : Z) :
  consumed (seen ++ [it]) s x
  <-> consumed seen s x \/ (snd (fst it) = s /\ consumes it = Some x).
Proof.
  unfold consumed. split.
  - intros (it' & H & Hs & Hc). apply in_app_iff in H. destruct H as [H|[->|[]]].
    + left. exists it'. auto.
    + right. auto.
  - intros [(it' & H & Hs & Hc)|[Hs Hc]].
    + exists it'. split; [apply in_app_iff; left; assumption | auto].
    + exists it. split; [apply in_app_iff; right; left; reflexivity | auto].
Qed.


(** The state after the first loop, from the files seen. *)
Lemma gather_items_inv (items : list scanned) :
  forall seen cbs ubs,
    NoDup (map fst cbs) ->
    (forall s, dict_list cbs s = season_cands (candidates seen) s) ->
    (forall s x, In x (dict_list ubs s) <-> consumed seen s x) ->
    NoDup (map fst (fst (fold_left gather_item items (cbs, ubs))))
    /\ (forall s, dict_list (fst (fold_left gather_item items (cbs, ubs))) s
                  = season_cands (candidates (seen ++ items)) s)
    /\ (forall s x, In x (dict_list (snd (fold_left gather_item items (cbs, ubs))) s)
                    <-> consumed (seen ++ items) s x).
Proof.
  induction items as [|it items IH]; intros seen cbs ubs ND Hc Hu.
  - cbn [fold_left fst snd]. rewrite app_nil_r. auto.
  - cbn [fold_left]. change (it :: items) with ([it] ++ items). rewrite app_assoc.
    rewrite gather_item_eq.
    destruct (consumes it) as [ep|] eqn:Ec.
    + apply IH; [assumption | |].
      * intros s. rewrite candidates_app, season_cands_app, Hc.
        rewrite candidates_one, (consumes_no_candidate it ep Ec).
        cbn [season_cands filter map]. now rewrite app_nil_r.
      * intros s x. rewrite consumed_snoc, dict_list_update, <- Hu.
        fold (dict_list ubs (snd (fst it))).
        destruct (Z.eqb_spec s (snd (fst it))) as [->|N]; cbn [In].
        -- split; [intros [<-|H]; auto | intros [H|[_ H]]; [auto|]].
           left. congruence.
        -- split; [auto | intros [H|[H _]]; [assumption | congruence]].
    + destruct (candidate_of it) as [[s0 c]|] eqn:Ek.
      * apply IH; [apply dict_update_nodup; assumption | |].
        -- intros s. rewrite candidates_app, season_cands_app, <- Hc.
           rewrite dict_list_update. fold (dict_list cbs s0).
           rewrite candidates_one, Ek.
           unfold season_cands. cbn [filter map fst snd].
           rewrite (Z.eqb_sym s0 s).
           destruct (Z.eqb_spec s s0) as [->|N]; cbn [map snd];
             [reflexivity | now rewrite app_nil_r].
        -- intros s x. rewrite consumed_snoc, dict_list_update, <- Hu.
           fold (dict_list ubs s0).
           destruct (Z.eqb_spec s s0) as [->|N];
             (split; [auto | intros [H|[_ H]]; [assumption | congruence]]).
      * apply IH; [assumption | |].
        -- intros s. rewrite candidates_app, season_cands_app, Hc.
           rewrite candidates_one, Ek.
           cbn [season_cands filter map]. now rewrite app_nil_r.
        -- intros s x. rewrite consumed_snoc, <- Hu.
           split; [auto | intros [H|[_ H]]; [assumption | congruence]].
Qed.

Lemma gather_dirs_items (hints : list (pystr * Z)) (default_season : Z)
    (listings : list (pystr * list DirEntry)) :
  forall st,
    fold_left (gather_dir hints default_season) listings st
    = fold_left gather_item (scan_items listings hints default_season) st.
Proof.
  induction listings as [|[d es] ls IH]; intros st.
  - reflexivity.
  - cbn [fold_left]. unfold scan_items. cbn [flat_map fst snd].
    rewrite fold_left_app, fold_left_of_map. rewrite IH. reflexivity.
Qed.

(** ** The second loop *)

Lemma assign_season_eq (ubs : list (Z * list Z)) (pl : plans) (s : Z) (cs : list cand) :
  assign_season ubs pl (s, cs)
  = fst (fst (fold_left (assign_one s) (stable_sort cand_leb cs)
                        (pl, dict_list ubs s, 1))).
Proof. reflexivity. Qed.



(** ** C6.  The numbering of the variety planner *)


End PlannerProperties.


(** On that folder the planner gives the earlier date the number 2, the
    later date the number 3. *)
Example planner_example :
  plan_variety variety_folder [] 1
  = [((py "/tv/Show/Season 1", py "20240101.mp4"), (1, 2, false));
     ((py "/tv/Show/Season 1", py "20240108.mp4"), (1, 3, false))].
Proof. vm_compute. reflexivity. Qed.

(* ================================================================== *)
(** * Properties: the dry run *)
(* ================================================================== *)

(** ** Programs that issue no mutating call *)

Lemma no_mutation_bind {A B : Type} (m : prog A) (f : A -> prog B) :
  no_mutation m -> (forall a, no_mutation (f a)) -> no_mutation (bind m f).
Proof.
  intros Hm Hf. induction Hm as [a|e|X ev k Hev Hk IH]; cbn [bind].
  - apply Hf.
  - constructor.
  - constructor; assumption.
Qed.

Lemma no_mutation_catch {A : Type} (m : prog A) (h : exn -> prog A) :
  no_mutation m -> (forall e, no_mutation (h e)) -> no_mutation (catch m h).
Proof.
  intros Hm Hh. induction Hm as [a|e|X ev k Hev Hk IH]; cbn [catch].
  - constructor.
  - apply Hh.
  - constructor; assumption.
Qed.

Lemma no_mutation_do {X : Type} (ev : event X) :
  mutating ev = false -> no_mutation (do_ ev).
Proof. intros H. constructor; [assumption | intros x; constructor]. Qed.

Lemma no_mutation_for {X : Type} (xs : list X) (body : X -> prog unit) :
  (forall x, no_mutation (body x)) -> no_mutation (for_ xs body).
Proof.
  intros H. induction xs as [|x xs IH]; cbn [for_].
  - constructor.
  - apply no_mutation_bind; [apply H | intros _; exact IH].
Qed.

Lemma no_mutation_for_each {X S R : Type} (xs : list X)
    (body : X -> S -> prog (S + R)) :
  (forall x s, no_mutation (body x s)) -> forall s, no_mutation (for_each xs s body).
Proof.
  intros H. induction xs as [|x xs IH]; intros s; cbn [for_each].
  - constructor.
  - apply no_mutation_bind; [apply H|]. intros [s'|r]; [apply IH | constructor].
Qed.

(** The steps of a proof that a program issues no mutating call: follow
    the sequencing, the handlers, the loops and the branches, and close
    the calls with the lemmas of the database. *)
Create HintDb nomut.

Ltac nm_step :=
  match goal with
  | |- no_mutation (Ret _) => apply nm_ret
  | |- no_mutation (Raise _) => apply nm_raise
  | |- no_mutation _ => solve [auto with nomut]
  | |- no_mutation (bind _ _) => apply no_mutation_bind; [|intros]
  | |- no_mutation (catch _ _) => apply no_mutation_catch; [|intros]
  | |- no_mutation (for_ _ _) => apply no_mutation_for; intros
  | |- no_mutation (for_each _ _ _) => apply no_mutation_for_each; intros
  | |- no_mutation (if ?c then _ else _) => destruct c
  | |- no_mutation (match ?x with _ => _ end) => destruct x
  end; cbv beta iota.

Ltac nm := repeat nm_step.

Lemma no_mutation_list_dir (path : pystr) : no_mutation (list_dir path).
Proof. unfold list_dir. nm. now apply no_mutation_do. Qed.

Lemma no_mutation_log (text : string) (args : list pystr) :
  no_mutation (log_append text args).
Proof. now apply no_mutation_do. Qed.

Lemma no_mutation_stop : no_mutation (do_ EvStopRequested).
Proof. now apply no_mutation_do. Qed.

Lemma no_mutation_resolve (folder_name : pystr) (samples : list pystr) :
  no_mutation (do_ (EvResolveSeries folder_name samples)).
Proof. now apply no_mutation_do. Qed.

Lemma no_mutation_ai (folder_name scan_basename video : pystr) :
  no_mutation (do_ (EvAiSeason folder_name scan_basename video)).
Proof. now apply no_mutation_do. Qed.

Lemma no_mutation_names_of (path : pystr) : no_mutation (names_of path).
Proof.
  unfold names_of. apply no_mutation_catch; [|intros; constructor].
  apply no_mutation_bind; [apply no_mutation_list_dir | intros; constructor].
Qed.

#[export] Hint Resolve no_mutation_list_dir no_mutation_log no_mutation_stop
  no_mutation_resolve no_mutation_ai no_mutation_names_of : nomut.

(** ** The operations in a dry run *)

Section DryRunOperations.
Context {U : Unicode}.
Variable getenv : string -> option pystr.

Lemma no_mutation_unique_name (parent desired : pystr) :
  no_mutation (unique_name_in_parent getenv parent desired).
Proof. unfold unique_name_in_parent. nm. Qed.

Lemma no_mutation_ensure_dir (parent name_ : pystr) (d : bool) :
  d = true -> no_mutation (ensure_dir parent name_ d).
Proof. intros ->. unfold ensure_dir. nm. Qed.

Lemma no_mutation_maybe_rename_path (full_path new_name : pystr) (d r : bool)
    (undo : option pystr) :
  d = true -> no_mutation (maybe_rename_path getenv full_path new_name d r undo).
Proof.
  intros ->. unfold maybe_rename_path.
  pose proof no_mutation_unique_name. nm.
Qed.

Lemma no_mutation_maybe_rename (parent old_name new_name : pystr) (d : bool)
    (undo : option pystr) :
  d = true -> no_mutation (maybe_rename getenv parent old_name new_name d undo).
Proof. intros H. unfold maybe_rename. now apply no_mutation_maybe_rename_path. Qed.

Lemma no_mutation_maybe_move (src_dir dst_dir : pystr) (names : list pystr)
    (d : bool) (undo : option pystr) :
  d = true -> no_mutation (maybe_move getenv src_dir dst_dir names d undo).
Proof. intros ->. unfold maybe_move, maybe_move_with. nm. Qed.

Lemma no_mutation_maybe_move_folder_to_dir (folder_path dst_dir : pystr) (d : bool)
    (undo : option pystr) :
  d = true -> no_mutation (maybe_move_folder_to_dir getenv folder_path dst_dir d undo).
Proof.
  intros ->. unfold maybe_move_folder_to_dir.
  pose proof no_mutation_unique_name.
  pose proof (fun p n r u => no_mutation_maybe_rename_path p n true r u eq_refl).
  pose proof (fun s t n u => no_mutation_maybe_move s t n true u eq_refl).
  nm.
Qed.

(** The clean-up lists through [client.listdir], which the client does not
    have: it logs the failure and removes nothing, dry run or not. *)
Lemma cleanup_ads_in_dir_eq (dir_path : pystr) (d : bool) :
  cleanup_ads_in_dir getenv dir_path d
  = if negb (bool_env getenv "DELETE_ADS" true) then Ret tt
    else log_append "[WARN] cleanup listdir failed" [dir_path] ;; Ret tt.
Proof. unfold cleanup_ads_in_dir. destruct (negb _); reflexivity. Qed.

Lemma no_mutation_cleanup (dir_path : pystr) (d : bool) :
  no_mutation (cleanup_ads_in_dir getenv dir_path d).
Proof. rewrite cleanup_ads_in_dir_eq. nm. Qed.

(** The relocation of the subtitles lists the series folder the same way:
    it does nothing, and its [mkdir] without a dry-run test is not
    reached. *)
Lemma relocate_subtitles_eq (format_season : Z -> pystr) (log_truthy : bool)
    (series_path : pystr) (d : bool) :
  relocate_subtitles_in_show_root getenv format_season log_truthy series_path d
  = Ret tt.
Proof. reflexivity. Qed.

Lemma no_mutation_relocate (format_season : Z -> pystr) (log_truthy : bool)
    (series_path : pystr) (d : bool) :
  no_mutation
    (relocate_subtitles_in_show_root getenv format_season log_truthy series_path d).
Proof. rewrite relocate_subtitles_eq. constructor. Qed.

Lemma no_mutation_default_season : no_mutation (default_season_of_env getenv).
Proof. unfold default_season_of_env. nm. Qed.

Lemma no_mutation_list_all (dirs : list pystr) : no_mutation (list_all dirs).
Proof. induction dirs as [|d dirs IH]; cbn [list_all]; nm. Qed.

Lemma no_mutation_planner (scan_dirs : list pystr) (hints : list (pystr * Z))
    (default_season : Z) :
  no_mutation (infer_variety_and_special_episodes scan_dirs hints default_season).
Proof.
  unfold infer_variety_and_special_episodes.
  pose proof no_mutation_list_all. nm.
Qed.

End DryRunOperations.

#[export] Hint Resolve no_mutation_unique_name no_mutation_ensure_dir
  no_mutation_maybe_rename_path no_mutation_maybe_rename no_mutation_maybe_move
  no_mutation_maybe_move_folder_to_dir no_mutation_cleanup no_mutation_relocate
  no_mutation_default_season no_mutation_planner : nomut.

(** ** The engine in a dry run *)

Section DryRunEngine.
Context {U : Unicode}.

Lemma no_mutation_peek_subdirs series_path subdirs :
  no_mutation (peek_subdirs series_path subdirs).
Proof. induction subdirs as [|d subdirs IH]; cbn [peek_subdirs]; nm. Qed.

Lemma no_mutation_gather_series_context skip_re_search series_path :
  no_mutation (gather_series_context skip_re_search series_path).
Proof.
  unfold gather_series_context. pose proof no_mutation_peek_subdirs. nm.
Qed.

Lemma no_mutation_ensure_season_dir format_season o new_series_path season :
  dry_run o = true ->
  no_mutation (ensure_season_dir format_season o new_series_path season).
Proof. intros Hd. unfold ensure_season_dir. nm. Qed.

Lemma no_mutation_rename_sidecars getenv build_new_sidecar_name o
    dst_season_path sidecars season ep new_stem :
  dry_run o = true ->
  no_mutation (rename_sidecars getenv build_new_sidecar_name o
                 dst_season_path sidecars season ep new_stem).
Proof. intros Hd. unfold rename_sidecars. nm. Qed.

Lemma no_mutation_episode_folder_file getenv related_sidecars build_new_sidecar_name
    build_prefixed_sxxeyy_name needs_series_prefix_for_sxxeyy o
    folder_name desired_series_name scan_basename dst_season_path ep_folder_path
    ep_entries season_dir_num ep_dir protect_sxxeyy f new_stem :
  dry_run o = true ->
  no_mutation (episode_folder_file getenv related_sidecars build_new_sidecar_name
                 build_prefixed_sxxeyy_name needs_series_prefix_for_sxxeyy o
                 folder_name desired_series_name scan_basename dst_season_path
                 ep_folder_path ep_entries season_dir_num ep_dir protect_sxxeyy
                 f new_stem).
Proof. intros Hd. unfold episode_folder_file. nm. Qed.

Lemma no_mutation_episode_folder_files getenv related_sidecars build_new_sidecar_name
    build_prefixed_sxxeyy_name needs_series_prefix_for_sxxeyy o
    folder_name desired_series_name scan_basename dst_season_path ep_folder_path
    ep_entries season_dir_num ep_dir protect_sxxeyy fs :
  dry_run o = true ->
  forall new_stem,
    no_mutation (episode_folder_files getenv related_sidecars build_new_sidecar_name
                   build_prefixed_sxxeyy_name needs_series_prefix_for_sxxeyy o
                   folder_name desired_series_name scan_basename dst_season_path
                   ep_folder_path ep_entries season_dir_num ep_dir protect_sxxeyy
                   fs new_stem).
Proof.
  intros Hd. pose proof no_mutation_episode_folder_file.
  induction fs as [|f fs IH]; intros new_stem; cbn [episode_folder_files]; nm.
Qed.

Lemma no_mutation_rename_loose_video getenv build_prefixed_sxxeyy_name
    needs_series_prefix_for_sxxeyy o desired_series_name dst_season_path ent_name
    season ep already protect_sxxeyy suffix_ctx new_stem :
  dry_run o = true ->
  no_mutation (rename_loose_video getenv build_prefixed_sxxeyy_name
                 needs_series_prefix_for_sxxeyy o desired_series_name
                 dst_season_path ent_name season ep already protect_sxxeyy
                 suffix_ctx new_stem).
Proof. intros Hd. unfold rename_loose_video. nm. Qed.

Lemma no_mutation_scan_entry getenv format_season related_sidecars
    build_new_sidecar_name build_prefixed_sxxeyy_name needs_series_prefix_for_sxxeyy
    ai_enabled o folder_name desired_series_name new_series_path variety_plans
    root_season_hint default_season scan_dir scan_basename scan_season_hint
    allow_ai_infer_season protect_sxxeyy entries ent new_stem :
  dry_run o = true ->
  no_mutation (scan_entry getenv format_season related_sidecars
                 build_new_sidecar_name build_prefixed_sxxeyy_name
                 needs_series_prefix_for_sxxeyy ai_enabled o folder_name
                 desired_series_name new_series_path variety_plans root_season_hint
                 default_season scan_dir scan_basename scan_season_hint
                 allow_ai_infer_season protect_sxxeyy entries ent new_stem).
Proof.
  intros Hd. unfold scan_entry.
  pose proof no_mutation_ensure_season_dir.
  pose proof no_mutation_episode_folder_files.
  pose proof no_mutation_rename_loose_video.
  pose proof no_mutation_rename_sidecars.
  nm.
Qed.

Lemma no_mutation_scan_one_dir getenv format_season related_sidecars
    build_new_sidecar_name build_prefixed_sxxeyy_name needs_series_prefix_for_sxxeyy
    ai_enabled o folder_name desired_series_name new_series_path variety_plans
    root_season_hint scan_dir new_stem :
  dry_run o = true ->
  no_mutation (scan_one_dir getenv format_season related_sidecars
                 build_new_sidecar_name build_prefixed_sxxeyy_name
                 needs_series_prefix_for_sxxeyy ai_enabled o folder_name
                 desired_series_name new_series_path variety_plans root_season_hint
                 scan_dir new_stem).
Proof.
  intros Hd. unfold scan_one_dir. pose proof no_mutation_scan_entry. nm.
Qed.

Lemma no_mutation_season_entry getenv related_sidecars build_new_sidecar_name
    build_prefixed_sxxeyy_name needs_series_prefix_for_sxxeyy o folder_name
    desired_series_name new_series_path season season_path entries ent st :
  dry_run o = true ->
  no_mutation (season_entry getenv related_sidecars build_new_sidecar_name
                 build_prefixed_sxxeyy_name needs_series_prefix_for_sxxeyy o
                 folder_name desired_series_name new_series_path season season_path
                 entries ent st).
Proof.
  intros Hd. unfold season_entry. pose proof no_mutation_rename_sidecars. nm.
Qed.

Lemma no_mutation_season_pass getenv related_sidecars build_new_sidecar_name
    build_prefixed_sxxeyy_name needs_series_prefix_for_sxxeyy o folder_name
    desired_series_name new_series_path e st :
  dry_run o = true ->
  no_mutation (season_pass getenv related_sidecars build_new_sidecar_name
                 build_prefixed_sxxeyy_name needs_series_prefix_for_sxxeyy o
                 folder_name desired_series_name new_series_path e st).
Proof.
  intros Hd. unfold season_pass. pose proof no_mutation_season_entry. nm.
Qed.

Lemma no_mutation_flatten_container getenv o new_series_path root_entries :
  dry_run o = true ->
  no_mutation (flatten_container getenv o new_series_path root_entries).
Proof. intros Hd. unfold flatten_container. nm. Qed.

Lemma no_mutation_normalize_season_dirs getenv format_season o new_series_path
    root_entries :
  dry_run o = true ->
  no_mutation (normalize_season_dirs getenv format_season o new_series_path
                 root_entries).
Proof. intros Hd. unfold normalize_season_dirs. nm. Qed.

End DryRunEngine.

#[export] Hint Resolve no_mutation_gather_series_context no_mutation_scan_one_dir
  no_mutation_season_pass no_mutation_flatten_container
  no_mutation_normalize_season_dirs : nomut.

Section DryRun.
Context {U : Unicode}.
Variable getenv : string -> option pystr.
Variable format_season : Z -> pystr.
Variable should_skip_misc_folder : pystr -> bool.
Variable skip_re_search : pystr -> bool.
Variable looks_like_show_folder_name : pystr -> bool.
Variable is_same_show_container_folder : pystr -> pystr -> bool.
Variable related_sidecars : list DirEntry -> pystr -> Z -> Z -> list pystr.
Variable build_new_sidecar_name : pystr -> pystr -> Z -> Z -> pystr.
Variable build_prefixed_sxxeyy_name : pystr -> Z -> Z -> pystr -> pystr.
Variable needs_series_prefix_for_sxxeyy : pystr -> pystr -> bool.
Variable ai_enabled : bool.
Variable log_truthy : bool.

(** In a dry run the rename of a key directory answers the old path. *)
Lemma dry_rename_keeps_path (w : world) (full_path new_name : pystr)
    (undo : option pystr) :
  run w (maybe_rename_path getenv full_path new_name true false undo)
  = inr full_path.
Proof.
  unfold maybe_rename_path. destruct (split_path full_path) as [parent old].
  destruct (str_eqb old (safe_filename new_name) || _); [reflexivity|].
  rewrite run_bind, run_unique_name_in_parent.
  destruct (resolve_name _ _ _) as [|c r]; [reflexivity|].
  rewrite run_bind.
  destruct (negb _); reflexivity.
Qed.

Lemma no_mutation_process_series_folder (o : run_opts) :
  dry_run o = true ->
  forall (levels : nat) (series_path : pystr),
    no_mutation
      (process_series_folder getenv format_season should_skip_misc_folder
         skip_re_search looks_like_show_folder_name is_same_show_container_folder
         related_sidecars build_new_sidecar_name build_prefixed_sxxeyy_name
         needs_series_prefix_for_sxxeyy ai_enabled log_truthy levels o series_path).
Proof.
  intros Hd. induction levels as [|levels IH]; intros series_path;
    cbn [process_series_folder].
  - nm.
  - nm.
Qed.

(** ** C5.  The dry run *)

(** C5 (amended): in a dry run the processing of a series folder issues no
    [mkdir], [rename], [move] or [remove] and writes no undo record,
    whatever the collaborators answer; and the rename of the series folder
    that it predicts leaves the old path to the steps that follow, which
    an apply run takes on the new path. *)
Theorem C5_dry_run_no_mutation (levels : nat) (o : run_opts) (series_path : pystr) :
  dry_run o = true ->
  no_mutation
    (process_series_folder getenv format_season should_skip_misc_folder
       skip_re_search looks_like_show_folder_name is_same_show_container_folder
       related_sidecars build_new_sidecar_name build_prefixed_sxxeyy_name
       needs_series_prefix_for_sxxeyy ai_enabled log_truthy levels o series_path)
  /\ forall (w : world) (desired_series_name : pystr),
       run w (maybe_rename_path getenv series_path desired_series_name
                (dry_run o) false (undo o))
       = inr series_path.
Proof.
  intros Hd. split.
  - now apply no_mutation_process_series_folder.
  - intros w desired. rewrite Hd. apply dry_rename_keeps_path.
Qed.

End DryRun.

(** C5, counterexample: the rename of the series folder [/tv/Old Show] to
    [Show (2020)], as the engine asks for it.  The dry run answers the old
    path, under which every later destination is predicted; the apply run
    answers the new path. *)
Lemma C5_counterexample :
  run (quiet_world (fun _ => inr []))
      (maybe_rename_path (fun _ => None) (py "/tv/Old Show") (py "Show (2020)")
         true false None)
  = inr (py "/tv/Old Show")
  /\ run (quiet_world (fun _ => inr []))
         (maybe_rename_path (fun _ => None) (py "/tv/Old Show") (py "Show (2020)")
            false false None)
     = inr (py "/tv/Show (2020)").
Proof. split; vm_compute; reflexivity. Qed.

(** C5, witness: a dry run with the default season format, helpers that
    skip nothing and find no sidecar, and no AI client. *)
Lemma C5_witness :
  no_mutation
    (process_series_folder (fun _ => None) (fun s => py "S" ++ fmt_02d s)
       (fun _ => false) (fun _ => false) (fun _ => false) (fun _ _ => false)
       (fun _ _ _ _ => []) (fun stem sc _ _ => stem ++ snd (splitext sc))
       (fun series _ _ old => series ++ py " - " ++ old) (fun _ _ => false)
       false true 4
       (mkOpts true true true true (Some (py "undo.jsonl")) [py "/tv"])
       (py "/tv/Old Show"))
  /\ forall (w : world) (desired_series_name : pystr),
       run w (maybe_rename_path (fun _ => None) (py "/tv/Old Show")
                desired_series_name true false (Some (py "undo.jsonl")))
       = inr (py "/tv/Old Show").
Proof.
  apply (C5_dry_run_no_mutation (U := BasicUnicode) (fun _ => None)
           (fun s => py "S" ++ fmt_02d s)
           (fun _ => false) (fun _ => false) (fun _ => false) (fun _ _ => false)
           (fun _ _ _ _ => []) (fun stem sc _ _ => stem ++ snd (splitext sc))
           (fun series _ _ old => series ++ py " - " ++ old) (fun _ _ => false)
           false true 4
           (mkOpts true true true true (Some (py "undo.jsonl")) [py "/tv"])
           (py "/tv/Old Show")).
  reflexivity.
Defined.

(* ================================================================== *)
(** * Properties: the matcher finds what the patterns describe *)
(* ================================================================== *)

Lemma last_of_app (pv : option Z) (w1 w2 : pystr) :
  last_of pv (w1 ++ w2) = last_of (last_of pv w1) w2.
Proof. unfold last_of. apply fold_left_app. Qed.

Lemma firstn_exact {X : Type} (w s : list X) : firstn (length w) (w ++ s) = w.
Proof. induction w as [|x w IH]; cbn; [now destruct s | now rewrite IH]. Qed.

Lemma skipn_exact {X : Type} (w s : list X) : skipn (length w) (w ++ s) = s.
Proof. induction w as [|x w IH]; cbn; auto. Qed.

Section MatcherCorrect.
Context {U : Unicode}.
Variable ci : bool.

(** ** Soundness *)

Lemma star_greedy_sound (A : Type) (cs : cset) (s : pystr) :
  forall i pv (k : cursor -> option A) x,
    star_greedy ci A cs i pv s k = Some x ->
    exists w s',
      s = w ++ s' /\ forallb (cs_match ci cs) w = true
      /\ k (Cursor (i + length w) (last_of pv w) s') = Some x.
Proof.
  induction s as [|c s IH]; intros i pv k x H; cbn [star_greedy] in H.
  - exists [], []. cbn. rewrite Nat.add_0_r. auto.
  - destruct (cs_match ci cs c) eqn:Ec.
    + destruct (star_greedy ci A cs (S i) (Some c) s k) as [r|] eqn:Er.
      * injection H as ->. apply IH in Er. destruct Er as (w & s' & -> & Hw & Hk).
        exists (c :: w), s'. cbn [app forallb length]. rewrite Ec.
        split; [reflexivity|]. split; [assumption|].
        rewrite Nat.add_succ_r. exact Hk.
      * exists [], (c :: s). cbn. rewrite Nat.add_0_r. auto.
    + exists [], (c :: s). cbn. rewrite Nat.add_0_r. auto.
Qed.

Lemma star_lazy_sound (A : Type) (cs : cset) (s : pystr) :
  forall i pv (k : cursor -> option A) x,
    star_lazy ci A cs i pv s k = Some x ->
    exists w s',
      s = w ++ s' /\ forallb (cs_match ci cs) w = true
      /\ k (Cursor (i + length w) (last_of pv w) s') = Some x.
Proof.
  induction s as [|c s IH]; intros i pv k x H; cbn [star_lazy] in H.
  - destruct (k (Cursor i pv [])) as [r|] eqn:Ek; [|discriminate].
    injection H as ->. exists [], []. cbn. rewrite Nat.add_0_r. auto.
  - destruct (k (Cursor i pv (c :: s))) as [r|] eqn:Ek.
    + injection H as ->. exists [], (c :: s). cbn. rewrite Nat.add_0_r. auto.
    + destruct (cs_match ci cs c) eqn:Ec; [|discriminate].
      apply IH in H. destruct H as (w & s' & -> & Hw & Hk).
      exists (c :: w), s'. cbn [app forallb length]. rewrite Ec.
      split; [reflexivity|]. split; [assumption|].
      rewrite Nat.add_succ_r. exact Hk.
Qed.

Theorem mt_sound (r : regex) :
  forall (A : Type) i pv s g (k : cursor -> caps -> option A) x,
    mt ci A r (Cursor i pv s) g k = Some x ->
    exists w s' g',
      s = w ++ s' /\ rx ci r i pv w s' g g'
      /\ k (Cursor (i + length w) (last_of pv w) s') g' = Some x.
Proof.
  induction r as [|cs|a IHa b IHb|a IHa b IHb|cs|cs|n a IHa| | | |positive a IHa|positive cs];
    intros A i pv s g k x H; cbn [mt rest pos prev] in H.
  - exists [], s, g. cbn. rewrite Nat.add_0_r. repeat split; [constructor | exact H].
  - destruct s as [|c s]; [discriminate|].
    destruct (cs_match ci cs c) eqn:Ec; [|discriminate].
    exists [c], s, g. cbn [app length]. split; [reflexivity|].
    split; [now constructor|]. rewrite Nat.add_1_r. exact H.
  - apply IHa in H. destruct H as (w1 & s1 & g1 & -> & Ha & H).
    apply IHb in H. destruct H as (w2 & s' & g2 & -> & Hb & H).
    exists (w1 ++ w2), s', g2. rewrite <- app_assoc. split; [reflexivity|].
    split; [econstructor; eassumption|].
    rewrite length_app, Nat.add_assoc, last_of_app. exact H.
  - destruct (mt ci A a (Cursor i pv s) g k) as [y|] eqn:Ea.
    + injection H as ->. apply IHa in Ea.
      destruct Ea as (w & s' & g' & -> & Ha & H).
      exists w, s', g'. repeat split; [now apply rx_alt_l | exact H].
    + apply IHb in H. destruct H as (w & s' & g' & -> & Hb & H).
      exists w, s', g'. repeat split; [now apply rx_alt_r | exact H].
  - apply star_greedy_sound in H. destruct H as (w & s' & -> & Hw & H).
    exists w, s', g. repeat split; [now constructor | exact H].
  - apply star_lazy_sound in H. destruct H as (w & s' & -> & Hw & H).
    exists w, s', g. repeat split; [now constructor | exact H].
  - apply IHa in H. destruct H as (w & s' & g' & -> & Ha & H).
    cbn [pos rest] in H.
    replace (i + length w - i)%nat with (length w) in H by lia.
    rewrite firstn_exact in H.
    exists w, s', ((n, w) :: g'). repeat split; [now constructor | exact H].
  - destruct (Nat.eqb_spec i 0) as [->|]; [|discriminate].
    exists [], s, g. cbn. repeat split; [constructor | exact H].
  - exists [], s, g. cbn. rewrite Nat.add_0_r.
    destruct s as [|c [|c' s]]; try discriminate.
    + repeat split; [constructor; now left | exact H].
    + destruct (Z.eqb_spec c 10) as [->|]; [|discriminate].
      repeat split; [constructor; now right | exact H].
  - destruct (xorb _ _) eqn:Ex; [|discriminate].
    exists [], s, g. cbn. rewrite Nat.add_0_r.
    repeat split; [now constructor | exact H].
  - exists [], s, g. cbn. rewrite Nat.add_0_r.
    destruct (mt ci unit a (Cursor i pv s) g (fun _ _ => Some tt)) as [[]|] eqn:Ea;
      destruct positive; try discriminate;
      (repeat split; [now constructor | exact H]).
  - destruct (Bool.eqb _ positive) eqn:Eb; [|discriminate].
    exists [], s, g. cbn. rewrite Nat.add_0_r.
    repeat split; [now constructor | exact H].
Qed.

(** ** Completeness *)

Lemma star_greedy_complete (A : Type) (cs : cset) (w : pystr) :
  forall i pv s' (k : cursor -> option A) x,
    forallb (cs_match ci cs) w = true ->
    k (Cursor (i + length w) (last_of pv w) s') = Some x ->
    exists y, star_greedy ci A cs i pv (w ++ s') k = Some y.
Proof.
  induction w as [|c w IH]; intros i pv s' k x Hw Hk.
  - cbn in Hk. rewrite Nat.add_0_r in Hk. cbn [app].
    destruct s' as [|c s']; cbn [star_greedy]; [eauto|].
    destruct (cs_match ci cs c); [|eauto].
    destruct (star_greedy ci A cs (S i) (Some c) s' k); eauto.
  - cbn [forallb] in Hw. apply andb_prop in Hw. destruct Hw as [Ec Hw].
    cbn [app star_greedy]. rewrite Ec.
    cbn [length] in Hk. rewrite Nat.add_succ_r in Hk.
    destruct (IH (S i) (Some c) s' k x Hw Hk) as [y ->]. eauto.
Qed.

Lemma star_lazy_complete (A : Type) (cs : cset) (w : pystr) :
  forall i pv s' (k : cursor -> option A) x,
    forallb (cs_match ci cs) w = true ->
    k (Cursor (i + length w) (last_of pv w) s') = Some x ->
    exists y, star_lazy ci A cs i pv (w ++ s') k = Some y.
Proof.
  induction w as [|c w IH]; intros i pv s' k x Hw Hk.
  - cbn in Hk. rewrite Nat.add_0_r in Hk. cbn [app].
    destruct s' as [|c s']; cbn [star_lazy]; rewrite Hk; eauto.
  - cbn [forallb] in Hw. apply andb_prop in Hw. destruct Hw as [Ec Hw].
    cbn [app star_lazy]. rewrite Ec.
    cbn [length] in Hk. rewrite Nat.add_succ_r in Hk.
    destruct (k (Cursor i pv (c :: w ++ s'))); [eauto|].
    apply (IH (S i) (Some c) s' k x Hw Hk).
Qed.

Theorem mt_complete (r : regex) i pv w s' g g' :
  rx ci r i pv w s' g g' ->
  forall (A : Type) (k : cursor -> caps -> option A) x,
    k (Cursor (i + length w) (last_of pv w) s') g' = Some x ->
    exists y, mt ci A r (Cursor i pv (w ++ s')) g k = Some y.
Proof.
  intros H. induction H; intros A k res Hk; cbn [mt rest pos prev app].
  - cbn in Hk. rewrite Nat.add_0_r in Hk. eauto.
  - rewrite H. cbn in Hk. rewrite Nat.add_1_r in Hk. eauto.
  - rewrite length_app, Nat.add_assoc, last_of_app in Hk.
    destruct (IHrx2 A k res Hk) as [y Hy].
    rewrite <- app_assoc. apply (IHrx1 A _ y). exact Hy.
  - destruct (IHrx A k res Hk) as [y ->]. eauto.
  - destruct (mt ci A a (Cursor i pv (w ++ s)) g k); [eauto|].
    apply (IHrx A k res Hk).
  - apply (star_greedy_complete A cs w i pv s (fun c' => k c' g) res); assumption.
  - apply (star_lazy_complete A cs w i pv s (fun c' => k c' g) res); assumption.
  - apply (IHrx A _ res). cbn [pos rest].
    replace (i + length w - i)%nat with (length w) by lia.
    rewrite firstn_exact. exact Hk.
  - cbn in Hk. eauto.
  - cbn in Hk. rewrite Nat.add_0_r in Hk.
    destruct H as [->| ->]; cbn; eauto.
  - rewrite H. cbn in Hk. rewrite Nat.add_0_r in Hk. eauto.
  - rewrite H. cbn in Hk. rewrite Nat.add_0_r in Hk. eauto.
  - rewrite H. cbn in Hk. rewrite Nat.add_0_r in Hk. eauto.
  - rewrite H. cbn in Hk. rewrite Nat.add_0_r in Hk. eauto.
Qed.

End MatcherCorrect.

(** ** [re.search] finds the first marker *)

Section SearchCorrect.
Context {U : Unicode}.

Lemma match_here_sound (p : pattern) i pv s m :
  match_here p (Cursor i pv s) = Some m ->
  exists w s',
    s = w ++ s' /\ rx (ignorecase p) (body p) i pv w s' [] (m_groups m)
    /\ m_start m = i /\ m_end m = (i + length w)%nat.
Proof.
  unfold match_here. intros H. apply mt_sound in H.
  destruct H as (w & s' & g' & -> & Hrx & H). cbn [pos] in H.
  injection H as <-. exists w, s'. cbn. auto.
Qed.

Lemma match_here_complete (p : pattern) i pv w s' g :
  rx (ignorecase p) (body p) i pv w s' [] g ->
  exists m, match_here p (Cursor i pv (w ++ s')) = Some m.
Proof.
  intros H. unfold match_here.
  eapply (mt_complete _ _ _ _ _ _ _ _ H). reflexivity.
Qed.

Lemma search_from_first (p : pattern) (s : pystr) :
  forall i pv m,
    search_from p i pv s = Some m ->
    exists pre post,
      s = pre ++ post
      /\ match_here p (Cursor (i + length pre) (last_of pv pre) post) = Some m
      /\ forall pre' post',
           s = pre' ++ post' -> (length pre' < length pre)%nat ->
           match_here p (Cursor (i + length pre') (last_of pv pre') post') = None.
Proof.
  induction s as [|c s IH]; intros i pv m H; cbn [search_from] in H.
  - destruct (match_here p (Cursor i pv [])) as [m'|] eqn:E; [|discriminate].
    injection H as ->. exists [], []. cbn. rewrite Nat.add_0_r.
    split; [reflexivity|]. split; [assumption|]. intros pre' post' _ Hl. lia.
  - destruct (match_here p (Cursor i pv (c :: s))) as [m'|] eqn:E.
    + injection H as ->. exists [], (c :: s). cbn. rewrite Nat.add_0_r.
      split; [reflexivity|]. split; [assumption|]. intros pre' post' _ Hl. lia.
    + apply IH in H. destruct H as (pre & post & -> & Hm & Hfirst).
      exists (c :: pre), post. cbn [app length last_of fold_left].
      rewrite Nat.add_succ_r. split; [reflexivity|]. split; [exact Hm|].
      intros pre' post' Hs Hl. destruct pre' as [|c' pre'].
      * cbn in Hs. subst post'. cbn. rewrite Nat.add_0_r. exact E.
      * cbn [app] in Hs. injection Hs as <- Hs. cbn [length] in *.
        rewrite Nat.add_succ_r. apply (Hfirst pre' post' Hs). lia.
Qed.

Lemma search_from_none (p : pattern) (s : pystr) :
  forall i pv,
    search_from p i pv s = None ->
    forall pre post,
      s = pre ++ post ->
      match_here p (Cursor (i + length pre) (last_of pv pre) post) = None.
Proof.
  induction s as [|c s IH]; intros i pv H pre post Hs; cbn [search_from] in H.
  - destruct (match_here p (Cursor i pv [])) eqn:E; [discriminate|].
    symmetry in Hs. apply app_eq_nil in Hs. destruct Hs as [-> ->].
    cbn. rewrite Nat.add_0_r. exact E.
  - destruct (match_here p (Cursor i pv (c :: s))) eqn:E; [discriminate|].
    destruct pre as [|c' pre].
    + cbn in Hs. subst post. cbn. rewrite Nat.add_0_r. exact E.
    + cbn [app] in Hs. injection Hs as <- Hs. cbn [length last_of fold_left].
      rewrite Nat.add_succ_r. apply (IH (S i) (Some c) H pre post Hs).
Qed.

(** A match that [re.search] answers is the first marker of the text. *)
Theorem re_search_marker (p : pattern) (s : pystr) (m : rmatch) :
  re_search p s = Some m ->
  exists pre w post,
    s = pre ++ w ++ post
    /\ m_start m = length pre /\ m_end m = (length pre + length w)%nat
    /\ marker p pre w post (m_groups m)
    /\ match_here p (Cursor (length pre) (last_of None pre) (w ++ post)) = Some m
    /\ first_marker p s pre.
Proof.
  unfold re_search. intros H. apply search_from_first in H.
  destruct H as (pre & rest_ & -> & Hm & Hfirst).
  pose proof Hm as Hm0.
  apply match_here_sound in Hm. destruct Hm as (w & post & -> & Hrx & Hs & He).
  exists pre, w, post. cbn [Nat.add] in *.
  split; [reflexivity|]. split; [assumption|]. split; [assumption|].
  split; [exact Hrx|]. split; [exact Hm0|].
  intros pre' w' post' g' Hs' Hmk.
  destruct (Nat.le_gt_cases (length pre) (length pre')) as [|Hl]; [assumption|].
  exfalso. specialize (Hfirst pre' (w' ++ post') Hs' Hl). cbn [Nat.add] in Hfirst.
  destruct (match_here_complete p _ _ _ _ _ Hmk) as [m' Hm']. congruence.
Qed.

(** [re.search] answers nothing exactly when the text has no marker. *)
Theorem re_search_none (p : pattern) (s : pystr) :
  re_search p s = None <->
  forall pre w post g, s = pre ++ w ++ post -> ~ marker p pre w post g.
Proof.
  split.
  - unfold re_search. intros H pre w post g Hs Hmk.
    pose proof (search_from_none p s 0 None H pre (w ++ post) Hs) as Hn.
    cbn [Nat.add] in Hn.
    destruct (match_here_complete p _ _ _ _ _ Hmk) as [m' Hm']. congruence.
  - intros H. destruct (re_search p s) as [m|] eqn:E; [|reflexivity].
    apply re_search_marker in E. destruct E as (pre & w & post & Hs & _ & _ & Hmk & _).
    exfalso. exact (H pre w post _ Hs Hmk).
Qed.

Lemma has_marker_search (p : pattern) (s : pystr) :
  has_marker p s <-> re_search p s <> None.
Proof.
  split.
  - intros (pre & w & post & g & Hs & Hmk) H.
    exact (proj1 (re_search_none p s) H pre w post g Hs Hmk).
  - intros H. destruct (re_search p s) as [m|] eqn:E; [|congruence].
    apply re_search_marker in E. destruct E as (pre & w & post & Hs & _ & _ & Hmk & _).
    exists pre, w, post, (m_groups m). auto.
Qed.

Lemma has_marker_found (p : pattern) (s : pystr) :
  has_marker p s <-> re_found p s = true.
Proof.
  rewrite has_marker_search. unfold re_found.
  destruct (re_search p s); split; congruence.
Qed.

Lemma no_marker_search (p : pattern) (s : pystr) :
  ~ has_marker p s <-> re_search p s = None.
Proof.
  rewrite has_marker_search.
  destruct (re_search p s); split; intros H; try congruence;
    exfalso; apply H; congruence.
Qed.

End SearchCorrect.

(* ================================================================== *)
(** * Properties: the name parser *)
(* ================================================================== *)

Section MarkerShapes.
Context {U : Unicode}.

(** ** What the pieces of the patterns match *)

Lemma mt_seq (ci : bool) (A : Type) (a b : regex) c g (k : cursor -> caps -> option A) :
  mt ci A (Seq a b) c g k = mt ci A a c g (fun c' g' => mt ci A b c' g' k).
Proof. reflexivity. Qed.

Lemma cs_digit (ci : bool) (x : Z) : cs_match ci CDigit x = isdecimal x.
Proof. cbn. apply orb_false_r. Qed.

Lemma cs_space_all (ci : bool) (w : pystr) :
  forallb (cs_match ci CSpace) w = forallb isspace w.
Proof.
  induction w as [|x w IH]; [reflexivity|]. cbn [forallb]. rewrite IH.
  f_equal. cbn. apply orb_false_r.
Qed.

Lemma cs_chr_fold (c x : Z) :
  cs_match true (CChr c) x = true -> ci_fold x = ci_fold c.
Proof. cbn. rewrite orb_false_r. apply Z.eqb_eq. Qed.

Lemma rx_chr_inv ci cs i pv w s g g' :
  rx ci (Chr cs) i pv w s g g' ->
  exists x, w = [x] /\ cs_match ci cs x = true /\ g' = g.
Proof. intros H. inversion H; subst. eauto. Qed.

Lemma rx_star_inv ci cs i pv w s g g' :
  rx ci (Star cs) i pv w s g g' ->
  forallb (cs_match ci cs) w = true /\ g' = g.
Proof. intros H. inversion H; subst. auto. Qed.

Lemma rx_wordb_inv ci i pv w s g g' :
  rx ci WordB i pv w s g g' ->
  w = [] /\ g' = g /\ xorb (isword_opt pv) (isword_opt (hd_error s)) = true.
Proof. intros H. inversion H; subst. auto. Qed.

Lemma rx_group_inv ci n a i pv w s g g' :
  rx ci (Group n a) i pv w s g g' ->
  exists g1, g' = (n, w) :: g1 /\ rx ci a i pv w s g g1.
Proof. intros H. inversion H; subst. eauto. Qed.

Lemma rx_seq_inv ci a b i pv w s g g2 :
  rx ci (Seq a b) i pv w s g g2 ->
  exists w1 w2 g1,
    w = w1 ++ w2 /\ rx ci a i pv w1 (w2 ++ s) g g1
    /\ rx ci b (i + length w1) (last_of pv w1) w2 s g1 g2.
Proof. intros H. inversion H; subst. eauto 7. Qed.

Lemma rx_alt_inv ci a b i pv w s g g' :
  rx ci (Alt a b) i pv w s g g' -> rx ci a i pv w s g g' \/ rx ci b i pv w s g g'.
Proof. intros H. inversion H; subst; auto. Qed.

Lemma rx_eps_inv ci i pv w s g g' :
  rx ci Eps i pv w s g g' -> w = [] /\ g' = g.
Proof. intros H. inversion H; subst. auto. Qed.

Lemma rx_digits_opt ci extra :
  forall i pv w s g g',
    rx ci (RepOpt extra D) i pv w s g g' ->
    g' = g /\ (length w <= extra)%nat /\ forallb isdecimal w = true.
Proof.
  induction extra as [|extra IH]; intros i pv w s g g' H; cbn [RepOpt] in H.
  - apply rx_eps_inv in H. destruct H as [-> ->]. cbn. auto.
  - unfold Opt in H. apply rx_alt_inv in H. destruct H as [H|H].
    + apply rx_seq_inv in H. destruct H as (w1 & w2 & g1 & -> & H1 & H2).
      apply rx_chr_inv in H1. destruct H1 as (x & -> & Hx & ->).
      apply IH in H2. destruct H2 as (-> & Hl & Hd).
      rewrite cs_digit in Hx. cbn [app length forallb]. rewrite Hx, Hd.
      split; [reflexivity|]. split; [lia | reflexivity].
    + apply rx_eps_inv in H. destruct H as [-> ->]. cbn.
      split; [reflexivity|]. split; [lia | reflexivity].
Qed.

Lemma rx_digits ci lo extra :
  forall i pv w s g g',
    rx ci (Rep lo extra D) i pv w s g g' ->
    g' = g /\ digits lo (lo + extra) w.
Proof.
  induction lo as [|lo IH]; intros i pv w s g g' H; cbn [Rep] in H.
  - apply rx_digits_opt in H. destruct H as (-> & Hl & Hd).
    split; [reflexivity|]. split; [cbn; lia | assumption].
  - apply rx_seq_inv in H. destruct H as (w1 & w2 & g1 & -> & H1 & H2).
    apply rx_chr_inv in H1. destruct H1 as (x & -> & Hx & ->).
    apply IH in H2. destruct H2 as (-> & (Hl & Hd)).
    rewrite cs_digit in Hx. split; [reflexivity|].
    split; cbn [app length forallb]; [lia | now rewrite Hx, Hd].
Qed.

Lemma mt_D (A : Type) ci i pv s g (k : cursor -> caps -> option A) :
  mt ci A D (Cursor i pv s) g k
  = match s with
    | x :: t => if isdecimal x then k (Cursor (S i) (Some x) t) g else None
    | [] => None
    end.
Proof.
  destruct s as [|x t]; [reflexivity|].
  unfold D. cbn [mt rest]. rewrite cs_digit. reflexivity.
Qed.

(** The last repetition of a pattern takes the longest run of digits. *)
Lemma rep_opt_greedy (A : Type) ci extra :
  forall i pv s g (k : cursor -> caps -> option A),
    (forall c g, k c g <> None) ->
    exists de post,
      s = de ++ post /\ forallb isdecimal de = true
      /\ (length de <= extra)%nat
      /\ (length de = extra \/ starts_with_digit post = false)
      /\ mt ci A (RepOpt extra D) (Cursor i pv s) g k
         = k (Cursor (i + length de) (last_of pv de) post) g.
Proof.
  induction extra as [|extra IH]; intros i pv s g k Hk.
  - exists [], s. cbn. rewrite Nat.add_0_r. auto 6.
  - cbn [RepOpt]. unfold Opt. cbn [mt]. rewrite mt_D.
    destruct s as [|x t].
    + exists [], []. cbn. rewrite Nat.add_0_r.
      repeat split; [lia | now right].
    + destruct (isdecimal x) eqn:Ex.
      * destruct (IH (S i) (Some x) t g k Hk) as (de & post & -> & Hd & Hl & Hm & E).
        exists (x :: de), post. cbn [app length forallb]. rewrite Ex, Hd.
        split; [reflexivity|]. split; [reflexivity|]. split; [lia|].
        split; [destruct Hm; [left; lia | now right]|].
        rewrite E, Nat.add_succ_r. cbn [Nat.add].
        change (last_of pv (x :: de)) with (last_of (Some x) de).
        destruct (k (Cursor (S (i + length de)) (last_of (Some x) de) post) g) eqn:Ek;
          [reflexivity | now apply Hk in Ek].
      * exists [], (x :: t). cbn [app length forallb starts_with_digit].
        rewrite Nat.add_0_r.
        split; [reflexivity|]. split; [reflexivity|]. split; [lia|].
        split; [now right | reflexivity].
Qed.

Lemma rep_greedy (A : Type) ci lo extra :
  forall i pv s g (k : cursor -> caps -> option A) x,
    (forall c g, k c g <> None) ->
    mt ci A (Rep lo extra D) (Cursor i pv s) g k = Some x ->
    exists de post,
      s = de ++ post /\ digits lo (lo + extra) de
      /\ (length de = (lo + extra)%nat \/ starts_with_digit post = false)
      /\ k (Cursor (i + length de) (last_of pv de) post) g = Some x.
Proof.
  induction lo as [|lo IH]; intros i pv s g k x Hk H; cbn [Rep] in H.
  - destruct (rep_opt_greedy A ci extra i pv s g k Hk)
      as (de & post & -> & Hd & Hl & Hm & E).
    rewrite E in H. exists de, post. unfold digits. cbn [Nat.add].
    repeat split; auto; lia.
  - cbn [mt] in H. rewrite mt_D in H. destruct s as [|c t]; [discriminate|].
    destruct (isdecimal c) eqn:Ec; [|discriminate].
    apply IH in H; [|assumption].
    destruct H as (de & post & -> & (Hl & Hd) & Hm & H).
    exists (c :: de), post. unfold digits. cbn [app length forallb].
    rewrite Ec, Hd, Nat.add_succ_r.
    repeat split; auto; try lia.
    destruct Hm; [left; cbn; lia | now right].
Qed.

Lemma isdecimal_isword (c : Z) : isdecimal c = true -> isword c = true.
Proof.
  unfold isdecimal, isword. destruct (uni_decimal c) as [d|] eqn:E; [|discriminate].
  intros _. now rewrite (uni_decimal_alnum c d E).
Qed.

Lemma last_of_In (pv : option Z) (w : pystr) :
  w <> [] -> exists c, last_of pv w = Some c /\ In c w.
Proof.
  revert pv. induction w as [|x w IH]; intros pv H; [congruence|].
  destruct w as [|y w].
  - exists x. cbn. auto.
  - destruct (IH (Some x)) as (c & E & Hc); [discriminate|].
    exists c. split; [exact E | now right].
Qed.

Lemma digits_nonempty lo hi ds : (1 <= lo)%nat -> digits lo hi ds -> ds <> [].
Proof. intros Hlo [Hl _] ->. cbn in Hl. lia. Qed.

Lemma int_digits_value (ds : pystr) :
  forallb isdecimal ds = true ->
  forall acc, 0 <= acc ->
    exists v, int_digits acc ds = Some v
      /\ acc * 10 ^ Z.of_nat (length ds) <= v < (acc + 1) * 10 ^ Z.of_nat (length ds).
Proof.
  induction ds as [|c t IH]; intros Hd acc Hacc.
  - exists acc. cbn. split; [reflexivity | lia].
  - cbn [forallb] in Hd. apply andb_prop in Hd. destruct Hd as [Hc Hd].
    unfold isdecimal in Hc. cbn [int_digits].
    destruct (uni_decimal c) as [d|] eqn:E; [|discriminate].
    pose proof (uni_decimal_bound c d E) as Hb.
    destruct (IH Hd (acc * 10 + d)) as (v & Ev & Hv); [lia|].
    exists v. split; [exact Ev|].
    cbn [length]. rewrite Nat2Z.inj_succ, Z.pow_succ_r by lia.
    assert (HP : 0 < 10 ^ Z.of_nat (length t)) by (apply Z.pow_pos_nonneg; lia).
    set (P := 10 ^ Z.of_nat (length t)) in *.
    assert (0 <= d * P) by nia. assert (d * P <= 9 * P) by nia.
    lia.
Qed.

(** [int] of a string of one to [hi] digits. *)
Lemma py_int_digits lo hi ds :
  (1 <= lo)%nat -> digits lo hi ds ->
  exists v, py_int ds = Some v /\ 0 <= v < 10 ^ Z.of_nat hi.
Proof.
  intros Hlo Hds. pose proof (digits_nonempty lo hi ds Hlo Hds) as Hne.
  destruct Hds as [Hl Hd].
  destruct (int_digits_value ds Hd 0) as (v & Ev & Hv); [lia|].
  exists v. split.
  - unfold py_int. destruct ds; [congruence | exact Ev].
  - rewrite Z.mul_0_l, Z.add_0_l, Z.mul_1_l in Hv. split; [lia|].
    assert (10 ^ Z.of_nat (length ds) <= 10 ^ Z.of_nat hi)
      by (apply Z.pow_le_mono_r; lia).
    lia.
Qed.

(** ** The two markers *)

Lemma cs_xX (x : Z) : cs_match true (OneOf (chars "xX")) x = true -> ci_fold x = 120.
Proof.
  change (chars "xX") with [IChr 120; IChr 88].
  cbn [cs_match existsb item_match].
  change (ci_fold 120) with 120. change (ci_fold 88) with 120.
  rewrite orb_false_r, orb_diag. apply Z.eqb_eq.
Qed.

Lemma match_here_sxxeyy i pv s m :
  match_here SXXEYY_RE (Cursor i pv s) = Some m ->
  exists w post ds de,
    s = w ++ post /\ sxxeyy_text w ds de /\ digits 1 2 ds /\ digits 1 3 de
    /\ (length de = 3%nat \/ starts_with_digit post = false)
    /\ m = RMatch i (i + length w) [(2%nat, de); (1%nat, ds)].
Proof.
  unfold match_here. cbn [body ignorecase SXXEYY_RE Seqs pos]. intros H.
  change (Lit "S") with (Chr (CChr 83)) in H.
  change (Lit "E") with (Chr (CChr 69)) in H.
  rewrite mt_seq in H. apply mt_sound in H.
  destruct H as (w1 & s1 & g1 & -> & R1 & H).
  apply rx_chr_inv in R1. destruct R1 as (sc & -> & Hsc & ->).
  rewrite mt_seq in H. apply mt_sound in H.
  destruct H as (ds & s2 & g2 & -> & R2 & H).
  apply rx_group_inv in R2. destruct R2 as (g2' & -> & R2).
  apply rx_digits in R2. destruct R2 as (-> & Hds).
  rewrite mt_seq in H. apply mt_sound in H.
  destruct H as (ws & s3 & g3 & -> & R3 & H).
  apply rx_star_inv in R3. destruct R3 as (Hws & ->). rewrite cs_space_all in Hws.
  rewrite mt_seq in H. apply mt_sound in H.
  destruct H as (w4 & s4 & g4 & -> & R4 & H).
  apply rx_chr_inv in R4. destruct R4 as (ec & -> & Hec & ->).
  cbn [mt] in H. apply rep_greedy in H; [|discriminate].
  destruct H as (de & post & -> & Hde & Hmax & H).
  cbn [pos rest] in H. injection H as <-.
  exists (sc :: ds ++ ws ++ ec :: de), post, ds, de.
  split; [cbn [app]; now rewrite <- !app_assoc|].
  split.
  { exists sc, ws, ec. split; [reflexivity|].
    split; [exact (cs_chr_fold 83 sc Hsc)|].
    split; [exact (cs_chr_fold 69 ec Hec) | exact Hws]. }
  split; [exact Hds|]. split; [exact Hde|]. split; [exact Hmax|].
  f_equal.
  - cbn [length]. rewrite !length_app. cbn [length]. lia.
  - f_equal. f_equal.
    match goal with |- firstn ?n _ = _ => replace n with (length de) by lia end.
    apply firstn_exact.
Qed.

Lemma marker_nxm i pv w post g :
  rx true (body _1X02_RE) i pv w post [] g ->
  exists ds de,
    nxm_text w ds de /\ digits 1 2 ds /\ digits 1 3 de
    /\ isword_opt pv = false /\ isword_opt (hd_error post) = false
    /\ g = [(2%nat, de); (1%nat, ds)].
Proof.
  cbn [body _1X02_RE Seqs]. intros H.
  apply rx_seq_inv in H. destruct H as (w0 & w' & g0 & -> & R0 & H).
  apply rx_wordb_inv in R0. destruct R0 as (-> & -> & B0).
  apply rx_seq_inv in H. destruct H as (ds & w2 & g1 & -> & R1 & H).
  apply rx_group_inv in R1. destruct R1 as (g1' & -> & R1).
  apply rx_digits in R1. destruct R1 as (-> & Hds).
  apply rx_seq_inv in H. destruct H as (ws & w3 & g2 & -> & R2 & H).
  apply rx_star_inv in R2. destruct R2 as (Hws & ->). rewrite cs_space_all in Hws.
  apply rx_seq_inv in H. destruct H as (wx & w4 & g3 & -> & R3 & H).
  apply rx_chr_inv in R3. destruct R3 as (x & -> & Hx & ->).
  apply rx_seq_inv in H. destruct H as (ws' & w5 & g4 & -> & R4 & H).
  apply rx_star_inv in R4. destruct R4 as (Hws' & ->). rewrite cs_space_all in Hws'.
  apply rx_seq_inv in H. destruct H as (de & w6 & g5 & -> & R5 & H).
  apply rx_group_inv in R5. destruct R5 as (g5' & -> & R5).
  apply rx_digits in R5. destruct R5 as (-> & Hde).
  apply rx_wordb_inv in H. destruct H as (-> & -> & B1).
  exists ds, de. rewrite app_nil_r. cbn [app].
  split.
  { exists ws, x, ws'. split; [reflexivity|].
    split; [exact (cs_xX x Hx)|]. split; assumption. }
  split; [exact Hds|]. split; [exact Hde|].
  split; [|split; [|reflexivity]].
  - pose proof (digits_nonempty 1 _ ds (le_n 1) Hds) as Hne.
    destruct ds as [|d ds']; [congruence|]. cbn [app hd_error isword_opt] in B0.
    destruct Hds as [_ Hd]. cbn [forallb] in Hd. apply andb_prop in Hd.
    rewrite (isdecimal_isword d (proj1 Hd)) in B0.
    destruct (isword_opt pv); [discriminate | reflexivity].
  - pose proof (digits_nonempty 1 _ de (le_n 1) Hde) as Hne.
    destruct (last_of_In
                (last_of (last_of (last_of (last_of (last_of pv []) ds) ws) [x]) ws')
                de Hne) as (c & Ec & Hc).
    rewrite Ec in B1. cbn [isword_opt] in B1.
    destruct Hde as [_ Hd]. rewrite forallb_forall in Hd.
    rewrite (isdecimal_isword c (Hd c Hc)) in B1.
    destruct (isword_opt (hd_error post)); [discriminate | reflexivity].
Qed.

End MarkerShapes.

Section ParserProperties.
Context {U : Unicode}.

Lemma app_eq_length {X : Type} (a a' b b' : list X) :
  a ++ b = a' ++ b' -> length a = length a' -> a = a' /\ b = b'.
Proof.
  revert a'. induction a as [|x a IH]; intros [|x' a'] E L; try discriminate L.
  - auto.
  - cbn [app] in E. injection E as -> E. cbn [length] in L.
    destruct (IH a' E) as [-> ->]; [lia | auto].
Qed.

Lemma norm_stem_nil : norm_stem [] = [].
Proof. vm_compute. reflexivity. Qed.

(** A name with an [SxxEyy] or, failing that, an [NxM] marker in its stem
    is answered from the match. *)
Lemma parse_tagged (name : pystr) (m : rmatch) :
  re_search SXXEYY_RE (norm_stem (strip name)) = Some m
  \/ (re_search SXXEYY_RE (norm_stem (strip name)) = None
      /\ re_search _1X02_RE (norm_stem (strip name)) = Some m) ->
  parse_episode_from_name name = tagged_result (norm_stem (strip name)) m.
Proof.
  unfold parse_episode_from_name. destruct (strip name) as [|c r] eqn:E.
  - rewrite norm_stem_nil. intros [H|[_ H]]; vm_compute in H; discriminate.
  - unfold parse_stem. intros [H|[H1 H2]].
    + now rewrite H.
    + now rewrite H1, H2.
Qed.

Lemma tagged_result_eq (pre w post ds de : pystr) (s e : Z) (m : rmatch) :
  m_end m = (length pre + length w)%nat ->
  m_groups m = [(2%nat, de); (1%nat, ds)] ->
  py_int ds = Some s -> py_int de = Some e ->
  tagged_result (pre ++ w ++ post) m
  = (Some s, Some e, true,
     quality_tail ((pre ++ w ++ post) ++ py " " ++ strip_chars post (py " ._-"))).
Proof.
  intros He Hg Hs Hee. unfold tagged_result, group. rewrite Hg. cbn [cap_get Nat.eqb].
  rewrite Hs, Hee.
  replace (skipn (m_end m) (pre ++ w ++ post)) with post; [reflexivity|].
  rewrite He, <- length_app, app_assoc. symmetry. apply skipn_exact.
Qed.

(** ** C2.  Explicit markers *)

(** C2 (amended): the parser works on the stem of the name, that is the
    base name without its extension and its leading bracketed tags,
    half-width and with its spaces normalised.  If the stem has an
    [SxxEyy] marker, the answer is tagged and carries the numbers of the
    first one: the one or two digits after the [S] and the digits after
    the [E], up to three and as many as there are.  If it has none but has
    an [NxM] marker between word boundaries, the answer is tagged and
    carries the numbers of the first one. *)
Theorem C2_explicit_markers (name : pystr) :
  let stem := norm_stem (strip name) in
  (has_marker SXXEYY_RE stem ->
   exists pre w post ds de s e,
     stem = pre ++ w ++ post
     /\ first_marker SXXEYY_RE stem pre
     /\ sxxeyy_text w ds de /\ digits 1 2 ds /\ digits 1 3 de
     /\ (length de = 3%nat \/ starts_with_digit post = false)
     /\ py_int ds = Some s /\ py_int de = Some e
     /\ 0 <= s < 100 /\ 0 <= e < 1000
     /\ parse_episode_from_name name
        = (Some s, Some e, true,
           quality_tail (stem ++ py " " ++ strip_chars post (py " ._-"))))
  /\ (~ has_marker SXXEYY_RE stem -> has_marker _1X02_RE stem ->
      exists pre w post ds de s e,
        stem = pre ++ w ++ post
        /\ first_marker _1X02_RE stem pre
        /\ nxm_text w ds de /\ digits 1 2 ds /\ digits 1 3 de
        /\ isword_opt (last_of None pre) = false
        /\ isword_opt (hd_error post) = false
        /\ py_int ds = Some s /\ py_int de = Some e
        /\ 0 <= s < 100 /\ 0 <= e < 1000
        /\ parse_episode_from_name name
           = (Some s, Some e, true,
              quality_tail (stem ++ py " " ++ strip_chars post (py " ._-")))).
Proof.
  intros stem. split.
  - intros Hm. apply has_marker_search in Hm.
    destruct (re_search SXXEYY_RE stem) as [m|] eqn:E; [clear Hm | congruence].
    pose proof (parse_tagged name m (or_introl E)) as Hp. fold stem in Hp.
    apply re_search_marker in E.
    destruct E as (pre & w & post & Hs & Hst & Hen & Hmk & Hmh & Hfirst).
    apply match_here_sxxeyy in Hmh.
    destruct Hmh as (w' & post' & ds & de & Hs2 & Htext & Hds & Hde & Hmax & Em).
    assert (Hw : w = w' /\ post = post').
    { apply app_eq_length; [exact Hs2|]. rewrite Em in Hen. cbn [m_end] in Hen. lia. }
    destruct Hw as [<- <-].
    destruct (py_int_digits 1 2 ds (le_n 1) Hds) as (s & Es & Hsb).
    destruct (py_int_digits 1 3 de (le_n 1) Hde) as (e & Ee & Heb).
    exists pre, w, post, ds, de, s, e.
    split; [exact Hs|]. split; [exact Hfirst|]. split; [exact Htext|].
    split; [exact Hds|]. split; [exact Hde|]. split; [exact Hmax|].
    split; [exact Es|]. split; [exact Ee|].
    split; [exact Hsb|]. split; [exact Heb|].
    rewrite Hp, Hs. apply (tagged_result_eq pre w post ds de s e m); try assumption.
    now rewrite Em.
  - intros Hn Hm. apply no_marker_search in Hn. apply has_marker_search in Hm.
    destruct (re_search _1X02_RE stem) as [m|] eqn:E; [clear Hm | congruence].
    pose proof (parse_tagged name m (or_intror (conj Hn E))) as Hp. fold stem in Hp.
    apply re_search_marker in E.
    destruct E as (pre & w & post & Hs & Hst & Hen & Hmk & Hmh & Hfirst).
    apply marker_nxm in Hmk.
    destruct Hmk as (ds & de & Htext & Hds & Hde & Hb0 & Hb1 & Hg).
    destruct (py_int_digits 1 2 ds (le_n 1) Hds) as (s & Es & Hsb).
    destruct (py_int_digits 1 3 de (le_n 1) Hde) as (e & Ee & Heb).
    exists pre, w, post, ds, de, s, e.
    split; [exact Hs|]. split; [exact Hfirst|]. split; [exact Htext|].
    split; [exact Hds|]. split; [exact Hde|].
    split; [exact Hb0|]. split; [exact Hb1|].
    split; [exact Es|]. split; [exact Ee|].
    split; [exact Hsb|]. split; [exact Heb|].
    rewrite Hp, Hs. apply (tagged_result_eq pre w post ds de s e m); assumption.
Qed.

End ParserProperties.

(** ** The stem is half-width and stripped *)

Lemma lstrip_by_idem (f : Z -> bool) (s : pystr) :
  lstrip_by f (lstrip_by f s) = lstrip_by f s.
Proof.
  induction s as [|c s IH]; [reflexivity|]. cbn [lstrip_by].
  destruct (f c) eqn:E; [exact IH|]. cbn [lstrip_by]. now rewrite E.
Qed.

Lemma lstrip_by_snoc (f : Z -> bool) (l : pystr) (c : Z) :
  f c = false -> lstrip_by f (l ++ [c]) = lstrip_by f l ++ [c].
Proof.
  intros Hc. induction l as [|x l IH]; cbn [app lstrip_by].
  - now rewrite Hc.
  - destruct (f x); [exact IH | reflexivity].
Qed.

Lemma rstrip_by_cons (f : Z -> bool) (c : Z) (t : pystr) :
  f c = false -> rstrip_by f (c :: t) = c :: rstrip_by f t.
Proof.
  intros Hc. unfold rstrip_by. cbn [rev].
  now rewrite lstrip_by_snoc, rev_unit.
Qed.

Lemma rstrip_by_idem (f : Z -> bool) (s : pystr) :
  rstrip_by f (rstrip_by f s) = rstrip_by f s.
Proof. unfold rstrip_by. now rewrite rev_involutive, lstrip_by_idem. Qed.

Lemma lstrip_by_head (f : Z -> bool) (s : pystr) :
  lstrip_by f s = [] \/ exists c t, lstrip_by f s = c :: t /\ f c = false.
Proof.
  induction s as [|c s IH]; [now left|]. cbn [lstrip_by].
  destruct (f c) eqn:E; [exact IH | right; eauto].
Qed.

Lemma strip_by_idem (f : Z -> bool) (s : pystr) :
  strip_by f (strip_by f s) = strip_by f s.
Proof.
  unfold strip_by. destruct (lstrip_by_head f s) as [->|(c & t & -> & Hc)].
  - reflexivity.
  - rewrite (rstrip_by_cons f c t Hc). cbn [lstrip_by]. rewrite Hc.
    rewrite (rstrip_by_cons f c _ Hc). now rewrite rstrip_by_idem.
Qed.

Section StemProperties.
Context {U : Unicode}.

Lemma sub_scan_subset (p : pattern) (repl : pystr) (c : Z) :
  forall (s : pystr) (skip i : nat) (pv : option Z),
    In c (sub_scan p repl skip i pv s) -> In c s \/ In c repl.
Proof.
  induction s as [|x t IH]; intros skip i pv H; cbn [sub_scan] in H.
  - destruct H.
  - destruct skip as [|k].
    + destruct (match_here p (Cursor i pv (x :: t))) as [m|].
      * destruct (Nat.ltb i (m_end m)).
        -- apply in_app_or in H. destruct H as [H|H]; [now right|].
           apply IH in H. destruct H; [left; now right | now right].
        -- apply in_app_or in H. destruct H as [H|[->|H]];
             [now right | left; now left |].
           apply IH in H. destruct H; [left; now right | now right].
      * destruct H as [->|H]; [left; now left|].
        apply IH in H. destruct H; [left; now right | now right].
    + apply IH in H. destruct H; [left; now right | now right].
Qed.

Lemma normalize_spaces_chars (c : Z) (s : pystr) :
  In c (normalize_spaces s) -> In c s \/ c = SPACE.
Proof.
  unfold normalize_spaces, strip. intros H.
  apply strip_by_subset in H. unfold re_sub in H.
  apply sub_scan_subset in H. destruct H as [H|[<-|[]]]; [|now right].
  change (py " ") with [SPACE] in H. rewrite str_replace_chr in H.
  apply in_map_iff in H. destruct H as (x & <- & Hx).
  unfold subst_chr. destruct (x =? NBSP); [now right | now left].
Qed.

Lemma to_halfwidth_fixed (s : pystr) :
  (forall c, In c s -> to_halfwidth [c] = [c]) -> to_halfwidth s = s.
Proof.
  induction s as [|x s IH]; intros H; [reflexivity|].
  change (to_halfwidth (x :: s)) with (to_halfwidth [x] ++ to_halfwidth s).
  rewrite (H x (or_introl eq_refl)), IH; [reflexivity|].
  intros c Hc. apply H. now right.
Qed.

Lemma to_halfwidth_chars (c : Z) (s : pystr) :
  In c (to_halfwidth s) -> to_halfwidth [c] = [c].
Proof.
  unfold to_halfwidth. intros H. apply in_map_iff in H.
  destruct H as (x & <- & _). cbn [map]. f_equal.
  destruct (Z.eqb_spec x 12288) as [->|N]; [reflexivity|].
  destruct ((65281 <=? x) && (x <=? 65374)) eqn:E.
  - apply andb_prop in E. destruct E as [E1 E2].
    apply Z.leb_le in E1, E2.
    destruct (Z.eqb_spec (x - 65248) 12288); [lia|].
    destruct (Z.leb_spec 65281 (x - 65248)); [lia | reflexivity].
  - destruct (Z.eqb_spec x 12288); [congruence|]. now rewrite E.
Qed.

(** The stem is left as it is by the normalisation of the season parser. *)
Lemma norm_stem_normal (raw : pystr) :
  strip (to_halfwidth (norm_stem raw)) = norm_stem raw.
Proof.
  unfold norm_stem. cbv zeta.
  set (z := to_halfwidth (strip _)).
  assert (Hz : to_halfwidth (normalize_spaces z) = normalize_spaces z).
  { apply to_halfwidth_fixed. intros c Hc.
    apply normalize_spaces_chars in Hc. destruct Hc as [Hc| ->]; [|reflexivity].
    exact (to_halfwidth_chars c _ Hc). }
  rewrite Hz. unfold normalize_spaces, strip. apply strip_by_idem.
Qed.

End StemProperties.

Section SeasonRange.
Context {U : Unicode}.

Lemma range_guard (text : pystr) :
  has_marker RE_RANGE_S (strip (to_halfwidth text))
  \/ has_marker RE_RANGE_JI (strip (to_halfwidth text)) ->
  parse_season_from_text text = None.
Proof.
  intros H. unfold parse_season_from_text.
  destruct (strip (to_halfwidth text)) as [|c t]; [reflexivity|].
  destruct H as [H|H]; apply has_marker_found in H.
  - now rewrite H.
  - rewrite H. now destruct (re_found RE_RANGE_S (c :: t)).
Qed.

(** ** C3.  The season-range guard *)

(** C3 (amended): a text that, half-width and stripped, has a season
    range ([S1-S3], [1-4] followed by the season character) has no season
    for [parse_season_from_text]; and a name whose stem has a season range
    and none of the four explicit episode markers ([SxxEyy], [NxM], [E] or
    [EP] with a number, the ordinal prefix with a number and an episode
    character) has neither a season nor an episode for
    [parse_episode_from_name]: the guard turns off the two bare-number
    rules only. *)
Theorem C3_season_range_guard (text name : pystr) :
  let t := strip (to_halfwidth text) in
  let stem := norm_stem (strip name) in
  (has_marker RE_RANGE_S t \/ has_marker RE_RANGE_JI t ->
   parse_season_from_text text = None)
  /\ (has_marker RE_RANGE_S stem \/ has_marker RE_RANGE_JI stem ->
      ~ has_marker SXXEYY_RE stem -> ~ has_marker _1X02_RE stem ->
      ~ has_marker _EP_NUM_RE stem -> ~ has_marker _CN_EP_RE stem ->
      parse_episode_from_name name = (None, None, false, quality_tail stem)).
Proof.
  intros t stem. split; [apply range_guard|].
  intros Hr H1 H2 H3 H4.
  apply no_marker_search in H1, H2, H3, H4.
  unfold parse_episode_from_name. destruct (strip name) as [|c r] eqn:E.
  - exfalso. subst stem. rewrite norm_stem_nil in Hr.
    destruct Hr as [Hr|Hr]; apply has_marker_found in Hr;
      vm_compute in Hr; discriminate.
  - fold stem. unfold parse_stem. rewrite H1, H2, H3, H4.
    assert (Hc : is_season_range_container stem = true).
    { unfold is_season_range_container.
      destruct Hr as [Hr|Hr]; apply has_marker_found in Hr; rewrite Hr;
        [apply orb_true_r | reflexivity]. }
    rewrite Hc. f_equal. f_equal. f_equal.
    apply range_guard. subst stem. rewrite norm_stem_normal. exact Hr.
Qed.

End SeasonRange.

(** C2, counterexample: a marker inside a leading bracketed tag and a
    marker after the last dot of a name without extension are not seen,
    and an [SxxEyy] marker is preferred to an [NxM] marker before it. *)
Lemma C2_counterexample :
  re_search SXXEYY_RE (py "[S01E02] Pilot.mkv")
  = Some (RMatch 1 7 [(2%nat, py "02"); (1%nat, py "01")])
  /\ parse_episode_from_name (py "[S01E02] Pilot.mkv") = (None, None, false, [])
  /\ re_search SXXEYY_RE (py "Show.S01E02")
     = Some (RMatch 5 11 [(2%nat, py "02"); (1%nat, py "01")])
  /\ parse_episode_from_name (py "Show.S01E02") = (None, None, false, [])
  /\ re_search _1X02_RE (py "Show 1x02 S03E04.mkv")
     = Some (RMatch 5 9 [(2%nat, py "02"); (1%nat, py "1")])
  /\ parse_episode_from_name (py "Show 1x02 S03E04.mkv") = (Some 3, Some 4, true, []).
Proof. repeat split; vm_compute; reflexivity. Qed.

(** C2, witness: the file of the scenario of the specification. *)
Lemma C2_witness :
  exists pre w post ds de s e,
    norm_stem (strip (py "Show.S01E02.2160p.HDR.mkv")) = pre ++ w ++ post
    /\ first_marker SXXEYY_RE (norm_stem (strip (py "Show.S01E02.2160p.HDR.mkv"))) pre
    /\ sxxeyy_text w ds de /\ digits 1 2 ds /\ digits 1 3 de
    /\ (length de = 3%nat \/ starts_with_digit post = false)
    /\ py_int ds = Some s /\ py_int de = Some e
    /\ 0 <= s < 100 /\ 0 <= e < 1000
    /\ parse_episode_from_name (py "Show.S01E02.2160p.HDR.mkv")
       = (Some s, Some e, true,
          quality_tail (norm_stem (strip (py "Show.S01E02.2160p.HDR.mkv"))
                        ++ py " " ++ strip_chars post (py " ._-"))).
Proof.
  apply (proj1 (C2_explicit_markers (U := BasicUnicode) (py "Show.S01E02.2160p.HDR.mkv"))).
  apply has_marker_search. vm_compute. discriminate.
Defined.

Example parse_scenario :
  parse_episode_from_name (py "Show.S01E02.2160p.HDR.mkv")
  = (Some 1, Some 2, true, py "2160p hdr").
Proof. vm_compute. reflexivity. Qed.

(** C3, counterexample: the stem [E1-4] followed by the season character
    has a season range, and its digit 1 is answered as the episode. *)
Lemma C3_counterexample :
  re_found RE_RANGE_JI (norm_stem (strip (py "E1-4" ++ [ZH_JI] ++ py ".mp4"))) = true
  /\ parse_episode_from_name (py "E1-4" ++ [ZH_JI] ++ py ".mp4")
     = (None, Some 1, false, []).
Proof. split; vm_compute; reflexivity. Qed.

(** C3, witness: the folder names [Show S1-S3] and [1-4] followed by the
    season character. *)
Lemma C3_witness :
  parse_season_from_text (py "Show S1-S3") = None
  /\ parse_episode_from_name (py "1-4" ++ [ZH_JI])
     = (None, None, false, quality_tail (norm_stem (strip (py "1-4" ++ [ZH_JI])))).
Proof.
  split.
  - apply (proj1 (C3_season_range_guard (U := BasicUnicode)
                    (py "Show S1-S3") (py "1-4" ++ [ZH_JI]))).
    left. apply has_marker_found. vm_compute. reflexivity.
  - apply (proj2 (C3_season_range_guard (U := BasicUnicode)
                    (py "Show S1-S3") (py "1-4" ++ [ZH_JI]))).
    + right. apply has_marker_found. vm_compute. reflexivity.
    + apply no_marker_search. vm_compute. reflexivity.
    + apply no_marker_search. vm_compute. reflexivity.
    + apply no_marker_search. vm_compute. reflexivity.
    + apply no_marker_search. vm_compute. reflexivity.
Defined.

(* ================================================================== *)
(** * Further properties: the name helpers (renamer.py, lines 122-250) *)
(* ================================================================== *)

Section NameHelpers.
Context {U : Unicode}.

Lemma lstrip_by_fixed (f : Z -> bool) (s : pystr) :
  lstrip_by f (strip_by f s) = strip_by f s.
Proof.
  unfold strip_by.
  destruct (lstrip_by_head f s) as [E|(c & t & E & Hc)]; rewrite E.
  - reflexivity.
  - rewrite rstrip_by_cons by assumption. simpl. now rewrite Hc.
Qed.

Lemma rstrip_by_fixed (f : Z -> bool) (s : pystr) :
  rstrip_by f (strip_by f s) = strip_by f s.
Proof. unfold strip_by. apply rstrip_by_idem. Qed.

Lemma unsafe_chr_spec (c : Z) :
  cs_match false (OneOf (chars "<>:" ++ [IChr DQUOTE; IChr SLASH; IChr BACKSLASH]
                         ++ chars "|?*" ++ [IRange 0 31])) c = false
  <-> ~ In c UNSAFE_CHARS /\ ~ (0 <= c <= 31).
Proof.
  unfold UNSAFE_CHARS. cbn.
  unfold ci_fold. cbn.
  repeat match goal with |- context [?a =? ?b] => destruct (Z.eqb_spec a b) end;
  cbn; split; intros H; try discriminate; try (exfalso; intuition lia);
  try (split; [intuition lia|]);
  try (destruct (Z.leb_spec 0 c); destruct (Z.leb_spec c 31); cbn in *; try discriminate; try lia; intuition lia).
Qed.

Lemma safe_filename_chars (name : pystr) (c : Z) :
  In c (safe_filename name) -> ~ In c UNSAFE_CHARS /\ ~ (0 <= c <= 31).
Proof.
  intros H. unfold safe_filename, strip in H.
  apply strip_by_subset in H. rewrite safe_filename_sub in H.
  apply in_map_iff in H. destruct H as (x & E & _).
  destruct (cs_match false _ x) eqn:M.
  - subst c. apply unsafe_chr_spec. reflexivity.
  - subst c. apply unsafe_chr_spec. exact M.
Qed.

Lemma safe_filename_idem (name : pystr) :
  safe_filename (safe_filename name) = safe_filename name.
Proof.
  unfold safe_filename at 1. rewrite safe_filename_sub.
  rewrite (map_ext_in _ (fun c => c)).
  - rewrite map_id. unfold safe_filename, strip. apply strip_by_idem.
  - intros c H. apply safe_filename_chars in H. apply unsafe_chr_spec in H. now rewrite H.
Qed.

(** X1: the name [safe_filename] returns holds none of the characters it
    replaces (the nine printable ones and the control characters), has no
    white space at either end, holds only characters of its input or the
    space, and is left unchanged by a second call. *)
Theorem safe_filename_clean (name : pystr) :
  let r := safe_filename name in
  (forall c, In c r -> ~ In c UNSAFE_CHARS /\ ~ (0 <= c <= 31))
  /\ lstrip_by isspace r = r
  /\ rstrip_by isspace r = r
  /\ (forall c, In c r -> In c name \/ c = SPACE)
  /\ safe_filename r = r.
Proof.
  intros r.
  split; [apply safe_filename_chars|].
  split; [apply lstrip_by_fixed|].
  split; [apply rstrip_by_fixed|].
  split.
  - intros c H. subst r. unfold safe_filename, strip in H.
    apply strip_by_subset in H. rewrite safe_filename_sub in H.
    apply in_map_iff in H. destruct H as (x & E & Hx).
    destruct (cs_match false _ x); subst c; auto.
  - apply safe_filename_idem.
Qed.

(** ** [normalize_spaces] *)

Lemma sub_scan_plus (ci : bool) (cs : cset) (repl : pystr) :
  forall (s : pystr),
    (forall i pv, sub_scan (Pattern ci (Plus cs)) repl O i pv s
                  = collapse (cs_match ci cs) repl false s)
    /\ (forall i pv, sub_scan (Pattern ci (Plus cs)) repl (run_length (cs_match ci cs) s) i pv s
                     = collapse (cs_match ci cs) repl true s).
Proof.
  induction s as [|x t [IH0 IH1]]; [split; reflexivity|].
  split; intros i pv.
  - cbn [sub_scan collapse]. rewrite match_here_plus.
    destruct (cs_match ci cs x) eqn:Ex.
    + cbn [m_end].
      replace (i <? S i + run_length (cs_match ci cs) t)%nat with true
        by (symmetry; apply Nat.ltb_lt; lia).
      replace (S i + run_length (cs_match ci cs) t - S i)%nat
        with (run_length (cs_match ci cs) t) by lia.
      now rewrite IH1.
    + now rewrite IH0.
  - cbn [run_length collapse]. destruct (cs_match ci cs x) eqn:Ex.
    + cbn [sub_scan]. apply IH1.
    + cbn [sub_scan]. rewrite match_here_plus, Ex. now rewrite IH0.
Qed.

Lemma cs_space (c : Z) : cs_match false CSpace c = isspace c.
Proof. unfold CSpace. cbn. now rewrite orb_false_r. Qed.

Lemma collapse_ext (f g : Z -> bool) (repl : pystr) :
  (forall c, f c = g c) ->
  forall s b, collapse f repl b s = collapse g repl b s.
Proof.
  intros E. induction s as [|x t IH]; intros b; [reflexivity|].
  cbn [collapse]. rewrite E. destruct (g x); [destruct b|]; now rewrite IH.
Qed.

Lemma normalize_spaces_eq (s : pystr) :
  normalize_spaces s
  = strip (collapse isspace [SPACE] false (map (subst_chr NBSP SPACE) s)).
Proof.
  unfold normalize_spaces, re_sub, RE_SPACES. change (py " ") with [SPACE].
  rewrite str_replace_chr.
  rewrite (proj1 (sub_scan_plus false CSpace [SPACE] _)).
  f_equal. apply collapse_ext. apply cs_space.
Qed.

Lemma collapse_spaces (s : pystr) :
  forall b c, In c (collapse isspace [SPACE] b s) -> isspace c = true -> c = SPACE.
Proof.
  induction s as [|x t IH]; intros b c H Hc; [destruct H|].
  cbn [collapse] in H. destruct (isspace x) eqn:Ex.
  - destruct b.
    + eapply IH; eassumption.
    + destruct H as [<-|H]; [reflexivity | eapply IH; eassumption].
  - destruct H as [<-|H]; [congruence | eapply IH; eassumption].
Qed.

Lemma collapse_no_double (s : pystr) :
  forall b, no_double b (collapse isspace [SPACE] b s) = true.
Proof.
  induction s as [|x t IH]; intros b; [reflexivity|].
  cbn [collapse]. destruct (isspace x) eqn:Ex.
  - destruct b; [apply IH|]. cbn [app no_double].
    change (isspace SPACE) with true. cbn. apply IH.
  - cbn [no_double]. rewrite Ex. apply IH.
Qed.

Lemma no_double_weaken (s : pystr) (b : bool) :
  no_double b s = true -> no_double false s = true.
Proof.
  destruct s as [|c t]; [reflexivity|]. cbn [no_double].
  destruct (isspace c); [|auto]. destruct b; [discriminate | auto].
Qed.

Lemma no_double_lstrip (s : pystr) :
  forall b, no_double b s = true -> no_double false (lstrip_by isspace s) = true.
Proof.
  induction s as [|c t IH]; intros b H; [reflexivity|].
  cbn [lstrip_by]. cbn [no_double] in H. destruct (isspace c) eqn:Ec.
  - apply andb_prop in H. apply (IH true). apply H.
  - cbn [no_double]. now rewrite Ec.
Qed.

Lemma no_double_prefix (a w : pystr) :
  forall b, no_double b (a ++ w) = true -> no_double b a = true.
Proof.
  induction a as [|c t IH]; intros b H; [reflexivity|].
  cbn [app no_double] in *. destruct (isspace c).
  - apply andb_prop in H. destruct H as [H1 H2]. rewrite H1. now apply IH.
  - now apply IH.
Qed.

Lemma lstrip_by_suffix (f : Z -> bool) (s : pystr) :
  exists w, s = w ++ lstrip_by f s.
Proof.
  induction s as [|c t [w IH]]; [now exists []|].
  cbn [lstrip_by]. destruct (f c).
  - exists (c :: w). cbn. now rewrite <- IH.
  - now exists [].
Qed.

Lemma rstrip_by_prefix (f : Z -> bool) (s : pystr) :
  exists w, s = rstrip_by f s ++ w.
Proof.
  unfold rstrip_by. destruct (lstrip_by_suffix f (rev s)) as [w E].
  exists (rev w). rewrite <- rev_app_distr, <- E. now rewrite rev_involutive.
Qed.

Lemma no_double_strip (s : pystr) (b : bool) :
  no_double b s = true -> no_double false (strip s) = true.
Proof.
  intros H. unfold strip, strip_by.
  apply no_double_lstrip in H.
  destruct (rstrip_by_prefix isspace (lstrip_by isspace s)) as [w E].
  rewrite E in H. now apply no_double_prefix in H.
Qed.

Lemma no_double_adjacent (u : pystr) (a b : Z) (v : pystr) :
  forall p, no_double p (u ++ a :: b :: v) = true ->
            isspace a = true -> isspace b = false.
Proof.
  induction u as [|c t IH]; intros p H Ha.
  - cbn [app no_double] in H. rewrite Ha in H.
    destruct (isspace b); [|reflexivity].
    apply andb_prop in H. destruct H as [_ H]. discriminate H.
  - cbn [app no_double] in H. destruct (isspace c).
    + apply andb_prop in H. eapply IH; [apply H | assumption].
    + eapply IH; eassumption.
Qed.

Lemma collapse_fixed (s : pystr) :
  forall b, no_double b s = true ->
            (forall c, In c s -> isspace c = true -> c = SPACE) ->
            collapse isspace [SPACE] b s = s.
Proof.
  induction s as [|x t IH]; intros b H Hs; [reflexivity|].
  cbn [collapse]. cbn [no_double] in H. destruct (isspace x) eqn:Ex.
  - apply andb_prop in H. destruct H as [Hb H]. destruct b; [discriminate|].
    cbn [app]. rewrite (Hs x) by (simpl; auto). f_equal.
    apply IH; [assumption|]. intros c Hc. apply Hs. now right.
  - f_equal. apply IH; [assumption|]. intros c Hc. apply Hs. now right.
Qed.

(** X2: in the text [normalize_spaces] returns every white space character
    is an ASCII space, no two of them are adjacent and none is at either
    end; the other characters are those of the input; and a second call
    changes nothing. *)
Theorem normalize_spaces_single_spaced (s : pystr) :
  let r := normalize_spaces s in
  (forall c, In c r -> isspace c = true -> c = SPACE)
  /\ (forall u a b v, r = u ++ a :: b :: v -> isspace a = true -> isspace b = false)
  /\ lstrip_by isspace r = r
  /\ rstrip_by isspace r = r
  /\ (forall c, isspace c = false -> (In c r <-> In c s))
  /\ normalize_spaces r = r.
Proof.
  intros r.
  assert (Hsp : forall c, In c r -> isspace c = true -> c = SPACE).
  { intros c H. subst r. rewrite normalize_spaces_eq in H. unfold strip in H.
    apply strip_by_subset in H. revert H. apply collapse_spaces. }
  assert (Hnd : no_double false r = true).
  { subst r. rewrite normalize_spaces_eq.
    apply (no_double_strip _ false). apply collapse_no_double. }
  split; [exact Hsp|].
  split.
  { intros u a b v E. rewrite E in Hnd. revert Hnd. apply no_double_adjacent. }
  split; [apply lstrip_by_fixed|].
  split; [apply rstrip_by_fixed|].
  split.
  { intros c Hc. split; intros H.
    - apply normalize_spaces_chars in H. destruct H as [H| ->]; [assumption|].
      discriminate Hc.
    - now apply normalize_spaces_keeps. }
  rewrite normalize_spaces_eq.
  rewrite (map_ext_in _ (fun c => c)).
  - rewrite map_id. rewrite collapse_fixed by assumption.
    unfold r, normalize_spaces, strip. apply strip_by_idem.
  - intros c H. unfold subst_chr. destruct (Z.eqb_spec c NBSP) as [->|]; [|reflexivity].
    apply Hsp in H; [discriminate H | reflexivity].
Qed.

(** ** [to_halfwidth] *)

(** X3: [to_halfwidth] keeps the length of the text, leaves no ideographic
    space and no full-width form (U+FF01..U+FF5E) in it, maps each of
    these to the ASCII character 65248 places below, and changes nothing
    when applied a second time. *)
Theorem to_halfwidth_idempotent (s : pystr) :
  let r := to_halfwidth s in
  length r = length s
  /\ (forall c, In c r -> c <> 12288 /\ ~ (65281 <= c <= 65374))
  /\ (forall i c, nth_error s i = Some c -> 65281 <= c <= 65374 ->
                  nth_error r i = Some (c - 65248))
  /\ to_halfwidth r = r.
Proof.
  intros r. subst r. unfold to_halfwidth.
  split; [apply length_map|].
  assert (H : forall c, In c (to_halfwidth s) -> c <> 12288 /\ ~ (65281 <= c <= 65374)).
  { intros c H. apply in_map_iff in H. destruct H as (x & E & _).
    destruct (Z.eqb_spec x 12288); [subst c; unfold SPACE; lia|].
    destruct (Z.leb_spec 65281 x); destruct (Z.leb_spec x 65374);
      cbn [andb] in E; lia. }
  split; [exact H|].
  split.
  - intros i c E Hc. rewrite nth_error_map, E. cbn [option_map].
    destruct (Z.eqb_spec c 12288); [lia|].
    destruct (Z.leb_spec 65281 c); destruct (Z.leb_spec c 65374);
      cbn [andb]; (reflexivity || lia).
  - fold (to_halfwidth s). apply to_halfwidth_fixed. intros c Hc.
    apply H in Hc. unfold to_halfwidth. cbn [map].
    destruct (Z.eqb_spec c 12288); [lia|].
    destruct (Z.leb_spec 65281 c); destruct (Z.leb_spec c 65374);
      cbn [andb]; (reflexivity || lia).
Qed.

End NameHelpers.

(* ================================================================== *)
(** * Further properties: paths (renamer.py, lines 70-93, 511-520) *)
(* ================================================================== *)

Lemma endswith_last (s : pystr) (c : Z) :
  s <> [] -> endswith s [c] = (c =? last s 0).
Proof.
  intros Hs. rewrite endswith_chr.
  destruct (exists_last Hs) as (s' & y & ->).
  now rewrite rev_app_distr, last_last.
Qed.

Lemma norm_path_idem (p : pystr) :
  ends_with_two_seps p = false -> norm_path (norm_path p) = norm_path p.
Proof.
  intros H. apply norm_path_trailing in H.
  destruct H as [-> | H]; [reflexivity|].
  pose proof (norm_path_no_backslash p) as Hb.
  destruct (norm_path_nonempty p) as [t Et]. rewrite Et in *.
  apply norm_path_fixed.
  - intros X. apply Hb. now right.
  - change (py "/") with [SLASH] in H. rewrite endswith_last in H by discriminate.
    apply Z.eqb_neq in H. congruence.
Qed.

(** X4: when the path does not end in two separators, normalising it a
    second time changes nothing; the normal form never holds a
    backslash. *)
Theorem norm_path_idempotent (p : pystr) :
  ends_with_two_seps p = false ->
  norm_path (norm_path p) = norm_path p /\ ~ In BACKSLASH (norm_path p).
Proof.
  intros H. split; [now apply norm_path_idem | apply norm_path_no_backslash].
Qed.

Lemma norm_path_idempotent_witness :
  ends_with_two_seps (py "tv" ++ [BACKSLASH] ++ py "shows/") = false
  /\ norm_path (norm_path (py "tv" ++ [BACKSLASH] ++ py "shows/"))
     = norm_path (py "tv" ++ [BACKSLASH] ++ py "shows/").
Proof.
  split; [reflexivity|].
  apply (norm_path_idempotent (py "tv" ++ [BACKSLASH] ++ py "shows/")). reflexivity.
Defined.




(** A doubled slash before the base name is lost on the way. *)
Example split_path_join_doubled :
  join_path (fst (split_path (py "/a//b"))) (snd (split_path (py "/a//b"))) = py "/a/b".
Proof. reflexivity. Qed.

(** ** [find_library_root] *)

Lemma find_library_root_fold (p : pystr) (roots : list pystr) :
  forall (seen : list pystr) (best : option pystr),
    match best with
    | None => seen = []
    | Some b => exists pre post, seen = pre ++ b :: post
                  /\ (forall c, In c pre -> (length c < length b)%nat)
                  /\ (forall c, In c post -> (length c <= length b)%nat)
    end ->
    match fold_left
       (fun best r =>
          let rr := norm_path r in
          if str_eqb p rr || startswith p (rstrip_chars rr (py "/") ++ py "/") then
            match best with
            | None => Some rr
            | Some b => if (length b <? length rr)%nat then Some rr else best
            end
          else best) roots best with
    | None => seen ++ filter (covers p) (map norm_path roots) = []
    | Some b => exists pre post,
                  seen ++ filter (covers p) (map norm_path roots) = pre ++ b :: post
                  /\ (forall c, In c pre -> (length c < length b)%nat)
                  /\ (forall c, In c post -> (length c <= length b)%nat)
    end.
Proof.
  induction roots as [|r roots IH]; intros seen best Inv.
  - cbn [fold_left map filter]. rewrite app_nil_r. exact Inv.
  - cbn [fold_left map filter]. fold (covers p (norm_path r)).
    destruct (covers p (norm_path r)) eqn:Ec.
    + replace (seen ++ norm_path r :: filter (covers p) (map norm_path roots))
        with ((seen ++ [norm_path r]) ++ filter (covers p) (map norm_path roots))
        by (now rewrite <- app_assoc).
      apply IH. destruct best as [b|].
      * destruct Inv as (pre & post & E & Hpre & Hpost).
        destruct (Nat.ltb_spec (length b) (length (norm_path r))).
        -- exists (seen), []. split; [reflexivity|]. split; [|intros c []].
           intros c Hc. rewrite E in Hc. apply in_app_or in Hc.
           destruct Hc as [Hc|[<-|Hc]].
           ++ apply Hpre in Hc. lia.
           ++ assumption.
           ++ apply Hpost in Hc. lia.
        -- exists pre, (post ++ [norm_path r]). split.
           ++ rewrite E. now rewrite <- app_assoc.
           ++ split; [assumption|]. intros c Hc. apply in_app_or in Hc.
              destruct Hc as [Hc|[<-|[]]]; [now apply Hpost | assumption].
      * subst seen. exists [], []. split; [reflexivity|].
        split; intros c [].
    + apply IH. exact Inv.
Qed.

(** X6: [find_library_root] returns the longest of the normalised roots
    that are the path or lie above it, the first of them when several
    have that length, and [None] exactly when no root covers the path. *)
Theorem find_library_root_longest (path : pystr) (roots : list pystr) :
  let covering := filter (covers (norm_path path)) (map norm_path roots) in
  match find_library_root path roots with
  | None => covering = []
  | Some b => exists pre post, covering = pre ++ b :: post
                /\ (forall c, In c pre -> (length c < length b)%nat)
                /\ (forall c, In c post -> (length c <= length b)%nat)
  end.
Proof.
  intros covering. unfold find_library_root.
  apply (find_library_root_fold (norm_path path) roots [] None). reflexivity.
Qed.

(* ================================================================== *)
(** * Further properties: the similarity ratio (renamer.py, lines 1435-1453) *)
(* ================================================================== *)

Lemma edits_sym (a b : pystr) (n : nat) : edits a b n -> edits b a n.
Proof. induction 1; now constructor. Qed.

Lemma lev_sym (a b : pystr) : lev a b = lev b a.
Proof.
  apply Nat.le_antisymm; apply lev_least, edits_sym, lev_edits.
Qed.

Lemma edits_zero (a b : pystr) (n : nat) : edits a b n -> n = O -> a = b.
Proof. induction 1; intros E; try discriminate; [reflexivity | now rewrite IHedits]. Qed.

Lemma lev_refl (a : pystr) : lev a a = O.
Proof.
  assert (H : edits a a 0) by (induction a; now constructor).
  apply lev_least in H. lia.
Qed.

Lemma lev_zero (a b : pystr) : lev a b = O <-> a = b.
Proof.
  split.
  - intros H. apply (edits_zero a b (lev a b)); [apply lev_edits | assumption].
  - intros ->. apply lev_refl.
Qed.

Lemma ratio_one (d m : Z) :
  0 < m -> ((1 - inject_Z d / inject_Z m == 1)%Q <-> d = 0).
Proof.
  intros Hm. destruct m as [|m|m]; try lia.
  unfold Qeq, Qdiv, Qmult, Qminus, Qplus, Qopp, Qinv, inject_Z.
  cbn [Qnum Qden]. rewrite !Pos.mul_1_l. split; intros H.
  - lia.
  - subst d. lia.
Qed.

Section SimilarityFurther.
Context {U : Unicode}.

(** X7: the similarity ratio does not depend on the order of its two
    arguments, and it is 1 exactly when the two strings are equal after
    lower-casing.  (The ratio is the rational the float of the program
    rounds.) *)
Theorem levenshtein_ratio_symmetric (a b : pystr) :
  (levenshtein_ratio a b == levenshtein_ratio b a)%Q
  /\ ((levenshtein_ratio a b == 1)%Q <-> uni_lower a = uni_lower b).
Proof.
  unfold levenshtein_ratio.
  destruct (uni_lower a) as [|x la] eqn:Ea; destruct (uni_lower b) as [|y lb] eqn:Eb.
  - split; [reflexivity|]. split; reflexivity.
  - split; [reflexivity|]. split; discriminate.
  - split; [reflexivity|]. split; discriminate.
  - rewrite !lev_rows_correct. rewrite (lev_sym (y :: lb)), (Z.max_comm (Z.of_nat (length (y :: lb)))).
    split; [reflexivity|].
    set (m := Z.max _ _).
    assert (Hm : 0 < m) by (subst m; cbn [length]; lia).
    rewrite ratio_one by assumption. rewrite <- lev_zero. lia.
Qed.

End SimilarityFurther.

(* ================================================================== *)
(** * Further properties: the name parser (renamer.py, lines 680-793,
      1820-1862) *)
(* ================================================================== *)

Section ParserFurther.
Context {U : Unicode}.

Lemma re_found_none (p : pattern) (s : pystr) :
  re_found p s = false -> re_search p s = None.
Proof. unfold re_found. now destruct (re_search p s). Qed.

Lemma leading_number_range (stem : pystr) (e : Z) :
  leading_number stem = Some e -> 1 <= e <= 200.
Proof.
  unfold leading_number. destruct (re_match RE_LEAD_NUM stem) as [m|]; [|discriminate].
  destruct (py_int (group stem m 1)) as [n|] eqn:E; cbn [in_1_200]; [|discriminate].
  destruct ((1 <=? n) && (n <=? 200)) eqn:R; [|discriminate].
  intros H. injection H as <-. lia.
Qed.

Lemma standalone_number_range (stem : pystr) (e : Z) :
  standalone_number stem = Some e -> 1 <= e <= 200.
Proof.
  unfold standalone_number.
  destruct (filter in_1_200 (map py_int (re_findall RE_NUM_TOKEN stem))) as [|n l] eqn:E;
    [discriminate|].
  intros ->.
  assert (H : In (Some e) (filter in_1_200 (map py_int (re_findall RE_NUM_TOKEN stem))))
    by (rewrite E; now left).
  apply filter_In in H. destruct H as [_ H]. cbn in H. lia.
Qed.

(** X8: when the stem of a name carries none of the four explicit markers
    ([SxxEyy], [NxM], [E]/[EP] number, the Chinese ordinal), an episode the
    parser returns comes from a bare number: it lies between 1 and 200,
    the name is not flagged as already tagged, the season is the hint of
    the text, and the stem is no season-range container. *)
Theorem bare_number_episode (name : pystr) (s : option Z) (e : Z) (f : bool)
    (suffix : pystr) :
  let stem := norm_stem (strip name) in
  re_found SXXEYY_RE stem = false ->
  re_found _1X02_RE stem = false ->
  re_found _EP_NUM_RE stem = false ->
  re_found _CN_EP_RE stem = false ->
  parse_episode_from_name name = (s, Some e, f, suffix) ->
  1 <= e <= 200 /\ f = false /\ s = parse_season_from_text stem
  /\ is_season_range_container stem = false.
Proof.
  intros stem H1 H2 H3 H4. subst stem.
  apply re_found_none in H1, H2, H3, H4.
  unfold parse_episode_from_name.
  destruct (strip name) as [|c r] eqn:En; [discriminate|].
  unfold parse_stem. rewrite H1, H2, H3, H4.
  destruct (is_season_range_container (norm_stem (c :: r))) eqn:Er.
  - discriminate.
  - destruct (leading_number (norm_stem (c :: r))) as [n|] eqn:El.
    + intros H. injection H as <- <- <- <-.
      apply leading_number_range in El. auto.
    + destruct (standalone_number (norm_stem (c :: r))) as [n|] eqn:Es.
      * intros H. injection H as <- <- <- <-.
        apply standalone_number_range in Es. auto.
      * discriminate.
Qed.

(** ** [_quality_tokens] *)

Lemma collapse_drop (s : pystr) :
  forall b c, In c (collapse isspace [] b s) -> isspace c = false.
Proof.
  induction s as [|x t IH]; intros b c H; [destruct H|].
  cbn [collapse] in H. destruct (isspace x) eqn:Ex.
  - destruct b; cbn [app] in H; eapply IH; eassumption.
  - destruct H as [<-|H]; [assumption | eapply IH; eassumption].
Qed.

Lemma quality_token_no_space (t : pystr) (r : regex) (tok : pystr) (c : Z) :
  quality_token t r = Some tok -> In c tok -> isspace c = false.
Proof.
  unfold quality_token. destruct (re_search (Pattern false r) t) as [m|]; [|discriminate].
  set (raw := re_sub RE_SPACES [] (group t m 0)).
  assert (Hraw : forall x, In x raw -> isspace x = false).
  { intros x Hx. unfold raw, re_sub, RE_SPACES in Hx.
    rewrite (proj1 (sub_scan_plus false CSpace [] _)) in Hx.
    rewrite (collapse_ext _ isspace) in Hx by apply cs_space.
    revert Hx. apply collapse_drop. }
  intros H. injection H as <-.
  assert (Hconst : forall k : string,
            forallb (fun x => negb (isspace x)) (py k) = true ->
            In c (py k) -> isspace c = false).
  { intros k Hk Hc. rewrite forallb_forall in Hk. apply Hk in Hc.
    now apply negb_true_iff in Hc. }
  repeat match goal with
         | |- context [if ?b then _ else _] => destruct b
         end;
    intros Hc;
    try (apply (Hconst "BluRay"%string); [reflexivity | assumption]);
    try (apply (Hconst "WEBRIP"%string); [reflexivity | assumption]);
    try (apply (Hconst "WEB-DL"%string); [reflexivity | assumption]);
    now apply Hraw.
Qed.

Lemma quality_scan_inv (t : pystr) (P : pystr -> Prop) :
  (forall r tok, quality_token t r = Some tok -> P tok) ->
  forall pats out,
    NoDup out -> Forall P out ->
    let res := quality_scan t pats out in
    NoDup res /\ Forall P res /\ (length res <= length out + length pats)%nat.
Proof.
  intros HP. induction pats as [|r pats IH]; intros out Hn Hf; cbn [quality_scan length].
  - split; [assumption|]. split; [assumption | lia].
  - destruct (quality_token t r) as [tok|] eqn:E.
    + destruct (str_mem tok out) eqn:Em.
      * destruct (IH out Hn Hf) as (A & B & C). split; [assumption|].
        split; [assumption | lia].
      * apply str_mem_not_In in Em.
        destruct (IH (out ++ [tok])) as (A & B & C).
        -- apply NoDup_app; [assumption | repeat constructor; intros [] |].
           intros x Hx [<-|[]]. contradiction.
        -- apply Forall_app. split; [assumption|]. constructor; [|constructor].
           eapply HP. eassumption.
        -- split; [assumption|]. split; [assumption|].
           rewrite length_app in C. cbn [length] in C. lia.
    + destruct (IH out Hn Hf) as (A & B & C). split; [assumption|].
      split; [assumption | lia].
Qed.

(** X9: the quality tokens of a text are pairwise distinct, there are at
    most 32 of them (one per pattern), and none holds a white space
    character. *)
Theorem quality_tokens_distinct (text : pystr) :
  NoDup (_quality_tokens text)
  /\ (length (_quality_tokens text) <= 32)%nat
  /\ forall tok c, In tok (_quality_tokens text) -> In c tok -> isspace c = false.
Proof.
  unfold _quality_tokens.
  destruct (quality_scan_inv (uni_lower text)
              (fun tok => forall c, In c tok -> isspace c = false)
              (fun r tok H c => quality_token_no_space _ r tok c H)
              QUALITY_PATS [] (NoDup_nil _) (Forall_nil _)) as (A & B & C).
  split; [exact A|]. split; [exact C|].
  intros tok c Ht. rewrite Forall_forall in B. now apply B.
Qed.

(** ** [extract_resolution] *)

Lemma ci_fold_digit (x c : Z) : 48 <= c <= 57 -> ci_fold x = ci_fold c -> x = c.
Proof.
  intros Hc. unfold ci_fold.
  repeat match goal with
         | |- context [?a <=? ?b] => destruct (Z.leb_spec a b)
         | |- context [?a =? ?b] => destruct (Z.eqb_spec a b)
         end; cbn [andb orb]; lia.
Qed.

Lemma rx_litc (s : pystr) :
  forall i pv w post g g',
    rx true (LitC s) i pv w post g g' ->
    g' = g /\ map ci_fold w = map ci_fold s.
Proof.
  unfold LitC. induction s as [|c s IH]; intros i pv w post g g' H.
  - cbn in H. apply rx_eps_inv in H. destruct H as [-> ->]. auto.
  - destruct s as [|c' s].
    + cbn in H. apply rx_chr_inv in H. destruct H as (x & -> & Hx & ->).
      apply cs_chr_fold in Hx. cbn. now rewrite Hx.
    + change (Seqs (map (fun c => Chr (CChr c)) (c :: c' :: s)))
        with (Seq (Chr (CChr c)) (Seqs (map (fun c => Chr (CChr c)) (c' :: s)))) in H.
      apply rx_seq_inv in H. destruct H as (w1 & w2 & g1 & -> & H1 & H2).
      apply rx_chr_inv in H1. destruct H1 as (x & -> & Hx & ->).
      apply cs_chr_fold in Hx. apply IH in H2. destruct H2 as [-> E].
      split; [reflexivity|]. cbn [app map]. now rewrite Hx, E.
Qed.

Lemma map_fold_digits (w s : pystr) :
  Forall (fun c => 48 <= c <= 57) s -> map ci_fold w = map ci_fold s -> w = s.
Proof.
  intros Hs. revert w. induction Hs as [|c s Hc Hs IH]; intros w E.
  - destruct w; [reflexivity | discriminate].
  - destruct w as [|x w]; [discriminate|]. cbn [map] in E. injection E as E1 E2.
    f_equal; [now apply ci_fold_digit | now apply IH].
Qed.

Lemma rx_lit_digits (k : string) i pv w post g g' :
  Forall (fun c => 48 <= c <= 57) (py k) ->
  rx true (Lit k) i pv w post g g' -> g' = g /\ w = py k.
Proof.
  intros Hk H. apply (rx_litc (py k)) in H. destruct H as [-> E].
  split; [reflexivity | now apply map_fold_digits].
Qed.

Lemma int_digits_ascii (s : pystr) :
  Forall (fun c => 48 <= c <= 57) s ->
  forall acc, int_digits acc s = int_digits (U := BasicUnicode) acc s.
Proof.
  intros Hs. induction Hs as [|c s Hc Hs IH]; intros acc; [reflexivity|].
  cbn [int_digits]. rewrite uni_decimal_ascii by lia.
  change (uni_decimal (Unicode := BasicUnicode) c) with (ascii_decimal c).
  unfold ascii_decimal. destruct ((48 <=? c) && (c <=? 57)); [apply IH | reflexivity].
Qed.

Lemma py_int_ascii (s : pystr) :
  s <> [] -> Forall (fun c => 48 <= c <= 57) s ->
  py_int s = int_digits (U := BasicUnicode) 0 s.
Proof.
  intros Hne Hs. unfold py_int. destruct s as [|c0 s0]; [congruence|].
  now apply int_digits_ascii.
Qed.

Lemma extract_resolution_in (text : pystr) :
  In (extract_resolution text)
     ([] :: map py ["4320p"; "2160p"; "1440p"; "1080p"; "720p"; "576p"; "540p"; "480p"]%string).
Proof.
  unfold extract_resolution. destruct text as [|c0 t0]; [now left|].
  set (text := c0 :: t0).
  destruct (re_search _RES_RE text) as [m|] eqn:E.
  - apply re_search_marker in E.
    destruct E as (pre & w & post & Es & _ & _ & Hmk & _ & _).
    unfold marker in Hmk. cbn [body ignorecase _RES_RE Seqs] in Hmk.
    apply rx_seq_inv in Hmk. destruct Hmk as (w0 & w' & g0 & -> & R0 & H).
    apply rx_wordb_inv in R0. destruct R0 as (-> & -> & _).
    apply rx_seq_inv in H. destruct H as (w1 & w2 & g1 & -> & R1 & H).
    apply rx_group_inv in R1. destruct R1 as (g1' & -> & R1).
    apply rx_seq_inv in H. destruct H as (w3 & w4 & g2 & -> & R2 & H).
    apply rx_chr_inv in R2. destruct R2 as (x & -> & _ & ->).
    apply rx_wordb_inv in H. destruct H as (-> & Hg & _).
    unfold group. rewrite Hg. cbn [cap_get Nat.eqb].
    cbn [Alts] in R1.
    repeat (apply rx_alt_inv in R1; destruct R1 as [R1|R1]);
      (apply rx_lit_digits in R1;
       [ destruct R1 as [_ ->];
         rewrite py_int_ascii by (discriminate || (repeat constructor; cbn; lia));
         vm_compute; tauto
       | repeat constructor; cbn; lia ]).
  - repeat match goal with |- context [if ?b then _ else _] => destruct b end;
      vm_compute; tauto.
Qed.

(** X10: [extract_resolution] answers the empty string or one of the
    eight labels [4320p], [2160p], [1440p], [1080p], [720p], [576p],
    [540p], [480p], in that spelling. *)
Theorem extract_resolution_labels (text : pystr) :
  In (extract_resolution text)
     ([] :: map py ["4320p"; "2160p"; "1440p"; "1080p"; "720p"; "576p"; "540p"; "480p"]%string).
Proof.
  exact (extract_resolution_in text).
Qed.

(** ** [build_new_video_name] *)

(** X11: when the original name has an extension, the canonical name is a
    stem followed by that same extension, it holds no slash, and its stem
    is a safe file name. *)
Theorem build_new_video_name_keeps_ext
    (series : pystr) (season episode : Z) (old_name suffix : pystr) :
  let out := build_new_video_name series season episode old_name suffix in
  snd (splitext old_name) <> [] ->
  snd (splitext out) = snd (splitext old_name)
  /\ out = fst (splitext out) ++ snd (splitext old_name)
  /\ safe_filename (fst (splitext out)) = fst (splitext out)
  /\ ~ In SLASH out.
Proof.
  intros out Hext.
  destruct (splitext_ext_shape old_name _ eq_refl Hext) as (e & Ee & Hd & Hs).
  set (res := extract_resolution (old_name ++ py " " ++ suffix)).
  set (base := series ++ py " - S" ++ fmt_02d season ++ py "E" ++ fmt_02d episode).
  set (base' := match res with [] => base | _ => base ++ py " - " ++ res end).
  assert (Eout : out = safe_filename (normalize_spaces base') ++ DOT :: e).
  { unfold out, build_new_video_name. fold res base base'. now rewrite Ee. }
  assert (HS : In 83 (safe_filename (normalize_spaces base'))).
  { unfold base', base. destruct res.
    - apply canonical_stem_has_S.
    - rewrite <- !app_assoc. apply canonical_stem_has_S. }
  rewrite Eout, Ee.
  rewrite (splitext_stem_ext _ e 83 (safe_filename_no_slash _) HS) by
    (assumption || discriminate).
  cbn [fst snd]. split; [reflexivity|]. split; [reflexivity|].
  split; [apply safe_filename_idem|].
  intros H. apply in_app_or in H. destruct H as [H|[H|H]].
  - revert H. apply safe_filename_no_slash.
  - discriminate H.
  - contradiction.
Qed.

End ParserFurther.

Lemma bare_number_episode_witness :
  1 <= 28 <= 200 /\ false = false
  /\ None = parse_season_from_text (U := BasicUnicode) (norm_stem (strip (py "Show 28 4K.mkv")))
  /\ is_season_range_container (U := BasicUnicode) (norm_stem (strip (py "Show 28 4K.mkv"))) = false.
Proof.
  apply (bare_number_episode (U := BasicUnicode) (py "Show 28 4K.mkv") None 28 false (py "4k"));
    vm_compute; reflexivity.
Defined.

Lemma build_new_video_name_keeps_ext_witness :
  snd (splitext (build_new_video_name (U := BasicUnicode) (py "Mr. Robot") 1 2
                   (py "robot.102.1080p.mkv") []))
  = py ".mkv".
Proof.
  apply (build_new_video_name_keeps_ext (U := BasicUnicode) (py "Mr. Robot") 1 2
           (py "robot.102.1080p.mkv") []).
  vm_compute. discriminate.
Defined.

(* ================================================================== *)
(** * Further properties: the variety planner (renamer.py, lines 336-357,
      829-955) *)
(* ================================================================== *)

Section PlannerFurther.
Context {U : Unicode}.

(** ** [parse_date_key] *)

Lemma cs_chr_exact (c x : Z) : cs_match false (CChr c) x = true -> x = c.
Proof. cbn. rewrite orb_false_r. apply Z.eqb_eq. Qed.

Lemma rx_year ci i pv w post g g' :
  ci = false ->
  rx ci (Seqs [Lit "20"; D; D]) i pv w post g g' ->
  g' = g /\ exists d1 d2, w = [50; 48; d1; d2] /\ isdecimal d1 = true /\ isdecimal d2 = true.
Proof.
  intros -> H. cbn [Seqs] in H.
  change (Lit "20") with (Seq (Chr (CChr 50)) (Chr (CChr 48))) in H.
  apply rx_seq_inv in H. destruct H as (w1 & w2 & g1 & -> & H1 & H).
  apply rx_seq_inv in H1. destruct H1 as (a & b & g0 & -> & Ha & Hb).
  apply rx_chr_inv in Ha. destruct Ha as (x & -> & Hx & ->).
  apply rx_chr_inv in Hb. destruct Hb as (y & -> & Hy & ->).
  apply cs_chr_exact in Hx, Hy. subst x y.
  apply rx_seq_inv in H. destruct H as (c & d & g2 & -> & Hc & Hd).
  apply rx_chr_inv in Hc. destruct Hc as (d1 & -> & Hd1 & ->).
  apply rx_chr_inv in Hd. destruct Hd as (d2 & -> & Hd2 & ->).
  rewrite cs_digit in Hd1, Hd2.
  split; [reflexivity|]. exists d1, d2. auto.
Qed.

Lemma py_int_year (d1 d2 : Z) (y : Z) :
  isdecimal d1 = true -> isdecimal d2 = true ->
  py_int [50; 48; d1; d2] = Some y -> 2000 <= y <= 2099.
Proof.
  unfold isdecimal, py_int. cbn [int_digits].
  rewrite (uni_decimal_ascii 50), (uni_decimal_ascii 48) by lia.
  change ((48 <=? 50) && (50 <=? 57)) with true.
  change ((48 <=? 48) && (48 <=? 57)) with true. cbv iota.
  destruct (uni_decimal d1) as [v1|] eqn:E1; [|discriminate].
  destruct (uni_decimal d2) as [v2|] eqn:E2; [|discriminate].
  intros _ _ H. apply uni_decimal_bound in E1, E2.
  assert (Hy : y = (((0 * 10 + (50 - 48)) * 10 + (48 - 48)) * 10 + v1) * 10 + v2)
    by congruence.
  lia.
Qed.

Lemma date8_year (t : pystr) (m : rmatch) (y : Z) :
  re_search _DATE8_RE t = Some m -> py_int (group t m 1) = Some y -> 2000 <= y <= 2099.
Proof.
  intros E. apply re_search_marker in E.
  destruct E as (pre & w & post & Es & _ & _ & Hmk & _ & _).
  unfold marker in Hmk. cbn [body ignorecase _DATE8_RE] in Hmk.
  change (Seqs (?a :: ?b :: ?c :: ?d :: ?e)) with (Seq a (Seq b (Seqs (c :: d :: e)))) in Hmk.
  apply rx_seq_inv in Hmk. destruct Hmk as (w0 & w' & g0 & -> & R0 & H).
  inversion R0; subst. clear R0.
  apply rx_seq_inv in H. destruct H as (w1 & w2 & g1 & -> & R1 & H).
  apply rx_group_inv in R1. destruct R1 as (g1' & -> & R1).
  apply rx_year in R1; [|reflexivity]. destruct R1 as (-> & d1 & d2 & -> & Hd1 & Hd2).
  cbn [Seqs] in H.
  apply rx_seq_inv in H. destruct H as (w3 & w4 & g2 & -> & R2 & H).
  apply rx_group_inv in R2. destruct R2 as (g2' & -> & R2).
  apply rx_seq_inv in H. destruct H as (w5 & w6 & g3 & -> & R3 & H).
  apply rx_group_inv in R3. destruct R3 as (g3' & -> & R3).
  inversion H; subst.
  assert (G2 : g2' = [(1%nat, [50; 48; d1; d2])]).
  { clear - R2. apply rx_alt_inv in R2. destruct R2 as [R|R];
      apply rx_seq_inv in R; destruct R as (a & b & gg & -> & Ra & Rb);
      apply rx_chr_inv in Ra; destruct Ra as (x & -> & _ & ->);
      apply rx_chr_inv in Rb; destruct Rb as (x' & -> & _ & ->); reflexivity. }
  assert (G3 : g3' = (2%nat, w3) :: g2').
  { clear - R3. cbn [Alts] in R3.
    apply rx_alt_inv in R3. destruct R3 as [R|R3];
      [|apply rx_alt_inv in R3; destruct R3 as [R|R]];
      apply rx_seq_inv in R; destruct R as (a & b & gg & -> & Ra & Rb);
      apply rx_chr_inv in Ra; destruct Ra as (x & -> & _ & ->);
      apply rx_chr_inv in Rb; destruct Rb as (x' & -> & _ & ->); reflexivity. }
  unfold group. match goal with H : _ = m_groups m |- _ => rewrite <- H end.
  rewrite G3, G2. cbn [cap_get Nat.eqb]. now apply py_int_year.
Qed.

Lemma rx_rep_chr ci cs lo extra :
  forall i pv w s g g',
    rx ci (Rep lo extra (Chr cs)) i pv w s g g' ->
    g' = g /\ (lo <= length w <= lo + extra)%nat /\ forallb (cs_match ci cs) w = true.
Proof.
  induction lo as [|lo IH].
  - cbn [Rep]. induction extra as [|extra IHe]; intros i pv w s g g' H; cbn [RepOpt] in H.
    + apply rx_eps_inv in H. destruct H as [-> ->]. cbn. auto.
    + unfold Opt in H. apply rx_alt_inv in H. destruct H as [H|H].
      * apply rx_seq_inv in H. destruct H as (w1 & w2 & g1 & -> & H1 & H2).
        apply rx_chr_inv in H1. destruct H1 as (x & -> & Hx & ->).
        apply IHe in H2. destruct H2 as (-> & Hl & Hd).
        cbn [app length forallb]. rewrite Hx, Hd.
        split; [reflexivity|]. split; [lia | reflexivity].
      * apply rx_eps_inv in H. destruct H as [-> ->]. cbn.
        split; [reflexivity|]. split; [lia | reflexivity].
  - intros i pv w s g g' H. cbn [Rep] in H.
    apply rx_seq_inv in H. destruct H as (w1 & w2 & g1 & -> & H1 & H2).
    apply rx_chr_inv in H1. destruct H1 as (x & -> & Hx & ->).
    apply IH in H2. destruct H2 as (-> & Hl & Hd).
    split; [reflexivity|]. cbn [app length forallb]. rewrite Hx, Hd.
    split; [lia | reflexivity].
Qed.

Lemma date_sep_year (t : pystr) (m : rmatch) (y : Z) :
  re_search _DATE_SEP_RE t = Some m -> py_int (group t m 1) = Some y -> 2000 <= y <= 2099.
Proof.
  intros E. apply re_search_marker in E.
  destruct E as (pre & w & post & Es & _ & _ & Hmk & _ & _).
  unfold marker in Hmk. cbn [body ignorecase _DATE_SEP_RE] in Hmk.
  change (Seqs (?a :: ?b :: ?c)) with (Seq a (Seq b (Seqs c))) in Hmk.
  apply rx_seq_inv in Hmk. destruct Hmk as (w0 & w' & g0 & -> & R0 & H).
  inversion R0; subst. clear R0.
  apply rx_seq_inv in H. destruct H as (w1 & w2 & g1 & -> & R1 & H).
  apply rx_group_inv in R1. destruct R1 as (g1' & -> & R1).
  apply rx_year in R1; [|reflexivity]. destruct R1 as (-> & d1 & d2 & -> & Hd1 & Hd2).
  cbn [Seqs] in H.
  apply rx_seq_inv in H. destruct H as (w3 & w4 & g2 & -> & R2 & H).
  apply rx_chr_inv in R2. destruct R2 as (x2 & -> & _ & ->).
  apply rx_seq_inv in H. destruct H as (w5 & w6 & g3 & -> & R3 & H).
  apply rx_group_inv in R3. destruct R3 as (g3' & -> & R3).
  apply rx_rep_chr in R3. destruct R3 as (-> & _).
  apply rx_seq_inv in H. destruct H as (w7 & w8 & g4 & -> & R4 & H).
  apply rx_chr_inv in R4. destruct R4 as (x4 & -> & _ & ->).
  apply rx_seq_inv in H. destruct H as (w9 & w10 & g5 & -> & R5 & H).
  apply rx_group_inv in R5. destruct R5 as (g5' & -> & R5).
  apply rx_rep_chr in R5. destruct R5 as (-> & _).
  inversion H; subst.
  unfold group. match goal with H : _ = m_groups m |- _ => rewrite <- H end.
  cbn [cap_get Nat.eqb]. now apply py_int_year.
Qed.

Lemma valid_date_range (y mo d : Z) :
  valid_date y mo d = true -> 1 <= mo <= 12 /\ 1 <= d <= 31.
Proof.
  unfold valid_date. intros H.
  repeat (apply andb_prop in H; destruct H as [H ?]).
  repeat match goal with
         | H : context [if ?b then _ else _] |- _ => destruct b
         end; lia.
Qed.

Lemma parse_date_key_inv (text : pystr) (k : Z) :
  parse_date_key text = Some k ->
  exists y mo d,
    k = y * 10000 + mo * 100 + d
    /\ 2000 <= y <= 2099 /\ valid_date y mo d = true.
Proof.
  unfold parse_date_key. set (t := to_halfwidth text).
  destruct (re_search _DATE8_RE t) as [m|] eqn:E8.
  - destruct (py_int (group t m 1)) as [y|] eqn:Ey; [|discriminate].
    destruct (py_int (group t m 2)) as [mo|]; [|discriminate].
    destruct (py_int (group t m 3)) as [d|]; [|discriminate].
    destruct (valid_date y mo d) eqn:Ev; [|discriminate].
    intros H. injection H as <-. exists y, mo, d.
    split; [reflexivity|]. split; [|assumption]. eapply date8_year; eassumption.
  - destruct (re_search _DATE_SEP_RE t) as [m|] eqn:Es; [|discriminate].
    destruct (py_int (group t m 1)) as [y|] eqn:Ey; [|discriminate].
    destruct (py_int (group t m 2)) as [mo|]; [|discriminate].
    destruct (py_int (group t m 3)) as [d|]; [|discriminate].
    destruct (valid_date y mo d) eqn:Ev; [|discriminate].
    intros H. injection H as <-. exists y, mo, d.
    split; [reflexivity|]. split; [|assumption]. eapply date_sep_year; eassumption.
Qed.

(** X12: a date key that [parse_date_key] returns is [yyyymmdd] for a
    real calendar date ([datetime.date] accepts it) of the years 2000 to
    2099; so it lies between 20000101 and 20991231. *)
Theorem parse_date_key_calendar (text : pystr) (k : Z) :
  parse_date_key text = Some k ->
  (exists y mo d,
     k = y * 10000 + mo * 100 + d
     /\ 2000 <= y <= 2099 /\ 1 <= mo <= 12 /\ 1 <= d <= 31
     /\ valid_date y mo d = true)
  /\ 20000101 <= k <= 20991231.
Proof.
  intros H. apply parse_date_key_inv in H.
  destruct H as (y & mo & d & -> & Hy & Hv).
  pose proof (valid_date_range y mo d Hv) as [Hm Hd].
  split; [|lia]. exists y, mo, d. auto.
Qed.

(** ** [chinese_to_int] and the sort keys *)

Ltac some_eq H :=
  apply (f_equal (fun o => match o with Some x => x | None => 0 end)) in H;
  cbv beta iota in H.

Lemma cn_num_bound (c v : Z) : cn_num c CN_NUM = Some v -> 0 <= v <= 10.
Proof.
  unfold CN_NUM. cbn [cn_num].
  repeat match goal with
         | |- context [c =? ?k] => destruct (c =? k)
         end; intros H; try discriminate; injection H as <-; lia.
Qed.

Lemma lstrip_by_length (f : Z -> bool) (s : pystr) :
  (length (lstrip_by f s) <= length s)%nat.
Proof.
  destruct (lstrip_by_suffix f s) as [w E]. rewrite E at 2.
  rewrite length_app. lia.
Qed.

Lemma strip_length (s : pystr) : (length (strip s) <= length s)%nat.
Proof.
  unfold strip, strip_by.
  destruct (rstrip_by_prefix isspace (lstrip_by isspace s)) as [w E].
  pose proof (lstrip_by_length isspace s) as H. rewrite E in H.
  rewrite length_app in H. lia.
Qed.

Lemma cn_fold_bound4 (s : pystr) (v : Z) :
  (length s <= 4)%nat -> cn_fold 0 s = Some v -> 0 <= v <= 11110.
Proof.
  intros Hl.
  destruct s as [|a [|b [|c [|d [|x s]]]]]; cbn [length] in Hl; try lia; clear Hl;
    cbn [cn_fold];
    repeat match goal with
           | |- context [cn_num ?c CN_NUM] =>
               let E := fresh "E" in
               destruct (cn_num c CN_NUM) eqn:E;
               [apply cn_num_bound in E | discriminate]
           end;
    intros H; some_eq H; lia.
Qed.

Lemma py_int_bound4 (t : pystr) (v : Z) :
  str_isdigit t = true -> (length t <= 4)%nat -> py_int t = Some v -> 0 <= v <= 11110.
Proof.
  intros Ed Hl H. unfold str_isdigit in Ed.
  destruct t as [|c0 t0] eqn:Et; [discriminate|]. rewrite <- Et in *.
  destruct (py_int_digits 1 4 t) as (v' & Ev & Hv); [lia | | ].
  - split; [|assumption]. rewrite Et in *. cbn [length] in *. lia.
  - rewrite Ev in H. injection H as <-. cbn in Hv. lia.
Qed.

Lemma chinese_to_int_bound (s : pystr) (v : Z) :
  (length s <= 4)%nat -> chinese_to_int s = Some v -> 0 <= v <= 11110.
Proof.
  intros Hl. pose proof (strip_length s) as Hs. unfold chinese_to_int.
  set (t := strip s) in *. assert (Ht : (length t <= 4)%nat) by lia. clearbody t. clear Hl Hs.
  destruct t as [|a [|b [|c [|d [|x r]]]]]; cbn [length] in Ht; try lia; try discriminate;
    (destruct (str_isdigit _) eqn:Ed;
     [ apply py_int_bound4; [exact Ed | cbn [length]; lia]
     | destruct (str_eqb _ _); [intros H; some_eq H; lia|];
       cbv beta iota; cbn [cn_fold];
       repeat match goal with
              | |- context [cn_num ?c CN_NUM] =>
                  let E := fresh "E" in
                  destruct (cn_num c CN_NUM) eqn:E; [apply cn_num_bound in E|]
              | |- context [?x =? ZH_SHI] => destruct (x =? ZH_SHI)
              end;
       intros H; try discriminate; some_eq H; lia ]).
Qed.

Lemma part_rank_of_range (tail : pystr) : 0 <= part_rank_of tail _PART_ORDER <= 3.
Proof.
  unfold _PART_ORDER. cbn [part_rank_of].
  repeat match goal with |- context [if ?b then _ else _] => destruct b end; lia.
Qed.

Lemma parse_qishu_range (text : pystr) (q : Z) :
  fst (parse_qishu_and_part text) = Some q -> 0 <= q <= 11110.
Proof.
  unfold parse_qishu_and_part. set (t := to_halfwidth text).
  destruct (re_search _QISHU_RE t) as [m|] eqn:E; [|discriminate].
  cbn [fst]. apply chinese_to_int_bound.
  apply re_search_marker in E.
  destruct E as (pre & w & post & Es & _ & _ & Hmk & _ & _).
  unfold marker in Hmk. cbn [body ignorecase _QISHU_RE Seqs] in Hmk.
  apply rx_seq_inv in Hmk. destruct Hmk as (w0 & w' & g0 & -> & R0 & H).
  apply rx_chr_inv in R0. destruct R0 as (x0 & -> & _ & ->).
  apply rx_seq_inv in H. destruct H as (w1 & w2 & g1 & -> & R1 & H).
  apply rx_star_inv in R1. destruct R1 as (_ & ->).
  apply rx_seq_inv in H. destruct H as (w3 & w4 & g2 & -> & R2 & H).
  apply rx_group_inv in R2. destruct R2 as (g2' & -> & R2).
  apply rx_rep_chr in R2. destruct R2 as (-> & Hl & _).
  apply rx_seq_inv in H. destruct H as (w5 & w6 & g3 & -> & R3 & H).
  apply rx_star_inv in R3. destruct R3 as (_ & ->).
  apply rx_chr_inv in H. destruct H as (x1 & -> & _ & Hg).
  unfold group. rewrite Hg. cbn [cap_get Nat.eqb]. lia.
Qed.

Lemma snd_parse_qishu_range (text : pystr) :
  0 <= snd (parse_qishu_and_part text) <= 3.
Proof.
  unfold parse_qishu_and_part.
  destruct (re_search _QISHU_RE (to_halfwidth text)); cbn [snd];
    [apply part_rank_of_range | lia].
Qed.

Lemma candidate_of_key (it : scanned) (s : Z) (c : cand) :
  candidate_of it = Some (s, c) -> key_in_range (c_key c).
Proof.
  destruct it as [[scan_dir season_guess] ent]. unfold candidate_of.
  destruct (is_dir ent); [discriminate|].
  destruct (negb (is_video (name ent))); [discriminate|].
  destruct (snd (fst (fst (parse_episode_from_name (name ent))))); [discriminate|].
  pose proof (parse_qishu_range (name ent)) as Hq.
  pose proof (snd_parse_qishu_range (name ent)) as Hp.
  pose proof (parse_date_key_inv (name ent)) as Hd.
  assert (Hdate : 20000101 <= match parse_date_key (name ent) with
                               | Some 0 | None => 99999999
                               | Some d => d
                               end <= 99999999).
  { destruct (parse_date_key (name ent)) as [k|]; [|lia].
    destruct (Hd k eq_refl) as (y & mo & d & -> & Hy & Hv).
    apply valid_date_range in Hv.
    destruct (y * 10000 + mo * 100 + d) eqn:E; lia. }
  set (date_or := match parse_date_key (name ent) with
                  | Some 0 | None => 99999999
                  | Some d => d
                  end) in *.
  clearbody date_or.
  destruct (fst (parse_qishu_and_part (name ent))) as [q|] eqn:Eq;
    destruct (parse_date_key (name ent)) as [k|] eqn:Ek;
    try discriminate;
    intros H; injection H as _ <-; cbn [c_key];
    destruct (is_special_episode_name (name ent)
              || is_special_episode_name (strip (basename scan_dir)));
    cbn [key_in_range]; try (specialize (Hq _ eq_refl)); lia.
Qed.

(** X13: every candidate the first loop of the planner gathers has a sort
    key in range: the date component is at least 20000101 and the period
    number at most 11110.  So a pair (for a special) and a quadruple (for
    another file) that meet in one season differ in their first
    component, and the sort never compares a name with a number. *)
Theorem sort_keys_in_range (listings : list (pystr * list DirEntry))
    (hints : list (pystr * Z)) (default_season season : Z) (cs : list cand) (c : cand) :
  In (season, cs) (fst (fold_left (gather_dir hints default_season) listings ([], []))) ->
  In c cs ->
  key_in_range (c_key c)
  /\ forall c' d n q p d' n',
       In c' cs -> c_key c = KSpecial d n -> c_key c' = KNormal q p d' n' -> q < d.
Proof.
  intros Hcs Hc.
  rewrite gather_dirs_items in Hcs.
  set (files := scan_items listings hints default_season) in *.
  destruct (gather_items_inv files [] [] []) as (Hnd & Hcb & _).
  - constructor.
  - intros s. reflexivity.
  - intros s x. split; [intros [] | intros (it & [] & _)].
  - cbn [app] in Hcb.
    assert (Hin : forall x, In x cs -> exists it, In it files /\ candidate_of it = Some (season, x)).
    { intros x Hx. apply In_candidates. apply In_season_cands.
      rewrite <- Hcb. unfold dict_list.
      rewrite (dict_get_In _ season cs Hnd Hcs). exact Hx. }
    assert (Hk : forall x, In x cs -> key_in_range (c_key x)).
    { intros x Hx. destruct (Hin x Hx) as (it & _ & E). eapply candidate_of_key; eassumption. }
    split; [now apply Hk|].
    intros c' d n q p d' n' Hc' E E'.
    pose proof (Hk c Hc) as K. pose proof (Hk c' Hc') as K'.
    rewrite E in K. rewrite E' in K'. cbn [key_in_range] in K, K'. lia.
Qed.

(** ** The entries of the plan *)

Lemma assign_fold_get (season : Z) (cs : list cand) :
  forall st k v,
    plans_get (fst (fst (fold_left (assign_one season) cs st))) k = Some v ->
    plans_get (fst (fst st)) k = Some v
    \/ exists c e, In c cs /\ cand_key c = k /\ v = (season, e, c_special c) /\ snd st <= e.
Proof.
  induction cs as [|c cs IH]; intros st k v H; [now left|].
  cbn [fold_left] in H. apply IH in H. destruct st as [[pl used] next].
  unfold assign_one in H. cbn [fst snd] in *.
  pose proof (skip_used_spec used next) as (Hle & _ & _).
  set (r := skip_used (S (length used)) used next) in *.
  destruct H as [H|(c' & e & Hc & Ek & Ev & He)].
  - rewrite plans_get_set in H.
    destruct (plan_key_eqb_spec k (c_dir c, c_name c)) as [->|N].
    + injection H as <-. right. exists c, r. repeat split; auto. now left.
    + now left.
  - right. exists c', e. repeat split; auto; [now right | lia].
Qed.

Lemma assign_season_get (ubs : list (Z * list Z)) (pl : plans) (s : Z)
    (cs : list cand) (k : plan_key) (v : plan_val) :
  plans_get (assign_season ubs pl (s, cs)) k = Some v ->
  plans_get pl k = Some v
  \/ exists c e, In c cs /\ cand_key c = k /\ v = (s, e, c_special c) /\ 1 <= e.
Proof.
  rewrite assign_season_eq. intros H. apply assign_fold_get in H.
  destruct H as [H|(c & e & Hc & Ek & Ev & He)]; [now left|].
  right. exists c, e. repeat split; auto.
  eapply Permutation_in; [apply stable_sort_perm | exact Hc].
Qed.

Lemma assign_seasons_get (ubs : list (Z * list Z)) (k : plan_key) (v : plan_val)
    (cbs : list (Z * list cand)) :
  forall pl,
    plans_get (fold_left (assign_season ubs) cbs pl) k = Some v ->
    plans_get pl k = Some v
    \/ exists s cs c e, In (s, cs) cbs /\ In c cs /\ cand_key c = k
                        /\ v = (s, e, c_special c) /\ 1 <= e.
Proof.
  induction cbs as [|[s cs] cbs IH]; intros pl H; [now left|].
  cbn [fold_left] in H. apply IH in H.
  destruct H as [H|(s' & cs' & c & e & Hi & Hc & Ek & Ev & He)].
  - apply assign_season_get in H. destruct H as [H|(c & e & Hc & Ek & Ev & He)]; [now left|].
    right. exists s, cs, c, e. repeat split; auto. now left.
  - right. exists s', cs', c, e. repeat split; auto. now right.
Qed.

Lemma candidate_of_facts (it : scanned) (s : Z) (c : cand) :
  candidate_of it = Some (s, c) ->
  is_dir (snd it) = false /\ is_video (name (snd it)) = true
  /\ snd (fst (fst (parse_episode_from_name (name (snd it))))) = None
  /\ (parse_date_key (name (snd it)) <> None
      \/ fst (parse_qishu_and_part (name (snd it))) <> None)
  /\ s = (if c_special c then 0 else snd (fst it)).
Proof.
  destruct it as [[scan_dir season_guess] ent]. unfold candidate_of. cbn [fst snd].
  destruct (is_dir ent); [discriminate|].
  destruct (is_video (name ent)); [|discriminate]. cbn [negb].
  destruct (snd (fst (fst (parse_episode_from_name (name ent))))); [discriminate|].
  destruct (fst (parse_qishu_and_part (name ent))) as [q|] eqn:Eq;
    destruct (parse_date_key (name ent)) as [k|] eqn:Ek;
    try discriminate;
    intros H; injection H as <- <-; cbn [c_special];
    repeat split; auto; (left; discriminate) || (right; discriminate).
Qed.

(** X14: an entry of the plan numbers a video file of the scan that
    carries no episode number of its own and has a date or a period
    number in its name; its episode is at least 1, a special goes to
    season 0 and any other file to the season its directory stands
    for. *)
Theorem plan_entries_are_candidates (listings : list (pystr * list DirEntry))
    (hints : list (pystr * Z)) (default_season : Z)
    (k : plan_key) (s e : Z) (sp : bool) :
  plans_get (plan_variety listings hints default_season) k = Some (s, e, sp) ->
  1 <= e
  /\ exists it,
       In it (scan_items listings hints default_season)
       /\ scanned_key it = k
       /\ is_dir (snd it) = false
       /\ is_video (name (snd it)) = true
       /\ snd (fst (fst (parse_episode_from_name (name (snd it))))) = None
       /\ (parse_date_key (name (snd it)) <> None
           \/ fst (parse_qishu_and_part (name (snd it))) <> None)
       /\ s = (if sp then 0 else snd (fst it)).
Proof.
  unfold plan_variety. rewrite gather_dirs_items.
  set (files := scan_items listings hints default_season).
  destruct (gather_items_inv files [] [] []) as (Hnd & Hcb & _).
  - constructor.
  - intros s0. reflexivity.
  - intros s0 x. split; [intros [] | intros (it & [] & _)].
  - cbn [app] in Hcb.
    destruct (fold_left gather_item files ([], [])) as [cbs ubs] eqn:Eg.
    cbn [fst] in *. intros H. apply assign_seasons_get in H.
    destruct H as [H|(s' & cs & c & e' & Hi & Hc & Ek & Ev & He)]; [discriminate|].
    injection Ev as -> -> ->. split; [assumption|].
    assert (Hcand : In (s', c) (candidates files)).
    { apply In_season_cands. rewrite <- Hcb. unfold dict_list.
      now rewrite (dict_get_In _ s' cs Hnd Hi). }
    apply In_candidates in Hcand. destruct Hcand as (it & Hit & Eit).
    exists it. split; [assumption|].
    split; [rewrite <- Ek; symmetry; eapply candidate_key; eassumption|].
    apply candidate_of_facts in Eit. tauto.
Qed.

End PlannerFurther.

Lemma parse_date_key_calendar_witness :
  20000101 <= 20240229 <= 20991231.
Proof.
  apply (parse_date_key_calendar (U := BasicUnicode) (py "Show 2024-02-29.mp4") 20240229).
  vm_compute. reflexivity.
Defined.

(** The 30th of February is no date: the text has no date key. *)
Example parse_date_key_invalid :
  parse_date_key (U := BasicUnicode) (py "Show 20240230.mp4") = None.
Proof. vm_compute. reflexivity. Qed.

Lemma sort_keys_in_range_witness :
  key_in_range (KNormal 9999 0 20240108 (py "20240108.mp4")).
Proof.
  apply (sort_keys_in_range (U := BasicUnicode) variety_folder [] 1 1
           [mkCand (KNormal 9999 0 20240108 (py "20240108.mp4"))
                   (py "/tv/Show/Season 1") (py "20240108.mp4") false;
            mkCand (KNormal 9999 0 20240101 (py "20240101.mp4"))
                   (py "/tv/Show/Season 1") (py "20240101.mp4") false]
           (mkCand (KNormal 9999 0 20240108 (py "20240108.mp4"))
                   (py "/tv/Show/Season 1") (py "20240108.mp4") false)).
  - vm_compute. left. reflexivity.
  - left. reflexivity.
Defined.

Lemma plan_entries_are_candidates_witness : 1 <= 2.
Proof.
  apply (plan_entries_are_candidates (U := BasicUnicode) variety_folder [] 1
           (py "/tv/Show/Season 1", py "20240101.mp4") 1 2 false).
  vm_compute. reflexivity.
Defined.

(** ** [chinese_to_int] on the numerals *)

Lemma basic_numerals_not_decimal (c v : Z) :
  cn_num c CN_NUM = Some v -> uni_decimal (Unicode := BasicUnicode) c = None.
Proof.
  unfold CN_NUM. cbn [cn_num].
  repeat match goal with
         | |- context [c =? ?k] => destruct (Z.eqb_spec c k); [subst c; reflexivity|]
         end.
  discriminate.
Qed.

Section Numerals.
Context {U : Unicode}.
Hypothesis numerals_not_decimal :
  forall c v, cn_num c CN_NUM = Some v -> uni_decimal c = None.

Lemma str_isdigit_numeral (t : pystr) (c v : Z) :
  cn_num c CN_NUM = Some v -> str_isdigit (c :: t) = false.
Proof.
  intros H. unfold str_isdigit. cbn [forallb]. unfold isdecimal at 1.
  now rewrite (numerals_not_decimal c v H).
Qed.

Lemma chinese_to_int_transfer (s : pystr) (c : Z) (t : pystr) (v : Z) :
  strip s = c :: t -> cn_num c CN_NUM = Some v ->
  chinese_to_int s = chinese_to_int (U := BasicUnicode) s.
Proof.
  intros Es Hc. unfold chinese_to_int. rewrite Es.
  rewrite (str_isdigit_numeral t c v Hc).
  unfold str_isdigit. cbn [forallb]. unfold isdecimal at 1.
  now rewrite (basic_numerals_not_decimal c v Hc).
Qed.

(** X15: where the Chinese numerals are no decimal digits (as in the
    Unicode tables), [chinese_to_int] reads the usual numeral of every
    number from 0 to 99 as that number. *)
Theorem chinese_to_int_numerals (n : Z) :
  0 <= n <= 99 -> chinese_to_int (cn_numeral n) = Some n.
Proof.
  intros Hn.
  assert (Hall : forallb
            (fun k =>
               let s := cn_numeral (Z.of_nat k) in
               match strip s with
               | c :: _ =>
                   match cn_num c CN_NUM with
                   | Some _ =>
                       match chinese_to_int (U := BasicUnicode) s with
                       | Some r => r =? Z.of_nat k
                       | None => false
                       end
                   | None => false
                   end
               | [] => false
               end) (seq 0 100) = true) by (vm_compute; reflexivity).
  rewrite forallb_forall in Hall.
  specialize (Hall (Z.to_nat n)). rewrite Z2Nat.id in Hall by lia.
  assert (Hin : In (Z.to_nat n) (seq 0 100)) by (apply in_seq; lia).
  specialize (Hall Hin). cbv zeta in Hall.
  destruct (strip (cn_numeral n)) as [|c t] eqn:Es; [discriminate|].
  destruct (cn_num c CN_NUM) as [v|] eqn:Ec; [|discriminate].
  rewrite (chinese_to_int_transfer _ c t v Es Ec).
  destruct (chinese_to_int (U := BasicUnicode) (cn_numeral n)) as [r|]; [|discriminate].
  apply Z.eqb_eq in Hall. now subst r.
Qed.

End Numerals.

Lemma chinese_to_int_numerals_witness :
  chinese_to_int (U := BasicUnicode) [20108; 21313; 19977] = Some 23.
Proof.
  apply (chinese_to_int_numerals (U := BasicUnicode) basic_numerals_not_decimal 23). lia.
Defined.

(** A numeral with the character for a hundred is not read. *)
Example chinese_to_int_hundred :
  chinese_to_int (U := BasicUnicode) [19968; 30334] = None.
Proof. vm_compute. reflexivity. Qed.

(* ================================================================== *)
(** * Further properties: what the operations request (renamer.py,
      lines 1866-1911, 2156-2305, 3200-3232) *)
(* ================================================================== *)

Lemma exec_bind {A B : Type} (tl : timeline) (m : prog A) (f : A -> prog B) :
  forall n,
    exec tl n (bind m f)
    = let '(r, n1, fx1) := exec tl n m in
      match r with
      | inl e => (inl e, n1, fx1)
      | inr a => let '(r2, n2, fx2) := exec tl n1 (f a) in (r2, n2, fx1 ++ fx2)
      end.
Proof.
  induction m as [a|e|X ev k IH]; intros n; cbn [bind exec].
  - destruct (exec tl n (f a)) as [[r2 n2] fx2]. reflexivity.
  - reflexivity.
  - rewrite IH. destruct (exec tl (S n) (k (tl n X ev))) as [[r n1] fx1].
    destruct r as [e|a]; [reflexivity|].
    destruct (exec tl n1 (f a)) as [[r2 n2] fx2]. now rewrite app_assoc.
Qed.

Lemma exec_catch {A : Type} (tl : timeline) (m : prog A) (h : exn -> prog A) :
  forall n,
    exec tl n (catch m h)
    = let '(r, n1, fx1) := exec tl n m in
      match r with
      | inl e => let '(r2, n2, fx2) := exec tl n1 (h e) in (r2, n2, fx1 ++ fx2)
      | inr a => (inr a, n1, fx1)
      end.
Proof.
  induction m as [a|e|X ev k IH]; intros n; cbn [catch exec].
  - reflexivity.
  - destruct (exec tl n (h e)) as [[r2 n2] fx2]. reflexivity.
  - rewrite IH. destruct (exec tl (S n) (k (tl n X ev))) as [[r n1] fx1].
    destruct r as [e|a]; [|reflexivity].
    destruct (exec tl n1 (h e)) as [[r2 n2] fx2]. now rewrite app_assoc.
Qed.

Lemma exec_steady {A : Type} (w : world) (m : prog A) :
  forall n, fst (fst (exec (steady w) n m)) = run w m.
Proof.
  induction m as [a|e|X ev k IH]; intros n; cbn [exec run]; try reflexivity.
  specialize (IH (w X ev) (S n)). unfold steady at 2.
  destruct (exec (steady w) (S n) (k (w X ev))) as [[r n1] fx1]. exact IH.
Qed.

Lemma exec_no_mutation {A : Type} (tl : timeline) (m : prog A) :
  no_mutation m ->
  forall n f, In f (snd (exec tl n m)) -> exists p d, f = FxState p d.
Proof.
  induction 1 as [a|e|X ev k Hev Hk IH]; intros n f Hf; cbn [exec] in Hf.
  - destruct Hf.
  - destruct Hf.
  - specialize (IH (tl n X ev) (S n) f).
    destruct (exec tl (S n) (k (tl n X ev))) as [[r n1] fx1]. cbn [snd] in *.
    apply in_app_or in Hf. destruct Hf as [Hf|Hf]; [|now apply IH].
    destruct ev; cbn in Hev, Hf; try discriminate; try (destruct Hf as [<-|[]]; eauto);
      destruct Hf.
Qed.

Lemma exec_log (tl : timeline) (n : nat) (text : string) (args : list pystr) :
  exec tl n (log_append text args) = (inr tt, S n, []).
Proof.
  unfold log_append, do_. cbn [exec effect_of app].
  now destruct (tl n unit (EvLog (Msg text args))).
Qed.

Section OperationEffects.
Context {U : Unicode}.
Variable getenv : string -> option pystr.

(** ** [ensure_dir] *)

(** X16: in a world that may change, [ensure_dir] requests at most one
    change, the creation of the target directory; it requests none in a
    dry run, and none when the listing of the parent shows a directory
    of that name; and the path it answers is the same in every case. *)
Theorem ensure_dir_effects (tl : timeline) (n : nat) (parent name_ : pystr) (dry : bool) :
  let target := join_path (norm_path parent) (safe_filename name_) in
  let fx := effects tl n (ensure_dir parent name_ dry) in
  (fx = []
   \/ (fx = [FxMkdir (norm_path target)] /\ dry = false
       /\ exists entries,
            tl n _ (EvListDir (norm_path (norm_path parent))) = inr entries
            /\ forall e, In e entries -> is_dir e = true -> name e <> safe_filename name_))
  /\ (dry = true -> fx = [])
  /\ (forall r, outcome tl n (ensure_dir parent name_ dry) = inr r -> r = target).
Proof.
  intros target fx. subst fx. unfold effects, outcome, ensure_dir.
  fold target. unfold list_dir, do_. cbn [bind exec].
  destruct (tl n _ (EvListDir (norm_path (norm_path parent)))) as [e|entries] eqn:El.
  { cbn [exec fst snd app effect_of]. repeat split; auto; discriminate. }
  cbn [bind exec].
  destruct (existsb _ entries) eqn:Ex.
  { cbn [exec fst snd app effect_of]. repeat split; auto. now intros r [= <-]. }
  destruct dry.
  { unfold log_append, do_. cbn [bind exec fst snd app effect_of].
    repeat split; auto. now intros r [= <-]. }
  unfold log_append, client_mkdir, checked, do_. cbn [bind exec fst snd app effect_of].
  destruct (tl (S (S n)) _ (EvMkdir (norm_path target))) as [e|];
    cbn [bind exec fst snd app effect_of].
  - split; [|split; [discriminate | discriminate]].
    right. split; [reflexivity|]. split; [reflexivity|].
    exists entries. split; [reflexivity|]. intros e0 Hin Hd Hn.
    assert (F : existsb (fun e1 => is_dir e1 && str_eqb (name e1) (safe_filename name_)) entries = true).
    { apply existsb_exists. exists e0. split; [assumption|].
      rewrite Hd, Hn. cbn. apply str_eqb_refl. }
    congruence.
  - split; [|split; [discriminate | now intros r [= <-]]].
    right. split; [reflexivity|]. split; [reflexivity|].
    exists entries. split; [reflexivity|]. intros e0 Hin Hd Hn.
    assert (F : existsb (fun e1 => is_dir e1 && str_eqb (name e1) (safe_filename name_)) entries = true).
    { apply existsb_exists. exists e0. split; [assumption|].
      rewrite Hd, Hn. cbn. apply str_eqb_refl. }
    congruence.
Qed.

(** ** [maybe_rename_path] *)

Lemma exec_unique_name (tl : timeline) (n : nat) (parent desired : pystr) :
  exec tl n (unique_name_in_parent getenv parent desired)
  = (inr (resolve_name getenv (listed_at tl n parent) desired), S n, []).
Proof.
  unfold unique_name_in_parent, names_of, list_dir, do_, listed_at.
  cbn [bind catch exec].
  destruct (tl n _ (EvListDir (norm_path (norm_path parent)))) as [e|entries];
    reflexivity.
Qed.

Lemma resolve_name_free (existing : list pystr) (desired : pystr) :
  resolve_name getenv existing desired <> [] ->
  ~ In (resolve_name getenv existing desired) existing.
Proof.
  unfold resolve_name.
  destruct (str_mem (safe_filename desired) existing) eqn:Em; cbn [negb].
  - destruct (str_eqb (conflict_mode getenv) (py "skip")); [congruence|].
    destruct (splitext (safe_filename desired)) as [stem ext].
    unfold range. replace (200 - 1)%nat with 199%nat by reflexivity.
    destruct (first_free_spec stem ext existing 199 1) as [[E _]|(k & _ & E & Hk & _)].
    + rewrite E. congruence.
    + rewrite E. intros _. exact Hk.
  - intros _. now apply str_mem_not_In.
Qed.


End OperationEffects.

(** ** The clean-up helpers *)

Section DeadHelpers.
Context {U : Unicode}.
Variable getenv : string -> option pystr.

(** X18: the clean-up of advertisement files and the relocation of
    subtitles change nothing, dry run or not: both list through
    [client.listdir], which the client does not have, so the clean-up
    ends after its warning and the relocation at once; the season map is
    always empty.  No [remove], [mkdir] or [move] is requested. *)
Theorem cleanup_requests_nothing (tl : timeline) (n : nat)
    (format_season : Z -> pystr) (log_truthy : bool) (path : pystr) (dry : bool) :
  effects tl n (cleanup_ads_in_dir getenv path dry) = []
  /\ outcome tl n (cleanup_ads_in_dir getenv path dry) = inr tt
  /\ exec tl n (relocate_subtitles_in_show_root getenv format_season log_truthy path dry)
     = (inr tt, n, [])
  /\ exec tl n (build_season_dir_map path) = (inr [], n, []).
Proof.
  unfold effects, outcome. rewrite cleanup_ads_in_dir_eq.
  destruct (negb (bool_env getenv "DELETE_ADS" true)).
  - repeat split; reflexivity.
  - rewrite exec_bind, exec_log. cbn [exec fst snd app]. repeat split; reflexivity.
Qed.

End DeadHelpers.

(** ** The main loop *)

Section MainLoop.
Variable process : pystr -> prog pystr.
Variable state_file : pystr.
Variable done_set : list pystr.

Lemma exec_state (tl : timeline) (n : nat) (p : pystr) (d : bool) :
  exec tl n (match state_file with
             | [] => Ret tt
             | _ => do_ (EvAppendState p d)
             end)
  = (inr tt, (match state_file with [] => n | _ => S n end),
     match state_file with [] => [] | _ => [FxState p d] end).
Proof.
  destruct state_file; [reflexivity|].
  unfold do_. cbn [exec effect_of app]. now destruct (tl n unit _).
Qed.

(** One turn of the loop on a series that is not done. *)
Lemma exec_turn (tl : timeline) (n : nat) (series_path : pystr) :
  exists n' fx,
    exec tl n
      (catch (process series_path ;;
              match state_file with
              | [] => Ret tt
              | _ => do_ (EvAppendState (norm_path series_path) true)
              end)
             (fun _ =>
                log_append "[ERROR]" [series_path] ;;
                match state_file with
                | [] => Ret tt
                | _ => do_ (EvAppendState (norm_path series_path) false)
                end))
    = (inr tt, n', fx)
    /\ exists k d,
         fx = snd (exec tl n (process series_path))
              ++ match state_file with
                 | [] => []
                 | _ => [FxState (norm_path series_path) d]
                 end
         /\ (d = true <-> exists r, outcome tl k (process series_path) = inr r)
         /\ k = n.
Proof.
  rewrite exec_catch, exec_bind. unfold outcome.
  destruct (exec tl n (process series_path)) as [[r n1] fx1] eqn:Ep.
  destruct r as [e|a].
  - rewrite exec_bind, exec_log, exec_state. cbn [app].
    eexists _, _. split; [reflexivity|]. exists n, false.
    split; [reflexivity|]. split; [|reflexivity].
    rewrite Ep. cbn [fst]. split; [discriminate | intros [r H]; discriminate].
  - rewrite exec_state.
    eexists _, _. split; [reflexivity|]. exists n, true.
    split; [reflexivity|]. split; [|reflexivity].
    rewrite Ep. cbn [fst]. split; eauto.
Qed.

Lemma main_loop_runs (tl : timeline) (series_paths : list pystr) :
  forall n, exists n' fx, exec tl n (main_loop process state_file done_set series_paths)
                          = (inr tt, n', fx).
Proof.
  induction series_paths as [|sp rest_ IH]; intros n; cbn [main_loop].
  - eexists _, _. reflexivity.
  - unfold do_ at 1. cbn [bind exec effect_of app].
    destruct (tl n bool EvStopRequested).
    + rewrite exec_log. eexists _, _. reflexivity.
    + destruct (str_mem (norm_path sp) done_set).
      * rewrite exec_bind, exec_log.
        destruct (IH (S (S n))) as (n' & fx & ->). eexists _, _. reflexivity.
      * rewrite exec_bind, exec_log, exec_bind.
        destruct (exec_turn tl (S (S n)) sp) as (n1 & fx1 & -> & _).
        destruct (IH n1) as (n' & fx & ->). eexists _, _. reflexivity.
Qed.

Lemma no_mutation_main_loop (series_paths : list pystr) :
  (forall sp, In sp series_paths -> no_mutation (process sp)) ->
  no_mutation (main_loop process state_file done_set series_paths).
Proof.
  induction series_paths as [|sp rest_ IH]; intros H; cbn [main_loop]; [constructor|].
  assert (IH' : no_mutation (main_loop process state_file done_set rest_))
    by (apply IH; intros q Hq; apply H; now right).
  assert (Hp : no_mutation (process sp)) by (apply H; now left).
  assert (Hst : forall d, no_mutation (match state_file with
                                       | [] => Ret tt
                                       | _ => do_ (EvAppendState (norm_path sp) d)
                                       end)).
  { intros d. destruct state_file; [constructor | now apply no_mutation_do]. }
  nm. 
Qed.

(** X19: the main loop never raises, whatever the processing of a series
    does and however the world answers: a failure is logged and the loop
    goes on.  When no processing requests a change of the tree or of the
    undo ledger (as in a dry run), the loop requests none either: its
    only changes are records of the resume ledger. *)
Theorem main_loop_never_raises (tl : timeline) (n : nat) (series_paths : list pystr) :
  outcome tl n (main_loop process state_file done_set series_paths) = inr tt
  /\ ((forall sp, In sp series_paths -> no_mutation (process sp)) ->
      forall f, In f (effects tl n (main_loop process state_file done_set series_paths)) ->
                exists p d, f = FxState p d).
Proof.
  split.
  - unfold outcome. destruct (main_loop_runs tl series_paths n) as (n' & fx & ->).
    reflexivity.
  - intros H f. unfold effects. apply exec_no_mutation. now apply no_mutation_main_loop.
Qed.

Lemma state_records_app (a b : list effect) :
  state_records (a ++ b) = state_records a ++ state_records b.
Proof. unfold state_records. apply flat_map_app. Qed.

Lemma main_loop_skip (tl : timeline) (n : nat) (sp : pystr) (rest_ : list pystr) :
  tl n bool EvStopRequested = false ->
  str_mem (norm_path sp) done_set = true ->
  effects tl n (main_loop process state_file done_set (sp :: rest_))
  = effects tl (S (S n)) (main_loop process state_file done_set rest_).
Proof.
  intros Hstop Em. unfold effects. cbn [main_loop]. unfold do_ at 1.
  cbn [bind exec effect_of app]. rewrite Hstop, Em.
  rewrite exec_bind, exec_log.
  destruct (exec tl (S (S n)) (main_loop process state_file done_set rest_))
    as [[r n'] fx].
  now destruct r as [e|[]].
Qed.

Lemma main_loop_turn (tl : timeline) (n : nat) (sp : pystr) (rest_ : list pystr) :
  tl n bool EvStopRequested = false ->
  str_mem (norm_path sp) done_set = false ->
  exists n1 d,
    effects tl n (main_loop process state_file done_set (sp :: rest_))
    = effects tl (S (S n)) (process sp)
      ++ match state_file with [] => [] | _ => [FxState (norm_path sp) d] end
      ++ effects tl n1 (main_loop process state_file done_set rest_)
    /\ (d = true <-> exists r, outcome tl (S (S n)) (process sp) = inr r).
Proof.
  intros Hstop Em. unfold effects. cbn [main_loop]. unfold do_ at 1.
  cbn [bind exec effect_of app]. rewrite Hstop, Em.
  rewrite exec_bind, exec_log, exec_bind.
  destruct (exec_turn tl (S (S n)) sp) as (n1 & fx1 & -> & k & d & Efx & Hd & ->).
  exists n1, d. split; [|exact Hd].
  destruct (exec tl n1 (main_loop process state_file done_set rest_)) as [[r n'] fx].
  rewrite Efx. destruct r as [e|[]]; cbn [snd app]; now rewrite <- app_assoc.
Qed.

(** X20: when no stop is requested, a state file is given and the
    processing writes no record of its own, the main loop writes one
    record for each series that the done set does not hold, in the order
    of the list and under its normalised path; the record says done
    exactly when the processing of the series returned, that is in a dry
    run as well. *)
Theorem main_loop_records (tl : timeline) (series_paths : list pystr) :
  (forall k, tl k bool EvStopRequested = false) ->
  (forall k sp, state_records (effects tl k (process sp)) = []) ->
  state_file <> [] ->
  forall n,
    let recs := state_records
                  (effects tl n (main_loop process state_file done_set series_paths)) in
    map fst recs
    = map norm_path
        (filter (fun sp => negb (str_mem (norm_path sp) done_set)) series_paths)
    /\ forall p d,
         In (p, d) recs ->
         exists sp k, In sp series_paths /\ p = norm_path sp
                      /\ (d = true <-> exists r, outcome tl k (process sp) = inr r).
Proof.
  intros Hstop Hproc Hsf.
  induction series_paths as [|sp rest_ IH]; intros n recs; subst recs.
  - cbn. split; [reflexivity | intros p d []].
  - cbn [filter].
    destruct (str_mem (norm_path sp) done_set) eqn:Em; cbn [negb].
    + rewrite (main_loop_skip tl n sp rest_ (Hstop n) Em).
      destruct (IH (S (S n))) as [IH1 IH2]. split; [exact IH1|].
      intros p d H. destruct (IH2 p d H) as (q & k & Hq & R).
      exists q, k. split; [now right | exact R].
    + destruct (main_loop_turn tl n sp rest_ (Hstop n) Em) as (n1 & d & -> & Hd).
      rewrite !state_records_app, Hproc.
      destruct (IH n1) as [IH1 IH2].
      destruct state_file as [|c0 sf0]; [congruence|].
      cbn [state_records flat_map app map fst]. split; [now rewrite <- IH1|].
      intros p d' [H|H].
      * injection H as <- <-. exists sp, (S (S n)). split; [now left|].
        split; [reflexivity | exact Hd].
      * destruct (IH2 p d' H) as (q & k & Hq & R).
        exists q, k. split; [now right | exact R].
Qed.

End MainLoop.

Lemma main_loop_records_witness :
  map fst (state_records
             (effects (steady (quiet_world (fun _ => inr []))) 0
                (main_loop (fun p => if str_eqb p (py "/tv/B") then Raise RuntimeError else Ret p)
                   (py "state.jsonl") [py "/tv/A"]
                   [py "/tv/A/"; py "/tv/B"; py "tv/C"])))
  = [py "/tv/B"; py "/tv/C"].
Proof.
  apply (main_loop_records
           (fun p => if str_eqb p (py "/tv/B") then Raise RuntimeError else Ret p)
           (py "state.jsonl") [py "/tv/A"]
           (steady (quiet_world (fun _ => inr [])))
           [py "/tv/A/"; py "/tv/B"; py "tv/C"]).
  - reflexivity.
  - intros k sp. unfold effects. destruct (str_eqb sp (py "/tv/B")); reflexivity.
  - discriminate.
Defined.

(** ** The resume ledger, written and read back *)

Lemma state_line_done (ts err p : pystr) (d : bool) (fields : list (pystr * jval)) (q : pystr) :
  state_line ts err p d = LObject fields ->
  jget fields (py "status") = Some (JStr (py "done")) ->
  jget fields (py "series_path") = Some (JStr q) ->
  d = true /\ q = p.
Proof.
  unfold state_line. intros E. injection E as <-.
  destruct d; cbn; intros H1 H2.
  - injection H2 as <-. auto.
  - discriminate H1.
Qed.

(** X21: reading back the records the main loop wrote, [load_state]
    answers exactly the normalised paths of the records that say done; a
    record that says error is not in the set.  So a series whose record
    says done is in the set under its normalised path, provided the path
    does not end in two separators (its normal form is then stable), and
    the next run skips it. *)
Theorem resume_round_trip (ts err : pystr * bool -> pystr) (state_file : pystr)
    (recs : list (pystr * bool)) :
  state_file <> [] ->
  let file := map (fun r => state_line (ts r) (err r) (fst r) (snd r)) recs in
  let done := load_state state_file (Some file) in
  (forall q, In q done <-> exists p, In (p, true) recs /\ p <> [] /\ q = norm_path p)
  /\ (forall sp, ends_with_two_seps sp = false -> In (norm_path sp, true) recs ->
                 str_mem (norm_path sp) done = true)
  /\ (forall sp, (forall p, In (p, true) recs -> norm_path p <> norm_path sp) ->
                 str_mem (norm_path sp) done = false).
Proof.
  intros Hsf file done.
  assert (Hin : forall q, In q done
                          <-> exists p, In (p, true) recs /\ p <> [] /\ q = norm_path p).
  { intros q. subst done. unfold load_state.
    destruct state_file as [|c0 sf0]; [congruence|].
    rewrite load_state_lines_In. split.
    - intros [[]|(fields & p & Hl & Hs & Hp & Hne & <-)].
      subst file. apply in_map_iff in Hl. destruct Hl as ([p0 d] & E & Hr).
      cbn [fst snd] in E.
      destruct (state_line_done _ _ _ _ _ _ E Hs Hp) as [-> ->].
      exists p0. auto.
    - intros (p & Hr & Hne & ->). right.
      exists [(py "series_path", JStr p); (py "status", JStr (py "done"));
              (py "ts", JStr (ts (p, true)))], p.
      split.
      + subst file. apply in_map_iff. exists (p, true). split; [reflexivity | assumption].
      + repeat split; auto. }
  split; [exact Hin|]. split.
  - intros sp Hsp Hr. apply str_mem_In. apply Hin. exists (norm_path sp).
    split; [assumption|]. split.
    + destruct (norm_path_nonempty sp) as [t ->]. discriminate.
    + symmetry. now apply norm_path_idem.
  - intros sp Hn. apply str_mem_not_In. intros H. apply Hin in H.
    destruct H as (p & Hr & _ & E). exact (Hn p Hr (eq_sym E)).
Qed.

Lemma resume_round_trip_witness :
  str_mem (norm_path (py "tv/A/"))
    (load_state (py "state.jsonl")
       (Some (map (fun r => state_line [] (py "boom") (fst r) (snd r))
                  [(py "/tv/A", true); (py "/tv/B", false)])))
  = true.
Proof.
  refine (proj1 (proj2 (resume_round_trip (fun _ => []) (fun _ => py "boom") (py "state.jsonl")
                          [(py "/tv/A", true); (py "/tv/B", false)] _))
            (py "tv/A/") _ _).
  - discriminate.
  - reflexivity.
  - left. reflexivity.
Defined.

(** A series path that ends in two separators is written with a trailing
    slash and read back without it: the next run does not find it. *)
Example resume_two_separators :
  norm_path (py "/tv/A//") = py "/tv/A/"
  /\ str_mem (norm_path (py "/tv/A//"))
       (load_state (py "state.jsonl")
          (Some [state_line [] [] (norm_path (py "/tv/A//")) true]))
     = false.
Proof. split; reflexivity. Qed.

(* ================================================================== *)
(** * Further properties: the log hub (logui.py, lines 83-244) *)
(* ================================================================== *)

Lemma lastn_all {A : Type} (k : nat) (l : list A) :
  (length l <= k)%nat -> lastn k l = l.
Proof. intros H. unfold lastn. now replace (length l - k)%nat with O by lia. Qed.

Lemma lastn_length {A : Type} (k : nat) (l : list A) :
  length (lastn k l) = Nat.min (length l) k.
Proof. unfold lastn. rewrite length_skipn. lia. Qed.

Lemma lastn_app_lastn {A : Type} (k : nat) (a b : list A) :
  lastn k (lastn k a ++ b) = lastn k (a ++ b).
Proof.
  destruct (Nat.le_gt_cases (length a) k) as [H|H].
  - now rewrite (lastn_all k a H).
  - unfold lastn at 1 3. rewrite !length_app, lastn_length.
    replace (Nat.min (length a) k) with k by lia.
    unfold lastn.
    replace (k + length b - k)%nat with (length b) by lia.
    replace (length a + length b - k)%nat with ((length a - k) + length b)%nat by lia.
    set (n := (length a - k)%nat).
    assert (E : a ++ b = firstn n a ++ (skipn n a ++ b))
      by (now rewrite app_assoc, firstn_skipn).
    rewrite E. rewrite (skipn_app (n + length b)).
    assert (Hn : length (firstn n a) = n) by (rewrite length_firstn; lia).
    clearbody n. rewrite (skipn_all2 (firstn n a)) by lia. rewrite Hn. cbn [app]. f_equal. lia.
Qed.

Lemma py_last_lastn {A : Type} (l : list A) (k : Z) :
  0 < k -> py_last l k = lastn (Z.to_nat k) l.
Proof.
  intros H. unfold py_last.
  destruct (Z.eqb_spec k 0); [lia|]. destruct (Z.ltb_spec 0 k); [reflexivity | lia].
Qed.

Lemma count_get_bump (d : list (pystr * Z)) (k k' : pystr) :
  count_get (count_bump d k) k'
  = count_get d k' + (if str_eqb k' k then 1 else 0).
Proof.
  induction d as [|[k0 v] d IH]; cbn [count_bump count_get].
  - destruct (str_eqb k' k); lia.
  - destruct (str_eqb_spec k k0) as [->|N]; cbn [count_get].
    + destruct (str_eqb k' k0); lia.
    + destruct (str_eqb_spec k' k0) as [->|N'].
      * destruct (str_eqb_spec k0 k); [congruence | lia].
      * exact IH.
Qed.

Lemma with_level_snoc (lvl : pystr) (evs : list LogEvent) (ev : LogEvent) :
  with_level lvl (evs ++ [ev])
  = with_level lvl evs + (if str_eqb lvl (ev_level ev) then 1 else 0).
Proof.
  unfold with_level. rewrite filter_app, length_app. cbn [filter].
  destruct (str_eqb lvl (ev_level ev)); cbn [length]; lia.
Qed.

Lemma with_action_snoc (act : pystr) (evs : list LogEvent) (ev : LogEvent) :
  with_action act (evs ++ [ev])
  = with_action act evs + (if str_eqb act (ev_action ev) then 1 else 0).
Proof.
  unfold with_action. rewrite filter_app, length_app. cbn [filter].
  destruct (str_eqb act (ev_action ev)); cbn [length]; lia.
Qed.

(** The state of the hub after the events [seen] were pushed. *)
Lemma push_events (h : LogHub) (ev : LogEvent) (seen : list LogEvent) :
  1 <= hub_keep h ->
  hub_events h = lastn (Z.to_nat (hub_keep h)) seen ->
  hub_events (push h ev) = lastn (Z.to_nat (hub_keep h)) (seen ++ [ev]).
Proof.
  intros Hk He. unfold push. cbn [hub_events].
  rewrite <- lastn_app_lastn, <- He.
  destruct (Z.ltb_spec (hub_keep h) (Z.of_nat (length (hub_events h ++ [ev])))).
  - apply py_last_lastn. lia.
  - symmetry. apply lastn_all. lia.
Qed.

Lemma push_keep (h : LogHub) (ev : LogEvent) : hub_keep (push h ev) = hub_keep h.
Proof. reflexivity. Qed.

Lemma push_seq (h : LogHub) (ev : LogEvent) : hub_seq (push h ev) = hub_seq h.
Proof. reflexivity. Qed.

Lemma push_all (evs : list LogEvent) :
  forall (h : LogHub) (seen : list LogEvent),
    1 <= hub_keep h ->
    hub_events h = lastn (Z.to_nat (hub_keep h)) seen ->
    (forall lvl, count_get (hub_counts_level h) lvl = with_level lvl seen) ->
    (forall act, act <> [] -> count_get (hub_counts_action h) act = with_action act seen) ->
    let h' := fold_left push evs h in
    hub_keep h' = hub_keep h
    /\ hub_seq h' = hub_seq h
    /\ hub_events h' = lastn (Z.to_nat (hub_keep h)) (seen ++ evs)
    /\ (forall lvl, count_get (hub_counts_level h') lvl = with_level lvl (seen ++ evs))
    /\ (forall act, act <> [] ->
                    count_get (hub_counts_action h') act = with_action act (seen ++ evs)).
Proof.
  induction evs as [|ev evs IH]; intros h seen Hk He Hl Ha; cbn [fold_left].
  - rewrite app_nil_r. auto.
  - destruct (IH (push h ev) (seen ++ [ev])) as (A & B & C & D & E).
    + now rewrite push_keep.
    + rewrite push_keep. now apply push_events.
    + intros lvl. unfold push. cbn [hub_counts_level].
      rewrite count_get_bump, with_level_snoc, Hl. reflexivity.
    + intros act Hact. unfold push. cbn [hub_counts_action].
      rewrite with_action_snoc.
      destruct (ev_action ev) as [|c0 a0] eqn:Eact.
      * rewrite Ha by assumption.
        destruct (str_eqb_spec act []); [congruence | lia].
      * rewrite count_get_bump, Ha by assumption. reflexivity.
    + rewrite <- app_assoc in C, D, E. cbn [app] in C, D, E.
      rewrite push_keep in A, C. rewrite push_seq in B. auto.
Qed.

Lemma push_all_new (keep : Z) (evs : list LogEvent) :
  let h := fold_left push evs (new_hub keep) in
  hub_events h = lastn (Z.to_nat (Z.max 1 keep)) evs
  /\ (forall lvl, count_get (hub_counts_level h) lvl = with_level lvl evs)
  /\ (forall act, act <> [] -> count_get (hub_counts_action h) act = with_action act evs).
Proof.
  intros h. subst h.
  destruct (push_all evs (new_hub keep) []) as (A & B & C & D & E);
    cbn [new_hub hub_keep hub_events hub_counts_level hub_counts_action]; try lia; auto.
Qed.

(** X22: the hub is a ring buffer.  After any sequence of events pushed
    on a new hub it keeps the last [max(1, keep)] of them, in order, so
    the total of [stats] never exceeds that bound; the counters by level
    and by action go on counting every event that was pushed, kept or
    not. *)
Theorem hub_ring_buffer (keep : Z) (evs : list LogEvent) :
  let h := fold_left push evs (new_hub keep) in
  hub_events h = lastn (Z.to_nat (Z.max 1 keep)) evs
  /\ stats_total h = Z.min (Z.of_nat (length evs)) (Z.max 1 keep)
  /\ (forall lvl, count_get (hub_counts_level h) lvl = with_level lvl evs)
  /\ (forall act, act <> [] -> count_get (hub_counts_action h) act = with_action act evs).
Proof.
  intros h. subst h.
  destruct (push_all_new keep evs) as (C & D & E).
  split; [exact C|]. split; [|auto].
  unfold stats_total. rewrite C, lastn_length. lia.
Qed.

Lemma filter_none {A : Type} (p : A -> bool) (l : list A) :
  (forall x, In x l -> p x = false) -> filter p l = [].
Proof.
  induction l as [|x l IH]; intros H; [reflexivity|]. cbn [filter].
  rewrite (H x) by now left. apply IH. intros y Hy. apply H. now right.
Qed.

Section HubEmit.
Context {U : Unicode}.

Lemma push_reseq (h : LogHub) (s : Z) (ev : LogEvent) :
  push (reseq h s) ev = reseq (push h ev) s.
Proof. reflexivity. Qed.

Lemma fold_push_reseq (evs : list LogEvent) :
  forall h s, fold_left push evs (reseq h s) = reseq (fold_left push evs h) s.
Proof.
  induction evs as [|ev evs IH]; intros h s; cbn [fold_left]; [reflexivity|].
  now rewrite push_reseq, IH.
Qed.

Lemma reseq_reseq (h : LogHub) (s s' : Z) : reseq (reseq h s) s' = reseq h s'.
Proof. reflexivity. Qed.

Lemma reseq_same (h : LogHub) : reseq h (hub_seq h) = h.
Proof. now destruct h. Qed.

Lemma emit_push (h : LogHub) (c : emit_call) :
  emit h c = reseq (push h (event_of (hub_seq h + 1) c)) (hub_seq h + 1).
Proof. unfold emit, event_of. now destruct (call_fields c) as [[[a b] d] e]. Qed.

Lemma emit_all (calls : list emit_call) :
  forall (h : LogHub),
    fold_left emit calls h
    = reseq (fold_left push (emitted (hub_seq h) calls) h)
            (hub_seq h + Z.of_nat (length calls)).
Proof.
  induction calls as [|c calls IH]; intros h; cbn [fold_left emitted length].
  - rewrite Z.add_0_r. symmetry. apply reseq_same.
  - rewrite IH, emit_push. cbn [reseq hub_seq].
    change (mkHub (hub_keep ?x) (hub_events ?x) ?s (hub_counts_level ?x) (hub_counts_action ?x))
      with (reseq x s).
    rewrite fold_push_reseq, reseq_reseq. f_equal. lia.
Qed.

Lemma emitted_length (calls : list emit_call) :
  forall s, length (emitted s calls) = length calls.
Proof. induction calls as [|c calls IH]; intros s; cbn; auto. Qed.

Lemma event_of_id (id : Z) (c : emit_call) : ev_id (event_of id c) = id.
Proof. unfold event_of. now destruct (call_fields c) as [[[a b] d] e]. Qed.

Lemma event_of_action (id : Z) (c : emit_call) :
  ev_action (event_of id c) = _infer_action (call_message c).
Proof. unfold event_of. now destruct (call_fields c) as [[[a b] d] e]. Qed.

Lemma emitted_ids (calls : list emit_call) :
  forall s : nat,
    map ev_id (emitted (Z.of_nat s) calls) = map Z.of_nat (seq (S s) (length calls)).
Proof.
  induction calls as [|c calls IH]; intros s; cbn [emitted map length seq]; [reflexivity|].
  rewrite event_of_id. f_equal; [lia|].
  replace (Z.of_nat s + 1) with (Z.of_nat (S s)) by lia. apply IH.
Qed.

Lemma infer_action_not_dry (msg : pystr) : _infer_action msg <> py "dry".
Proof.
  unfold _infer_action.
  repeat match goal with |- context [if ?b then _ else _] => destruct b end;
    discriminate.
Qed.

Lemma map_lastn {A B : Type} (f : A -> B) (k : nat) (l : list A) :
  map f (lastn k l) = lastn k (map f l).
Proof. unfold lastn. now rewrite length_map, skipn_map. Qed.

Lemma lastn_seq (k lo n : nat) :
  lastn k (seq (S lo) n) = seq (S (lo + (n - k))) (Nat.min n k).
Proof.
  unfold lastn. rewrite length_seq, skipn_seq.
  f_equal; lia.
Qed.

Lemma filter_ids (since : Z) (lo n : nat) :
  0 <= since ->
  filter (fun i => since <? i) (map Z.of_nat (seq (S lo) n))
  = map Z.of_nat (seq (S (Nat.max lo (Z.to_nat since)))
                      (lo + n - Nat.max lo (Z.to_nat since))).
Proof.
  intros Hs. revert lo. induction n as [|n IH]; intros lo.
  - cbn. replace (lo + 0 - Nat.max lo (Z.to_nat since))%nat with O by lia. reflexivity.
  - cbn [seq map filter]. rewrite IH.
    destruct (Z.ltb_spec since (Z.of_nat (S lo))).
    + replace (Nat.max lo (Z.to_nat since)) with lo by lia.
      replace (Nat.max (S lo) (Z.to_nat since)) with (S lo) by lia.
      replace (lo + S n - lo)%nat with (S n) by lia.
      replace (S lo + n - S lo)%nat with n by lia. reflexivity.
    + replace (Nat.max (S lo) (Z.to_nat since)) with (Nat.max lo (Z.to_nat since)) by lia.
      f_equal. f_equal. lia.
Qed.

Lemma map_filter_id (since : Z) (evs : list LogEvent) :
  map ev_id (filter (fun e => since <? ev_id e) evs)
  = filter (fun i => since <? i) (map ev_id evs).
Proof.
  induction evs as [|e evs IH]; [reflexivity|]. cbn [filter map].
  destruct (since <? ev_id e); cbn [map]; now rewrite IH.
Qed.

(** X23: on a new hub the events that [emit] creates are numbered 1, 2,
    ...; the hub keeps the last [max(1, keep)] of them, so the kept
    identifiers are consecutive and end at the number of calls.  A
    snapshot with a limit of at least the bound and [since >= 0] answers
    exactly the kept events with an identifier above [since] (all of
    them for [since = 0]).  No event has the action [dry], so that
    counter stays at zero. *)
Theorem hub_emit_ids (keep : Z) (calls : list emit_call) (limit since : Z) :
  let h := fold_left emit calls (new_hub keep) in
  let n := length calls in
  let k := Z.to_nat (Z.max 1 keep) in
  hub_seq h = Z.of_nat n
  /\ map ev_id (hub_events h) = ids_between (n - k) n
  /\ (Z.max 1 keep <= limit -> 0 <= since ->
      map ev_id (snapshot h limit since)
      = ids_between (Nat.max (n - k) (Z.to_nat since)) n)
  /\ count_get (hub_counts_action h) (py "dry") = 0.
Proof.
  intros h n k. subst h. rewrite emit_all.
  change (hub_seq (new_hub keep)) with 0.
  destruct (push_all_new keep (emitted 0 calls)) as (C & D & E).
  unfold snapshot. cbn [reseq hub_seq hub_events hub_counts_action].
  fold k in C.
  assert (Hids : map ev_id (hub_events (fold_left push (emitted 0 calls) (new_hub keep)))
                 = ids_between (n - k) n).
  { rewrite C, map_lastn. change 0 with (Z.of_nat 0). rewrite emitted_ids.
    rewrite <- map_lastn, (lastn_seq k 0). fold n. unfold ids_between.
    f_equal. f_equal; lia. }
  split; [reflexivity|]. split; [exact Hids|]. split.
  - intros Hl Hs.
    set (evs := hub_events (fold_left push (emitted 0 calls) (new_hub keep))) in *.
    assert (Hlen : (length evs <= k)%nat).
    { subst evs. rewrite C, lastn_length. lia. }
    destruct (negb (since =? 0) && (0 <? since)) eqn:Eb.
    + rewrite py_last_lastn by lia. rewrite lastn_all.
      * rewrite map_filter_id, Hids. unfold ids_between.
        rewrite filter_ids by assumption. f_equal. f_equal. lia.
      * pose proof (filter_length_le (fun e => since <? ev_id e) evs). lia.
    + assert (since = 0).
      { destruct (Z.eqb_spec since 0); [assumption|].
        destruct (Z.ltb_spec 0 since); [discriminate Eb | lia]. }
      subst since. rewrite py_last_lastn by lia. rewrite lastn_all by lia.
      rewrite Hids. f_equal. cbn. lia.
  - rewrite E by discriminate. unfold with_action.
    rewrite filter_none; [reflexivity|]. intros e He.
    assert (Hact : exists id c, e = event_of id c).
    { clear - He. revert He. generalize 0. induction calls as [|c calls IH]; intros s He.
      - destruct He.
      - cbn [emitted] in He. destruct He as [<-|He]; [eauto | eapply IH; eassumption]. }
    destruct Hact as (id & c & ->). rewrite event_of_action.
    destruct (str_eqb_spec (py "dry") (_infer_action (call_message c))) as [E0|]; [|reflexivity].
    exfalso. exact (infer_action_not_dry _ (eq_sym E0)).
Qed.

End HubEmit.

(* ================================================================== *)
(** * Further properties: the paged listing (renamer.py, lines 1205-1247) *)
(* ================================================================== *)

Lemma firstn_plus {A : Type} (a b : nat) (l : list A) :
  firstn (a + b) l = firstn a l ++ firstn b (skipn a l).
Proof.
  revert l. induction a as [|a IH]; intros l; [reflexivity|].
  destruct l as [|x l]; cbn [Nat.add firstn skipn app].
  - now rewrite firstn_nil.
  - now rewrite IH.
Qed.

Lemma firstn_skipn_nil {A : Type} (a b : nat) (l : list A) :
  (0 < b)%nat -> firstn b (skipn a l) = [] -> (length l <= a)%nat.
Proof.
  intros Hb H. apply (f_equal (@length A)) in H.
  rewrite length_firstn, length_skipn in H. cbn [length] in H. lia.
Qed.

Lemma list_dir_loop_paging (all : list DirEntry) (per_page : nat) (max_pages : Z) :
  (0 < per_page)%nat ->
  forall (turns p : nat) (total : option Z),
    (1 <= p)%nat ->
    (p = 1%nat -> total = None) ->
    ((1 < p)%nat -> total = Some (Z.of_nat (length all))
                    /\ ((p - 1) * per_page < length all)%nat
                    /\ Z.of_nat p <= max_pages) ->
    (Z.to_nat (Z.max 1 max_pages) < turns + p)%nat ->
    list_dir_loop (paging all per_page) max_pages turns (Z.of_nat p) total
                  (firstn ((p - 1) * per_page) all)
    = inr (firstn (Z.to_nat (Z.max 1 max_pages) * per_page) all).
Proof.
  intros Hpp. set (M := Z.to_nat (Z.max 1 max_pages)).
  induction turns as [|turns IH]; intros p total Hp H1 Hgt Hfuel.
  - (* no turn left: the loop has left before *)
    exfalso. cbn [Nat.add] in Hfuel.
    assert (1 < p)%nat by lia. destruct (Hgt H) as (_ & _ & Hm). lia.
  - cbn [list_dir_loop]. unfold paging at 1. rewrite Nat2Z.id.
    set (content := firstn per_page (skipn ((p - 1) * per_page) all)).
    set (L := Z.of_nat (length all)).
    assert (Htot : match total with None => L | Some t => t end = L).
    { destruct (Nat.eq_dec p 1) as [E|N].
      - now rewrite (H1 E).
      - destruct Hgt as (-> & _); [lia | reflexivity]. }
    rewrite Htot.
    assert (Hout : firstn ((p - 1) * per_page) all ++ content = firstn (p * per_page) all).
    { subst content. rewrite <- firstn_plus. f_equal. nia. }
    rewrite Hout.
    destruct content as [|c0 ct] eqn:Ec.
    + (* an empty page *)
      apply firstn_skipn_nil in Ec; [|assumption].
      f_equal. rewrite !firstn_all2; [reflexivity | subst M; nia | nia].
    + rewrite length_firstn.
      destruct (negb (L =? 0) && (L <=? Z.of_nat (Nat.min (p * per_page) (length all)))) eqn:Eb.
      * (* the total is reached *)
        apply andb_prop in Eb. destruct Eb as [_ Eb]. apply Z.leb_le in Eb. subst L.
        assert (length all <= p * per_page)%nat by lia.
        f_equal. rewrite !firstn_all2; [reflexivity | | lia].
        assert (p <= M)%nat; [|nia].
        destruct (Nat.eq_dec p 1) as [E|N]; [subst M; lia|].
        destruct Hgt as (_ & _ & Hm); [lia|]. subst M. lia.
      * assert (Hlt : (p * per_page < length all)%nat).
        { apply andb_false_iff in Eb. destruct Eb as [Eb|Eb].
          - apply negb_false_iff, Z.eqb_eq in Eb. subst L.
            assert (length all = 0)%nat by lia.
            assert (Hc : length (c0 :: ct) = length content) by (now rewrite Ec).
            exfalso. subst content. rewrite length_firstn, length_skipn in Hc.
            cbn [length] in Hc. lia.
          - apply Z.leb_gt in Eb. subst L. lia. }
        destruct (Z.ltb_spec max_pages (Z.of_nat p + 1)) as [Hm|Hm].
        -- (* the last page allowed *)
           f_equal. f_equal.
           assert (p = M); [|subst; reflexivity].
           destruct (Nat.eq_dec p 1) as [E|N]; [subst M; lia|].
           destruct Hgt as (_ & _ & Hm'); [lia|]. subst M. lia.
        -- replace (Z.of_nat p + 1) with (Z.of_nat (S p)) by lia.
           replace (p * per_page)%nat with ((S p - 1) * per_page)%nat by (f_equal; lia).
           apply IH; try lia.
           intros _. split; [reflexivity|]. split; [|lia].
           replace (S p - 1)%nat with p by lia. exact Hlt.
Qed.

(** X24: when the server holds the entries of a directory and pages them
    ([per_page] entries a page, with the true total), [list_dir] answers
    the first [per_page * max(1, max_pages)] entries, in order: the whole
    listing when it fits in [max_pages] pages, and a silent truncation
    otherwise.  The loop leaves within [max(1, max_pages)] requests:
    more turns change nothing. *)
Theorem list_dir_pages_complete (all : list DirEntry) (per_page : nat) (max_pages : Z) :
  (0 < per_page)%nat ->
  let bound := (Z.to_nat (Z.max 1 max_pages) * per_page)%nat in
  list_dir_pages (paging all per_page) max_pages = inr (firstn bound all)
  /\ (forall turns, (Z.to_nat (Z.max 1 max_pages) <= turns)%nat ->
        list_dir_loop (paging all per_page) max_pages turns 1 None [] = inr (firstn bound all))
  /\ ((length all <= bound)%nat ->
      list_dir_pages (paging all per_page) max_pages = inr all).
Proof.
  intros Hpp bound.
  assert (H : forall turns, (Z.to_nat (Z.max 1 max_pages) <= turns)%nat ->
            list_dir_loop (paging all per_page) max_pages turns 1 None []
            = inr (firstn bound all)).
  { intros turns Ht.
    apply (list_dir_loop_paging all per_page max_pages Hpp turns 1 None); try lia.
    reflexivity. }
  split; [apply H; lia|]. split; [exact H|].
  intros Hl. unfold list_dir_pages. rewrite H by lia. now rewrite firstn_all2.
Qed.

Lemma list_dir_pages_complete_witness :
  list_dir_pages
    (paging [mkEntry (py "a") false; mkEntry (py "b") false; mkEntry (py "c") true] 2) 200
  = inr [mkEntry (py "a") false; mkEntry (py "b") false; mkEntry (py "c") true].
Proof.
  apply (list_dir_pages_complete
           [mkEntry (py "a") false; mkEntry (py "b") false; mkEntry (py "c") true] 2 200).
  - lia.
  - cbn. lia.
Defined.

(** A listing longer than [per_page * max_pages] is cut. *)
Example list_dir_pages_truncated :
  list_dir_pages
    (paging [mkEntry (py "a") false; mkEntry (py "b") false; mkEntry (py "c") true] 1) 2
  = inr [mkEntry (py "a") false; mkEntry (py "b") false].
Proof. reflexivity. Qed.

(* ================================================================== *)
(** * Further properties: where the engine gives up (renamer.py, lines
      2551-2623) *)
(* ================================================================== *)




Lemma exec_list_dir (tl : timeline) (n : nat) (path : pystr) :
  exec tl n (list_dir path)
  = (match tl n _ (EvListDir (norm_path path)) with
     | inl e => inl e
     | inr l => inr l
     end, S n, []).
Proof.
  unfold list_dir, do_. cbn [bind exec effect_of app].
  now destruct (tl n _ (EvListDir (norm_path path))).
Qed.

Lemma exec_do {X : Type} (tl : timeline) (n : nat) (ev : event X) :
  exec tl n (do_ ev) = (inr (tl n X ev), S n, effect_of ev).
Proof. unfold do_. cbn [exec]. now rewrite app_nil_r. Qed.







Section GivesUp.
Context {U : Unicode}.
Variable getenv : string -> option pystr.
Variable format_season : Z -> pystr.
Variable should_skip_misc_folder : pystr -> bool.
Variable skip_re_search : pystr -> bool.
Variable looks_like_show_folder_name : pystr -> bool.
Variable is_same_show_container_folder : pystr -> pystr -> bool.
Variable related_sidecars : list DirEntry -> pystr -> Z -> Z -> list pystr.
Variable build_new_sidecar_name : pystr -> pystr -> Z -> Z -> pystr.
Variable build_prefixed_sxxeyy_name : pystr -> Z -> Z -> pystr -> pystr.
Variable needs_series_prefix_for_sxxeyy : pystr -> pystr -> bool.
Variable ai_enabled : bool.
Variable log_truthy : bool.






End GivesUp.


(* ================================================================== *)
(** * Further properties: moves (renamer.py, lines 1925-1974) *)
(* ================================================================== *)

Lemma exec_checked (tl : timeline) (n : nat) (ev : event (option exn)) :
  exec tl n (checked ev)
  = (match tl n _ ev with Some e => inl e | None => inr tt end, S n, effect_of ev).
Proof.
  unfold checked, do_. cbn [bind exec].
  destruct (tl n _ ev); cbn [exec]; now rewrite app_nil_r.
Qed.

Lemma exec_undo_record (tl : timeline) (n : nat) (undo : option pystr) (r : undo_rec) :
  exists n', exec tl n (undo_record undo r)
             = (inr tt, n', match undo with Some (_ :: _) => [FxUndo r] | _ => [] end).
Proof.
  unfold undo_record. destruct undo as [[|c u]|]; try (eexists; reflexivity).
  rewrite exec_do. destruct (tl n unit (EvUndo r)). eexists. reflexivity.
Qed.

Lemma exec_names_of (tl : timeline) (n : nat) (path : pystr) :
  exec tl n (names_of path)
  = (inr match tl n _ (EvListDir (norm_path path)) with
         | inr entries => map name entries
         | inl _ => []
         end, S n, []).
Proof.
  unfold names_of. rewrite exec_catch, exec_bind, exec_list_dir.
  now destruct (tl n _ (EvListDir (norm_path path))).
Qed.

Section Moves.
Context {U : Unicode}.
Variable getenv : string -> option pystr.
Variable w : world.
Variables src dst : pystr.
Variable undo : option pystr.

Let taken := listed_names w dst.

Lemma undo_safe (r : undo_rec) :
  Forall (safe_move src dst taken)
         match undo with Some (_ :: _) => [FxUndo r] | _ => [] end.
Proof. destruct undo as [[|c u]|]; repeat constructor. Qed.

(** The move of one file under its final name. *)
Lemma go_safe (n : nat) (final : pystr) (de : list pystr) :
  final <> [] -> ~ In final taken -> incl taken de ->
  exists r n' fx,
    exec (steady w) n
      (log_append "move" [final; src; dst] ;;
       client_move src dst [final] ;;
       undo_record undo (UMove src dst [final]) ;;
       Ret (final :: de))
    = (r, n', fx)
    /\ Forall (safe_move src dst taken) fx
    /\ forall de', r = inr de' -> incl taken de'.
Proof.
  intros Hne Hfree Hincl.
  rewrite exec_bind, exec_log, exec_bind. unfold client_move. rewrite exec_checked.
  cbn [effect_of app].
  assert (Hmv : safe_move src dst taken (FxMove (norm_path src) (norm_path dst) [final])).
  { cbn. split; [reflexivity|]. split; [reflexivity|]. exists final. auto. }
  destruct (steady w (S n) _ (EvMove (norm_path src) (norm_path dst) [final])) as [e|];
    cbv beta iota zeta.
  - eexists _, _, _. split; [reflexivity|]. split; [constructor; [exact Hmv | constructor]|].
    intros de' H. discriminate H.
  - rewrite exec_bind.
    destruct (exec_undo_record (steady w) (S (S n)) undo (UMove src dst [final])) as [n' ->].
    cbn [exec]. cbv beta iota zeta. eexists _, _, _. split; [reflexivity|]. split.
    + cbn [app]. constructor; [exact Hmv|]. rewrite app_nil_r. apply undo_safe.
    + intros de' H. injection H as <-. intros x Hx. right. now apply Hincl.
Qed.

Lemma move_one_safe (n : nat) (x : pystr) (de : list pystr) :
  incl taken de ->
  exists r n' fx,
    exec (steady w) n (move_one getenv log_append src dst undo x de) = (r, n', fx)
    /\ Forall (safe_move src dst taken) fx
    /\ forall de', r = inr de' -> incl taken de'.
Proof.
  intros Hincl. unfold move_one. destruct x as [|c0 x0] eqn:Ex.
  { eexists _, _, _. split; [reflexivity|]. split; [constructor|].
    intros de' H. now injection H as <-. }
  rewrite <- Ex. assert (Hx : x <> []) by (rewrite Ex; discriminate).
  destruct (str_mem x de) eqn:Em.
  - rewrite exec_bind, exec_unique_name.
    change (listed_at (steady w) n dst) with taken.
    pose proof (resolve_name_free getenv taken x) as Hfree.
    destruct (resolve_name getenv taken x) as [|r0 rs] eqn:Er.
    + rewrite exec_bind, exec_log. cbn [exec app]. cbv beta iota zeta.
      eexists _, _, _. split; [reflexivity|]. split; [constructor|].
      intros de' H. now injection H as <-.
    + rewrite <- Er in *. assert (Hr : resolve_name getenv taken x <> [])
        by (rewrite Er; discriminate).
      specialize (Hfree Hr).
      destruct (str_eqb_spec (resolve_name getenv taken x) x) as [E|N]; cbn [negb].
      * destruct (go_safe (S n) x de Hx) as (r & n' & fx & -> & Hfx & Hde);
          [now rewrite <- E | assumption|].
        cbv beta iota zeta.
        destruct r as [e|de2]; eexists _, _, _; (split; [reflexivity|]);
          (split; [exact Hfx|]); [intros de' H; discriminate H | exact Hde].
      * rewrite exec_bind, exec_log, exec_bind. unfold client_rename.
        rewrite exec_checked. cbn [effect_of app].
        set (res := resolve_name getenv taken x) in *.
        assert (Hrn : safe_move src dst taken (FxRename (norm_path (join_path src x)) res)).
        { cbn. split; [assumption|]. split; [assumption|]. now exists x. }
        destruct (steady w (S (S n)) _ (EvRename (norm_path (join_path src x)) res)) as [e|];
          cbv beta iota zeta.
        -- eexists _, _, _. split; [reflexivity|]. split; [constructor; [exact Hrn | constructor]|].
           intros de' H. discriminate H.
        -- rewrite exec_bind.
           destruct (exec_undo_record (steady w) (S (S (S n))) undo (URename src x res))
             as [n1 ->].
           destruct (go_safe n1 res de Hr Hfree Hincl) as (r & n' & fx & -> & Hfx & Hde).
           cbv beta iota zeta.
           destruct r as [e|de2]; eexists _, _, _; (split; [reflexivity|]);
             (split; [cbn [app]; constructor; [exact Hrn|]; apply Forall_app;
                      split; [apply undo_safe | exact Hfx]|]).
           ++ intros de' H. discriminate H.
           ++ exact Hde.
  - apply str_mem_not_In in Em.
    apply go_safe; [assumption | | assumption].
    intros H. apply Em. now apply Hincl.
Qed.

Lemma move_each_safe (names : list pystr) :
  forall (n : nat) (de : list pystr),
    incl taken de ->
    Forall (safe_move src dst taken)
           (snd (exec (steady w) n (move_each getenv log_append src dst undo names de))).
Proof.
  induction names as [|x names IH]; intros n de Hincl; cbn [move_each].
  - constructor.
  - rewrite exec_bind.
    destruct (move_one_safe n x de Hincl) as (r & n' & fx & -> & Hfx & Hde).
    destruct r as [e|de']; [exact Hfx|].
    specialize (IH n' de' (Hde de' eq_refl)).
    destruct (exec (steady w) n' (move_each getenv log_append src dst undo names de'))
      as [[r2 n2] fx2].
    cbn [snd] in *. apply Forall_app. auto.
Qed.

(** X26: when the files are moved one by one (MOVE_INDIVIDUAL, the
    default) in a steady world, [maybe_move] never moves a file onto a
    name that the listing of the destination shows: every move is of one
    file, from the source to the destination, under a name that is not
    listed there; a file whose name is taken is first renamed in the
    source to a name that is free in the destination.  Nothing is
    requested for an empty list of names, for a move of a directory onto
    itself, or in a dry run. *)
Theorem maybe_move_no_overwrite (n : nat) (names : list pystr) (dry : bool) :
  env_flag getenv "MOVE_INDIVIDUAL" "1" = true ->
  ends_with_two_seps dst = false ->
  let fx := effects (steady w) n (maybe_move getenv src dst names dry undo) in
  Forall (safe_move src dst (listed_names w dst)) fx
  /\ (names = [] \/ norm_path src = norm_path dst \/ dry = true -> fx = []).
Proof.
  intros Hind Hsep fx. subst fx. unfold effects, maybe_move, maybe_move_with.
  rewrite Hind. cbn [negb].
  destruct names as [|x names']; [split; [constructor | reflexivity]|].
  set (names := x :: names').
  destruct (str_eqb_spec (norm_path src) (norm_path dst)) as [E|N].
  { split; [constructor | reflexivity]. }
  destruct dry.
  { rewrite exec_log. split; [constructor | reflexivity]. }
  split.
  - rewrite exec_bind, exec_names_of.
    assert (Hde : match steady w n _ (EvListDir (norm_path dst)) with
                  | inr entries => map name entries
                  | inl _ => []
                  end = taken).
    { unfold taken, listed_names, steady. now rewrite (norm_path_idem dst Hsep). }
    rewrite Hde.
    pose proof (move_each_safe names (S n) taken (incl_refl _)) as H.
    destruct (exec (steady w) (S n) (move_each getenv log_append src dst undo names taken))
      as [[r2 n2] fx2].
    exact H.
  - intros [H|[H|H]]; [discriminate H | contradiction | discriminate H].
Qed.

End Moves.

Lemma maybe_move_no_overwrite_witness :
  Forall (safe_move (py "/tv/in") (py "/tv/Show/S01") [py "a.mkv"])
         (effects (steady (quiet_world (fun _ => inr [mkEntry (py "a.mkv") false]))) 0
            (maybe_move (fun _ => None) (py "/tv/in") (py "/tv/Show/S01")
               [py "a.mkv"; py "b.mkv"] false (Some (py "undo.jsonl")))).
Proof.
  apply (maybe_move_no_overwrite (U := BasicUnicode) (fun _ => None)
           (quiet_world (fun _ => inr [mkEntry (py "a.mkv") false]))
           (py "/tv/in") (py "/tv/Show/S01") (Some (py "undo.jsonl"))
           0 [py "a.mkv"; py "b.mkv"] false); reflexivity.
Defined.

(** What the witness moves: the file whose name is taken goes under a
    new name, the other under its own. *)
Example maybe_move_example :
  effects (steady (quiet_world (fun _ => inr [mkEntry (py "a.mkv") false]))) 0
    (maybe_move (U := BasicUnicode) (fun _ => None) (py "/tv/in") (py "/tv/Show/S01")
       [py "a.mkv"; py "b.mkv"] false None)
  = [FxRename (py "/tv/in/a.mkv") (py "a (1).mkv");
     FxMove (py "/tv/in") (py "/tv/Show/S01") [py "a (1).mkv"];
     FxMove (py "/tv/in") (py "/tv/Show/S01") [py "b.mkv"]].
Proof. vm_compute. reflexivity. Qed.

(** Without MOVE_INDIVIDUAL the names are moved in one request, taken or
    not. *)
Example maybe_move_bulk :
  effects (steady (quiet_world (fun _ => inr [mkEntry (py "a.mkv") false]))) 0
    (maybe_move (U := BasicUnicode)
       (fun v => if String.eqb v "MOVE_INDIVIDUAL" then Some (py "0") else None)
       (py "/tv/in") (py "/tv/Show/S01") [py "a.mkv"] false None)
  = [FxMove (py "/tv/in") (py "/tv/Show/S01") [py "a.mkv"]].
Proof. vm_compute. reflexivity. Qed.

(* ================================================================== *)
(** * Further properties: library roots and language tags (renamer.py,
      lines 974-1022, 2307-2315) *)
(* ================================================================== *)

(** ** [parse_csv_paths] *)

Lemma split_on_nonempty (sep : Z) (s : pystr) : split_on sep s <> [].
Proof.
  induction s as [|c t IH]; cbn [split_on]; [discriminate|].
  destruct (c =? sep); [discriminate|].
  destruct (split_on sep t); [congruence | discriminate].
Qed.

Lemma split_on_absent (sep : Z) (s : pystr) :
  ~ In sep s -> split_on sep s = [s].
Proof.
  induction s as [|c t IH]; intros H; [reflexivity|]. cbn [split_on].
  destruct (Z.eqb_spec c sep) as [->|N]; [exfalso; apply H; now left|].
  rewrite IH; [reflexivity|]. intros Hin. apply H. now right.
Qed.

Lemma split_on_app (sep : Z) (p rest_ : pystr) :
  ~ In sep p -> split_on sep (p ++ sep :: rest_) = p :: split_on sep rest_.
Proof.
  induction p as [|c t IH]; intros H; cbn [app split_on].
  - now rewrite Z.eqb_refl.
  - destruct (Z.eqb_spec c sep) as [->|N]; [exfalso; apply H; now left|].
    rewrite IH; [reflexivity|]. intros Hin. apply H. now right.
Qed.

Lemma split_join (sep : Z) (ps : list pystr) :
  ps <> [] -> Forall (fun p => ~ In sep p) ps ->
  split_on sep (str_join [sep] ps) = ps.
Proof.
  induction ps as [|p ps IH]; intros Hne Hall; [congruence|].
  inversion Hall as [|? ? Hp Hps]; subst.
  destruct ps as [|q ps].
  - cbn [str_join]. now apply split_on_absent.
  - change (str_join [sep] (p :: q :: ps)) with (p ++ [sep] ++ str_join [sep] (q :: ps)).
    cbn [app]. rewrite split_on_app by assumption. f_equal.
    apply IH; [discriminate | assumption].
Qed.

(** X27: [parse_csv_paths] answers normalised paths only (each starts
    with a slash and holds no backslash), and it reads back a list of
    paths written with commas between them: when no path holds a comma,
    is empty or has white space at its ends, the answer is the list of
    their normal forms, in order. *)
Theorem parse_csv_paths_round_trip (ps : list pystr) :
  Forall (fun p => ~ In 44 p /\ p <> [] /\ strip p = p) ps ->
  parse_csv_paths (str_join (py ",") ps) = map norm_path ps
  /\ forall csv x, In x (parse_csv_paths csv) ->
       startswith x (py "/") = true /\ ~ In BACKSLASH x.
Proof.
  intros Hall. split.
  - unfold parse_csv_paths. destruct ps as [|p0 ps0] eqn:Eps; [reflexivity|].
    rewrite <- Eps in *. change (py ",") with [44].
    rewrite split_join.
    + f_equal.
      assert (Hs : map strip ps = ps).
      { rewrite <- (map_id ps) at 2. apply map_ext_in. intros p Hp.
        rewrite Forall_forall in Hall. now destruct (Hall p Hp) as (_ & _ & ->). }
      rewrite Hs. clear Hs Eps. induction Hall as [|p ps (_ & Hne & _) _ IH]; [reflexivity|].
      cbn [filter]. destruct (str_eqb_spec p []); [congruence|]. cbn [negb]. now rewrite IH.
    + rewrite Eps. discriminate.
    + eapply Forall_impl; [|exact Hall]. intros p (H & _). exact H.
  - intros csv x Hx. unfold parse_csv_paths in Hx. apply in_map_iff in Hx.
    destruct Hx as (p & <- & _). split.
    + apply norm_path_starts_with_slash.
    + apply norm_path_no_backslash.
Qed.

Lemma parse_csv_paths_round_trip_witness :
  parse_csv_paths (str_join (py ",") [py "/tv"; py "anime/"])
  = map norm_path [py "/tv"; py "anime/"].
Proof.
  apply (parse_csv_paths_round_trip [py "/tv"; py "anime/"]).
  repeat constructor; try discriminate;
    cbn; intros H; repeat (destruct H as [H|H]; [discriminate H|]); exact H.
Defined.

(** ** [_normalize_lang_token] *)

Lemma str_assoc_In (d : list (pystr * pystr)) (k v : pystr) :
  str_assoc d k = Some v -> In v (map snd d).
Proof.
  induction d as [|[k' v'] d IH]; cbn [str_assoc map snd]; [discriminate|].
  destruct (str_eqb k k'); [intros H; injection H as <-; now left |].
  intros H. right. now apply IH.
Qed.

Lemma lang_of_tags (t r : pystr) : lang_of t = Some r -> In r LANG_TAGS.
Proof.
  unfold lang_of.
  destruct (str_assoc LANG_MAPPING t) as [v|] eqn:Ea.
  - intros H. injection H as <-. apply str_assoc_In in Ea.
    apply str_mem_In.
    assert (Hall : forallb (fun v => str_mem v LANG_TAGS) (map snd LANG_MAPPING) = true)
      by (vm_compute; reflexivity).
    rewrite forallb_forall in Hall. now apply Hall.
  - destruct (startswith t (py "zh-")).
    + repeat match goal with |- context [if ?b then _ else _] => destruct b end;
        intros H; injection H as <-; apply str_mem_In; vm_compute; reflexivity.
    + destruct (region_base t) as [base|].
      * destruct (str_mem base COMMON_LANGS) eqn:Eb.
        -- intros H. injection H as <-. apply str_mem_In in Eb.
           right. right. now right.
        -- destruct (str_mem t COMMON_LANGS) eqn:Et; [|discriminate].
           intros H. injection H as <-. apply str_mem_In in Et. right. right. now right.
      * destruct (str_mem t COMMON_LANGS) eqn:Et; [|discriminate].
        intros H. injection H as <-. apply str_mem_In in Et. right. right. now right.
Qed.

Section LanguageTags.
Context {U : Unicode}.
Hypothesis lower_ascii : ascii_lower_law.

(** X28: a tag that [_normalize_lang_token] answers is one of [chs],
    [cht], [pt-br] or the two-letter codes of [COMMON_LANGS]; and, where
    [str.lower] is the ASCII lower case on ASCII text, a tag it answers
    is normalised to itself. *)
Theorem normalize_lang_token_tags (tok r : pystr) :
  _normalize_lang_token tok = Some r ->
  In r LANG_TAGS /\ _normalize_lang_token r = Some r.
Proof.
  intros H. unfold _normalize_lang_token in H. destruct tok as [|c0 t0]; [discriminate|].
  apply lang_of_tags in H. split; [exact H|].
  assert (Hall : forallb
            (fun r => match r with
                      | [] => false
                      | _ =>
                          forallb (fun c => (0 <=? c) && (c <? 128)) (strip r)
                          && match lang_of (str_replace (basic_lower (strip r))
                                                        (py "_") (py "-")) with
                             | Some r' => str_eqb r' r
                             | None => false
                             end
                      end) LANG_TAGS = true) by (vm_compute; reflexivity).
  rewrite forallb_forall in Hall. specialize (Hall r H).
  unfold _normalize_lang_token. destruct r as [|c1 r1] eqn:Er; [discriminate|].
  rewrite <- Er in *. apply andb_prop in Hall. destruct Hall as [Hascii Hl].
  rewrite lower_ascii.
  - destruct (lang_of _) as [r'|]; [|discriminate]. apply str_eqb_eq in Hl. now subst.
  - apply Forall_forall. intros c Hc. rewrite forallb_forall in Hascii.
    specialize (Hascii c Hc). lia.
Qed.

End LanguageTags.

Lemma basic_lower_law : ascii_lower_law (U := BasicUnicode).
Proof. intros s _. reflexivity. Qed.

Lemma normalize_lang_token_tags_witness :
  In (py "chs") LANG_TAGS
  /\ _normalize_lang_token (U := BasicUnicode) (py "chs") = Some (py "chs").
Proof.
  apply (normalize_lang_token_tags (U := BasicUnicode) basic_lower_law (py " ZH_Hans ") (py "chs")).
  vm_compute. reflexivity.
Defined.

(* ================================================================== *)
(** * Further properties: the canonical name read back (renamer.py,
      lines 721-793 and 1844-1862) *)
(* ================================================================== *)

(** ** Plain characters *)

Lemma plain_chr_cases (c : Z) :
  plain_chr c = true ->
  c = 32 \/ c = 45 \/ 48 <= c <= 57 \/ 65 <= c <= 90 \/ 97 <= c <= 122.
Proof.
  unfold plain_chr. intros H.
  repeat match type of H with
         | context [?a <=? ?b] => destruct (Z.leb_spec a b)
         | context [?a =? ?b] => destruct (Z.eqb_spec a b)
         end; cbn in H; try discriminate H; lia.
Qed.

Lemma plain_space (c : Z) : plain_chr c = true -> isspace c = true -> c = SPACE.
Proof.
  intros H Hs. apply plain_chr_cases in H. unfold isspace in Hs. unfold SPACE.
  repeat match type of Hs with
         | context [?a <=? ?b] => destruct (Z.leb_spec a b)
         | context [?a =? ?b] => destruct (Z.eqb_spec a b)
         end; cbn in Hs; try discriminate Hs; lia.
Qed.

Lemma range_nonspace (c : Z) : 33 <= c <= 127 -> isspace c = false.
Proof.
  intros H. unfold isspace.
  repeat match goal with
         | |- context [?a <=? ?b] => destruct (Z.leb_spec a b)
         | |- context [?a =? ?b] => destruct (Z.eqb_spec a b)
         end; cbn; try reflexivity; lia.
Qed.

Lemma plain_halfwidth (t : pystr) : forallb plain_chr t = true -> to_halfwidth t = t.
Proof.
  intros H. apply to_halfwidth_fixed. intros c Hc.
  rewrite forallb_forall in H. apply H, plain_chr_cases in Hc.
  unfold to_halfwidth. cbn [map].
  destruct (Z.eqb_spec c 12288); [lia|].
  destruct (Z.leb_spec 65281 c); [lia | reflexivity].
Qed.

Lemma plain_subst (t : pystr) :
  forallb plain_chr t = true -> map (subst_chr NBSP SPACE) t = t.
Proof.
  intros H. rewrite <- (map_id t) at 2. apply map_ext_in. intros c Hc.
  rewrite forallb_forall in H. apply H, plain_chr_cases in Hc.
  unfold subst_chr, NBSP. destruct (Z.eqb_spec c 160); [lia | reflexivity].
Qed.

Section PlainSafe.
Context {U : Unicode}.

Lemma plain_safe (t : pystr) :
  forallb plain_chr t = true ->
  map (fun c => if cs_match false (OneOf (chars "<>:" ++ [IChr DQUOTE; IChr SLASH; IChr BACKSLASH]
                                          ++ chars "|?*" ++ [IRange 0 31])) c
                then SPACE else c) t = t.
Proof.
  intros H. rewrite <- (map_id t) at 2. apply map_ext_in. intros c Hc.
  rewrite forallb_forall in H. apply H in Hc.
  destruct (cs_match false _ c) eqn:M; [|reflexivity].
  destruct (Z.eq_dec c SPACE) as [->|Hn]; [reflexivity|].
  exfalso. apply plain_chr_cases in Hc.
  assert (F : cs_match false (OneOf (chars "<>:" ++ [IChr DQUOTE; IChr SLASH; IChr BACKSLASH]
                                      ++ chars "|?*" ++ [IRange 0 31])) c = false).
  { apply unsafe_chr_spec. unfold UNSAFE_CHARS. cbn.
    unfold SPACE in Hn. unfold DQUOTE, SLASH, BACKSLASH. lia. }
  congruence.
Qed.

End PlainSafe.

(** ** Stripping and collapsing around a kept character *)

Lemma lstrip_by_app_keep (f : Z -> bool) (a : pystr) (c : Z) (b : pystr) :
  f c = false -> lstrip_by f (a ++ c :: b) = lstrip_by f (a ++ [c]) ++ b.
Proof.
  intros Hc. induction a as [|x a IH]; cbn [app lstrip_by].
  - now rewrite Hc.
  - destruct (f x); [exact IH|]. cbn [app]. now rewrite <- app_assoc.
Qed.

Lemma lstrip_by_incl (f : Z -> bool) (a : pystr) : incl (lstrip_by f a) a.
Proof. intros c H. now apply lstrip_by_subset in H. Qed.

Lemma rstrip_by_snoc (f : Z -> bool) (a : pystr) (z : Z) :
  f z = false -> rstrip_by f (a ++ [z]) = a ++ [z].
Proof.
  intros Hz. unfold rstrip_by. rewrite rev_unit. cbn [lstrip_by]. rewrite Hz.
  cbn [rev]. now rewrite rev_involutive.
Qed.

Lemma rstrip_by_last (f : Z -> bool) (a t : pystr) (d : Z) :
  t <> [] -> f (last t d) = false -> rstrip_by f (a ++ t) = a ++ t.
Proof.
  intros Hne Hl. rewrite (app_removelast_last d Hne) in *.
  rewrite last_last in Hl. rewrite app_assoc. now apply rstrip_by_snoc.
Qed.

Lemma rstrip_by_app_keep (f : Z -> bool) (a : pystr) (c : Z) (b : pystr) :
  f c = false -> rstrip_by f (a ++ c :: b) = a ++ c :: rstrip_by f b.
Proof.
  intros Hc. unfold rstrip_by. rewrite rev_app_distr. cbn [rev].
  rewrite <- app_assoc. cbn [app].
  rewrite lstrip_by_app_keep by assumption.
  rewrite lstrip_by_snoc by assumption.
  rewrite rev_app_distr, rev_involutive, rev_unit. reflexivity.
Qed.

Lemma collapse_app_keep (f : Z -> bool) (repl a : pystr) (c : Z) (b : pystr) :
  f c = false ->
  forall r, collapse f repl r (a ++ c :: b)
            = collapse f repl r a ++ c :: collapse f repl false b.
Proof.
  intros Hc. induction a as [|x a IH]; intros r; cbn [app collapse].
  - now rewrite Hc.
  - destruct (f x); [destruct r|]; rewrite IH; [reflexivity | | reflexivity].
    now rewrite <- app_assoc.
Qed.

Lemma collapse_chars (a : pystr) :
  forall r c, In c (collapse isspace [SPACE] r a) -> In c a \/ c = SPACE.
Proof.
  induction a as [|x a IH]; intros r c H; [destruct H|].
  cbn [collapse] in H. destruct (isspace x).
  - destruct r.
    + apply IH in H. destruct H; [left; now right | now right].
    + destruct H as [<-|H]; [now right|].
      apply IH in H. destruct H; [left; now right | now right].
  - destruct H as [<-|H]; [left; now left|].
    apply IH in H. destruct H; [left; now right | now right].
Qed.

(** ** Patterns anchored at the start *)

Section Anchored.
Context {U : Unicode}.

Lemma rx_bol_inv ci i pv w s g g' :
  rx ci Bol i pv w s g g' -> w = [] /\ g' = g /\ i = 0%nat.
Proof. intros H. inversion H; subst. auto. Qed.

Lemma sub_scan_anchored (r : regex) (s : pystr) :
  forall k i pv, sub_scan (Pattern false (Seq Bol r)) [] k (S i) pv s = skipn k s.
Proof.
  induction s as [|x t IH]; intros k i pv; [now rewrite skipn_nil|].
  cbn [sub_scan]. destruct k as [|k]; [|now rewrite IH].
  unfold match_here. cbn [body ignorecase mt pos Nat.eqb].
  now rewrite IH.
Qed.

(** [re.sub] of a pattern that starts with [^] and an empty replacement
    drops the match at the start, if there is one. *)
Lemma sub_anchored (r : regex) (s : pystr) :
  re_sub (Pattern false (Seq Bol r)) [] s
  = match match_here (Pattern false (Seq Bol r)) (start_of s) with
    | Some m => skipn (m_end m) s
    | None => s
    end.
Proof.
  unfold re_sub, start_of. destruct s as [|x t].
  - cbn [sub_scan]. destruct (match_here _ _); [now rewrite skipn_nil | reflexivity].
  - cbn [sub_scan]. destruct (match_here _ _) as [m|]; cbn [app].
    + destruct (m_end m) as [|e]; cbn [Nat.ltb Nat.leb Nat.sub skipn].
      * now rewrite sub_scan_anchored.
      * rewrite Nat.sub_0_r. now rewrite sub_scan_anchored.
    + now rewrite sub_scan_anchored.
Qed.

(** The text a leading tag matches ends in a closing bracket and the
    white space after it. *)
Lemma lead_tag_match (o : cset) (cl : list citem) (s : pystr) (m : rmatch) :
  match_here (Pattern false (Seq Bol (Seq (Chr o) (Seq (Plus (NoneOf cl))
                (Seq (Chr (OneOf cl)) WS))))) (start_of s) = Some m ->
  exists head c ws s',
    s = (head ++ c :: ws) ++ s'
    /\ m_end m = length (head ++ c :: ws)
    /\ cs_match false (OneOf cl) c = true
    /\ forallb isspace ws = true.
Proof.
  intros H. apply match_here_sound in H.
  destruct H as (w & s' & -> & H & _ & He). cbn [body ignorecase] in H.
  apply rx_seq_inv in H. destruct H as (w0 & w1 & g0 & -> & R0 & H).
  apply rx_bol_inv in R0. destruct R0 as (-> & -> & _).
  apply rx_seq_inv in H. destruct H as (w2 & w3 & g1 & -> & R1 & H).
  apply rx_seq_inv in H. destruct H as (w4 & w5 & g2 & -> & R2 & H).
  apply rx_seq_inv in H. destruct H as (w6 & w7 & g3 & -> & R3 & H).
  apply rx_chr_inv in R3. destruct R3 as (c & -> & Hc & _).
  apply rx_star_inv in H. destruct H as [Hws _]. rewrite cs_space_all in Hws.
  exists (w2 ++ w4), c, w7, s'. cbn [app] in *.
  split; [now rewrite <- !app_assoc|].
  split; [rewrite He; cbn [Nat.add]; now rewrite <- !app_assoc|].
  split; assumption.
Qed.

End Anchored.

(** ** The frame [X ++ "- " ++ T] of a canonical stem *)

Section Frames.
Context {U : Unicode}.
Variable T : pystr.
Hypothesis T_tidy : tidy T = true.

Lemma tidy_plain : forallb plain_chr T = true.
Proof.
  unfold tidy in T_tidy. apply andb_prop in T_tidy. destruct T_tidy as [H _].
  apply andb_prop in H. apply H.
Qed.

Lemma tidy_no_double : no_double true T = true.
Proof.
  unfold tidy in T_tidy. apply andb_prop in T_tidy. destruct T_tidy as [H _].
  apply andb_prop in H. apply H.
Qed.

Lemma tidy_last : isspace (last T SPACE) = false.
Proof.
  unfold tidy in T_tidy. apply andb_prop in T_tidy. destruct T_tidy as [_ H].
  now apply negb_true_iff in H.
Qed.

Lemma tidy_nonempty : T <> [].
Proof. intros E. pose proof tidy_last as H. rewrite E in H. discriminate H. Qed.

Lemma tidy_tail_plain : forallb plain_chr (45 :: 32 :: T) = true.
Proof. cbn [forallb]. now rewrite tidy_plain. Qed.

Lemma strip_frame (X : pystr) :
  exists X', strip (X ++ 45 :: 32 :: T) = X' ++ 45 :: 32 :: T /\ incl X' X.
Proof.
  unfold strip, strip_by.
  rewrite lstrip_by_app_keep by reflexivity.
  rewrite lstrip_by_snoc by reflexivity.
  exists (lstrip_by isspace X). split; [|apply lstrip_by_incl].
  rewrite <- app_assoc. cbn [app].
  change (45 :: 32 :: T) with ([45; 32] ++ T). rewrite app_assoc.
  apply rstrip_by_last with (d := SPACE); [apply tidy_nonempty | apply tidy_last].
Qed.

Lemma norm_frame (X : pystr) :
  exists X', normalize_spaces (X ++ 45 :: 32 :: T) = X' ++ 45 :: 32 :: T
             /\ forall c, In c X' -> In c X \/ c = SPACE.
Proof.
  rewrite normalize_spaces_eq, map_app.
  rewrite (plain_subst (45 :: 32 :: T) tidy_tail_plain).
  rewrite collapse_app_keep by reflexivity.
  cbn [collapse]. change (isspace 32) with true. cbv iota. cbn [app].
  rewrite (collapse_fixed T true tidy_no_double).
  2:{ intros c Hc. apply plain_space.
      pose proof tidy_plain as P. rewrite forallb_forall in P. now apply P. }
  change SPACE with 32.
  destruct (strip_frame (collapse isspace [32] false (map (subst_chr NBSP 32) X)))
    as (X' & E & Hi).
  exists X'. split; [exact E|]. intros c Hc.
  apply Hi in Hc. apply (collapse_chars _ false c) in Hc.
  destruct Hc as [Hc|Hc]; [|now right].
  apply in_map_iff in Hc. destruct Hc as (x & <- & Hx).
  unfold subst_chr. destruct (x =? NBSP); [now right | now left].
Qed.

Lemma safe_frame (X : pystr) :
  exists X', safe_filename (X ++ 45 :: 32 :: T) = X' ++ 45 :: 32 :: T
             /\ forall c, In c X' -> In c X \/ c = SPACE.
Proof.
  unfold safe_filename. rewrite safe_filename_sub, map_app.
  rewrite (plain_safe (45 :: 32 :: T) tidy_tail_plain).
  match goal with |- context [strip (?Y ++ _)] => destruct (strip_frame Y) as (X' & E & Hi) end.
  exists X'. split; [exact E|]. intros c Hc.
  apply Hi in Hc. apply in_map_iff in Hc. destruct Hc as (x & <- & Hx).
  destruct (cs_match false _ x); [now right | now left].
Qed.

Lemma halfwidth_frame (X : pystr) :
  to_halfwidth (X ++ 45 :: 32 :: T) = to_halfwidth X ++ 45 :: 32 :: T.
Proof.
  rewrite <- (plain_halfwidth (45 :: 32 :: T) tidy_tail_plain) at 2.
  unfold to_halfwidth. apply map_app.
Qed.

Lemma tag_frame (o : cset) (cl : list citem) (X : pystr) :
  (forall c, cs_match false (OneOf cl) c = true -> plain_chr c = false) ->
  exists X',
    re_sub (Pattern false (Seq Bol (Seq (Chr o) (Seq (Plus (NoneOf cl))
                (Seq (Chr (OneOf cl)) WS))))) [] (X ++ 45 :: 32 :: T)
    = X' ++ 45 :: 32 :: T
    /\ incl X' X.
Proof.
  intros Hcl. rewrite sub_anchored.
  destruct (match_here _ _) as [m|] eqn:M; [|exists X; split; [reflexivity | apply incl_refl]].
  apply lead_tag_match in M.
  destruct M as (head & c & ws & s' & E & He & Hc & Hws).
  rewrite E, He, skipn_exact.
  apply Hcl in Hc.
  pose proof tidy_plain as P. rewrite forallb_forall in P.
  apply app_eq_app in E. destruct E as (l & [[E1 E2]|[E1 E2]]).
  - exists l. split; [exact E2|]. rewrite E1. apply incl_appr, incl_refl.
  - destruct l as [|y l'].
    + exists []. cbn [app] in E2. split; [now symmetry | intros x []].
    + exfalso. cbn [app] in E2. injection E2 as <- E2.
      apply app_eq_app in E1. destruct E1 as (l2 & [[_ E3]|[_ E3]]).
      * assert (Hin : In c (45 :: l')).
        { rewrite E3. apply in_or_app. right. now left. }
        destruct Hin as [<-|Hin]; [discriminate Hc|].
        assert (Hin2 : In c (32 :: T)).
        { rewrite E2. apply in_or_app. now left. }
        destruct Hin2 as [<-|Hin2]; [discriminate Hc|].
        apply P in Hin2. congruence.
      * assert (Hin : In 45 (c :: ws)).
        { rewrite E3. apply in_or_app. right. now left. }
        destruct Hin as [->|Hin]; [discriminate Hc|].
        rewrite forallb_forall in Hws. apply Hws in Hin. discriminate Hin.
Qed.

Lemma basename_no_slash (p : pystr) : ~ In SLASH p -> basename p = p.
Proof.
  intros H. unfold basename. now rewrite rfind_chr_absent.
Qed.

(** The stem the parser works on, for a name that is a framed stem and an
    extension: the frame is kept, and what is before it comes from the
    half-width form of what was before it. *)
Lemma norm_stem_frame (X e : pystr) :
  ~ In SLASH X -> ~ In DOT e -> ~ In SLASH e ->
  exists X',
    norm_stem ((X ++ 45 :: 32 :: T) ++ DOT :: e) = X' ++ 45 :: 32 :: T
    /\ forall c, In c X' -> In c (to_halfwidth X) \/ c = SPACE.
Proof.
  intros HX Hd Hs.
  pose proof tidy_plain as P. rewrite forallb_forall in P.
  assert (Hb : ~ In SLASH (X ++ 45 :: 32 :: T)).
  { intros H. apply in_app_or in H. destruct H as [H|[H|[H|H]]];
      [contradiction | discriminate H | discriminate H |].
    apply P in H. discriminate H. }
  cbv beta zeta delta [norm_stem].
  rewrite basename_no_slash.
  2:{ intros H. apply in_app_or in H. destruct H as [H|[H|H]];
      [contradiction | discriminate H | contradiction]. }
  rewrite (splitext_stem_ext _ e 45 Hb) by
    (assumption || discriminate || (apply in_or_app; right; now left)).
  cbn [fst].
  change RE_LEAD_TAG with
    (Pattern false (Seq Bol (Seq (Chr (OneOf [IChr 91])) (Seq (Plus (NoneOf [IChr 93]))
                (Seq (Chr (OneOf [IChr 93])) WS))))).
  change RE_LEAD_TAG_CJK with
    (Pattern false (Seq Bol (Seq (Chr (OneOf [IChr LBRACK_CJK; IChr 91]))
       (Seq (Plus (NoneOf [IChr RBRACK_CJK; IChr 93]))
            (Seq (Chr (OneOf [IChr RBRACK_CJK; IChr 93])) WS))))).
  destruct (tag_frame (OneOf [IChr 91]) [IChr 93] X) as (X1 & -> & H1).
  { intros c Hc. cbn in Hc. rewrite orb_false_r in Hc. apply Z.eqb_eq in Hc. now subst c. }
  destruct (strip_frame X1) as (X2 & -> & H2).
  destruct (tag_frame (OneOf [IChr LBRACK_CJK; IChr 91]) [IChr RBRACK_CJK; IChr 93] X2)
    as (X3 & -> & H3).
  { intros c Hc. cbn in Hc. rewrite orb_false_r in Hc. apply orb_prop in Hc.
    destruct Hc as [Hc|Hc]; apply Z.eqb_eq in Hc; now subst c. }
  destruct (strip_frame X3) as (X4 & -> & H4).
  rewrite halfwidth_frame.
  destruct (norm_frame (to_halfwidth X4)) as (X5 & -> & H5).
  exists X5. split; [reflexivity|]. intros c Hc.
  apply H5 in Hc. destruct Hc as [Hc|Hc]; [left | now right].
  unfold to_halfwidth in *. apply in_map_iff in Hc. destruct Hc as (x & <- & Hx).
  apply in_map_iff. exists x. split; [reflexivity|]. auto.
Qed.

End Frames.

(** ** The digits [{n:02d}] writes *)

Lemma fmt_02d_table :
  forallb (fun k =>
             let s := fmt_02d (Z.of_nat k) in
             (Nat.eqb (length s) 2 || (Nat.eqb (length s) 3 && Nat.leb 100 k))
             && forallb (fun c => (48 <=? c) && (c <=? 57)) s
             && match int_digits (U := BasicUnicode) 0 s with
                | Some v => v =? Z.of_nat k
                | None => false
                end)
          (seq 0 1000) = true.
Proof. vm_compute. reflexivity. Qed.

Lemma digits_ascii (s : pystr) :
  forallb (fun c => (48 <=? c) && (c <=? 57)) s = true ->
  Forall (fun c => 48 <= c <= 57) s.
Proof.
  intros H. apply Forall_forall. intros c Hc.
  rewrite forallb_forall in H. apply H in Hc. lia.
Qed.

Section CanonicalTail.
Context {U : Unicode}.

Lemma fmt_02d_digits (n : Z) :
  0 <= n <= 999 ->
  (length (fmt_02d n) = 2%nat \/ (length (fmt_02d n) = 3%nat /\ 100 <= n))
  /\ Forall (fun c => 48 <= c <= 57) (fmt_02d n)
  /\ py_int (fmt_02d n) = Some n.
Proof.
  intros Hn. pose proof fmt_02d_table as H. rewrite forallb_forall in H.
  specialize (H (Z.to_nat n)). rewrite Z2Nat.id in H by lia.
  cbv zeta in H.
  assert (Hin : In (Z.to_nat n) (seq 0 1000)) by (apply in_seq; lia).
  apply H in Hin. apply andb_prop in Hin. destruct Hin as [Hin Hv].
  apply andb_prop in Hin. destruct Hin as [Hl Hd].
  apply digits_ascii in Hd.
  split.
  { apply orb_prop in Hl. destruct Hl as [Hl|Hl].
    - left. now apply Nat.eqb_eq.
    - right. apply andb_prop in Hl. destruct Hl as [Hl Hk].
      apply Nat.eqb_eq in Hl. apply Nat.leb_le in Hk. split; [assumption | lia]. }
  split; [exact Hd|].
  rewrite py_int_ascii.
  - destruct (int_digits 0 (fmt_02d n)) as [v|]; [|discriminate Hv].
    apply Z.eqb_eq in Hv. now subst v.
  - intros E. rewrite E in Hl. discriminate Hl.
  - exact Hd.
Qed.

Lemma ascii_digit_decimal (c : Z) : 48 <= c <= 57 -> isdecimal c = true.
Proof.
  intros H. unfold isdecimal. rewrite uni_decimal_ascii by lia.
  destruct (Z.leb_spec 48 c); [|lia]. destruct (Z.leb_spec c 57); [|lia]. reflexivity.
Qed.

Lemma ascii_digits_decimal (s : pystr) :
  Forall (fun c => 48 <= c <= 57) s -> forallb isdecimal s = true.
Proof.
  intros H. apply forallb_forall. intros c Hc.
  rewrite Forall_forall in H. now apply ascii_digit_decimal, H.
Qed.

Lemma ascii_not_decimal (c : Z) : 0 <= c < 48 \/ 57 < c < 128 -> isdecimal c = false.
Proof.
  intros H. unfold isdecimal. rewrite uni_decimal_ascii by lia.
  destruct (Z.leb_spec 48 c); [|reflexivity].
  destruct (Z.leb_spec c 57); [lia | reflexivity].
Qed.

End CanonicalTail.

(** ** The tail of a canonical name is tidy *)

Lemma last_In (l : pystr) (d : Z) : l <> [] -> In (last l d) l.
Proof.
  induction l as [|x l IH]; intros H; [congruence|].
  destruct l as [|y l]; [now left|]. right. apply IH. discriminate.
Qed.

Lemma last_app_r (a b : pystr) (d : Z) : b <> [] -> last (a ++ b) d = last b d.
Proof.
  intros Hb. induction a as [|x a IH]; [reflexivity|].
  cbn [app]. destruct (a ++ b) eqn:E.
  - apply app_eq_nil in E. destruct E. congruence.
  - exact IH.
Qed.

Lemma no_double_nospace (w post : pystr) :
  (forall c, In c w -> isspace c = false) -> w <> [] ->
  forall b, no_double b (w ++ post) = no_double false post.
Proof.
  induction w as [|x w IH]; intros Hw Hne b; [congruence|].
  cbn [app no_double]. rewrite (Hw x (or_introl eq_refl)).
  destruct w as [|y w]; [reflexivity|].
  apply IH; [|discriminate]. intros c Hc. apply Hw. now right.
Qed.

Lemma tidy_glue (w post : pystr) :
  w <> [] ->
  (forall c, In c w -> 48 <= c <= 57 \/ 65 <= c <= 90) ->
  forallb plain_chr post = true ->
  no_double false post = true ->
  (post = [] \/ isspace (last post SPACE) = false) ->
  tidy (w ++ post) = true.
Proof.
  intros Hne Hw Hp Hd Hl.
  assert (Hs : forall c, In c w -> isspace c = false).
  { intros c Hc. apply range_nonspace. apply Hw in Hc. lia. }
  unfold tidy. rewrite forallb_app, Hp, (no_double_nospace w post Hs Hne), Hd.
  rewrite !andb_true_r.
  apply andb_true_intro. split.
  - apply forallb_forall. intros c Hc. apply Hw in Hc. unfold plain_chr.
    repeat match goal with
           | |- context [?a <=? ?b] => destruct (Z.leb_spec a b)
           | |- context [?a =? ?b] => destruct (Z.eqb_spec a b)
           end; cbn; try reflexivity; lia.
  - apply negb_true_iff. destruct post as [|p0 post'].
    + rewrite app_nil_r. apply Hs. now apply last_In.
    + destruct Hl as [Hl|Hl]; [discriminate Hl|].
      rewrite last_app_r by discriminate. exact Hl.
Qed.

Section CanonicalStem.
Context {U : Unicode}.

(** What [build_new_video_name] writes after the series name and its
    separator is tidy. *)
Lemma canonical_tail_tidy (season episode : Z) (text : pystr) :
  0 <= season <= 999 -> 0 <= episode <= 999 ->
  tidy ((83 :: fmt_02d season ++ 69 :: fmt_02d episode)
        ++ match extract_resolution text with
           | [] => []
           | r => py " - " ++ r
           end) = true.
Proof.
  intros Hs He.
  destruct (fmt_02d_digits season Hs) as (_ & Ds & _).
  destruct (fmt_02d_digits episode He) as (_ & De & _).
  rewrite Forall_forall in Ds, De.
  apply tidy_glue.
  - discriminate.
  - intros c [<-|Hc]; [lia|]. apply in_app_or in Hc.
    destruct Hc as [Hc|[<-|Hc]]; [left; now apply Ds | lia | left; now apply De].
  - pose proof (extract_resolution_in text) as H. cbn [map In] in H.
    repeat (destruct H as [<-|H]; [reflexivity|]). destruct H.
  - pose proof (extract_resolution_in text) as H. cbn [map In] in H.
    repeat (destruct H as [<-|H]; [reflexivity|]). destruct H.
  - pose proof (extract_resolution_in text) as H. cbn [map In] in H.
    destruct H as [<-|H]; [now left|]. right.
    repeat (destruct H as [<-|H]; [reflexivity|]). destruct H.
Qed.

End CanonicalStem.

(** ** The marker of a canonical stem *)

Section ReadBack.
Context {U : Unicode}.

Lemma rx_digits_opt_intro ci extra :
  forall ds i pv s g,
    (length ds <= extra)%nat -> forallb isdecimal ds = true ->
    rx ci (RepOpt extra D) i pv ds s g g.
Proof.
  induction extra as [|k IH]; intros ds i pv s g Hl Hd; cbn [RepOpt].
  - destruct ds; [constructor | cbn in Hl; lia].
  - unfold Opt. destruct ds as [|x t].
    + apply rx_alt_r. constructor.
    + apply rx_alt_l. cbn [forallb] in Hd. apply andb_prop in Hd. destruct Hd as [Hx Ht].
      change (x :: t) with ([x] ++ t). apply rx_seq with (g1 := g).
      * apply rx_chr. now rewrite cs_digit.
      * apply IH; [cbn in Hl; lia | exact Ht].
Qed.

Lemma rx_digits_intro ci lo extra :
  forall ds i pv s g,
    digits lo (lo + extra) ds -> rx ci (Rep lo extra D) i pv ds s g g.
Proof.
  induction lo as [|lo IH]; intros ds i pv s g [Hl Hd]; cbn [Rep].
  - apply rx_digits_opt_intro; [cbn in Hl; lia | exact Hd].
  - destruct ds as [|x t]; [cbn in Hl; lia|].
    cbn [forallb] in Hd. apply andb_prop in Hd. destruct Hd as [Hx Ht].
    change (x :: t) with ([x] ++ t). apply rx_seq with (g1 := g).
    + apply rx_chr. now rewrite cs_digit.
    + apply IH. split; [cbn in Hl; cbn; lia | exact Ht].
Qed.

(** [S], one or two digits, [E], one to three digits: a marker. *)
Lemma canonical_marker (pre ds de post : pystr) :
  digits 1 2 ds -> digits 1 3 de ->
  marker SXXEYY_RE pre (83 :: ds ++ 69 :: de) post [(2%nat, de); (1%nat, ds)].
Proof.
  intros Hds Hde.
  unfold marker. cbn [body ignorecase SXXEYY_RE Seqs].
  change (Lit "S") with (Chr (CChr 83)). change (Lit "E") with (Chr (CChr 69)).
  change (83 :: ds ++ 69 :: de) with ([83] ++ ds ++ [] ++ [69] ++ de).
  eapply rx_seq; [apply rx_chr; reflexivity|].
  eapply rx_seq; [apply rx_group; apply (rx_digits_intro true 1 1); exact Hds|].
  eapply rx_seq; [apply rx_star; reflexivity|].
  eapply rx_seq; [apply rx_chr; reflexivity|].
  apply rx_group. apply (rx_digits_intro true 1 2). exact Hde.
Qed.

(** A name whose stem has an [SxxEyy] marker is read as tagged. *)
Lemma parse_marked (name : pystr) :
  has_marker SXXEYY_RE (norm_stem (strip name)) ->
  exists s e suf, parse_episode_from_name name = (Some s, Some e, true, suf).
Proof.
  intros Hm. apply has_marker_search in Hm.
  destruct (re_search SXXEYY_RE (norm_stem (strip name))) as [m|] eqn:E; [clear Hm | congruence].
  rewrite (parse_tagged name m (or_introl E)).
  apply re_search_marker in E.
  destruct E as (pre & w & post & _ & _ & _ & _ & Hmh & _).
  apply match_here_sxxeyy in Hmh.
  destruct Hmh as (w' & post' & ds & de & _ & _ & Hds & Hde & _ & ->).
  destruct (py_int_digits 1 2 ds (le_n 1) Hds) as (s & Es & _).
  destruct (py_int_digits 1 3 de (le_n 1) Hde) as (e & Ee & _).
  unfold tagged_result, group. cbn [m_groups cap_get Nat.eqb]. rewrite Es, Ee.
  eauto.
Qed.

(** A run of digits that ends where the text has no digit is read whole. *)
Lemma digit_run_unique (de de' post post' : pystr) :
  de ++ post = de' ++ post' ->
  forallb isdecimal de = true -> forallb isdecimal de' = true ->
  starts_with_digit post = false ->
  (length de' = 3%nat \/ starts_with_digit post' = false) ->
  (length de <= 3)%nat ->
  de' = de.
Proof.
  intros E Hd Hd' Hp Hmax Hl.
  apply app_eq_app in E. destruct E as (l & [[E1 E2]|[E1 E2]]).
  - destruct l as [|c l']; [now rewrite app_nil_r in E1|]. exfalso.
    assert (Hc : isdecimal c = true).
    { rewrite forallb_forall in Hd. apply Hd. rewrite E1. apply in_or_app. right. now left. }
    destruct Hmax as [H3|Hn].
    + rewrite E1, length_app in Hl. cbn [length] in Hl. lia.
    + rewrite E2 in Hn. cbn in Hn. congruence.
  - destruct l as [|c l']; [now rewrite app_nil_r in E1|]. exfalso.
    assert (Hc : isdecimal c = true).
    { rewrite forallb_forall in Hd'. apply Hd'. rewrite E1. apply in_or_app. right. now left. }
    rewrite E2 in Hp. cbn in Hp. congruence.
Qed.

(** After a text without digit, the first marker of a canonical tail is
    the one that was written, with all its digits. *)
Lemma search_canonical (pre ds de post : pystr) (m : rmatch) :
  (forall c, In c pre -> isdecimal c = false) ->
  length ds = 2%nat -> Forall (fun c => 48 <= c <= 57) ds ->
  (1 <= length de <= 3)%nat -> Forall (fun c => 48 <= c <= 57) de ->
  starts_with_digit post = false ->
  re_search SXXEYY_RE (pre ++ (83 :: ds ++ 69 :: de) ++ post) = Some m ->
  m_groups m = [(2%nat, de); (1%nat, ds)].
Proof.
  intros Hpre Lds Dds Lde Dde Hpost E.
  assert (Gds : digits 1 2 ds) by (split; [lia | now apply ascii_digits_decimal]).
  assert (Gde : digits 1 3 de) by (split; [lia | now apply ascii_digits_decimal]).
  apply re_search_marker in E.
  destruct E as (pre' & w & post' & Es & _ & _ & _ & Hmh & Hfirst).
  apply match_here_sxxeyy in Hmh.
  destruct Hmh as (w' & post'' & ds' & de' & Ew
                   & (sc & ws & ec & -> & Hsc & Hec & Hws) & Hds' & Hde' & Hmax & ->).
  cbn [m_groups].
  pose proof (Hfirst pre _ post _ eq_refl (canonical_marker pre ds de post Gds Gde)) as Hle.
  rewrite Ew in Es.
  assert (Hge : (length pre <= length pre')%nat).
  { destruct (Nat.le_gt_cases (length pre) (length pre')) as [|Hlt]; [assumption|]. exfalso.
    destruct ds' as [|d ds'']; [destruct Hds' as [Hl _]; cbn in Hl; lia|].
    assert (Hd : isdecimal d = true).
    { destruct Hds' as [_ Hd]. cbn [forallb] in Hd. now apply andb_prop in Hd. }
    assert (N1 : nth_error (pre ++ (83 :: ds ++ 69 :: de) ++ post) (S (length pre')) = Some d).
    { rewrite Es. rewrite nth_error_app2 by lia.
      replace (S (length pre') - length pre')%nat with 1%nat by lia. reflexivity. }
    destruct (Nat.eq_dec (S (length pre')) (length pre)) as [Heq|Hne].
    - rewrite nth_error_app2 in N1 by lia.
      replace (S (length pre') - length pre)%nat with 0%nat in N1 by lia.
      cbn in N1. injection N1 as <-.
      rewrite ascii_not_decimal in Hd by lia. discriminate Hd.
    - rewrite nth_error_app1 in N1 by lia. apply nth_error_In in N1.
      apply Hpre in N1. congruence. }
  destruct (app_eq_length _ _ _ _ Es) as [_ Et]; [lia|].
  clear Es Hfirst Hle Hge.
  destruct ds as [|a [|b [|? ?]]]; try discriminate Lds.
  apply Forall_cons_iff in Dds. destruct Dds as [Ha Dds].
  apply Forall_cons_iff in Dds. destruct Dds as [Hb _].
  cbn [app] in Et. injection Et as Esc Et.
  rewrite <- !app_assoc in Et. cbn [app] in Et.
  destruct Hds' as [Lds' Dds'].
  destruct ds' as [|x [|y [|? ?]]]; cbn [length] in Lds'; try lia.
  - (* one digit after S: the next character is neither a space nor an E *)
    exfalso. cbn [app] in Et. injection Et as _ Et.
    destruct ws as [|z ws'].
    + cbn [app] in Et. injection Et as <- _.
      assert (101 = b) by (apply ci_fold_digit; [assumption | now rewrite Hec]).
      lia.
    + cbn [app] in Et. injection Et as <- _.
      cbn [forallb] in Hws. apply andb_prop in Hws. destruct Hws as [Hz _].
      rewrite range_nonspace in Hz by lia. discriminate Hz.
  - cbn [app] in Et. injection Et as <- <- Et.
    destruct ws as [|z ws'].
    + cbn [app] in Et. injection Et as _ Et.
      rewrite (digit_run_unique de de' post post'' Et); try reflexivity; try assumption.
      * now apply ascii_digits_decimal.
      * apply Hde'.
      * lia.
    + exfalso. cbn [app] in Et. injection Et as <- _.
      cbn [forallb] in Hws. apply andb_prop in Hws. destruct Hws as [Hz _].
      discriminate Hz.
Qed.

End ReadBack.

(** ** The canonical name read back *)

Lemma rstrip_by_subset (f : Z -> bool) (c : Z) (s : pystr) :
  In c (rstrip_by f s) -> In c s.
Proof.
  unfold rstrip_by. intros H. apply in_rev in H. apply lstrip_by_subset in H.
  now apply in_rev in H.
Qed.

Section CanonicalRead.
Context {U : Unicode}.

(** The stem the parser reads from a canonical name: what the series name
    leaves, the separator, the marker that was written and the
    resolution. *)
Lemma canonical_stem (series old_name suffix : pystr) (season episode : Z) :
  0 <= season <= 999 -> 0 <= episode <= 999 ->
  snd (splitext old_name) <> [] ->
  exists X post,
    norm_stem (strip (build_new_video_name series season episode old_name suffix))
    = (X ++ [45; 32]) ++ (83 :: fmt_02d season ++ 69 :: fmt_02d episode) ++ post
    /\ starts_with_digit post = false
    /\ forall c, In c X -> In c (to_halfwidth series) \/ c = SPACE.
Proof.
  intros Hs He Hext.
  destruct (splitext_ext_shape old_name _ eq_refl Hext) as (e & Ee & Hd & Hsl).
  pose proof (canonical_tail_tidy season episode (old_name ++ py " " ++ suffix) Hs He) as HT.
  set (post := match extract_resolution (old_name ++ py " " ++ suffix) with
               | [] => []
               | r => py " - " ++ r
               end) in *.
  set (T := (83 :: fmt_02d season ++ 69 :: fmt_02d episode) ++ post) in *.
  assert (Eb : build_new_video_name series season episode old_name suffix
               = safe_filename (normalize_spaces ((series ++ [32]) ++ 45 :: 32 :: T))
                 ++ DOT :: e).
  { unfold build_new_video_name. rewrite Ee. f_equal. f_equal. f_equal.
    unfold T, post. destruct (extract_resolution _);
      repeat (rewrite <- app_assoc || cbn [app]); [now rewrite app_nil_r | reflexivity]. }
  destruct (norm_frame T HT (series ++ [32])) as (X1 & E1 & H1).
  destruct (safe_frame T HT X1) as (X2 & E2 & H2).
  rewrite Eb, E1.
  assert (Hsl2 : ~ In SLASH X2).
  { intros H. apply (safe_filename_no_slash (X1 ++ 45 :: 32 :: T)).
    rewrite E2. apply in_or_app. now left. }
  rewrite E2.
  assert (Est : strip ((X2 ++ 45 :: 32 :: T) ++ DOT :: e)
                = (lstrip_by isspace X2 ++ 45 :: 32 :: T) ++ DOT :: rstrip_by isspace e).
  { unfold strip, strip_by. rewrite <- app_assoc. cbn [app].
    rewrite lstrip_by_app_keep by reflexivity.
    rewrite lstrip_by_snoc by reflexivity.
    replace ((lstrip_by isspace X2 ++ [45]) ++ 32 :: T ++ DOT :: e)
      with ((lstrip_by isspace X2 ++ 45 :: 32 :: T) ++ DOT :: e)
      by (rewrite <- !app_assoc; reflexivity).
    now rewrite rstrip_by_app_keep by reflexivity. }
  rewrite Est.
  destruct (norm_stem_frame T HT (lstrip_by isspace X2) (rstrip_by isspace e))
    as (X' & EX & HX).
  { intros H. apply lstrip_by_subset in H. contradiction. }
  { intros H. apply rstrip_by_subset in H. contradiction. }
  { intros H. apply rstrip_by_subset in H. contradiction. }
  exists X', post. split; [|split].
  - rewrite EX. unfold T. rewrite <- app_assoc. reflexivity.
  - unfold post. destruct (extract_resolution _); [reflexivity|].
    cbn. apply ascii_not_decimal. lia.
  - intros c Hc. apply HX in Hc. destruct Hc as [Hc|Hc]; [|now right].
    unfold to_halfwidth in Hc. apply in_map_iff in Hc. destruct Hc as (x & Ex & Hx).
    apply lstrip_by_subset in Hx. apply H2 in Hx.
    assert (Hx' : In x series \/ x = SPACE).
    { destruct Hx as [Hx|Hx]; [|now right]. apply H1 in Hx.
      destruct Hx as [Hx|Hx]; [|now right].
      apply in_app_or in Hx. destruct Hx as [Hx|[<-|[]]]; [now left | now right]. }
    destruct Hx' as [Hx'| ->].
    + left. unfold to_halfwidth. apply in_map_iff. exists x. split; [exact Ex | exact Hx'].
    + right. now rewrite <- Ex.
Qed.

(** X29: a canonical name is read back as tagged.  For a season of at
    most two digits, an episode of at most three and an original name
    with an extension, [parse_episode_from_name] answers a season and an
    episode for the name [build_new_video_name] wrote, with the
    already-tagged flag set; and when the series name holds no decimal
    digit (in its half-width form), they are the season and the episode
    that were written. *)
Theorem canonical_name_reads_back
    (series old_name suffix : pystr) (season episode : Z) :
  0 <= season <= 99 -> 0 <= episode <= 999 ->
  snd (splitext old_name) <> [] ->
  let out := build_new_video_name series season episode old_name suffix in
  (exists s e suf, parse_episode_from_name out = (Some s, Some e, true, suf))
  /\ ((forall c, In c (to_halfwidth series) -> isdecimal c = false) ->
      exists suf,
        parse_episode_from_name out = (Some season, Some episode, true, suf)).
Proof.
  intros Hs He Hext out.
  destruct (canonical_stem series old_name suffix season episode) as (X & post & Est & Hpost & HX);
    [lia | lia | assumption |]. fold out in Est.
  destruct (fmt_02d_digits season) as (Ls & Ds & Is); [lia|].
  destruct (fmt_02d_digits episode He) as (Le & De & Ie).
  assert (Ls2 : length (fmt_02d season) = 2%nat) by (destruct Ls as [Ls|[_ Ls]]; [exact Ls | lia]).
  assert (Le3 : (1 <= length (fmt_02d episode) <= 3)%nat) by (destruct Le as [Le|[Le _]]; lia).
  assert (Hm : has_marker SXXEYY_RE (norm_stem (strip out))).
  { rewrite Est. exists (X ++ [45; 32]), (83 :: fmt_02d season ++ 69 :: fmt_02d episode), post,
      [(2%nat, fmt_02d episode); (1%nat, fmt_02d season)].
    split; [reflexivity|]. apply canonical_marker.
    - split; [lia | now apply ascii_digits_decimal].
    - split; [lia | now apply ascii_digits_decimal]. }
  split; [now apply parse_marked|].
  intros Hser. apply has_marker_search in Hm.
  destruct (re_search SXXEYY_RE (norm_stem (strip out))) as [m|] eqn:E; [clear Hm | congruence].
  rewrite (parse_tagged out m (or_introl E)).
  rewrite Est in E. apply search_canonical in E; try assumption.
  - unfold tagged_result, group. rewrite E. cbn [cap_get Nat.eqb]. rewrite Is, Ie. eauto.
  - intros c Hc. apply in_app_or in Hc. destruct Hc as [Hc|[<-|[<-|[]]]].
    + apply HX in Hc. destruct Hc as [Hc| ->]; [now apply Hser|].
      apply ascii_not_decimal. unfold SPACE. lia.
    + apply ascii_not_decimal. lia.
    + apply ascii_not_decimal. lia.
Qed.

End CanonicalRead.

Lemma canonical_name_reads_back_witness :
  exists suf,
    parse_episode_from_name (U := BasicUnicode)
      (build_new_video_name (U := BasicUnicode) (py "Mr. Robot") 1 2
         (py "robot.102.1080p.mkv") [])
    = (Some 1, Some 2, true, suf).
Proof.
  refine (proj2 (canonical_name_reads_back (U := BasicUnicode) (py "Mr. Robot")
                   (py "robot.102.1080p.mkv") [] 1 2 _ _ _) _).
  - lia.
  - lia.
  - vm_compute. discriminate.
  - intros c Hc. vm_compute in Hc.
    repeat (destruct Hc as [<-|Hc]; [reflexivity|]). destruct Hc.
Defined.

(** The bounds are needed: a series name with a marker of its own is read
    first; a season of three digits leaves no marker; of an episode of
    four digits three are read; without an extension the stem is cut at
    a dot of the series name. *)
Example canonical_name_limits :
  parse_episode_from_name (U := BasicUnicode)
    (build_new_video_name (U := BasicUnicode) (py "S01E05 Recap") 2 3 (py "a.mkv") [])
  = (Some 1, Some 5, true, [])
  /\ parse_episode_from_name (U := BasicUnicode)
       (build_new_video_name (U := BasicUnicode) (py "Show") 100 2 (py "a.mkv") [])
     = (None, None, false, [])
  /\ parse_episode_from_name (U := BasicUnicode)
       (build_new_video_name (U := BasicUnicode) (py "Show") 1 1000 (py "a.mkv") [])
     = (Some 1, Some 100, true, [])
  /\ parse_episode_from_name (U := BasicUnicode)
       (build_new_video_name (U := BasicUnicode) (py "Mr. Robot") 1 2 (py "robot") [])
     = (None, None, false, []).
Proof. vm_compute. repeat split; reflexivity. Qed.

